(** * Impala hash-based aggregation and join core: a shallow embedding

    The development follows four source files of the back end:
    - [be/src/exec/hash-table.cc]: [HashTableCtx] (seeds, key evaluation,
      equality), [ExprValuesCache] and [HashTable] (resize, close);
    - [be/src/exec/partitioned-aggregation-node.cc]: partitions, spilling,
      repartitioning and the streaming pre-aggregation;
    - [be/src/exec/partitioned-hash-join-node.cc]: partitions, spilling and
      repartitioning of the join;
    - [be/src/exprs/decimal-operators-ir.cc]: scaling and rounding of
      decimals.

    C++ integers are modelled as [Z] with the wrap-around written out,
    [double] as binary64 primitive floats, vectors as lists that are read
    and updated by index, and calls into collaborators that are not part of
    these files (block manager, tuple streams, expression evaluation) as
    answers drawn from an explicit oracle. *)

From Stdlib Require Import ZArith Lia List Bool.
From Stdlib Require Import Floats.PrimFloat Numbers.Cyclic.Int63.Uint63.
From stdpp Require Import base tactics option list.

Local Open Scope Z_scope.

(** * Part I: the embedding *)

(** ** Machine integers *)

Definition uint32 (z : Z) : Z := z mod 2 ^ 32.
Definition uint64 (z : Z) : Z := z mod 2 ^ 64.
Definition int64 (z : Z) : Z := (z + 2 ^ 63) mod 2 ^ 64 - 2 ^ 63.

(** ** Collaborators, statuses and the execution monad *)

Module Runtime.

(** What a collaborator answers when asked for memory or I/O: it grants the
    request, it declines (no memory, no buffer), or it reports an error. *)
Inductive Answer := Yes | No | Fail.

(** The part of the process outside the operator: the answers its
    collaborators are going to give, call by call, the bytes the operator's
    block-manager client has consumed, the [HASH_TABLE_TOTAL_BYTES] gauge of
    [ImpaladMetrics], the number of bucket arrays handed back to [free], and
    the query-wide flag set by [RuntimeState::SetMemLimitExceeded]. *)
Record World := mkWorld {
  answers : nat -> Answer;
  calls : nat;
  consumed : Z;
  HASH_TABLE_TOTAL_BYTES : Z;
  freed_arrays : Z;
  mem_limit_exceeded : bool;
}.

Definition ask (w : World) : Answer * World :=
  (answers w (calls w),
   mkWorld (answers w) (S (calls w)) (consumed w) (HASH_TABLE_TOTAL_BYTES w)
           (freed_arrays w) (mem_limit_exceeded w)).

Definition add_consumed (d : Z) (w : World) : World :=
  mkWorld (answers w) (calls w) (consumed w + d) (HASH_TABLE_TOTAL_BYTES w)
          (freed_arrays w) (mem_limit_exceeded w).

Definition add_metric (d : Z) (w : World) : World :=
  mkWorld (answers w) (calls w) (consumed w) (HASH_TABLE_TOTAL_BYTES w + d)
          (freed_arrays w) (mem_limit_exceeded w).

Definition free_array (w : World) : World :=
  mkWorld (answers w) (calls w) (consumed w) (HASH_TABLE_TOTAL_BYTES w)
          (freed_arrays w + 1) (mem_limit_exceeded w).

Definition SetMemLimitExceeded (w : World) : World :=
  mkWorld (answers w) (calls w) (consumed w) (HASH_TABLE_TOTAL_BYTES w)
          (freed_arrays w) true.

(** [BufferedBlockMgr::ConsumeMemory(client, size)]: the bytes are charged
    to the client when the block manager grants them. *)
Definition ConsumeMemory (size : Z) (w : World) : bool * World :=
  match ask w with
  | (Yes, w') => (true, add_consumed size w')
  | (_, w') => (false, w')
  end.

(** [BufferedBlockMgr::ReleaseMemory(client, size)]. *)
Definition ReleaseMemory (size : Z) (w : World) : World := add_consumed (- size) w.

(** The statuses the operators return. *)
Inductive Detail :=
| PreaggHashTableInit        (* "Failed to initialize hash table in preaggregation." *)
| RepartitionNoReduction     (* "Repartitioning did not reduce the size of a spilled partition." *)
| PrepareForReadFailed       (* PREPARE_FOR_READ_FAILED_ERROR_MSG *)
| IntermediateTupleAlloc.    (* "Failed to allocate $1 bytes for intermediate tuple." *)

Inductive Status :=
| OK
| MemLimitExceeded (detail : Detail)  (* Status::MemLimitExceeded() with AddDetail *)
| MemLimitTooLowError                 (* block_mgr()->MemLimitTooLowError(client, id) *)
| MaxPartitionDepth                   (* ..._MAX_PARTITION_DEPTH through SetMemLimitExceeded *)
| CollaboratorError.                  (* a non-OK status handed up by a collaborator *)

Definition ok (s : Status) : bool := match s with OK => true | _ => false end.

(** A computation over a state [St] that either yields a value or stops with
    a status, as [RETURN_IF_ERROR] does; the state reached so far is kept in
    both cases. *)
Definition Exec (St A : Type) : Type := St -> (Status + A) * St.

Definition ret {St A} (a : A) : Exec St A := fun st => (inr a, st).
Definition raise {St A} (s : Status) : Exec St A := fun st => (inl s, st).
Definition bind {St A B} (c : Exec St A) (k : A -> Exec St B) : Exec St B :=
  fun st => match c st with
            | (inr a, st') => k a st'
            | (inl s, st') => (inl s, st')
            end.
Definition get {St} : Exec St St := fun st => (inr st, st).
Definition put {St} (st : St) : Exec St unit := fun _ => (inr tt, st).
Definition modify {St} (f : St -> St) : Exec St unit := fun st => (inr tt, f st).

(** The status a [Status]-returning function hands to its caller. *)
Definition status_of {St} (r : (Status + unit) * St) : Status :=
  match fst r with inl s => s | inr _ => OK end.

(** [RETURN_IF_ERROR(s)] for a status already computed. *)
Definition check {St} (s : Status) : Exec St unit :=
  if ok s then ret tt else raise s.

End Runtime.

Notation "x <- c ;; k" := (Runtime.bind c (fun x => k))
  (at level 100, c at next level, right associativity).
Notation "c ;;; k" := (Runtime.bind c (fun _ => k))
  (at level 100, right associativity).

(** ** [HashTableCtx]: the per-level seeds (hash-table.cc, lines 44-113) *)

Module Seeds.

(** Random primes to multiply the seed with. *)
Definition SEED_PRIMES : list Z :=
  [ 1; 1431655781; 1183186591; 622729787; 472882027; 338294347; 275604541;
    41161739; 29999999; 27475109; 611603; 16313357; 11380003; 21261403;
    33393119; 101; 71043403 ].

(** Modelled from the spec: the constant [MAX_PARTITION_DEPTH] is declared
    in the operators' headers, which are not part of the sources at hand;
    the spec gives [MAX_DEPTH] as 16, and the constructor's
    [DCHECK_LT(max_levels, sizeof(SEED_PRIMES) / sizeof(SEED_PRIMES[0]))]
    bounds every [max_levels] by the same 16. *)
Definition MAX_PARTITION_DEPTH : Z := 16.

(** One iteration of the constructor's loop:
    [seeds_[i] = seeds_[i - 1] * SEED_PRIMES[i]] on [uint32_t]. *)
Definition seeds_loop_body (seeds_ : list Z) (i : nat) : list Z :=
  <[ i := uint32 (seeds_ !!! (i - 1)%nat * SEED_PRIMES !!! i) ]> seeds_.

(** [seeds_.resize(max_levels + 1); seeds_[0] = initial_seed;
     for (int i = 1; i <= max_levels; ++i) ...]. The [int32_t] argument
    [initial_seed] is converted to [uint32_t] by the assignment. *)
Definition HashTableCtx_seeds (initial_seed max_levels : Z) : list Z :=
  foldl seeds_loop_body
        (<[ 0%nat := uint32 initial_seed ]> (replicate (S (Z.to_nat max_levels)) 0))
        (seq 1 (Z.to_nat max_levels)).

(** The product of the first [k] multipliers, reduced at each step. *)
Fixpoint seed_factor (k : nat) : Z :=
  match k with
  | O => 1
  | S k' => uint32 (seed_factor k' * SEED_PRIMES !!! k)
  end.

(** All pairs of levels [i < j <= 16] have factors that differ modulo [2^9]. *)
Definition factors_differ_mod (m : nat) : bool :=
  forallb (fun i =>
    forallb (fun j =>
      negb ((seed_factor j - seed_factor i) mod 2 ^ Z.of_nat (S m) =? 0))
      (seq (S i) (16 - i)))
    (seq 0 17).

End Seeds.

(** ** [HashTableCtx]: evaluated keys, [EvalRow], hashing and [Equals]
       (hash-table.cc, lines 65-77 and 141-232) *)

Module HashCtx.

(** [HashUtil::FNV_SEED] comes from [util/hash-util.h], which is not among
    the sources; it is a parameter of [NULL_VALUE] below. Every [int64_t]
    entry of [NULL_VALUE] is little-endian in memory. *)
Definition int64_bytes (v : Z) : list Z :=
  map (fun k => Z.land (Z.shiftr v (8 * Z.of_nat k)) 255) (seq 0 8).

(** [static int64_t NULL_VALUE[] = { HashUtil::FNV_SEED, ... }]: sixteen
    entries, 128 bytes. *)
Definition NULL_VALUE (FNV_SEED : Z) : list Z :=
  concat (replicate 16 (int64_bytes FNV_SEED)).

Section Ctx.

(** Rows and column types belong to the expression subsystem. *)
Variable TupleRow : Type.
Variable ColumnType : Type.
Variable GetSlotSize : ColumnType -> nat.
Variable FNV_SEED : Z.

(** [RawValue::Eq(loc, val, type)] of [runtime/raw-value], on the bytes at
    [loc] and the value [val]. *)
Variable RawValue_Eq : ColumnType -> list Z -> list Z -> bool.

(** [HashUtil::Hash] and [HashUtil::MurmurHash2_64] (data, seed). *)
Variable HashUtil_Hash : list Z -> Z -> Z.
Variable HashUtil_MurmurHash2_64 : list Z -> Z -> Z.

(** An [ExprContext]: [GetValue(row)] yields [NULL] ([None]) or the bytes of
    the value; [root()->type()] is the column type. *)
Record ExprContext := {
  GetValue : TupleRow -> option (list Z);
  type : ColumnType;
}.

(** The current row of the [ExprValuesCache]. *)
Record ExprValuesCache := {
  expr_values_offsets_ : list nat;
  var_result_offset_ : Z;
  expr_values_bytes_per_row_ : nat;
  cur_expr_values_ : list Z;          (* packed value bytes of the row *)
  cur_expr_values_null_ : list bool;  (* one flag per key *)
}.

Record HashTableCtx := {
  build_expr_ctxs_ : list ExprContext;
  probe_expr_ctxs_ : list ExprContext;
  stores_nulls_ : bool;
  finds_nulls_ : list bool;
  level_ : nat;
  seeds_ : list Z;
  expr_values_cache_ : ExprValuesCache;
}.

Definition set_cur_expr_values (c : ExprValuesCache) (v : list Z) : ExprValuesCache :=
  {| expr_values_offsets_ := expr_values_offsets_ c;
     var_result_offset_ := var_result_offset_ c;
     expr_values_bytes_per_row_ := expr_values_bytes_per_row_ c;
     cur_expr_values_ := v;
     cur_expr_values_null_ := cur_expr_values_null_ c |}.

Definition set_cur_expr_values_null (c : ExprValuesCache) (n : list bool) : ExprValuesCache :=
  {| expr_values_offsets_ := expr_values_offsets_ c;
     var_result_offset_ := var_result_offset_ c;
     expr_values_bytes_per_row_ := expr_values_bytes_per_row_ c;
     cur_expr_values_ := cur_expr_values_ c;
     cur_expr_values_null_ := n |}.

(** [ExprValuePtr(i)] is [cur_expr_values_ + expr_values_offsets_[i]];
    reading [n] bytes there: *)
Definition read_at (buf : list Z) (off n : nat) : list Z := take n (drop off buf).

(** writing the bytes [bs] there: *)
Definition write_at (buf : list Z) (off : nat) (bs : list Z) : list Z :=
  take off buf ++ bs ++ drop (off + length bs) buf.

Definition ExprValue (c : ExprValuesCache) (i : nat) (ty : ColumnType) : list Z :=
  read_at (cur_expr_values_ c) (expr_values_offsets_ c !!! i) (GetSlotSize ty).

(** Modelled from the spec: [RawValue::Write(val, loc, type, NULL)] is part
    of [runtime/raw-value], not of the sources at hand; with a null pool it
    copies the slot of the column type from [val] to [loc] ("the bytes get
    copied directly", hash-table.cc line 67). *)
Definition RawValue_Write (val : list Z) (buf : list Z) (off : nat) (ty : ColumnType) : list Z :=
  write_at buf off (take (GetSlotSize ty) val).

(** The loop of [EvalRow(row, ctxs)] from index [i] on. The result is
    [has_null] and the cache; the early [return true] leaves the cache as
    it is at that point. *)
Fixpoint EvalRow_loop (stores_nulls : bool) (build_types : list ColumnType)
    (row : TupleRow) (ctxs : list ExprContext) (i : nat)
    (has_null : bool) (c : ExprValuesCache) : bool * ExprValuesCache :=
  match ctxs with
  | [] => (has_null, c)
  | e :: rest =>
      let off := expr_values_offsets_ c !!! i in
      match build_types !! i with
      | None => (has_null, c)   (* not reached: the vectors have one size *)
      | Some ty =>
          match GetValue e row with
          | None =>
              if negb stores_nulls then (true, c)
              else
                let c1 := set_cur_expr_values_null c
                            (<[ i := true ]> (cur_expr_values_null_ c)) in
                let c2 := set_cur_expr_values c1
                            (RawValue_Write (NULL_VALUE FNV_SEED) (cur_expr_values_ c1) off ty) in
                EvalRow_loop stores_nulls build_types row rest (S i) true c2
          | Some val =>
              let c1 := set_cur_expr_values_null c
                          (<[ i := false ]> (cur_expr_values_null_ c)) in
              let c2 := set_cur_expr_values c1
                          (RawValue_Write val (cur_expr_values_ c1) off ty) in
              EvalRow_loop stores_nulls build_types row rest (S i) has_null c2
          end
      end
  end.

(** [bool HashTableCtx::EvalRow(TupleRow* row, const vector<ExprContext*>& ctxs)]. *)
Definition EvalRow (ctx : HashTableCtx) (row : TupleRow) (ctxs : list ExprContext)
  : bool * ExprValuesCache :=
  EvalRow_loop (stores_nulls_ ctx) (map type (build_expr_ctxs_ ctx)) row ctxs 0 false
               (expr_values_cache_ ctx).

(** [uint32_t HashTableCtx::Hash(input, len, hash)]: CRC at level 0, murmur
    at the other levels. *)
Definition Hash (ctx : HashTableCtx) (input : list Z) (hash : Z) : Z :=
  if Nat.eqb (level_ ctx) 0 then HashUtil_Hash input hash
  else uint32 (HashUtil_MurmurHash2_64 input hash).

(** The loop of [Equals<FORCE_NULL_EQUALITY>(build_row)] from index [i] on. *)
Fixpoint Equals_loop (FORCE_NULL_EQUALITY : bool) (ctx : HashTableCtx)
    (build_row : TupleRow) (ctxs : list ExprContext) (i : nat) : bool :=
  match ctxs with
  | [] => true
  | e :: rest =>
      let exprs_nullness := cur_expr_values_null_ (expr_values_cache_ ctx) in
      match GetValue e build_row with
      | None =>
          if negb (FORCE_NULL_EQUALITY || finds_nulls_ ctx !!! i) then false
          else if negb (exprs_nullness !!! i) then false
          else Equals_loop FORCE_NULL_EQUALITY ctx build_row rest (S i)
      | Some val =>
          if (exprs_nullness !!! i : bool) then false
          else if negb (RawValue_Eq (type e) (ExprValue (expr_values_cache_ ctx) i (type e)) val)
               then false
          else Equals_loop FORCE_NULL_EQUALITY ctx build_row rest (S i)
      end
  end.

(** [template<bool FORCE_NULL_EQUALITY> bool HashTableCtx::Equals(TupleRow* build_row)]. *)
Definition Equals (FORCE_NULL_EQUALITY : bool) (ctx : HashTableCtx) (build_row : TupleRow) : bool :=
  Equals_loop FORCE_NULL_EQUALITY ctx build_row (build_expr_ctxs_ ctx) 0.

End Ctx.

Arguments GetValue {TupleRow ColumnType} _ _.
Arguments type {TupleRow ColumnType} _.
Arguments build_expr_ctxs_ {TupleRow ColumnType} _.
Arguments probe_expr_ctxs_ {TupleRow ColumnType} _.
Arguments stores_nulls_ {TupleRow ColumnType} _.
Arguments finds_nulls_ {TupleRow ColumnType} _.
Arguments level_ {TupleRow ColumnType} _.
Arguments seeds_ {TupleRow ColumnType} _.
Arguments expr_values_cache_ {TupleRow ColumnType} _.
Arguments ExprValue {ColumnType} GetSlotSize c i ty.
Arguments RawValue_Write {ColumnType} GetSlotSize val buf off ty.
Arguments EvalRow_loop {TupleRow ColumnType} GetSlotSize FNV_SEED.
Arguments EvalRow {TupleRow ColumnType} GetSlotSize FNV_SEED.
Arguments Hash {TupleRow ColumnType} HashUtil_Hash HashUtil_MurmurHash2_64.
Arguments Equals_loop {TupleRow ColumnType} GetSlotSize RawValue_Eq.
Arguments Equals {TupleRow ColumnType} GetSlotSize RawValue_Eq.

End HashCtx.

(** ** [HashTableCtx]: the hash of the current row
       (hash-table.cc, lines 148-158 and 182-208) *)

Module HashRow.
Import HashCtx.

Section Row.

Variable TupleRow : Type.
Variable ColumnType : Type.
Variable HashUtil_Hash : list Z -> Z -> Z.
Variable HashUtil_MurmurHash2_64 : list Z -> Z -> Z.

(** [type().type == TYPE_STRING || type().type == TYPE_VARCHAR]. *)
Variable is_string : ColumnType -> bool.

(** [sizeof(StringValue)], and the bytes that the [StringValue] stored at
    a slot points to: [len] bytes at [ptr]. *)
Variable sizeof_StringValue : nat.
Variable StringValue_bytes : list Z -> list Z.

Let Hash := Hash HashUtil_Hash HashUtil_MurmurHash2_64 (TupleRow := TupleRow)
                 (ColumnType := ColumnType).

(** The loop of [HashVariableLenRow] from index [i] on. *)
Fixpoint HashVariableLenRow_loop (ctx : HashTableCtx TupleRow ColumnType)
    (ctxs : list (ExprContext TupleRow ColumnType)) (i : nat) (hash : Z) : Z :=
  match ctxs with
  | [] => hash
  | e :: rest =>
      if negb (is_string (type e))
      then HashVariableLenRow_loop ctx rest (S i) hash
      else
        let c := expr_values_cache_ ctx in
        let loc := read_at (cur_expr_values_ c) (expr_values_offsets_ c !!! i)
                           sizeof_StringValue in
        if (cur_expr_values_null_ c !!! i : bool)
        then HashVariableLenRow_loop ctx rest (S i) (Hash ctx loc hash)
        else HashVariableLenRow_loop ctx rest (S i) (Hash ctx (StringValue_bytes loc) hash)
  end.

(** [uint32_t HashTableCtx::HashVariableLenRow() const]. *)
Definition HashVariableLenRow (ctx : HashTableCtx TupleRow ColumnType) : Z :=
  let c := expr_values_cache_ ctx in
  let hash := seeds_ ctx !!! level_ ctx in
  let var_result_offset := var_result_offset_ c in
  let hash := if negb (var_result_offset =? 0)
              then Hash ctx (take (Z.to_nat var_result_offset) (cur_expr_values_ c)) hash
              else hash in
  HashVariableLenRow_loop ctx (build_expr_ctxs_ ctx) 0 hash.

(** [uint32_t HashTableCtx::HashCurrentRow() const]. *)
Definition HashCurrentRow (ctx : HashTableCtx TupleRow ColumnType) : Z :=
  let c := expr_values_cache_ ctx in
  if var_result_offset_ c =? -1
  then Hash ctx (take (expr_values_bytes_per_row_ c) (cur_expr_values_ c))
            (seeds_ ctx !!! level_ ctx)
  else HashVariableLenRow ctx.

End Row.

Arguments HashVariableLenRow_loop {TupleRow ColumnType} _ _ _ _ _.
Arguments HashVariableLenRow {TupleRow ColumnType} _ _ _ _ _.
Arguments HashCurrentRow {TupleRow ColumnType} _ _ _ _ _.

End HashRow.

(** ** [ExprValuesCache] and [HashTableCtx]: release of the storage
       (hash-table.cc, lines 135-139 and 234-310) *)

Module CtxStorage.

(** The [MemTracker] of the node: the bytes it has been charged. *)
Record MemTracker := mkMemTracker { consumption : Z }.

Definition Release (bytes : Z) (t : MemTracker) : MemTracker :=
  mkMemTracker (consumption t - bytes).

(** The arrays of the cache and the iterators into them; a null pointer is
    [None], an iterator is kept as its offset into the array. *)
Record ExprValuesCache := mkCache {
  capacity_ : Z;
  num_exprs_ : Z;
  expr_values_bytes_per_row_ : Z;
  cur_expr_values_ : option Z;
  cur_expr_values_null_ : option Z;
  cur_expr_values_hash_ : option Z;
  cur_expr_values_hash_end_ : option Z;
  expr_values_array_ : option (list Z);
  expr_values_null_array_ : option (list bool);
  expr_values_hash_array_ : option (list Z);
  null_bitmap_ : list bool;
}.

Section Storage.

(** [Bitmap::MemUsage(num_bits)] of [util/bitmap.h]. *)
Variable Bitmap_MemUsage : Z -> Z.

(** [int ExprValuesCache::MemUsage(capacity, expr_values_bytes_per_row, num_exprs)]. *)
Definition MemUsage (capacity expr_values_bytes_per_row num_exprs : Z) : Z :=
  expr_values_bytes_per_row * capacity
  + num_exprs * capacity
  + 4 * capacity
  + Bitmap_MemUsage capacity.

(** [void ExprValuesCache::Close(MemTracker* tracker)]. *)
Definition Close (c : ExprValuesCache) (tracker : MemTracker)
  : ExprValuesCache * MemTracker :=
  if capacity_ c =? 0 then (c, tracker)
  else
    let mem_usage := MemUsage (capacity_ c) (expr_values_bytes_per_row_ c) (num_exprs_ c) in
    (mkCache (capacity_ c) (num_exprs_ c) (expr_values_bytes_per_row_ c)
             None None None None None None None [],
     Release mem_usage tracker).

(** [HashTableCtx], as far as [Close] goes: the scratch row, which is
    [malloc]ed by [Init], the cache and the tracker. *)
Record HashTableCtx := mkCtx {
  scratch_row_ : option Z;      (* the allocation, [None] when null *)
  expr_values_cache_ : ExprValuesCache;
  tracker_ : MemTracker;
  freed_rows_ : Z;              (* how many allocations [free] was given *)
}.

(** [void HashTableCtx::Close()]; [free(NULL)] does nothing. *)
Definition HashTableCtx_Close (ctx : HashTableCtx) : HashTableCtx :=
  let freed := match scratch_row_ ctx with
               | Some _ => freed_rows_ ctx + 1
               | None => freed_rows_ ctx
               end in
  let '(c, t) := Close (expr_values_cache_ ctx) (tracker_ ctx) in
  mkCtx None c t freed.

End Storage.

End CtxStorage.

(** ** [ExprValuesCache] and [HashTableCtx]: [Init] and [Create]
       (hash-table.cc, lines 115-133 and 234-288) *)

Module CtxInit.
Import CtxStorage.

(** What [Init] returns: OK, the status built from "Failed to allocate $0
    bytes for scratch row of HashTableCtx.", or the status of
    [tracker->MemLimitExceeded(state, details, mem_usage)]. *)
Inductive InitStatus :=
| InitOK
| ScratchRowFailed (scratch_row_size : Z)
| CacheMemLimitExceeded (mem_usage : Z).

(** The two members of the cache that hold the layout of a row. *)
Record Layout := mkLayout {
  expr_values_offsets_ : list Z;
  var_result_offset_ : Z;
}.

(** [MemTracker::TryConsume(bytes)]: the tracker either takes the bytes or,
    a limit being in the way, refuses and stays as it is; [granted] is
    which. *)
Definition TryConsume (bytes : Z) (granted : bool) (t : MemTracker) : bool * MemTracker :=
  if granted then (true, mkMemTracker (consumption t + bytes)) else (false, t).

(** [ExprValuesCache::ExprValuesCache()]: the constructor leaves
    [num_exprs_] and [expr_values_bytes_per_row_] as they happen to be. *)
Definition new_ExprValuesCache (num_exprs expr_values_bytes_per_row : Z) : ExprValuesCache :=
  mkCache 0 num_exprs expr_values_bytes_per_row None None None None None None None [].

Section Init.

Variable Bitmap_MemUsage : Z -> Z.

(** [Bitmap::Reset(num_bits)] of [util/bitmap.h]. *)
Variable Bitmap_Reset : Z -> list bool.

(** [MAX_EXPR_VALUES_ARRAY_SIZE] of [hash-table.h] and [state->batch_size()]. *)
Variable MAX_EXPR_VALUES_ARRAY_SIZE : Z.
Variable batch_size : Z.

(** [Expr::ComputeResultsLayout(build_expr_ctxs, &offsets, &var_result_offset)]:
    the bytes of a row and the layout. *)
Variable ExprContext : Type.
Variable ComputeResultsLayout : list ExprContext -> Z * Layout.

(** The size of a pointer to a [Tuple], and what [malloc] answers for a
    size: the allocation or null. *)
Variable sizeof_Tuple_ptr : Z.
Variable malloc : Z -> option Z.

(** [Status ExprValuesCache::Init(RuntimeState* state, MemTracker* tracker,
    const vector<ExprContext*>& build_expr_ctxs)]. *)
Definition Init (c : ExprValuesCache) (tracker : MemTracker)
    (build_expr_ctxs : list ExprContext) (granted : bool)
  : InitStatus * ExprValuesCache * Layout * MemTracker :=
  let num_exprs := Z.of_nat (length build_expr_ctxs) in
  let '(bytes_per_row, layout) := ComputeResultsLayout build_expr_ctxs in
  let with_capacity (capacity : Z) :=
    mkCache capacity num_exprs bytes_per_row
            (cur_expr_values_ c) (cur_expr_values_null_ c) (cur_expr_values_hash_ c)
            (cur_expr_values_hash_end_ c) (expr_values_array_ c)
            (expr_values_null_array_ c) (expr_values_hash_array_ c) (null_bitmap_ c) in
  if bytes_per_row =? 0 then (InitOK, with_capacity (capacity_ c), layout, tracker)
  else
    let capacity :=
      Z.max 1 (Z.min batch_size (Z.quot MAX_EXPR_VALUES_ARRAY_SIZE bytes_per_row)) in
    let mem_usage := MemUsage Bitmap_MemUsage capacity bytes_per_row num_exprs in
    match TryConsume mem_usage granted tracker with
    | (false, tracker') =>
        (CacheMemLimitExceeded mem_usage, with_capacity 0, layout, tracker')
    | (true, tracker') =>
        let expr_values_size := bytes_per_row * capacity in
        let expr_values_null_size := num_exprs * capacity in
        (InitOK,
         mkCache capacity num_exprs bytes_per_row
                 (Some 0) (Some 0) (Some 0) (Some 0)
                 (Some (replicate (Z.to_nat expr_values_size) 0))
                 (Some (replicate (Z.to_nat expr_values_null_size) false))
                 (Some (replicate (Z.to_nat capacity) 0))
                 (Bitmap_Reset capacity),
         layout, tracker')
    end.

(** [HashTableCtx::HashTableCtx(...)], as far as the storage goes. *)
Definition new_HashTableCtx (num_exprs expr_values_bytes_per_row : Z) (tracker : MemTracker)
  : HashTableCtx :=
  mkCtx None (new_ExprValuesCache num_exprs expr_values_bytes_per_row) tracker 0.

(** [Status HashTableCtx::Init(RuntimeState* state, int num_build_tuples)];
    the layout is handed back next to the context. *)
Definition HashTableCtx_Init (ctx : HashTableCtx) (num_build_tuples : Z)
    (build_expr_ctxs : list ExprContext) (granted : bool)
  : InitStatus * HashTableCtx * option Layout :=
  let scratch_row_size := sizeof_Tuple_ptr * num_build_tuples in
  match malloc scratch_row_size with
  | None =>
      (ScratchRowFailed scratch_row_size,
       mkCtx None (expr_values_cache_ ctx) (tracker_ ctx) (freed_rows_ ctx), None)
  | Some row =>
      let '(status, c, layout, t) :=
        Init (expr_values_cache_ ctx) (tracker_ ctx) build_expr_ctxs granted in
      (status, mkCtx (Some row) c t (freed_rows_ ctx), Some layout)
  end.

(** [Status HashTableCtx::Create(...)]: the constructor, then [Init]. *)
Definition HashTableCtx_Create (num_exprs expr_values_bytes_per_row : Z)
    (tracker : MemTracker) (num_build_tuples : Z) (build_expr_ctxs : list ExprContext)
    (granted : bool) : InitStatus * HashTableCtx * option Layout :=
  HashTableCtx_Init (new_HashTableCtx num_exprs expr_values_bytes_per_row tracker)
                    num_build_tuples build_expr_ctxs granted.

End Init.

End CtxInit.

(** ** [HashTable]: creation, [Close], [CheckAndResize], [ResizeBuckets]
       (hash-table.cc, lines 341-462) *)

Module HashTbl.
Import Runtime.

Record Bucket := mkBucket {
  filled : bool;
  matched : bool;
  hasDuplicates : bool;
  hash : Z;
  bucketData : Z;      (* the tuple, the stream index or the head of the chain *)
}.

(** A bucket as [memset(buckets, 0, size)] leaves it. *)
Definition zero_Bucket : Bucket := mkBucket false false false 0 0.

Record HashTable := mkHashTable {
  stores_duplicates_ : bool;
  quadratic_probing_ : bool;
  data_pages_ : list Z;            (* the byte size of each data page *)
  total_data_page_size_ : Z;
  num_duplicate_nodes_ : Z;
  max_num_buckets_ : Z;
  buckets_ : option (list Bucket); (* [None] is the null pointer *)
  num_buckets_ : Z;
  num_filled_buckets_ : Z;
  num_buckets_with_duplicates_ : Z;
  has_matches_ : bool;
  num_probes_ : Z;
  num_failed_probes_ : Z;
  travel_length_ : Z;
  num_hash_collisions_ : Z;
  num_resizes_ : Z;
}.

(** [HashTable::HashTable(...)] as called through [HashTable::Create]. *)
Definition Create (quadratic_probing stores_duplicates : bool)
    (max_num_buckets initial_num_buckets : Z) : HashTable :=
  mkHashTable stores_duplicates quadratic_probing [] 0 0 max_num_buckets None
              initial_num_buckets 0 0 false 0 0 0 0 0.

Definition set_buckets (ht : HashTable) (b : option (list Bucket)) (n : Z) : HashTable :=
  mkHashTable (stores_duplicates_ ht) (quadratic_probing_ ht) (data_pages_ ht)
              (total_data_page_size_ ht) (num_duplicate_nodes_ ht) (max_num_buckets_ ht)
              b n (num_filled_buckets_ ht) (num_buckets_with_duplicates_ ht)
              (has_matches_ ht) (num_probes_ ht) (num_failed_probes_ ht)
              (travel_length_ ht) (num_hash_collisions_ ht) (num_resizes_ ht).

Definition clear_data_pages (ht : HashTable) : HashTable :=
  mkHashTable (stores_duplicates_ ht) (quadratic_probing_ ht) []
              (total_data_page_size_ ht) (num_duplicate_nodes_ ht) (max_num_buckets_ ht)
              (buckets_ ht) (num_buckets_ ht) (num_filled_buckets_ ht)
              (num_buckets_with_duplicates_ ht) (has_matches_ ht) (num_probes_ ht)
              (num_failed_probes_ ht) (travel_length_ ht) (num_hash_collisions_ ht)
              (num_resizes_ ht).

Definition incr_num_resizes (ht : HashTable) : HashTable :=
  mkHashTable (stores_duplicates_ ht) (quadratic_probing_ ht) (data_pages_ ht)
              (total_data_page_size_ ht) (num_duplicate_nodes_ ht) (max_num_buckets_ ht)
              (buckets_ ht) (num_buckets_ ht) (num_filled_buckets_ ht)
              (num_buckets_with_duplicates_ ht) (has_matches_ ht) (num_probes_ ht)
              (num_failed_probes_ ht) (travel_length_ ht) (num_hash_collisions_ ht)
              (num_resizes_ ht + 1).

(** Modelled from the spec: [HasMatches()] and [NumHashCollisions()] are
    inline members of [hash-table.h], which is not among the sources; they
    read [has_matches_] ("set when a probe matched") and
    [num_hash_collisions_], the members the constructor initialises. *)
Definition HasMatches (ht : HashTable) : bool := has_matches_ ht.
Definition NumHashCollisions (ht : HashTable) : Z := num_hash_collisions_ ht.

Section Table.

(** [sizeof(Bucket)]; the struct is declared in [hash-table.h]. *)
Variable sizeof_Bucket : Z.

(** [Probe<true>(buckets, num_buckets, NULL, hash, &found)] of
    [hash-table.inline.h]: the index of the bucket that takes [hash]. *)
Variable Probe : list Bucket -> Z -> Z -> Z.

(** [bool HashTable::Init()]. *)
Definition Init (ht : HashTable) (w : World) : bool * HashTable * World :=
  let buckets_byte_size := int64 (num_buckets_ ht * sizeof_Bucket) in
  match ConsumeMemory buckets_byte_size w with
  | (false, w') => (false, set_buckets ht (buckets_ ht) 0, w')
  | (true, w') =>
      (true,
       set_buckets ht (Some (replicate (Z.to_nat (num_buckets_ ht)) zero_Bucket))
                   (num_buckets_ ht),
       w')
  end.

(** [void HashTable::Close()]. Every data page is deleted and the vector
    cleared; the gauge goes down by [total_data_page_size_]; the bucket
    array, when there is one, is handed to [free] (the pointer is kept);
    [num_buckets_ * sizeof(Bucket)] bytes are released. *)
Definition Close (ht : HashTable) (w : World) : HashTable * World :=
  let w1 := add_metric (- total_data_page_size_ ht) w in
  let ht1 := clear_data_pages ht in
  let w2 := match buckets_ ht1 with Some _ => free_array w1 | None => w1 end in
  (ht1, ReleaseMemory (int64 (num_buckets_ ht1 * sizeof_Bucket)) w2).

(** The copy loop of [ResizeBuckets]: the filled buckets of the old array,
    in the order of the iterator, are placed where [Probe] says. *)
Definition copy_filled (num_buckets : Z) (old new_buckets : list Bucket) : list Bucket :=
  foldl (fun nb bucket_to_copy =>
           if filled bucket_to_copy
           then <[ Z.to_nat (Probe nb num_buckets (hash bucket_to_copy)) := bucket_to_copy ]> nb
           else nb)
        new_buckets old.

(** [bool HashTable::ResizeBuckets(int64_t num_buckets, const HashTableCtx* ht_ctx)]. *)
Definition ResizeBuckets (num_buckets : Z) (ht : HashTable) (w : World)
  : bool * HashTable * World :=
  if negb (max_num_buckets_ ht =? -1) && (max_num_buckets_ ht <? num_buckets)
  then (false, ht, w)
  else
    let ht1 := incr_num_resizes ht in
    let old_size := int64 (num_buckets_ ht1 * sizeof_Bucket) in
    let new_size := int64 (num_buckets * sizeof_Bucket) in
    match ConsumeMemory new_size w with
    | (false, w') => (false, ht1, w')
    | (true, w') =>
        let new_buckets :=
          copy_filled num_buckets (default [] (buckets_ ht1))
                      (replicate (Z.to_nat num_buckets) zero_Bucket) in
        (true, set_buckets ht1 (Some new_buckets) num_buckets,
         ReleaseMemory old_size (free_array w'))
    end.

(** [DCHECK_EQ((num_buckets & (num_buckets-1)), 0)] together with
    [DCHECK_GT(num_buckets, 0)]: what the constructor requires of
    [num_buckets_], and [ResizeBuckets] of the size it is given. *)
Definition is_power_of_two (num_buckets : Z) : bool :=
  (0 <? num_buckets) && (Z.land num_buckets (num_buckets - 1) =? 0).

(** [const double MAX_FILL_FACTOR = 0.75f]. The loop condition of
    [CheckAndResize] converts [num_filled_buckets_ + buckets_to_fill] to
    [double] and compares it with [(num_buckets_ << shift) * 0.75]. The
    definition is that comparison written on integers. The two agree where
    nothing is rounded: the bucket count is a power of two that fits
    [int64_t] ([is_power_of_two], below [2^63]), so that it and its product
    by 3/4 are exact in [double], and the demand is below [2^53], so that
    its conversion is exact. Outside that range the comparison of the
    source may differ from this one; what is stated below about the shift
    that is chosen, or about the room of a table, assumes the range. *)
Definition exceeds_max_fill (rows buckets : Z) : bool := 3 * buckets <? 4 * rows.

(** [while (num_filled_buckets_ + buckets_to_fill >
            (num_buckets_ << shift) * MAX_FILL_FACTOR) ++shift;]
    Shifting the [int64_t] beyond its range is undefined: [None]. *)
Fixpoint resize_shift (fuel : nat) (rows num_buckets shift : Z) : option Z :=
  match fuel with
  | O => None
  | S fuel' =>
      if 2 ^ 63 <=? Z.shiftl num_buckets shift then None
      else if exceeds_max_fill rows (Z.shiftl num_buckets shift)
           then resize_shift fuel' rows num_buckets (shift + 1)
           else Some shift
  end.

(** [bool HashTable::CheckAndResize(uint64_t buckets_to_fill, const HashTableCtx* ht_ctx)]. *)
Definition CheckAndResize (buckets_to_fill : Z) (ht : HashTable) (w : World)
  : option (bool * HashTable * World) :=
  match resize_shift 64 (uint64 (num_filled_buckets_ ht + buckets_to_fill))
                     (num_buckets_ ht) 0 with
  | None => None
  | Some shift =>
      if 0 <? shift
      then Some (ResizeBuckets (Z.shiftl (num_buckets_ ht) shift) ht w)
      else Some (true, ht, w)
  end.

End Table.

End HashTbl.

(** The calls a client makes on a table over its life. *)

Module TableLife.
Import Runtime HashTbl.

Section Life.
Variable sizeof_Bucket : Z.
Variable Probe : list Bucket -> Z -> Z -> Z.

(** The calls a client makes on a table between [Init] and [Close]:
    [CheckAndResize(buckets_to_fill)] for each request in turn, whatever
    each call answers. [None]: a call shifted [num_buckets_] out of its
    type. *)
Fixpoint resize_all (requests : list Z) (ht : HashTable) (w : World)
  : option (HashTable * World) :=
  match requests with
  | [] => Some (ht, w)
  | buckets_to_fill :: rest =>
      match CheckAndResize sizeof_Bucket Probe buckets_to_fill ht w with
      | Some (_, ht', w') => resize_all rest ht' w'
      | None => None
      end
  end.

End Life.
End TableLife.

(** ** [HashTable]: the data pages of the duplicate nodes
       (hash-table.cc, lines 82-83 and 464-481) *)

Module TableNodes.
Import Runtime HashTbl.

(** The first data pages are small ones. *)
Definition INITIAL_DATA_PAGE_SIZES : list Z := [64 * 1024; 512 * 1024].
Definition NUM_SMALL_DATA_PAGES : nat := length INITIAL_DATA_PAGE_SIZES.

(** The two members that say where the next [DuplicateNode] goes:
    [next_node_], kept as the index of the data page whose start it points
    to, and [node_remaining_current_page_]. *)
Record NodeCursor := mkNodeCursor {
  next_node_ : option nat;
  node_remaining_current_page_ : Z;
}.

(** As the constructor leaves them. *)
Definition no_nodes : NodeCursor := mkNodeCursor None 0.

Definition push_data_page (ht : HashTable) (page_size : Z) : HashTable :=
  mkHashTable (stores_duplicates_ ht) (quadratic_probing_ ht)
              (data_pages_ ht ++ [page_size])
              (int64 (total_data_page_size_ ht + page_size))
              (num_duplicate_nodes_ ht) (max_num_buckets_ ht)
              (buckets_ ht) (num_buckets_ ht) (num_filled_buckets_ ht)
              (num_buckets_with_duplicates_ ht) (has_matches_ ht) (num_probes_ ht)
              (num_failed_probes_ ht) (travel_length_ ht) (num_hash_collisions_ ht)
              (num_resizes_ ht).

Section Grow.

(** [state_->block_mgr()->max_block_size()] and [sizeof(DuplicateNode)]. *)
Variable max_block_size : Z.
Variable sizeof_DuplicateNode : Z.

Variable sizeof_Bucket : Z.
Variable Probe : list Bucket -> Z -> Z -> Z.

(** The size [GrowNodeArray] asks for when the table has [n] data pages. *)
Definition next_page_size (n : nat) : Z :=
  let page_size := max_block_size in
  if (n <? NUM_SMALL_DATA_PAGES)%nat
  then Z.min page_size (INITIAL_DATA_PAGE_SIZES !!! n)
  else page_size.

(** [bool HashTable::GrowNodeArray()]. [GetNewBlock] hands out the block,
    or no block, with or without an error; the status is looked at by the
    [DCHECK] only. *)
Definition GrowNodeArray (ht : HashTable) (cursor : NodeCursor) (w : World)
  : bool * HashTable * NodeCursor * World :=
  let page_size := next_page_size (length (data_pages_ ht)) in
  match ask w with
  | (Yes, w') =>
      (true, push_data_page ht page_size,
       mkNodeCursor (Some (length (data_pages_ ht))) (Z.quot page_size sizeof_DuplicateNode),
       add_metric page_size w')
  | (_, w') => (false, ht, cursor, w')
  end.

(** The calls that change the size of a table between [Init] and [Close]. *)
Inductive Call :=
| CallCheckAndResize (buckets_to_fill : Z)
| CallGrowNodeArray.

(** The calls in turn, whatever each answers. [None]: a [CheckAndResize]
    shifted [num_buckets_] out of its type. *)
Fixpoint call_each (cs : list Call) (ht : HashTable) (cursor : NodeCursor) (w : World)
  : option (HashTable * NodeCursor * World) :=
  match cs with
  | [] => Some (ht, cursor, w)
  | CallCheckAndResize buckets_to_fill :: rest =>
      match CheckAndResize sizeof_Bucket Probe buckets_to_fill ht w with
      | Some (_, ht', w') => call_each rest ht' cursor w'
      | None => None
      end
  | CallGrowNodeArray :: rest =>
      match GrowNodeArray ht cursor w with
      | (_, ht', cursor', w') => call_each rest ht' cursor' w'
      end
  end.

End Grow.
End TableNodes.

(** ** The shape of the two selection loops *)

Module Selection.

Section Pick.
Context {P : Type}.
Variable eligible : P -> bool.
Variable mem : P -> Z.

(** Both [SpillPartition] functions run this loop: among the eligible
    entries, keep the index of the first one whose memory exceeds every
    earlier maximum. *)
Fixpoint pick_first_largest (ps : list P) (i max_freed_mem partition_idx : Z) : Z :=
  match ps with
  | [] => partition_idx
  | p :: rest =>
      if eligible p && (max_freed_mem <? mem p)
      then pick_first_largest rest (i + 1) (mem p) i
      else pick_first_largest rest (i + 1) max_freed_mem partition_idx
  end.

End Pick.

End Selection.

(** ** Tuple streams *)

Module Streams.
Import Runtime.

(** Modelled from the spec: [BufferedTupleStream] lives in
    [runtime/buffered-tuple-stream], outside the sources at hand. The
    operators use it through the row-spool interface of the spec
    ([add_row], [prepare_for_read], [pin]/[unpin], [switch_to_io_buffers],
    [close]); a stream is kept as what they observe of it. *)
Record Stream := mkStream {
  num_rows : Z;
  using_small_buffers : bool;
  is_pinned : bool;
  has_write_block : bool;
  unpinned_all : bool;           (* [UnpinStream(true)] has been called *)
  stream_closed : bool;
}.

(** [new BufferedTupleStream(..., use_initial_small_buffers, ...)]. *)
Definition new_stream (use_initial_small_buffers : bool) : Stream :=
  mkStream 0 use_initial_small_buffers false false false false.

(** [Status Init(node_id, profile, bool pinned)]. *)
Definition Init (pinned : bool) (s : Stream) (w : World) : Status * Stream * World :=
  match ask w with
  | (Yes, w') =>
      (OK, mkStream (num_rows s) (using_small_buffers s) pinned true
                    (unpinned_all s) (stream_closed s), w')
  | (_, w') => (CollaboratorError, s, w')
  end.

(** [Status SwitchToIoBuffers(bool* got_buffer)]. *)
Definition SwitchToIoBuffers (s : Stream) (w : World) : Status * bool * Stream * World :=
  match ask w with
  | (Yes, w') =>
      (OK, true, mkStream (num_rows s) false (is_pinned s) true
                          (unpinned_all s) (stream_closed s), w')
  | (No, w') => (OK, false, s, w')
  | (Fail, w') => (CollaboratorError, false, s, w')
  end.

(** [Status UnpinStream(bool all)]. *)
Definition UnpinStream (all : bool) (s : Stream) (w : World) : Status * Stream * World :=
  match ask w with
  | (Fail, w') => (CollaboratorError, s, w')
  | (_, w') =>
      (OK, mkStream (num_rows s) (using_small_buffers s) false
                    (has_write_block s && negb all) (unpinned_all s || all)
                    (stream_closed s), w')
  end.

(** [bool AddRow(TupleRow* row, Status* status)]. *)
Definition AddRow (s : Stream) (w : World) : bool * Status * Stream * World :=
  match ask w with
  | (Yes, w') =>
      (true, OK, mkStream (num_rows s + 1) (using_small_buffers s) (is_pinned s)
                          (has_write_block s) (unpinned_all s) (stream_closed s), w')
  | (No, w') => (false, OK, s, w')
  | (Fail, w') => (false, CollaboratorError, s, w')
  end.

(** [uint8_t* AllocateRow(fixed_size, varlen_size, &varlen_data, Status* status)]:
    the result says whether the pointer is non-null. *)
Definition AllocateRow (s : Stream) (w : World) : bool * Status * Stream * World :=
  AddRow s w.

(** [void Close()]. *)
Definition Close (s : Stream) : Stream :=
  mkStream (num_rows s) (using_small_buffers s) false false (unpinned_all s) true.

End Streams.

(** ** The aggregation node (partitioned-aggregation-node.cc) *)

Module Agg.
Import Runtime.

Abbreviation HashTable := HashTbl.HashTable.
Abbreviation Stream := Streams.Stream.

(** Modelled from the spec: [NUM_PARTITIONING_BITS] and [PARTITION_FANOUT]
    are declared in the node's header; the spec gives 4 bits and a fan-out
    of 16, and the constructor checks
    [PARTITION_FANOUT == 1 << NUM_PARTITIONING_BITS]. *)
Definition NUM_PARTITIONING_BITS : Z := 4.
Definition PARTITION_FANOUT : nat := 16.

(** A cloned [FunctionContext]; [impl()->Close()] marks it closed. *)
Record FnCtx := mkFnCtx { fn_closed : bool }.

Record Partition := mkPartition {
  level : Z;
  is_closed : bool;
  hash_tbl : option HashTable;
  agg_fn_ctxs : list FnCtx;
  agg_fn_pool : option Z;            (* [total_reserved_bytes()] of the pool *)
  aggregated_row_stream : option Stream;
  unaggregated_row_stream : option Stream;
}.

(** [Partition(parent, level)]. *)
Definition new_Partition (lvl : Z) : Partition :=
  mkPartition lvl false None [] None None None.

(** Modelled from the spec: [is_spilled()] is an inline member of the
    header; the spec has "[hash_tbl]: present iff partition is resident",
    and [Spill()] ends with [hash_tbl.reset()]. *)
Definition is_spilled (p : Partition) : bool :=
  match hash_tbl p with None => true | Some _ => false end.

Definition set_is_closed (p : Partition) (b : bool) : Partition :=
  mkPartition (level p) b (hash_tbl p) (agg_fn_ctxs p) (agg_fn_pool p)
              (aggregated_row_stream p) (unaggregated_row_stream p).
Definition set_hash_tbl (p : Partition) (h : option HashTable) : Partition :=
  mkPartition (level p) (is_closed p) h (agg_fn_ctxs p) (agg_fn_pool p)
              (aggregated_row_stream p) (unaggregated_row_stream p).
Definition set_agg_fn_ctxs (p : Partition) (c : list FnCtx) : Partition :=
  mkPartition (level p) (is_closed p) (hash_tbl p) c (agg_fn_pool p)
              (aggregated_row_stream p) (unaggregated_row_stream p).
Definition set_agg_fn_pool (p : Partition) (m : option Z) : Partition :=
  mkPartition (level p) (is_closed p) (hash_tbl p) (agg_fn_ctxs p) m
              (aggregated_row_stream p) (unaggregated_row_stream p).
Definition set_aggregated_row_stream (p : Partition) (s : option Stream) : Partition :=
  mkPartition (level p) (is_closed p) (hash_tbl p) (agg_fn_ctxs p) (agg_fn_pool p)
              s (unaggregated_row_stream p).
Definition set_unaggregated_row_stream (p : Partition) (s : option Stream) : Partition :=
  mkPartition (level p) (is_closed p) (hash_tbl p) (agg_fn_ctxs p) (agg_fn_pool p)
              (aggregated_row_stream p) s.

(** The counters of the runtime profile. *)
Inductive Counter :=
| PartitionsCreated | MaxPartitionLevel | RowsRepartitioned | NumRepartitions
| SpilledPartitions.

Definition Counter_eqb (a b : Counter) : bool :=
  match a, b with
  | PartitionsCreated, PartitionsCreated | MaxPartitionLevel, MaxPartitionLevel
  | RowsRepartitioned, RowsRepartitioned | NumRepartitions, NumRepartitions
  | SpilledPartitions, SpilledPartitions => true
  | _, _ => false
  end.

Record AggNode := mkAggNode {
  is_streaming_preagg_ : bool;
  needs_serialize_ : bool;
  needs_finalize_ : bool;
  num_agg_fns_ : nat;                      (* [agg_fn_ctxs_.size()] *)
  estimated_input_cardinality_ : Z;
  ht_ctx_level_ : Z;                       (* [ht_ctx_->level()] *)
  hash_partitions_ : list Partition;
  hash_tbls_ : list bool;                  (* [hash_tbls_[i] != NULL] *)
  aggregated_partitions_ : list Partition;
  spilled_partitions_ : list Partition;
  serialize_stream_ : option Stream;
  counters_ : Counter -> Z;
  num_rows_returned_ : Z;
  child_rows_returned_ : Z;                (* [children_[0]->rows_returned()] *)
  child_eos_ : bool;
}.

Definition set_ht_ctx_level (n : AggNode) (l : Z) : AggNode :=
  mkAggNode (is_streaming_preagg_ n) (needs_serialize_ n) (needs_finalize_ n)
    (num_agg_fns_ n) (estimated_input_cardinality_ n) l (hash_partitions_ n)
    (hash_tbls_ n) (aggregated_partitions_ n) (spilled_partitions_ n)
    (serialize_stream_ n) (counters_ n) (num_rows_returned_ n)
    (child_rows_returned_ n) (child_eos_ n).
Definition set_hash_partitions (n : AggNode) (ps : list Partition) : AggNode :=
  mkAggNode (is_streaming_preagg_ n) (needs_serialize_ n) (needs_finalize_ n)
    (num_agg_fns_ n) (estimated_input_cardinality_ n) (ht_ctx_level_ n) ps
    (hash_tbls_ n) (aggregated_partitions_ n) (spilled_partitions_ n)
    (serialize_stream_ n) (counters_ n) (num_rows_returned_ n)
    (child_rows_returned_ n) (child_eos_ n).
Definition set_hash_tbls (n : AggNode) (hs : list bool) : AggNode :=
  mkAggNode (is_streaming_preagg_ n) (needs_serialize_ n) (needs_finalize_ n)
    (num_agg_fns_ n) (estimated_input_cardinality_ n) (ht_ctx_level_ n)
    (hash_partitions_ n) hs (aggregated_partitions_ n) (spilled_partitions_ n)
    (serialize_stream_ n) (counters_ n) (num_rows_returned_ n)
    (child_rows_returned_ n) (child_eos_ n).
Definition set_aggregated_partitions (n : AggNode) (ps : list Partition) : AggNode :=
  mkAggNode (is_streaming_preagg_ n) (needs_serialize_ n) (needs_finalize_ n)
    (num_agg_fns_ n) (estimated_input_cardinality_ n) (ht_ctx_level_ n)
    (hash_partitions_ n) (hash_tbls_ n) ps (spilled_partitions_ n)
    (serialize_stream_ n) (counters_ n) (num_rows_returned_ n)
    (child_rows_returned_ n) (child_eos_ n).
Definition set_spilled_partitions (n : AggNode) (ps : list Partition) : AggNode :=
  mkAggNode (is_streaming_preagg_ n) (needs_serialize_ n) (needs_finalize_ n)
    (num_agg_fns_ n) (estimated_input_cardinality_ n) (ht_ctx_level_ n)
    (hash_partitions_ n) (hash_tbls_ n) (aggregated_partitions_ n) ps
    (serialize_stream_ n) (counters_ n) (num_rows_returned_ n)
    (child_rows_returned_ n) (child_eos_ n).
Definition set_serialize_stream (n : AggNode) (s : option Stream) : AggNode :=
  mkAggNode (is_streaming_preagg_ n) (needs_serialize_ n) (needs_finalize_ n)
    (num_agg_fns_ n) (estimated_input_cardinality_ n) (ht_ctx_level_ n)
    (hash_partitions_ n) (hash_tbls_ n) (aggregated_partitions_ n)
    (spilled_partitions_ n) s (counters_ n) (num_rows_returned_ n)
    (child_rows_returned_ n) (child_eos_ n).
Definition set_counters (n : AggNode) (c : Counter -> Z) : AggNode :=
  mkAggNode (is_streaming_preagg_ n) (needs_serialize_ n) (needs_finalize_ n)
    (num_agg_fns_ n) (estimated_input_cardinality_ n) (ht_ctx_level_ n)
    (hash_partitions_ n) (hash_tbls_ n) (aggregated_partitions_ n)
    (spilled_partitions_ n) (serialize_stream_ n) c (num_rows_returned_ n)
    (child_rows_returned_ n) (child_eos_ n).
Definition set_num_rows_returned (n : AggNode) (r : Z) : AggNode :=
  mkAggNode (is_streaming_preagg_ n) (needs_serialize_ n) (needs_finalize_ n)
    (num_agg_fns_ n) (estimated_input_cardinality_ n) (ht_ctx_level_ n)
    (hash_partitions_ n) (hash_tbls_ n) (aggregated_partitions_ n)
    (spilled_partitions_ n) (serialize_stream_ n) (counters_ n) r
    (child_rows_returned_ n) (child_eos_ n).
Definition set_child (n : AggNode) (rows : Z) (eos : bool) : AggNode :=
  mkAggNode (is_streaming_preagg_ n) (needs_serialize_ n) (needs_finalize_ n)
    (num_agg_fns_ n) (estimated_input_cardinality_ n) (ht_ctx_level_ n)
    (hash_partitions_ n) (hash_tbls_ n) (aggregated_partitions_ n)
    (spilled_partitions_ n) (serialize_stream_ n) (counters_ n)
    (num_rows_returned_ n) rows eos.

(** [COUNTER_ADD(c, v)] and [COUNTER_SET(c, v)]. *)
Definition COUNTER_ADD (c : Counter) (v : Z) (n : AggNode) : AggNode :=
  set_counters n (fun c' => if Counter_eqb c' c then counters_ n c' + v else counters_ n c').
Definition COUNTER_SET (c : Counter) (v : Z) (n : AggNode) : AggNode :=
  set_counters n (fun c' => if Counter_eqb c' c then v else counters_ n c').

(** The state the member functions run on: the node and its surroundings. *)
Definition St : Type := AggNode * World.

Definition get_node : Exec St AggNode := fun st => (inr (fst st), st).
Definition get_world : Exec St World := fun st => (inr (snd st), st).
Definition put_node (n : AggNode) : Exec St unit := fun st => (inr tt, (n, snd st)).
Definition put_world (w : World) : Exec St unit := fun st => (inr tt, (fst st, w)).
Definition modify_node (f : AggNode -> AggNode) : Exec St unit :=
  fun st => (inr tt, (f (fst st), snd st)).
Definition modify_world (f : World -> World) : Exec St unit :=
  fun st => (inr tt, (fst st, f (snd st))).

(** [hash_partitions_[i]], and the assignment to it. *)
Definition get_partition (i : nat) : Exec St Partition :=
  fun st => (inr (default (new_Partition 0) (hash_partitions_ (fst st) !! i)), st).
Definition put_partition (i : nat) (p : Partition) : Exec St unit :=
  modify_node (fun n => set_hash_partitions n (<[ i := p ]> (hash_partitions_ n))).

Section Members.

(** Sizes and inline members of headers that are not among the sources:
    [sizeof(Bucket)], [Probe], the flag [FLAGS_enable_quadratic_probing],
    [HashTable::size()], [ByteSize()], [CurrentMemSize()],
    [NumInsertsBeforeResize()] and [BufferedTupleStream::bytes_in_mem(bool)]. *)
Variable sizeof_Bucket : Z.
Variable Probe : list HashTbl.Bucket -> Z -> Z -> Z.
Variable FLAGS_enable_quadratic_probing : bool.
Variable HashTable_size : HashTable -> Z.
Variable HashTable_ByteSize : HashTable -> Z.
Variable HashTable_CurrentMemSize : HashTable -> Z.
Variable HashTable_NumInsertsBeforeResize : HashTable -> Z.
Variable bytes_in_mem : bool -> Stream -> Z.

(** [for (int i = 0; i < n; ++i) body(i)], leaving at the first error. *)
Fixpoint for_each (l : list nat) (body : nat -> Exec St unit) : Exec St unit :=
  match l with
  | [] => ret tt
  | i :: rest => body i ;;; for_each rest body
  end.

(** [Status Partition::InitStreams()], on [hash_partitions_[i]]. *)
Definition Partition_InitStreams (i : nat) : Exec St unit :=
  n <- get_node ;;
  p <- get_partition i ;;
  let p1 := set_agg_fn_ctxs (set_agg_fn_pool p (Some 0))
                            (replicate (num_agg_fns_ n) (mkFnCtx false)) in
  w <- get_world ;;
  let '(s, agg, w1) := Streams.Init true (Streams.new_stream true) w in
  let p2 := set_aggregated_row_stream p1 (Some agg) in
  put_world w1 ;;;
  put_partition i p2 ;;;
  check s ;;;
  if negb (is_streaming_preagg_ n) then
    let '(s', unagg, w2) := Streams.Init false (Streams.new_stream true) w1 in
    put_world w2 ;;;
    put_partition i (set_unaggregated_row_stream p2 (Some unagg)) ;;;
    check s'
  else ret tt.

(** [bool Partition::InitHashTable()], on [hash_partitions_[i]]. *)
Definition PAGG_DEFAULT_HASH_TABLE_SZ : Z := 1024.

Definition Partition_InitHashTable (i : nat) : Exec St bool :=
  p <- get_partition i ;;
  w <- get_world ;;
  let ht := HashTbl.Create FLAGS_enable_quadratic_probing false
              (Z.shiftl 1 (32 - NUM_PARTITIONING_BITS)) PAGG_DEFAULT_HASH_TABLE_SZ in
  let '(b, ht', w') := HashTbl.Init sizeof_Bucket ht w in
  put_world w' ;;;
  put_partition i (set_hash_tbl p (Some ht')) ;;;
  ret b.

(** [hash_tbl->Close(); hash_tbl.reset();] *)
Definition close_and_reset_hash_tbl (p : Partition) (w : World) : Partition * World :=
  match hash_tbl p with
  | Some ht => (set_hash_tbl p None, snd (HashTbl.Close sizeof_Bucket ht w))
  | None => (p, w)
  end.

Definition close_stream (o : option Stream) : option Stream :=
  match o with Some s => Some (Streams.Close s) | None => None end.

Definition close_fn_ctxs (l : list FnCtx) : list FnCtx := map (fun _ => mkFnCtx true) l.

(** The loop of [SerializeStreamForSpilling] over the tuples of the hash
    table: each is serialized and added to [new_stream]; the result is
    [failed_to_add], the status and the stream. *)
Fixpoint serialize_tuples (k : nat) (new_stream : Stream) (w : World)
  : bool * Status * Stream * World :=
  match k with
  | O => (false, OK, new_stream, w)
  | S k' =>
      match Streams.AddRow new_stream w with
      | (true, _, s', w') => serialize_tuples k' s' w'
      | (false, st, s', w') => (true, st, s', w')
      end
  end.

(** [Status Partition::SerializeStreamForSpilling()], on [hash_partitions_[i]].
    [CleanupHashTbl] only lets the aggregate functions free what they
    allocated and changes nothing that is kept here. *)
Definition Partition_SerializeStreamForSpilling (i : nat) : Exec St unit :=
  n <- get_node ;;
  p <- get_partition i ;;
  let agg := default (Streams.new_stream true) (aggregated_row_stream p) in
  if needs_serialize_ n && negb (Streams.num_rows agg =? 0) then
    w <- get_world ;;
    let tuples := match hash_tbl p with Some ht => Z.to_nat (HashTable_size ht) | None => O end in
    let '(failed_to_add, status, new_stream, w1) :=
      serialize_tuples tuples (default (Streams.new_stream false) (serialize_stream_ n)) w in
    modify_node (fun n => set_serialize_stream n (Some new_stream)) ;;;
    if failed_to_add then
      let '(p1, w2) := close_and_reset_hash_tbl p w1 in
      put_world w2 ;;;
      put_partition i (set_aggregated_row_stream p1 (Some (Streams.Close agg))) ;;;
      check status ;;;
      raise MemLimitTooLowError
    else
      (* aggregated_row_stream->Close(); aggregated_row_stream.swap(serialize_stream_);
         serialize_stream_.reset(new BufferedTupleStream(...)); Init(..., false) *)
      let p1 := set_aggregated_row_stream p (Some new_stream) in
      let '(status', ser, w2) := Streams.Init false (Streams.new_stream false) w1 in
      modify_node (fun n => set_serialize_stream n (Some ser)) ;;;
      if ok status' then
        put_world w2 ;;; put_partition i p1
      else
        let '(p2, w3) := close_and_reset_hash_tbl p1 w2 in
        put_world w3 ;;; put_partition i p2 ;;; raise status'
  else ret tt.

(** [Status Partition::Spill()], on [hash_partitions_[i]]. *)
Definition Partition_Spill (i : nat) : Exec St unit :=
  Partition_SerializeStreamForSpilling i ;;;
  p <- get_partition i ;;
  w <- get_world ;;
  (* Free the in-memory result data. *)
  let p1 := set_agg_fn_ctxs p (close_fn_ctxs (agg_fn_ctxs p)) in
  let p2 := set_agg_fn_pool p1 None in
  let '(p3, w1) := close_and_reset_hash_tbl p2 w in
  put_world w1 ;;; put_partition i p3 ;;;
  let agg := default (Streams.new_stream true) (aggregated_row_stream p3) in
  (* Try to switch both streams to IO-sized buffers. *)
  let '(s1, got_buffer, agg1, w2) :=
    if Streams.using_small_buffers agg then Streams.SwitchToIoBuffers agg w1
    else (OK, true, agg, w1) in
  put_world w2 ;;; put_partition i (set_aggregated_row_stream p3 (Some agg1)) ;;;
  check s1 ;;;
  let '(s2, agg2, w3) := Streams.UnpinStream false agg1 w2 in
  let p4 := set_aggregated_row_stream p3 (Some agg2) in
  put_world w3 ;;; put_partition i p4 ;;;
  check s2 ;;;
  let unagg := default (Streams.new_stream true) (unaggregated_row_stream p4) in
  let '(s3, got_buffer', unagg1, w4) :=
    if got_buffer && Streams.using_small_buffers unagg
    then Streams.SwitchToIoBuffers unagg w3
    else (OK, got_buffer, unagg, w3) in
  put_world w4 ;;;
  put_partition i (set_unaggregated_row_stream p4 (Some unagg1)) ;;;
  check s3 ;;;
  modify_node (COUNTER_ADD SpilledPartitions 1).

(** [void Partition::Close(bool finalize_rows)]. *)
Definition Partition_Close (finalize_rows : bool) (p : Partition) (w : World)
  : Partition * World :=
  if is_closed p then (p, w)
  else
    let p1 := set_is_closed p true in
    let p2 := set_aggregated_row_stream p1 (close_stream (aggregated_row_stream p1)) in
    let '(p3, w1) :=
      match hash_tbl p2 with
      | Some ht =>
          let '(ht', w') := HashTbl.Close sizeof_Bucket ht w in
          (set_hash_tbl p2 (Some ht'), w')
      | None => (p2, w)
      end in
    let p4 := set_unaggregated_row_stream p3 (close_stream (unaggregated_row_stream p3)) in
    let p5 := set_agg_fn_ctxs p4 (close_fn_ctxs (agg_fn_ctxs p4)) in
    let p6 := match agg_fn_pool p5 with
              | Some _ => set_agg_fn_pool p5 (Some 0)
              | None => p5
              end in
    (p6, w1).

(** The memory [SpillPartition] expects to free by spilling [p]; the three
    pointers are non-null in a partition that is open and not spilled. *)
Definition spill_mem (p : Partition) : Z :=
  match aggregated_row_stream p with Some s => bytes_in_mem true s | None => 0 end
  + match hash_tbl p with Some ht => HashTable_ByteSize ht | None => 0 end
  + match agg_fn_pool p with Some r => r | None => 0 end.

(** The selection loop of [SpillPartition], from index [i] on. *)
Fixpoint SpillPartition_pick (ps : list Partition) (i : Z)
    (max_freed_mem partition_idx : Z) : Z :=
  match ps with
  | [] => partition_idx
  | p :: rest =>
      if is_closed p then SpillPartition_pick rest (i + 1) max_freed_mem partition_idx
      else if is_spilled p then SpillPartition_pick rest (i + 1) max_freed_mem partition_idx
      else
        let mem := spill_mem p in
        if max_freed_mem <? mem
        then SpillPartition_pick rest (i + 1) mem i
        else SpillPartition_pick rest (i + 1) max_freed_mem partition_idx
  end.

(** [Status PartitionedAggregationNode::SpillPartition()]. *)
Definition SpillPartition : Exec St unit :=
  n <- get_node ;;
  let partition_idx := SpillPartition_pick (hash_partitions_ n) 0 0 (-1) in
  if partition_idx =? -1 then raise MemLimitTooLowError
  else
    modify_node (fun n => set_hash_tbls n (<[ Z.to_nat partition_idx := false ]> (hash_tbls_ n))) ;;;
    Partition_Spill (Z.to_nat partition_idx).

(** The body of the first loop of [CreateHashPartitions]: a new partition
    is pushed onto [hash_partitions_], its streams are initialised and
    [hash_tbls_[i]] is cleared. *)
Definition create_partition (lvl : Z) (i : nat) : Exec St unit :=
  n <- get_node ;;
  let idx := length (hash_partitions_ n) in
  put_node (set_hash_partitions n (hash_partitions_ n ++ [new_Partition lvl])) ;;;
  Partition_InitStreams idx ;;;
  modify_node (fun n => set_hash_tbls n (<[ i := false ]> (hash_tbls_ n))).

(** The body of the second loop: the hash table of partition [i] is
    allocated; a pre-aggregation that cannot allocate it fails, any other
    aggregation spills the partition. *)
Definition create_hash_table (i : nat) : Exec St unit :=
  b <- Partition_InitHashTable i ;;
  n <- get_node ;;
  (if negb b then
     if is_streaming_preagg_ n then
       modify_world SetMemLimitExceeded ;;;
       raise (MemLimitExceeded PreaggHashTableInit)
     else Partition_Spill i
   else ret tt) ;;;
  p <- get_partition i ;;
  modify_node (fun n => set_hash_tbls n (<[ i := negb (is_spilled p) ]> (hash_tbls_ n))).

(** [Status PartitionedAggregationNode::CreateHashPartitions(int level)]. *)
Definition CreateHashPartitions (lvl : Z) : Exec St unit :=
  if Seeds.MAX_PARTITION_DEPTH <=? lvl then
    modify_world SetMemLimitExceeded ;;; raise MaxPartitionDepth
  else
    modify_node (fun n => set_ht_ctx_level n lvl) ;;;
    for_each (seq 0 PARTITION_FANOUT) (create_partition lvl) ;;;
    for_each (seq 0 PARTITION_FANOUT) create_hash_table ;;;
    n <- get_node ;;
    let n1 := COUNTER_ADD PartitionsCreated (Z.of_nat (length (hash_partitions_ n))) n in
    put_node (if negb (is_streaming_preagg_ n) then COUNTER_SET MaxPartitionLevel lvl n1 else n1).

Definition stream_rows (o : option Stream) : Z :=
  match o with Some s => Streams.num_rows s | None => 0 end.

(** [int64_t PartitionedAggregationNode::LargestSpilledPartition() const]. *)
Definition LargestSpilledPartition (n : AggNode) : Z :=
  foldl (fun max_rows partition =>
           if is_closed partition || negb (is_spilled partition) then max_rows
           else
             let rows := stream_rows (aggregated_row_stream partition)
                         + stream_rows (unaggregated_row_stream partition) in
             if max_rows <? rows then rows else max_rows)
        0 (hash_partitions_ n).

(** The body of the loop of [MoveHashPartitions], on [hash_partitions_[i]].
    The percentage, which only feeds a log line and the profile, is left
    out. *)
Definition move_partition (i : nat) : Exec St unit :=
  partition <- get_partition i ;;
  let aggregated_rows := stream_rows (aggregated_row_stream partition) in
  let unaggregated_rows := stream_rows (unaggregated_row_stream partition) in
  let total_rows := aggregated_rows + unaggregated_rows in
  if total_rows =? 0 then
    w <- get_world ;;
    let '(p', w') := Partition_Close false partition w in
    put_world w' ;;; put_partition i p'
  else if is_spilled partition then
    w <- get_world ;;
    let '(s1, agg, w1) :=
      Streams.UnpinStream true
        (default (Streams.new_stream true) (aggregated_row_stream partition)) w in
    let p1 := set_aggregated_row_stream partition (Some agg) in
    put_world w1 ;;; put_partition i p1 ;;;
    check s1 ;;;
    let '(s2, unagg, w2) :=
      Streams.UnpinStream true
        (default (Streams.new_stream true) (unaggregated_row_stream p1)) w1 in
    let p2 := set_unaggregated_row_stream p1 (Some unagg) in
    put_world w2 ;;; put_partition i p2 ;;;
    check s2 ;;;
    modify_node (fun n => set_spilled_partitions n (p2 :: spilled_partitions_ n))
  else
    modify_node (fun n => set_aggregated_partitions n (aggregated_partitions_ n ++ [partition])).

(** [Status PartitionedAggregationNode::MoveHashPartitions(int64_t num_input_rows)]. *)
Definition MoveHashPartitions (num_input_rows : Z) : Exec St unit :=
  n <- get_node ;;
  for_each (seq 0 (length (hash_partitions_ n))) move_partition ;;;
  modify_node (fun n => set_hash_partitions n []).

(** [template<bool AGGREGATED_ROWS> Status ProcessStream(BufferedTupleStream* s)]
    reads a stream batch by batch into [ProcessBatch], a function of
    [partitioned-aggregation-node-ir.cc]; it is a parameter here, run on
    the aggregated ([true]) or unaggregated ([false]) stream of the
    partition at the front of [spilled_partitions_]. *)
Variable ProcessStream : bool -> Exec St unit.

(** [NextPartition], the branch of its loop that is taken when no
    aggregated partition is left, up to the point where the spilled
    partition at the front has been read into the new partitions. *)
Definition NextPartition_read_spilled : Exec St unit :=
  n <- get_node ;;
  match spilled_partitions_ n with
  | [] => ret tt   (* excluded by [DCHECK(!spilled_partitions_.empty())] *)
  | partition :: _ =>
      CreateHashPartitions (level partition + 1) ;;;
      modify_node (COUNTER_ADD NumRepartitions 1) ;;;
      ProcessStream true ;;;
      ProcessStream false
  end.

(** The rest of the branch: the partition is closed and popped, and the
    largest spilled child is compared with the input. *)
Definition NextPartition_check_reduction : Exec St unit :=
  n <- get_node ;;
  match spilled_partitions_ n with
  | [] => ret tt
  | partition :: spilled_rest =>
      modify_node (COUNTER_ADD RowsRepartitioned
                     (stream_rows (aggregated_row_stream partition))) ;;;
      modify_node (COUNTER_ADD RowsRepartitioned
                     (stream_rows (unaggregated_row_stream partition))) ;;;
      w <- get_world ;;
      let '(partition', w') := Partition_Close false partition w in
      put_world w' ;;;
      modify_node (fun n => set_spilled_partitions n spilled_rest) ;;;
      let num_input_rows :=
        stream_rows (aggregated_row_stream partition')
        + stream_rows (unaggregated_row_stream partition') in
      n' <- get_node ;;
      let largest_partition := LargestSpilledPartition n' in
      if num_input_rows =? largest_partition then
        modify_world SetMemLimitExceeded ;;;
        raise (MemLimitExceeded RepartitionNoReduction)
      else MoveHashPartitions num_input_rows
  end.

Definition NextPartition_repartition : Exec St unit :=
  NextPartition_read_spilled ;;; NextPartition_check_reduction.

(** *** Streaming pre-aggregation *)

Record StreamingHtMinReductionEntry := mkEntry {
  min_ht_mem : Z;
  streaming_ht_min_reduction : float;
}.

Definition STREAMING_HT_MIN_REDUCTION : list StreamingHtMinReductionEntry :=
  [ mkEntry 0 0.0%float;                       (* Expand up to L2 cache always. *)
    mkEntry (256 * 1024) 0x1.199999999999ap+0%float;   (* 1.1: expand into L3 cache ... *)
    mkEntry (2 * 1024 * 1024) 2.0%float ].     (* Expand into main memory ... *)

Definition STREAMING_HT_MIN_REDUCTION_SIZE : Z :=
  Z.of_nat (length STREAMING_HT_MIN_REDUCTION).

Definition entry_at (k : Z) : StreamingHtMinReductionEntry :=
  default (mkEntry 0 0.0%float) (STREAMING_HT_MIN_REDUCTION !! Z.to_nat k).

(** [while (cache_level + 1 < STREAMING_HT_MIN_REDUCTION_SIZE &&
           ht_mem >= STREAMING_HT_MIN_REDUCTION[cache_level + 1].min_ht_mem)
      ++cache_level;] *)
Fixpoint find_cache_level (fuel : nat) (ht_mem cache_level : Z) : Z :=
  match fuel with
  | O => cache_level
  | S fuel' =>
      if (cache_level + 1 <? STREAMING_HT_MIN_REDUCTION_SIZE)
         && (min_ht_mem (entry_at (cache_level + 1)) <=? ht_mem)
      then find_cache_level fuel' ht_mem (cache_level + 1)
      else cache_level
  end.

(** [static_cast<double>] of an [int64_t], and the conversion of an
    [int64_t] operand of a [double] operation. *)
Definition double_of_int64 (z : Z) : float :=
  if z <? 0 then PrimFloat.opp (PrimFloat.of_uint63 (Uint63.of_Z (- z)))
  else PrimFloat.of_uint63 (Uint63.of_Z z).

(** The hash tables of the first [PARTITION_FANOUT] partitions. *)
Definition preagg_tables (n : AggNode) : list HashTable :=
  omap hash_tbl (take PARTITION_FANOUT (hash_partitions_ n)).

Definition sum_over (f : HashTable -> Z) (l : list HashTable) : Z :=
  foldl (fun acc ht => acc + f ht) 0 l.

(** [bool PartitionedAggregationNode::ShouldExpandPreaggHashTables() const].
    The two [COUNTER_SET] of the estimate and the threshold are left out. *)
Definition ShouldExpandPreaggHashTables (n : AggNode) : bool :=
  let ht_mem := sum_over HashTable_CurrentMemSize (preagg_tables n) in
  let ht_rows := sum_over HashTable_size (preagg_tables n) in
  if ht_rows =? 0 then true
  else
    let cache_level :=
      find_cache_level (length STREAMING_HT_MIN_REDUCTION) ht_mem 0 in
    let input_rows := child_rows_returned_ n in
    let aggregated_input_rows := input_rows - num_rows_returned_ n in
    let expected_input_rows := estimated_input_cardinality_ n - num_rows_returned_ n in
    let current_reduction :=
      PrimFloat.div (double_of_int64 aggregated_input_rows) (double_of_int64 ht_rows) in
    if aggregated_input_rows <=? 0 then true
    else
      let estimated_reduction :=
        if expected_input_rows <=? aggregated_input_rows then current_reduction
        else PrimFloat.add 1%float
               (PrimFloat.mul
                  (double_of_int64 (Z.quot expected_input_rows aggregated_input_rows))
                  (PrimFloat.sub current_reduction 1%float)) in
      let min_reduction := streaming_ht_min_reduction (entry_at cache_level) in
      PrimFloat.ltb min_reduction estimated_reduction.

(** [GetHashTable(i)] returns [hash_tbls_[i]], which points at the hash
    table of [hash_partitions_[i]] or is null. *)
Definition GetHashTable (n : AggNode) (i : nat) : option HashTable :=
  if (hash_tbls_ n !!! i : bool)
  then match hash_partitions_ n !! i with Some p => hash_tbl p | None => None end
  else None.

Definition capacity_of (o : option HashTable) : Z :=
  match o with Some ht => HashTable_NumInsertsBeforeResize ht | None => 0 end.

(** The body of the expansion loop of [GetRowsStreaming] for partition [i]. *)
Definition expand_hash_table (num_rows : Z) (remaining_capacity : list Z) (i : nat)
  : Exec St (list Z) :=
  n <- get_node ;;
  match GetHashTable n i with
  | Some ht =>
      if (remaining_capacity !!! i) <? num_rows then
        w <- get_world ;;
        match HashTbl.CheckAndResize sizeof_Bucket Probe num_rows ht w with
        | Some (true, ht', w') =>
            p <- get_partition i ;;
            put_world w' ;;; put_partition i (set_hash_tbl p (Some ht')) ;;;
            ret (<[ i := HashTable_NumInsertsBeforeResize ht' ]> remaining_capacity)
        | Some (false, ht', w') =>
            p <- get_partition i ;;
            put_world w' ;;; put_partition i (set_hash_tbl p (Some ht')) ;;;
            ret remaining_capacity
        | None => ret remaining_capacity  (* not reached: a batch has few rows *)
        end
      else ret remaining_capacity
  | None => ret remaining_capacity
  end.

Fixpoint expand_hash_tables (num_rows : Z) (l : list nat) (remaining_capacity : list Z)
  : Exec St (list Z) :=
  match l with
  | [] => ret remaining_capacity
  | i :: rest =>
      rc <- expand_hash_table num_rows remaining_capacity i ;;
      expand_hash_tables num_rows rest rc
  end.

(** [ConstructIntermediateTuple(agg_fn_ctxs, MemPool* pool, Status* status)]:
    whether the tuple is non-null, and the status. *)
Definition ConstructIntermediateTuple_pool (w : World) : bool * Status * World :=
  match ask w with
  | (Yes, w') => (true, OK, w')
  | (_, w') => (false, MemLimitExceeded IntermediateTupleAlloc, SetMemLimitExceeded w')
  end.

(** [ConstructIntermediateTuple(agg_fn_ctxs, BufferedTupleStream* stream,
    Status* status)]: whether the tuple is non-null, the status, the stream. *)
Definition ConstructIntermediateTuple_stream (stream : Stream) (w : World)
  : bool * Status * Stream * World :=
  match Streams.AllocateRow stream w with
  | (true, st, s1, w1) => (true, st, s1, w1)
  | (false, st, s1, w1) =>
      if negb (ok st) || negb (Streams.using_small_buffers s1) then (false, st, s1, w1)
      else
        match Streams.SwitchToIoBuffers s1 w1 with
        | (st2, got_buffer, s2, w2) =>
            if negb (ok st2) || negb got_buffer then (false, st2, s2, w2)
            else Streams.AllocateRow s2 w2
        end
  end.

(** Rows of the child, the partition their hash selects, and the lookup in
    and insertion into a hash table ([hash-table.inline.h]). *)
Variable Row : Type.
Variable partition_of : Row -> nat.
Variable FindBuildRowBucket : Row -> HashTable -> bool.
Variable SetTuple : Row -> HashTable -> HashTable.

(** What becomes of an input row. *)
Inductive Disposition :=
| Aggregated (partition : nat)   (* found in, or inserted into, that hash table *)
| PassedThrough.                 (* emitted in the output batch *)

(** Modelled from the spec: [ProcessBatchStreaming] is defined in
    [partitioned-aggregation-node-ir.cc], which is not among the sources.
    The spec: the hash picks the partition; within that partition's hash
    table the row is found or inserted, an insertion allocating an
    intermediate tuple in the partition's aggregated row-spool; "rows that
    cannot be inserted are emitted immediately as singleton output rows
    (pass-through)". The two allocations are the functions
    [ConstructIntermediateTuple] above. *)
Definition process_row_streaming (row : Row) (remaining_capacity : list Z)
    (out_batch : list Row) : Exec St (list Z * list Row * Disposition) :=
  n <- get_node ;;
  let i := partition_of row in
  let pass_through :=
    w <- get_world ;;
    let '(non_null, st, w') := ConstructIntermediateTuple_pool w in
    put_world w' ;;; check st ;;;
    ret (remaining_capacity, out_batch ++ [row], PassedThrough) in
  match GetHashTable n i with
  | None => pass_through
  | Some ht =>
      if FindBuildRowBucket row ht then ret (remaining_capacity, out_batch, Aggregated i)
      else if (remaining_capacity !!! i) =? 0 then pass_through
      else
        p <- get_partition i ;;
        w <- get_world ;;
        let '(non_null, st, agg, w') :=
          ConstructIntermediateTuple_stream
            (default (Streams.new_stream true) (aggregated_row_stream p)) w in
        put_world w' ;;;
        put_partition i (set_aggregated_row_stream p (Some agg)) ;;;
        check st ;;;
        if non_null then
          put_partition i (set_hash_tbl (set_aggregated_row_stream p (Some agg))
                                        (Some (SetTuple row ht))) ;;;
          ret (<[ i := remaining_capacity !!! i - 1 ]> remaining_capacity,
               out_batch, Aggregated i)
        else pass_through
  end.

Fixpoint ProcessBatchStreaming (rows : list Row) (remaining_capacity : list Z)
    (out_batch : list Row) : Exec St (list Row * list Disposition) :=
  match rows with
  | [] => ret (out_batch, [])
  | row :: rest =>
      r <- process_row_streaming row remaining_capacity out_batch ;;
      let '(rc, out, d) := r in
      r' <- ProcessBatchStreaming rest rc out ;;
      let '(out', ds) := r' in
      ret (out', d :: ds)
  end.

(** One round of the loop of [GetRowsStreaming]: the child hands over a
    batch and says whether it is its last. *)
Definition GetRowsStreaming_round (child_batch : list Row) (eos : bool)
  : Exec St (list Row * list Disposition) :=
  modify_node (fun n => set_child n
                 (child_rows_returned_ n + Z.of_nat (length child_batch)) eos) ;;;
  n <- get_node ;;
  let num_rows := Z.of_nat (length child_batch) in
  let remaining_capacity :=
    map (fun i => capacity_of (GetHashTable n i)) (seq 0 PARTITION_FANOUT) in
  let ht_needs_expansion := existsb (fun c => c <? num_rows) remaining_capacity in
  rc <- (if ht_needs_expansion && ShouldExpandPreaggHashTables n
         then expand_hash_tables num_rows (seq 0 PARTITION_FANOUT) remaining_capacity
         else ret remaining_capacity) ;;
  ProcessBatchStreaming child_batch rc [].

(** [do { ... } while (out_batch->num_rows() == 0 && !child_eos_);] over the
    batches the child is going to hand over. *)
Fixpoint GetRowsStreaming_loop (child : list (list Row * bool))
  : Exec St (list Row * list Disposition) :=
  match child with
  | [] => ret ([], [])
  | (child_batch, eos) :: rest =>
      r <- GetRowsStreaming_round child_batch eos ;;
      let '(out, ds) := r in
      if (Z.of_nat (length out) =? 0) && negb eos then
        r' <- GetRowsStreaming_loop rest ;;
        let '(out', ds') := r' in
        ret (out', ds ++ ds')
      else ret (out, ds)
  end.

(** A call whose status the caller drops. *)
Definition ignore_status (c : Exec St unit) : Exec St unit :=
  fun st => (inr tt, snd (c st)).

(** [Status PartitionedAggregationNode::GetRowsStreaming(state, out_batch)]. *)
Definition GetRowsStreaming (child : list (list Row * bool))
  : Exec St (list Row * list Disposition) :=
  r <- GetRowsStreaming_loop child ;;
  let '(out, ds) := r in
  n <- get_node ;;
  (if child_eos_ n then ignore_status (MoveHashPartitions (child_rows_returned_ n))
   else ret tt) ;;;
  modify_node (fun n => set_num_rows_returned n
                 (num_rows_returned_ n + Z.of_nat (length out))) ;;;
  ret (out, ds).

End Members.

End Agg.

(** ** The aggregation node: retry loops and closing *)

Module AggMore.
Import Runtime Agg.

(** How a loop of the model ends: the loop of the source has been left, the
    fuel of the model is spent, or the source shifts an [int64_t] out of
    its range, which is undefined. *)
Inductive Ending := Returned | FuelSpent | Undefined.

(** A [BufferedTupleStream*] that points into [hash_partitions_]. *)
Inductive StreamRef :=
| AggregatedStream (i : nat)      (* [hash_partitions_[i]->aggregated_row_stream.get()] *)
| UnaggregatedStream (i : nat).   (* [hash_partitions_[i]->unaggregated_row_stream.get()] *)

Definition get_stream (r : StreamRef) : Exec St Stream :=
  match r with
  | AggregatedStream i =>
      p <- get_partition i ;;
      ret (default (Streams.new_stream true) (aggregated_row_stream p))
  | UnaggregatedStream i =>
      p <- get_partition i ;;
      ret (default (Streams.new_stream true) (unaggregated_row_stream p))
  end.

Definition put_stream (r : StreamRef) (s : Stream) : Exec St unit :=
  match r with
  | AggregatedStream i =>
      p <- get_partition i ;; put_partition i (set_aggregated_row_stream p (Some s))
  | UnaggregatedStream i =>
      p <- get_partition i ;; put_partition i (set_unaggregated_row_stream p (Some s))
  end.

Section Members.

Variable sizeof_Bucket : Z.
Variable Probe : list HashTbl.Bucket -> Z -> Z -> Z.
Variable HashTable_size : HashTable -> Z.
Variable HashTable_ByteSize : HashTable -> Z.
Variable bytes_in_mem : bool -> Stream -> Z.

Abbreviation SpillPartition :=
  (Agg.SpillPartition sizeof_Bucket HashTable_size HashTable_ByteSize bytes_in_mem).

(** The loop of [CheckAndResizeHashPartitions] on [hash_partitions_[i]]:
    [while (!partition->is_spilled()) {
       if (partition->hash_tbl->CheckAndResize(num_rows, ht_ctx)) break;
       RETURN_IF_ERROR(SpillPartition()); }] *)
Fixpoint resize_or_spill (fuel : nat) (num_rows : Z) (i : nat) : Exec St Ending :=
  match fuel with
  | O => ret FuelSpent
  | S fuel' =>
      partition <- get_partition i ;;
      match hash_tbl partition with
      | None => ret Returned
      | Some ht =>
          w <- get_world ;;
          match HashTbl.CheckAndResize sizeof_Bucket Probe num_rows ht w with
          | None => ret Undefined
          | Some (resized, ht', w') =>
              put_world w' ;;;
              put_partition i (set_hash_tbl partition (Some ht')) ;;;
              if resized then ret Returned
              else SpillPartition ;;; resize_or_spill fuel' num_rows i
          end
      end
  end.

Fixpoint resize_or_spill_each (fuel : nat) (num_rows : Z) (l : list nat) : Exec St Ending :=
  match l with
  | [] => ret Returned
  | i :: rest =>
      e <- resize_or_spill fuel num_rows i ;;
      match e with
      | Returned => resize_or_spill_each fuel num_rows rest
      | _ => ret e
      end
  end.

(** [Status PartitionedAggregationNode::CheckAndResizeHashPartitions(int num_rows,
    const HashTableCtx* ht_ctx)]; [fuel] bounds the rounds of each inner loop. *)
Definition CheckAndResizeHashPartitions (fuel : nat) (num_rows : Z) : Exec St Ending :=
  resize_or_spill_each fuel num_rows (seq 0 PARTITION_FANOUT).

(** The loop of [AppendSpilledRow]:
    [while (true) {
       RETURN_IF_ERROR(stream->SwitchToIoBuffers(&got_buffer));
       if (got_buffer) break;
       RETURN_IF_ERROR(SpillPartition()); }] *)
Fixpoint switch_or_spill (fuel : nat) (stream : StreamRef) : Exec St Ending :=
  match fuel with
  | O => ret FuelSpent
  | S fuel' =>
      s <- get_stream stream ;;
      w <- get_world ;;
      let '(status, got_buffer, s', w') := Streams.SwitchToIoBuffers s w in
      put_world w' ;;; put_stream stream s' ;;;
      check status ;;;
      if got_buffer then ret Returned
      else SpillPartition ;;; switch_or_spill fuel' stream
  end.

(** [stream->AddRow(row, &process_batch_status_)] on a stream of the node. *)
Definition add_row (stream : StreamRef) : Exec St (bool * Status) :=
  s <- get_stream stream ;;
  w <- get_world ;;
  let '(added, status, s', w') := Streams.AddRow s w in
  put_world w' ;;; put_stream stream s' ;;;
  ret (added, status).

(** [Status PartitionedAggregationNode::AppendSpilledRow(BufferedTupleStream* stream,
    TupleRow* row)]. The last line returns [process_batch_status_] as the
    stream has left it. *)
Definition AppendSpilledRow (fuel : nat) (stream : StreamRef) : Exec St Ending :=
  r <- add_row stream ;;
  if fst r then ret Returned
  else
    check (snd r) ;;;
    e <- switch_or_spill fuel stream ;;
    match e with
    | Returned =>
        r' <- add_row stream ;;
        if fst r' then ret Returned else check (snd r') ;;; ret Returned
    | _ => ret e
    end.

(** The three loops of [ClosePartitions]: [Close(true)] on every partition
    of a list. *)
Fixpoint close_each (l : list Partition) (w : World) : World :=
  match l with
  | [] => w
  | p :: rest => close_each rest (snd (Partition_Close sizeof_Bucket true p w))
  end.

(** [void PartitionedAggregationNode::ClosePartitions()]. The lists are
    closed in the order of the source and then cleared, the array
    [hash_tbls_] is zeroed and the pool that owns the partitions is
    cleared, so that of the partitions only their effect on the
    surroundings remains. The lists hold the partitions themselves, which
    follows the source as long as no partition is in two of the lists;
    [MoveHashPartitions] leaves one in two lists only when it returns an
    error half-way. *)
Definition ClosePartitions (st : St) : St :=
  let n := fst st in
  let w1 := close_each (hash_partitions_ n) (snd st) in
  let w2 := close_each (aggregated_partitions_ n) w1 in
  let w3 := close_each (spilled_partitions_ n) w2 in
  (set_hash_tbls
     (set_hash_partitions (set_spilled_partitions (set_aggregated_partitions n []) []) [])
     (map (fun _ => false) (hash_tbls_ n)),
   w3).

(** One call of the batch-processing code on the partitions being built. *)
Inductive Call :=
| CallSpillPartition
| CallCheckAndResizeHashPartitions (fuel : nat) (num_rows : Z)
| CallAppendSpilledRow (fuel : nat) (stream : StreamRef).

Definition call (c : Call) : Exec St Ending :=
  match c with
  | CallSpillPartition => SpillPartition ;;; ret Returned
  | CallCheckAndResizeHashPartitions fuel num_rows =>
      CheckAndResizeHashPartitions fuel num_rows
  | CallAppendSpilledRow fuel stream => AppendSpilledRow fuel stream
  end.

(** A sequence of such calls, left at the first that does not return OK. *)
Fixpoint call_each (l : list Call) : Exec St Ending :=
  match l with
  | [] => ret Returned
  | c :: rest =>
      e <- call c ;;
      match e with
      | Returned => call_each rest
      | _ => ret e
      end
  end.

End Members.

End AggMore.

(** ** The aggregation node: the grouping values of an intermediate tuple
       (partitioned-aggregation-node.cc, lines 977-1014) *)

Module AggTuple.

(** [int] arithmetic. *)
Definition int (z : Z) : Z := (z + 2 ^ 31) mod 2 ^ 32 - 2 ^ 31.

(** [struct StringValue { char* ptr; int len; }] of [runtime/string-value.h]. *)
Record StringValue := mkStringValue { ptr : Z; len : Z }.

(** The memory the strings live in, byte by address, and [memcpy]. *)
Definition Memory : Type := Z -> Z.

Definition memcpy (dst src n : Z) (m : Memory) : Memory :=
  fun a => if (dst <=? a) && (a <? dst + n) then m (src + (a - dst)) else m a.

(** A [Tuple], as far as the grouping values go: the null indicator and the
    bytes of each slot, by the index of the slot in
    [intermediate_tuple_desc_->slots()]. *)
Record Tuple := mkTuple {
  null_indicators : list bool;
  slots : list (list Z);
}.

Section Grouping.

(** [reinterpret_cast<StringValue*>(bytes)] read, and [sv->ptr = p] written
    into the bytes. *)
Variable StringValue_at : list Z -> StringValue.
Variable set_ptr : list Z -> Z -> list Z.

(** [ht_ctx_->ExprValue(i)], the bytes at that place, and
    [ht_ctx_->ExprValueNull(i)], for the row the cache is at. *)
Variable ExprValue : nat -> list Z.
Variable ExprValueNull : nat -> bool.

(** [grouping_expr_ctxs_.size()], [string_grouping_exprs_], and
    [slot_desc->slot_size()] of slot [i]. *)
Variable num_grouping_exprs : nat.
Variable string_grouping_exprs_ : list nat.
Variable slot_size : nat -> nat.

(** [int GroupingExprsVarlenSize()]. *)
Definition GroupingExprsVarlenSize : Z :=
  foldl (fun varlen_size expr_idx =>
           let sv := StringValue_at (ExprValue expr_idx) in
           int (varlen_size + int (len sv * (if ExprValueNull expr_idx then 0 else 1))))
        0 string_grouping_exprs_.

(** The body of the first loop of [CopyGroupingValues]. *)
Definition copy_grouping_slot (intermediate_tuple : Tuple) (i : nat) : Tuple :=
  if ExprValueNull i
  then mkTuple (<[ i := true ]> (null_indicators intermediate_tuple))
               (slots intermediate_tuple)
  else mkTuple (null_indicators intermediate_tuple)
               (<[ i := take (slot_size i) (ExprValue i) ]> (slots intermediate_tuple)).

(** The body of the second loop: the tuple, the memory and [buffer]. *)
Definition copy_string_data (st : Tuple * Memory * Z) (expr_idx : nat)
  : Tuple * Memory * Z :=
  let '(intermediate_tuple, m, buffer) := st in
  if ExprValueNull expr_idx then st
  else
    let bytes := default [] (slots intermediate_tuple !! expr_idx) in
    let sv := StringValue_at bytes in
    (mkTuple (null_indicators intermediate_tuple)
             (<[ expr_idx := set_ptr bytes buffer ]> (slots intermediate_tuple)),
     memcpy buffer (ptr sv) (len sv) m,
     buffer + len sv).

(** [void CopyGroupingValues(Tuple* intermediate_tuple, uint8_t* buffer,
    int varlen_size)]; the result is the tuple, the memory and where
    [buffer] has got to. [varlen_size] is not looked at. *)
Definition CopyGroupingValues (intermediate_tuple : Tuple) (buffer varlen_size : Z)
    (m : Memory) : Tuple * Memory * Z :=
  let copied := foldl copy_grouping_slot intermediate_tuple (seq 0 num_grouping_exprs) in
  foldl copy_string_data (copied, m, buffer) string_grouping_exprs_.

End Grouping.
End AggTuple.

(** ** The hash join node (partitioned-hash-join-node.cc) *)

Module Join.
Import Runtime.

Abbreviation HashTable := HashTbl.HashTable.
Abbreviation Stream := Streams.Stream.

(** Modelled from the spec: [PARTITION_FANOUT] is declared in the node's
    header; the spec gives a fan-out of 16. *)
Definition PARTITION_FANOUT : nat := 16.

Record Partition := mkPartition {
  is_closed_ : bool;
  is_spilled_ : bool;
  level_ : Z;
  hash_tbl_ : option HashTable;
  build_rows_ : option Stream;
  probe_rows_ : option Stream;
}.

(** [Partition(state, parent, level)]. *)
Definition new_Partition (lvl : Z) : Partition :=
  mkPartition false false lvl None (Some (Streams.new_stream true))
              (Some (Streams.new_stream true)).

Definition set_is_closed (p : Partition) (b : bool) : Partition :=
  mkPartition b (is_spilled_ p) (level_ p) (hash_tbl_ p) (build_rows_ p) (probe_rows_ p).
Definition set_is_spilled (p : Partition) (b : bool) : Partition :=
  mkPartition (is_closed_ p) b (level_ p) (hash_tbl_ p) (build_rows_ p) (probe_rows_ p).
Definition set_hash_tbl (p : Partition) (h : option HashTable) : Partition :=
  mkPartition (is_closed_ p) (is_spilled_ p) (level_ p) h (build_rows_ p) (probe_rows_ p).
Definition set_build_rows (p : Partition) (s : option Stream) : Partition :=
  mkPartition (is_closed_ p) (is_spilled_ p) (level_ p) (hash_tbl_ p) s (probe_rows_ p).
Definition set_probe_rows (p : Partition) (s : option Stream) : Partition :=
  mkPartition (is_closed_ p) (is_spilled_ p) (level_ p) (hash_tbl_ p) (build_rows_ p) s.

Inductive HashJoinState :=
| PARTITIONING_BUILD | PROCESSING_PROBE | PROBING_SPILLED_PARTITION | REPARTITIONING.

(** What an entry of [hash_tbls_] points at. *)
Inductive TableRef := NoTable | OfHashPartition (i : nat) | OfInputPartition.

Inductive Counter :=
| SpilledPartitions | HashCollisions | NumRepartitions | ProbeRowsPartitioned.

Definition Counter_eqb (a b : Counter) : bool :=
  match a, b with
  | SpilledPartitions, SpilledPartitions | HashCollisions, HashCollisions
  | NumRepartitions, NumRepartitions | ProbeRowsPartitioned, ProbeRowsPartitioned => true
  | _, _ => false
  end.

Record JoinNode := mkJoinNode {
  state_ : HashJoinState;
  ht_ctx_level_ : Z;
  hash_partitions_ : list Partition;
  hash_tbls_ : list TableRef;
  spilled_partitions_ : list Partition;
  input_partition_ : option Partition;
  counters_ : Counter -> Z;
}.

Definition set_state (n : JoinNode) (s : HashJoinState) : JoinNode :=
  mkJoinNode s (ht_ctx_level_ n) (hash_partitions_ n) (hash_tbls_ n)
             (spilled_partitions_ n) (input_partition_ n) (counters_ n).
Definition set_ht_ctx_level (n : JoinNode) (l : Z) : JoinNode :=
  mkJoinNode (state_ n) l (hash_partitions_ n) (hash_tbls_ n)
             (spilled_partitions_ n) (input_partition_ n) (counters_ n).
Definition set_hash_partitions (n : JoinNode) (ps : list Partition) : JoinNode :=
  mkJoinNode (state_ n) (ht_ctx_level_ n) ps (hash_tbls_ n)
             (spilled_partitions_ n) (input_partition_ n) (counters_ n).
Definition set_hash_tbls (n : JoinNode) (hs : list TableRef) : JoinNode :=
  mkJoinNode (state_ n) (ht_ctx_level_ n) (hash_partitions_ n) hs
             (spilled_partitions_ n) (input_partition_ n) (counters_ n).
Definition set_spilled_partitions (n : JoinNode) (ps : list Partition) : JoinNode :=
  mkJoinNode (state_ n) (ht_ctx_level_ n) (hash_partitions_ n) (hash_tbls_ n)
             ps (input_partition_ n) (counters_ n).
Definition set_input_partition (n : JoinNode) (p : option Partition) : JoinNode :=
  mkJoinNode (state_ n) (ht_ctx_level_ n) (hash_partitions_ n) (hash_tbls_ n)
             (spilled_partitions_ n) p (counters_ n).
Definition set_counters (n : JoinNode) (c : Counter -> Z) : JoinNode :=
  mkJoinNode (state_ n) (ht_ctx_level_ n) (hash_partitions_ n) (hash_tbls_ n)
             (spilled_partitions_ n) (input_partition_ n) c.

Definition COUNTER_ADD (c : Counter) (v : Z) (n : JoinNode) : JoinNode :=
  set_counters n (fun c' => if Counter_eqb c' c then counters_ n c' + v else counters_ n c').

Definition St : Type := JoinNode * World.

Definition get_node : Exec St JoinNode := fun st => (inr (fst st), st).
Definition get_world : Exec St World := fun st => (inr (snd st), st).
Definition put_node (n : JoinNode) : Exec St unit := fun st => (inr tt, (n, snd st)).
Definition put_world (w : World) : Exec St unit := fun st => (inr tt, (fst st, w)).
Definition modify_node (f : JoinNode -> JoinNode) : Exec St unit :=
  fun st => (inr tt, (f (fst st), snd st)).
Definition modify_world (f : World -> World) : Exec St unit :=
  fun st => (inr tt, (fst st, f (snd st))).

(** A partition the node points to: an element of [hash_partitions_] or
    [input_partition_]. *)
Inductive PartitionRef := HashPartition (i : nat) | InputPartition.

Definition get_partition (r : PartitionRef) : Exec St Partition :=
  fun st =>
    (inr (default (new_Partition 0)
            match r with
            | HashPartition i => hash_partitions_ (fst st) !! i
            | InputPartition => input_partition_ (fst st)
            end), st).

Definition put_partition (r : PartitionRef) (p : Partition) : Exec St unit :=
  modify_node (fun n =>
    match r with
    | HashPartition i => set_hash_partitions n (<[ i := p ]> (hash_partitions_ n))
    | InputPartition => set_input_partition n (Some p)
    end).

Section Members.

Variable sizeof_Bucket : Z.
Variable HashTable_ByteSize : HashTable -> Z.
Variable bytes_in_mem : bool -> Stream -> Z.

(** A [RowBatch], as far as [Partition::Close] uses it: the tuple streams
    whose ownership it has taken. *)
Definition RowBatch : Type := list Stream.

(** [void Partition::Close(RowBatch* batch)]; the number of hash collisions
    goes to the parent's counter, the streams to [batch] when there is one. *)
Definition Partition_Close (batch : option RowBatch) (p : Partition) (n : JoinNode)
    (w : World) : Partition * option RowBatch * JoinNode * World :=
  if is_closed_ p then (p, batch, n, w)
  else
    let p1 := set_is_closed p true in
    let '(p2, n1, w1) :=
      match hash_tbl_ p1 with
      | Some ht =>
          let '(ht', w') := HashTbl.Close sizeof_Bucket ht w in
          (set_hash_tbl p1 (Some ht'),
           COUNTER_ADD HashCollisions (HashTbl.NumHashCollisions ht) n, w')
      | None => (p1, n, w)
      end in
    let transfer (b : option RowBatch) (o : option Stream) : option RowBatch :=
      match o, b with
      | Some s, Some streams => Some (streams ++ [s])
      | _, _ => b
      end in
    let batch1 := transfer batch (build_rows_ p2) in
    let p3 := set_build_rows p2 None in
    let batch2 := transfer batch1 (probe_rows_ p3) in
    let p4 := set_probe_rows p3 None in
    (p4, batch2, n1, w1).

(** [Status Partition::Spill(bool unpin_all_build)]. *)
Definition Partition_Spill (r : PartitionRef) (unpin_all_build : bool) : Exec St unit :=
  p <- get_partition r ;;
  w <- get_world ;;
  (* Close the hash table as soon as possible to release memory. *)
  let '(p1, w1) :=
    match hash_tbl_ p with
    | Some ht => (set_hash_tbl p None, snd (HashTbl.Close sizeof_Bucket ht w))
    | None => (p, w)
    end in
  put_world w1 ;;; put_partition r p1 ;;;
  let build := default (Streams.new_stream true) (build_rows_ p1) in
  let '(s1, got_buffer, build1, w2) :=
    if Streams.using_small_buffers build then Streams.SwitchToIoBuffers build w1
    else (OK, true, build, w1) in
  put_world w2 ;;; put_partition r (set_build_rows p1 (Some build1)) ;;;
  check s1 ;;;
  let '(s2, build2, w3) := Streams.UnpinStream unpin_all_build build1 w2 in
  let p2 := set_build_rows p1 (Some build2) in
  put_world w3 ;;; put_partition r p2 ;;;
  check s2 ;;;
  let probe := default (Streams.new_stream true) (probe_rows_ p2) in
  let '(s3, got_buffer', probe1, w4) :=
    if got_buffer && Streams.using_small_buffers probe
    then Streams.SwitchToIoBuffers probe w3
    else (OK, got_buffer, probe, w3) in
  let p3 := set_probe_rows p2 (Some probe1) in
  put_world w4 ;;; put_partition r p3 ;;;
  check s3 ;;;
  (if negb (is_spilled_ p3) then modify_node (COUNTER_ADD SpilledPartitions 1) else ret tt) ;;;
  put_partition r (set_is_spilled p3 true).

(** The memory [SpillPartition] counts for a candidate. *)
Definition spill_mem (candidate : Partition) : Z :=
  match build_rows_ candidate with Some s => bytes_in_mem false s | None => 0 end
  + match hash_tbl_ candidate with Some ht => HashTable_ByteSize ht | None => 0 end.

(** The selection loop of [SpillPartition], from index [i] on. *)
Fixpoint SpillPartition_pick (ps : list Partition) (i : Z)
    (max_freed_mem partition_idx : Z) : Z :=
  match ps with
  | [] => partition_idx
  | candidate :: rest =>
      if is_closed_ candidate then SpillPartition_pick rest (i + 1) max_freed_mem partition_idx
      else if is_spilled_ candidate
      then SpillPartition_pick rest (i + 1) max_freed_mem partition_idx
      else if match hash_tbl_ candidate with
              | Some ht => HashTbl.HasMatches ht   (* IMPALA-1488 *)
              | None => false
              end
      then SpillPartition_pick rest (i + 1) max_freed_mem partition_idx
      else
        let mem := spill_mem candidate in
        if max_freed_mem <? mem
        then SpillPartition_pick rest (i + 1) mem i
        else SpillPartition_pick rest (i + 1) max_freed_mem partition_idx
  end.

(** [Status PartitionedHashJoinNode::SpillPartition(Partition** spilled_partition)];
    the value is the index of the partition that was spilled. *)
Definition SpillPartition : Exec St nat :=
  n <- get_node ;;
  let partition_idx := SpillPartition_pick (hash_partitions_ n) 0 0 (-1) in
  if partition_idx =? -1 then raise MemLimitTooLowError
  else
    Partition_Spill (HashPartition (Z.to_nat partition_idx)) false ;;;
    modify_node (fun n => set_hash_tbls n (<[ Z.to_nat partition_idx := NoTable ]> (hash_tbls_ n))) ;;;
    ret (Z.to_nat partition_idx).

Definition stream_rows (o : option Stream) : Z :=
  match o with Some s => Streams.num_rows s | None => 0 end.

(** [int64_t PartitionedHashJoinNode::LargestSpilledPartition() const]. *)
Definition LargestSpilledPartition (n : JoinNode) : Z :=
  foldl (fun max_rows partition =>
           if is_closed_ partition || negb (is_spilled_ partition) then max_rows
           else
             let rows := stream_rows (build_rows_ partition)
                         + stream_rows (probe_rows_ partition) in
             if max_rows <? rows then rows else max_rows)
        0 (hash_partitions_ n).

(** Collaborators of [PrepareNextPartition]: [PrepareForRead] on the probe
    stream of the input partition (status, [got_read_buffer]); whether
    [EstimatedInMemSize()] is below [mem_tracker()->SpareCapacity()];
    [Partition::BuildHashTable] on the input partition, whose loop runs
    [InsertBatch] of the IR file; and [ProcessBuildInput], whose loop runs
    [ProcessBuildBatch] of the IR file. *)
Variable PrepareForRead_probe : Exec St bool.
Variable estimate_fits : JoinNode -> World -> bool.
Variable BuildHashTable : Exec St bool.
Variable ProcessBuildInput : Z -> Exec St unit.

(** The end of the repartitioning branch of [PrepareNextPartition]. *)
Definition check_reduction (num_input_rows : Z) : Exec St unit :=
  n <- get_node ;;
  let largest_partition := LargestSpilledPartition n in
  if num_input_rows =? largest_partition then
    modify_world SetMemLimitExceeded ;;;
    raise (MemLimitExceeded RepartitionNoReduction)
  else ret tt.

(** The repartitioning branch of [PrepareNextPartition], up to the point
    where the build rows of the input partition have been partitioned one
    level down; the value is [num_input_rows]. The status of
    [input_partition_->Spill(false)] is dropped by the caller. *)
Definition repartition_build_input : Exec St Z :=
  modify_node (fun n => set_state n REPARTITIONING) ;;;
  (fun st => (inr tt, snd (Partition_Spill InputPartition false st))) ;;;
  input <- get_partition InputPartition ;;
  modify_node (fun n => set_ht_ctx_level n (level_ input + 1)) ;;;
  let num_input_rows := stream_rows (build_rows_ input) in
  ProcessBuildInput (level_ input + 1) ;;;
  ret num_input_rows.

(** The whole branch: the largest spilled child is compared with the input. *)
Definition repartition_input : Exec St unit :=
  num_input_rows <- repartition_build_input ;;
  check_reduction num_input_rows.

(** [Status PartitionedHashJoinNode::PrepareNextPartition(RuntimeState* state)]. *)
Definition PrepareNextPartition : Exec St unit :=
  n <- get_node ;;
  match spilled_partitions_ n with
  | [] => ret tt
  | front :: rest =>
      put_node (set_spilled_partitions (set_input_partition n (Some front)) rest) ;;;
      got_read_buffer <- PrepareForRead_probe ;;
      (if negb got_read_buffer then raise (MemLimitExceeded PrepareForReadFailed) else ret tt) ;;;
      modify_node (fun n => set_ht_ctx_level n (level_ front)) ;;;
      n1 <- get_node ;;
      w1 <- get_world ;;
      built <- (if estimate_fits n1 w1 then BuildHashTable else ret false) ;;
      (if negb built then
         (* This build partition still does not fit in memory, repartition. *)
         repartition_input
       else
         modify_node (fun n => set_hash_tbls n (replicate PARTITION_FANOUT OfInputPartition)) ;;;
         modify_node (fun n => set_state n PROBING_SPILLED_PARTITION)) ;;;
      modify_node (COUNTER_ADD NumRepartitions 1) ;;;
      input <- get_partition InputPartition ;;
      modify_node (COUNTER_ADD ProbeRowsPartitioned (stream_rows (probe_rows_ input)))
  end.

End Members.

End Join.

(** ** The hash join node: retry loops *)

Module JoinMore.
Import Runtime Join.

(** How a loop of the model ends: the loop of the source has been left, the
    fuel of the model is spent, or the source dereferences a null pointer,
    which is undefined. *)
Inductive Ending := Returned | FuelSpent | Undefined.

(** A [BufferedTupleStream*] that points into [hash_partitions_]. *)
Inductive StreamRef :=
| BuildRows (i : nat)     (* [hash_partitions_[i]->build_rows()] *)
| ProbeRows (i : nat).    (* [hash_partitions_[i]->probe_rows()] *)

Definition stream_of (n : JoinNode) (r : StreamRef) : Stream :=
  match r with
  | BuildRows i =>
      default (Streams.new_stream true)
              (build_rows_ (default (new_Partition 0) (hash_partitions_ n !! i)))
  | ProbeRows i =>
      default (Streams.new_stream true)
              (probe_rows_ (default (new_Partition 0) (hash_partitions_ n !! i)))
  end.

Definition with_stream (n : JoinNode) (r : StreamRef) (s : Stream) : JoinNode :=
  match r with
  | BuildRows i =>
      set_hash_partitions n
        (<[ i := set_build_rows (default (new_Partition 0) (hash_partitions_ n !! i))
                                (Some s) ]> (hash_partitions_ n))
  | ProbeRows i =>
      set_hash_partitions n
        (<[ i := set_probe_rows (default (new_Partition 0) (hash_partitions_ n !! i))
                                (Some s) ]> (hash_partitions_ n))
  end.

Section Members.

Variable sizeof_Bucket : Z.
Variable HashTable_ByteSize : HashTable -> Z.
Variable bytes_in_mem : bool -> Stream -> Z.

Abbreviation SpillPartition :=
  (Join.SpillPartition sizeof_Bucket HashTable_ByteSize bytes_in_mem).

(** [stream->AddRow(row, status)] on a stream of the node. *)
Definition add_row (stream : StreamRef) (st : St) : bool * Status * St :=
  let '(added, status, s', w') := Streams.AddRow (stream_of (fst st) stream) (snd st) in
  (added, status, (with_stream (fst st) stream s', w')).

(** The end of a round of [AppendRowStreamFull]: a partition is spilled and
    the row is tried again. *)
Definition spill_and_add (stream : StreamRef) (st : St) : option bool * Status * St :=
  match SpillPartition st with
  | (inl status, st1) => (Some false, status, st1)
  | (inr _, st1) =>
      let '(added, status, st2) := add_row stream st1 in
      if added then (Some true, status, st2) else (None, status, st2)
  end.

(** The start of a round: a stream that still uses small buffers is
    switched to IO buffers and, with a buffer, the row is tried. *)
Definition switch_and_add (stream : StreamRef) (status : Status) (st : St)
  : option bool * Status * St :=
  let s := stream_of (fst st) stream in
  if Streams.using_small_buffers s then
    let '(status1, got_buffer, s1, w1) := Streams.SwitchToIoBuffers s (snd st) in
    let st1 := (with_stream (fst st) stream s1, w1) in
    if negb (ok status1) then (Some false, status1, st1)
    else if got_buffer then
      let '(added, status2, st2) := add_row stream st1 in
      if added then (Some true, status2, st2)
      else if negb (ok status2) then (Some false, status2, st2)
      else (None, status2, st2)
    else (None, status1, st1)
  else (None, status, st).

(** [bool PartitionedHashJoinNode::AppendRowStreamFull(BufferedTupleStream* stream,
    TupleRow* row, Status* status)]: what it returns, if it returns within
    [fuel] rounds, and [*status]. *)
Fixpoint AppendRowStreamFull (fuel : nat) (stream : StreamRef) (status : Status) (st : St)
  : option bool * Status * St :=
  match fuel with
  | O => (None, status, st)
  | S fuel' =>
      if negb (ok status) then (Some false, status, st)
      else
        match switch_and_add stream status st with
        | (Some b, status1, st1) => (Some b, status1, st1)
        | (None, _, st1) =>
            (* We ran out of memory. Pick a partition to spill. *)
            match spill_and_add stream st1 with
            | (Some b, status2, st2) => (Some b, status2, st2)
            | (None, status2, st2) => AppendRowStreamFull fuel' stream status2 st2
            end
        end
  end.

(** [for (Partition* partition: hash_partitions_)], by index, leaving at
    the first error. *)
Fixpoint for_each (l : list nat) (body : nat -> Exec St unit) : Exec St unit :=
  match l with
  | [] => ret tt
  | i :: rest => body i ;;; for_each rest body
  end.

(** [Partition::BuildHashTable] on [hash_partitions_[i]], whose loop runs
    [InsertBatch] of the IR file; the value is [built]. *)
Variable Partition_BuildHashTable : nat -> Exec St bool.

(** The body of the first loop of [BuildHashTables]. *)
Definition build_or_spill (i : nat) : Exec St unit :=
  partition <- get_partition (HashPartition i) ;;
  if stream_rows (build_rows_ partition) =? 0 then
    (* This partition is empty, no need to do anything else. *)
    n <- get_node ;;
    w <- get_world ;;
    let '(partition', _, n', w') := Partition_Close sizeof_Bucket None partition n w in
    put_node n' ;;; put_world w' ;;; put_partition (HashPartition i) partition'
  else if negb (is_spilled_ partition) then
    built <- Partition_BuildHashTable i ;;
    if negb built then Partition_Spill sizeof_Bucket (HashPartition i) true else ret tt
  else ret tt.

Definition probe_of (p : Partition) : Stream :=
  default (Streams.new_stream true) (probe_rows_ p).

(** The spilled partitions that don't have an IO buffer. *)
Definition needs_io_buffer (p : Partition) : bool :=
  negb (is_closed_ p) && (is_spilled_ p && Streams.using_small_buffers (probe_of p)).

Fixpoint collect (ps : list Partition) (i : nat) : list nat :=
  match ps with
  | [] => []
  | p :: rest => if needs_io_buffer p then i :: collect rest (S i) else collect rest (S i)
  end.

(** [while (!spilled_partitions.empty())] with its inner [while (true)]:
    the partition at the front stays at the front until its probe stream
    has got an IO buffer; a partition that [SpillPartition] spills and
    whose probe stream uses small buffers goes to the back. *)
Fixpoint reserve_io_buffers (fuel : nat) (spilled_partitions : list nat) : Exec St Ending :=
  match fuel with
  | O => ret FuelSpent
  | S fuel' =>
      match spilled_partitions with
      | [] => ret Returned
      | partition :: rest =>
          p <- get_partition (HashPartition partition) ;;
          w <- get_world ;;
          let '(status, got_buffer, probe', w') :=
            Streams.SwitchToIoBuffers (probe_of p) w in
          put_world w' ;;;
          put_partition (HashPartition partition) (set_probe_rows p (Some probe')) ;;;
          check status ;;;
          if got_buffer then reserve_io_buffers fuel' rest
          else
            k <- SpillPartition ;;
            spilled_partition <- get_partition (HashPartition k) ;;
            reserve_io_buffers fuel'
              (partition :: if Streams.using_small_buffers (probe_of spilled_partition)
                            then rest ++ [k] else rest)
      end
  end.

(** [if (partition->hash_tbl() != NULL) partition->probe_rows()->Close();] *)
Definition close_probe (p : Partition) : Partition :=
  match hash_tbl_ p with
  | Some _ => set_probe_rows p (Some (Streams.Close (probe_of p)))
  | None => p
  end.

(** A closed partition has given up its streams: closing the probe stream
    of one that has kept its hash table goes through a null pointer. *)
Definition probe_missing (p : Partition) : bool :=
  match hash_tbl_ p, probe_rows_ p with
  | Some _, None => true
  | _, _ => false
  end.

Definition table_ref (ps : list Partition) (i : nat) : TableRef :=
  match hash_tbl_ (default (new_Partition 0) (ps !! i)) with
  | Some _ => OfHashPartition i
  | None => NoTable
  end.

(** [Status PartitionedHashJoinNode::BuildHashTables(RuntimeState* state)]. *)
Definition BuildHashTables (fuel : nat) : Exec St Ending :=
  n <- get_node ;;
  for_each (seq 0 (length (hash_partitions_ n))) build_or_spill ;;;
  n1 <- get_node ;;
  e <- reserve_io_buffers fuel (collect (hash_partitions_ n1) 0) ;;
  match e with
  | Returned =>
      n2 <- get_node ;;
      if existsb probe_missing (hash_partitions_ n2) then ret Undefined
      else
        modify_node (fun n => set_hash_partitions n (map close_probe (hash_partitions_ n))) ;;;
        n3 <- get_node ;;
        (* Initialize the hash_tbl_ caching array. *)
        put_node (set_hash_tbls n3 (map (table_ref (hash_partitions_ n3))
                                        (seq 0 PARTITION_FANOUT))) ;;;
        ret Returned
  | _ => ret e
  end.

End Members.

End JoinMore.

(** ** The hash join node: the end of the probe phase
       (partitioned-hash-join-node.cc, lines 1365-1456) *)

Module JoinCleanUp.
Import Runtime Join.

(** [TJoinOp], as far as the node names its values. *)
Inductive TJoinOp :=
| INNER_JOIN | LEFT_OUTER_JOIN | LEFT_SEMI_JOIN | LEFT_ANTI_JOIN
| NULL_AWARE_LEFT_ANTI_JOIN
| RIGHT_OUTER_JOIN | RIGHT_SEMI_JOIN | RIGHT_ANTI_JOIN | FULL_OUTER_JOIN.

(** The statuses the two functions return: OK, a status handed up by a
    stream, and [NullAwareAntiJoinError(build)]. *)
Inductive Outcome :=
| Ok
| Error (s : Status)
| NullAwareAntiJoinError (build : bool).

(** The node with the members the clean-up works on, next to those of
    [Join.JoinNode]. [hash_tbl_iterator_] is kept as what [FirstUnmatched]
    has answered. *)
Record Node := mkNode {
  join : JoinNode;
  join_op_ : TJoinOp;
  output_build_partitions_ : list Partition;
  hash_tbl_iterator_ : option Z;
  null_probe_rows_ : option Stream;
  matched_null_probe_ : list bool;
}.

Definition set_join (nd : Node) (n : JoinNode) : Node :=
  mkNode n (join_op_ nd) (output_build_partitions_ nd) (hash_tbl_iterator_ nd)
         (null_probe_rows_ nd) (matched_null_probe_ nd).
Definition set_output_build_partitions (nd : Node) (ps : list Partition) : Node :=
  mkNode (join nd) (join_op_ nd) ps (hash_tbl_iterator_ nd)
         (null_probe_rows_ nd) (matched_null_probe_ nd).
Definition set_hash_tbl_iterator (nd : Node) (it : option Z) : Node :=
  mkNode (join nd) (join_op_ nd) (output_build_partitions_ nd) it
         (null_probe_rows_ nd) (matched_null_probe_ nd).
Definition set_null_probe_rows (nd : Node) (s : option Stream) : Node :=
  mkNode (join nd) (join_op_ nd) (output_build_partitions_ nd) (hash_tbl_iterator_ nd)
         s (matched_null_probe_ nd).
Definition set_matched_null_probe (nd : Node) (m : list bool) : Node :=
  mkNode (join nd) (join_op_ nd) (output_build_partitions_ nd) (hash_tbl_iterator_ nd)
         (null_probe_rows_ nd) m.

(** [Status GetRows(scoped_ptr<RowBatch>* batch, bool* got_rows)] of the
    stream: the rows are handed out, or they do not fit in memory, or the
    stream reports an error. *)
Definition GetRows (s : Stream) (w : World) : Status * bool * World :=
  match ask w with
  | (Yes, w') => (OK, true, w')
  | (No, w') => (OK, false, w')
  | (Fail, w') => (CollaboratorError, false, w')
  end.

Section CleanUp.

Variable sizeof_Bucket : Z.

(** The rows of a stream as [GetRows] hands them out, and
    [CreateOutputRow(semi_join_staging_row_, probe_row, build_row)] followed
    by [EvalConjuncts] on the staging row. *)
Variable TupleRow : Type.
Variable rows_of : Stream -> list TupleRow.
Variable EvalConjuncts : TupleRow -> TupleRow -> bool.

(** [hash_tbl_->FirstUnmatched(ht_ctx_.get())]. *)
Variable FirstUnmatched : HashTable -> Z.

(** The inner loop of [EvaluateNullProbe]: the build rows in turn, until
    one satisfies the conjuncts. *)
Fixpoint some_build_row_matches (probe_row : TupleRow) (build_rows : list TupleRow) : bool :=
  match build_rows with
  | [] => false
  | build_row :: rest =>
      if EvalConjuncts probe_row build_row then true
      else some_build_row_matches probe_row rest
  end.

(** The outer loop, from probe row [i] on. *)
Fixpoint match_null_probe (probe_rows build_rows : list TupleRow) (i : nat)
    (matched : list bool) : list bool :=
  match probe_rows with
  | [] => matched
  | probe_row :: rest =>
      if (matched !!! i : bool) then match_null_probe rest build_rows (S i) matched
      else if some_build_row_matches probe_row build_rows
           then match_null_probe rest build_rows (S i) (<[ i := true ]> matched)
           else match_null_probe rest build_rows (S i) matched
  end.

(** [Status EvaluateNullProbe(BufferedTupleStream* build)]. *)
Definition EvaluateNullProbe (build : Stream) (nd : Node) (w : World)
  : Outcome * Node * World :=
  match null_probe_rows_ nd with
  | None => (Ok, nd, w)
  | Some null_probe_rows =>
      if Streams.num_rows null_probe_rows =? 0 then (Ok, nd, w)
      else
        match GetRows build w with
        | (OK, true, w1) =>
            match GetRows null_probe_rows w1 with
            | (OK, true, w2) =>
                (Ok,
                 set_matched_null_probe nd
                   (match_null_probe (rows_of null_probe_rows) (rows_of build) 0
                      (matched_null_probe_ nd)),
                 w2)
            | (OK, false, w2) => (NullAwareAntiJoinError false, nd, w2)
            | (s, _, w2) => (Error s, nd, w2)
            end
        | (OK, false, w1) => (NullAwareAntiJoinError true, nd, w1)
        | (s, _, w1) => (Error s, nd, w1)
        end
  end.

Definition put_hash_partition (nd : Node) (i : nat) (p : Partition) : Node :=
  set_join nd (set_hash_partitions (join nd) (<[ i := p ]> (hash_partitions_ (join nd)))).

Definition keeps_build_rows (op : TJoinOp) : bool :=
  match op with
  | RIGHT_OUTER_JOIN | RIGHT_ANTI_JOIN | FULL_OUTER_JOIN => true
  | _ => false
  end.

(** [partition->Close(batch)] for the partition [hash_partitions_[i]]. *)
Definition close_hash_partition (i : nat) (partition : Partition) (nd : Node)
    (batch : option RowBatch) (w : World) : Node * option RowBatch * World :=
  let '(p', batch', n', w') := Partition_Close sizeof_Bucket batch partition (join nd) w in
  (put_hash_partition (set_join nd n') i p', batch', w').

(** The body of the loop of [CleanUpHashPartitions] for the index [i]. *)
Definition clean_up_partition (i : nat) (nd : Node) (batch : option RowBatch) (w : World)
  : Outcome * Node * option RowBatch * World :=
  match hash_partitions_ (join nd) !! i with
  | None => (Ok, nd, batch, w)
  | Some partition =>
      if is_closed_ partition then (Ok, nd, batch, w)
      else if is_spilled_ partition then
        let build := default (Streams.new_stream true) (build_rows_ partition) in
        let '(s1, build1, w1) := Streams.UnpinStream true build w in
        let p1 := set_build_rows partition (Some build1) in
        if negb (ok s1) then (Error s1, put_hash_partition nd i p1, batch, w1)
        else
          let probe := default (Streams.new_stream true) (probe_rows_ p1) in
          let '(s2, probe1, w2) := Streams.UnpinStream true probe w1 in
          let p2 := set_probe_rows p1 (Some probe1) in
          if negb (ok s2) then (Error s2, put_hash_partition nd i p2, batch, w2)
          else
            let nd1 := put_hash_partition nd i p2 in
            (Ok,
             set_join nd1 (set_spilled_partitions (join nd1)
                             (p2 :: spilled_partitions_ (join nd1))),
             batch, w2)
      else if keeps_build_rows (join_op_ nd) then
        let nd1 :=
          match output_build_partitions_ nd with
          | [] => set_hash_tbl_iterator nd (option_map FirstUnmatched (hash_tbl_ partition))
          | _ => nd
          end in
        (Ok, set_output_build_partitions nd1 (output_build_partitions_ nd1 ++ [partition]),
         batch, w)
      else
        match join_op_ nd with
        | NULL_AWARE_LEFT_ANTI_JOIN =>
            let build := default (Streams.new_stream true) (build_rows_ partition) in
            match EvaluateNullProbe build nd w with
            | (Ok, nd1, w1) =>
                let '(nd2, batch2, w2) := close_hash_partition i partition nd1 batch w1 in
                (Ok, nd2, batch2, w2)
            | (s, nd1, w1) => (s, nd1, batch, w1)
            end
        | _ =>
            let '(nd2, batch2, w2) := close_hash_partition i partition nd batch w in
            (Ok, nd2, batch2, w2)
        end
  end.

(** [for (int i = 0; i < hash_partitions_.size(); ++i)], over the indexes
    [is]; an error ends it. *)
Fixpoint clean_up_each (indexes : list nat) (nd : Node) (batch : option RowBatch) (w : World)
  : Outcome * Node * option RowBatch * World :=
  match indexes with
  | [] => (Ok, nd, batch, w)
  | i :: rest =>
      match clean_up_partition i nd batch w with
      | (Ok, nd', batch', w') => clean_up_each rest nd' batch' w'
      | failed => failed
      end
  end.

(** [Status CleanUpHashPartitions(RowBatch* batch)]. [UnpinStream()] of the
    stream of NULL probe rows leaves the block being written pinned. *)
Definition CleanUpHashPartitions (batch : option RowBatch) (nd : Node) (w : World)
  : Outcome * Node * option RowBatch * World :=
  match clean_up_each (seq 0 (length (hash_partitions_ (join nd)))) nd batch w with
  | (Ok, nd1, batch1, w1) =>
      let '(s, nd2, w2) :=
        match null_probe_rows_ nd1 with
        | Some null_probe_rows =>
            let '(s, stream, w2) := Streams.UnpinStream false null_probe_rows w1 in
            (s, set_null_probe_rows nd1 (Some stream), w2)
        | None => (OK, nd1, w1)
        end in
      if negb (ok s) then (Error s, nd2, batch1, w2)
      else
        (Ok,
         set_join nd2 (set_input_partition (set_hash_partitions (join nd2) []) None),
         batch1, w2)
  | failed => failed
  end.

End CleanUp.
End JoinCleanUp.

(** ** Decimal operators: scaling and rounding
       (decimal-operators-ir.cc, lines 34-41, 105-229 and 348-421) *)

Module Decimal.

(** A signed integer of [bits] bits. *)
Definition wrap (bits z : Z) : Z := (z + 2 ^ (bits - 1)) mod 2 ^ bits - 2 ^ (bits - 1).
Definition int32 : Z -> Z := wrap 32.
Definition int128 : Z -> Z := wrap 128.

(** The width in bits of [int32_t], [int64_t] and [int128_t], by the byte
    size of the decimal type. *)
Definition bits_of (byte_size : Z) : Z := 8 * byte_size.

(** [enum DecimalRoundOp] of [exprs/decimal-operators.h]. *)
Inductive DecimalRoundOp := TRUNCATE | FLOOR | CEIL | ROUND.

Definition is_op (a b : DecimalRoundOp) : bool :=
  match a, b with
  | TRUNCATE, TRUNCATE | FLOOR, FLOOR | CEIL, CEIL | ROUND, ROUND => true
  | _, _ => false
  end.

(** A [DecimalVal]: [is_null], or the unscaled value, which is read through
    [val4], [val8] or [val16] according to the byte size of its type. *)
Definition DecimalVal : Type := option Z.

(** What a function hands back: the value, and whether it has called
    [context->AddWarning("Expression overflowed, returning NULL")]. *)
Definition Outcome : Type := (DecimalVal * bool)%type.

Section Operators.

(** [ColumnType::GetDecimalByteSize(precision)] of [runtime/types.h]. *)
Variable GetDecimalByteSize : Z -> Z.

(** [DecimalUtil::GetScaleMultiplier<T>(scale)] of [util/decimal-util.h],
    for the [T] of the given byte size; "10^delta_scale", as [RoundDelta]
    says where it calls it. *)
Variable GetScaleMultiplier : Z -> Z -> Z.

(** [DecimalUtil::MAX_UNSCALED_DECIMAL16]. *)
Variable MAX_UNSCALED_DECIMAL16 : Z.

(** [DecimalValue<T>::ScaleTo(src_scale, dst_scale, dst_precision, &overflow)]
    and [ToDecimal4], [ToDecimal8], [ToDecimal16] of
    [runtime/decimal-value.inline.h]: they are given the byte size of [T]
    (the sizes of the argument and of the result for a conversion), the
    value and the flag [overflow] as it stands, and hand back the new value
    and the flag. *)
Variable ScaleTo : Z -> Z -> Z -> Z -> Z -> bool -> Z * bool.
Variable ToDecimal : Z -> Z -> Z -> bool -> Z * bool.

(** [RETURN_IF_OVERFLOW(context, overflow); return DecimalVal(v);]. *)
Definition return_unless_overflow (r : Z * bool) : Outcome :=
  if snd r then (None, true) else (Some (fst r), false).

(** The three overloads of [ScaleDecimalValue(context, val, val_scale,
    output_precision, output_scale)], for a [Decimal4Value], a
    [Decimal8Value] and a [Decimal16Value]; [val_byte_size] tells which.
    Towards a smaller type the scale is adjusted first, towards a larger
    one the value is converted first. *)
Definition ScaleDecimalValue (val_byte_size val val_scale output_precision output_scale : Z)
  : Outcome :=
  let overflow := false in
  let out := GetDecimalByteSize output_precision in
  if (out =? 4) || (out =? 8) || (out =? 16) then
    if val_byte_size <? out then
      let '(converted, overflow) := ToDecimal val_byte_size out val overflow in
      return_unless_overflow
        (ScaleTo out converted val_scale output_scale output_precision overflow)
    else if val_byte_size =? out then
      return_unless_overflow
        (ScaleTo out val val_scale output_scale output_precision overflow)
    else
      let '(scaled_val, overflow) :=
        ScaleTo val_byte_size val val_scale output_scale output_precision overflow in
      return_unless_overflow (ToDecimal val_byte_size out scaled_val overflow)
  else (None, false).

(** [template <typename T> T RoundDelta(const DecimalValue<T>& v,
    int src_scale, int target_scale, const DecimalRoundOp& op)], for the
    [T] of [byte_size] bytes. [%] and [/] truncate towards zero. No
    intermediate value is larger in magnitude than [v] or the multiplier. *)
Definition RoundDelta (byte_size v src_scale target_scale : Z) (op : DecimalRoundOp) : Z :=
  if is_op op TRUNCATE then 0
  else if src_scale <=? target_scale then 0
  else if (0 <? v) && is_op op FLOOR then 0
  else if (v <? 0) && is_op op CEIL then 0
  else
    let delta_scale := src_scale - target_scale in
    let trailing_base := GetScaleMultiplier byte_size delta_scale in
    let trailing_digits := Z.rem v trailing_base in
    if trailing_digits =? 0 then 0
    else if is_op op CEIL then 1
    else if is_op op FLOOR then -1
    else if Z.abs trailing_digits <? Z.quot trailing_base 2 then 0
    else if v <? 0 then -1 else 1.

(** The second [switch] of [RoundDecimalNegativeScale]: the value that the
    cast has produced is rounded in place. *)
Definition round_in_place (byte_size result rounding_scale : Z) (op : DecimalRoundOp)
  : Outcome :=
  let d := RoundDelta byte_size result 0 (int32 (- rounding_scale)) op in
  let base := GetScaleMultiplier byte_size rounding_scale in
  if (byte_size =? 4) || (byte_size =? 8) then
    let T := wrap (bits_of byte_size) in
    let result1 := T (result - Z.rem result base) in
    (Some (T (result1 + T (d * base))), false)
  else if byte_size =? 16 then
    let delta := int128 (int128 (d * base) - Z.rem result base) in
    if int128 (MAX_UNSCALED_DECIMAL16 - Z.abs delta) <? Z.abs result
    then (None, true)
    else (Some (int128 (result + delta)), false)
  else (None, false).

(** [DecimalVal RoundDecimalNegativeScale(context, val, val_precision,
    val_scale, output_precision, output_scale, op, rounding_scale)]. *)
Definition RoundDecimalNegativeScale (val : DecimalVal)
    (val_precision val_scale output_precision output_scale : Z)
    (op : DecimalRoundOp) (rounding_scale : Z) : Outcome :=
  match val with
  | None => (None, false)
  | Some v =>
      let size := GetDecimalByteSize val_precision in
      if (size =? 4) || (size =? 8) || (size =? 16) then
        match ScaleDecimalValue size v val_scale output_precision output_scale with
        | (None, warned) => (None, warned)
        | (Some result, _) =>
            round_in_place (GetDecimalByteSize output_precision) result rounding_scale op
        end
      else (None, false)
  end.

End Operators.
End Decimal.

(** * Part II: properties *)

(** ** Arithmetic of [uint32_t] *)

Lemma uint32_range z : 0 <= uint32 z < 2 ^ 32.
Proof. unfold uint32. apply Z.mod_pos_bound. lia. Qed.

Lemma uint32_mul_idemp_l a b : uint32 (uint32 a * b) = uint32 (a * b).
Proof. unfold uint32. now rewrite Z.mul_mod_idemp_l by lia. Qed.

Lemma uint32_mul_idemp_r a b : uint32 (a * uint32 b) = uint32 (a * b).
Proof. unfold uint32. now rewrite Z.mul_mod_idemp_r by lia. Qed.

(** Powers of two against odd factors: if [2^n] divides [s * d] and [d] is
    not a multiple of [2^(m+1)], then [2^(n-m)] divides [s]. *)

Lemma odd_divide_cancel (n : nat) :
  forall s d : Z,
    Z.odd d = true -> (2 ^ Z.of_nat n | s * d) -> (2 ^ Z.of_nat n | s).
Proof.
  induction n as [|n IH]; intros s d Hodd Hdiv.
  - exists s. change (2 ^ Z.of_nat 0) with 1. lia.
  - rewrite Nat2Z.inj_succ, Z.pow_succ_r in * by lia.
    assert (Hn : (2 ^ Z.of_nat n | s * d)).
    { destruct Hdiv as [k Hk]. exists (2 * k). lia. }
    destruct (IH s d Hodd Hn) as [k ->].
    assert (Hk : Z.even (k * d) = true).
    { destruct Hdiv as [q Hq]. apply Z.even_spec. exists q.
      assert (0 < 2 ^ Z.of_nat n) by (apply Z.pow_pos_nonneg; lia). nia. }
    rewrite Z.even_mul, <- (Z.negb_odd d), Hodd, orb_false_r in Hk.
    apply Z.even_spec in Hk. destruct Hk as [k' ->]. exists k'. lia.
Qed.

Lemma pow2_divide_cancel (m : nat) :
  forall (n : nat) (s d : Z),
    (m <= n)%nat ->
    d mod 2 ^ Z.of_nat (S m) <> 0 ->
    (2 ^ Z.of_nat n | s * d) ->
    (2 ^ Z.of_nat (n - m) | s).
Proof.
  induction m as [|m IH]; intros n s d Hmn Hd Hdiv.
  - replace (n - 0)%nat with n by lia.
    apply odd_divide_cancel with d; [|exact Hdiv].
    change (2 ^ Z.of_nat 1) with 2 in Hd.
    rewrite Zodd_mod. pose proof (Z.mod_pos_bound d 2 ltac:(lia)).
    apply Z.eqb_eq. lia.
  - destruct (Z.odd d) eqn:Hodd.
    + assert (Hs : (2 ^ Z.of_nat n | s)).
      { now apply odd_divide_cancel with d. }
      destruct Hs as [k ->]. exists (k * 2 ^ Z.of_nat (n - (n - S m))).
      rewrite <- Z.mul_assoc, <- Z.pow_add_r by lia. do 2 f_equal. lia.
    + assert (Hev : Z.even d = true) by (rewrite <- Z.negb_odd, Hodd; reflexivity).
      apply Z.even_spec in Hev. destruct Hev as [d' ->].
      destruct n as [|n]; [lia|].
      replace (S n - S m)%nat with (n - m)%nat by lia.
      apply (IH n s d'); [lia| |].
      * intros H0. apply Hd.
        replace (2 ^ Z.of_nat (S (S m))) with (2 * 2 ^ Z.of_nat (S m))
          by (rewrite (Nat2Z.inj_succ (S m)), Z.pow_succ_r; lia).
        rewrite Zmult_mod_distr_l, H0. lia.
      * destruct Hdiv as [k Hk].
        rewrite Nat2Z.inj_succ, Z.pow_succ_r in Hk by lia.
        exists k. nia.
Qed.

(** ** Seeds *)

Section SeedFacts.
Import Seeds.

Lemma seeds_loop_length (l : list Z) (levels : list nat) :
  length (foldl seeds_loop_body l levels) = length l.
Proof.
  revert l. induction levels as [|i levels IH]; intros l; simpl; [reflexivity|].
  rewrite IH. unfold seeds_loop_body. apply length_insert.
Qed.

(** After the loop has run up to level [m], entry [k <= m] holds the initial
    seed times the first [k] multipliers. *)
Lemma seeds_loop_prefix (s : Z) (n m : nat) :
  (m <= n)%nat ->
  forall k, (k <= m)%nat ->
    foldl seeds_loop_body (<[ 0%nat := uint32 s ]> (replicate (S n) 0)) (seq 1 m) !! k
    = Some (uint32 (s * seed_factor k)).
Proof.
  induction m as [|m IH]; intros Hmn k Hk.
  - assert (k = 0%nat) as -> by lia. simpl. now rewrite Z.mul_1_r.
  - rewrite seq_S, foldl_app. simpl foldl.
    set (l := foldl seeds_loop_body _ (seq 1 m)) in *.
    assert (Hlen : length l = S n).
    { unfold l. rewrite seeds_loop_length, length_insert, length_replicate. reflexivity. }
    unfold seeds_loop_body. replace (1 + m)%nat with (S m) by lia.
    destruct (decide (k = S m)) as [->|Hne].
    + assert (Hm : l !! m = Some (uint32 (s * seed_factor m)))
        by (apply IH; lia).
      rewrite list_lookup_insert_eq by lia.
      replace (S m - 1)%nat with m by lia.
      rewrite (list_lookup_total_correct l m _ Hm).
      cbn [seed_factor]. f_equal.
      rewrite uint32_mul_idemp_l, uint32_mul_idemp_r. f_equal. ring.
    + rewrite list_lookup_insert_ne by lia. apply IH; lia.
Qed.

Lemma HashTableCtx_seeds_lookup (initial_seed max_levels : Z) (k : nat) :
  (k <= Z.to_nat max_levels)%nat ->
  HashTableCtx_seeds initial_seed max_levels !! k
  = Some (uint32 (initial_seed * seed_factor k)).
Proof. intros Hk. unfold HashTableCtx_seeds. now apply seeds_loop_prefix. Qed.

Lemma factors_differ_mod_8 : factors_differ_mod 8 = true.
Proof. vm_compute. reflexivity. Qed.

Lemma seed_factor_differ (i j : nat) :
  (i < j <= 16)%nat -> (seed_factor j - seed_factor i) mod 2 ^ Z.of_nat 9 <> 0.
Proof.
  intros Hij. pose proof factors_differ_mod_8 as H. unfold factors_differ_mod in H.
  rewrite forallb_forall in H. specialize (H i).
  rewrite forallb_forall in H.
  assert (Hi : In i (seq 0 17)) by (apply in_seq; lia).
  specialize (H Hi j).
  assert (Hj : In j (seq (S i) (16 - i))) by (apply in_seq; lia).
  specialize (H Hj). apply negb_true_iff, Z.eqb_neq in H. exact H.
Qed.

(** C1, as stated, fails: the non-zero seed [INT32_MIN] (stored as
    [2^31] in the [uint32_t] table) gives [seeds_[0] = seeds_[1]] already
    with [max_levels = 1], because every multiplier is odd. *)
Lemma seeds_collide_at_int32_min :
  (-2147483648 =? 0) = false /\
  HashTableCtx_seeds (-2147483648) 1 !! 0%nat = Some 2147483648 /\
  HashTableCtx_seeds (-2147483648) 1 !! 1%nat = Some 2147483648.
Proof. vm_compute. auto. Qed.

(** C1, amended: for every initial seed that is not a multiple of [2^24]
    (in particular every odd seed) and every [max_levels] up to
    [MAX_PARTITION_DEPTH], the seeds of any two levels
    [i < j <= max_levels] are present in the table and differ. *)
Theorem seeds_pairwise_distinct (initial_seed max_levels : Z) (i j : nat) :
  initial_seed mod 2 ^ 24 <> 0 ->
  0 <= max_levels <= MAX_PARTITION_DEPTH ->
  (i < j <= Z.to_nat max_levels)%nat ->
  exists si sj,
    HashTableCtx_seeds initial_seed max_levels !! i = Some si /\
    HashTableCtx_seeds initial_seed max_levels !! j = Some sj /\
    si <> sj.
Proof.
  intros Hseed Hlev Hij. unfold MAX_PARTITION_DEPTH in Hlev.
  exists (uint32 (initial_seed * seed_factor i)), (uint32 (initial_seed * seed_factor j)).
  split; [apply HashTableCtx_seeds_lookup; lia|].
  split; [apply HashTableCtx_seeds_lookup; lia|].
  intros Heq. apply Hseed.
  assert (Hd : (seed_factor j - seed_factor i) mod 2 ^ Z.of_nat 9 <> 0)
    by (apply seed_factor_differ; lia).
  assert (Hdiv : (2 ^ Z.of_nat 32 | initial_seed * (seed_factor j - seed_factor i))).
  { apply Z.mod_divide; [lia|]. unfold uint32 in Heq.
    change (2 ^ Z.of_nat 32) with (2 ^ 32).
    rewrite Z.mul_sub_distr_l, Zminus_mod, Heq, Z.sub_diag. reflexivity. }
  apply (pow2_divide_cancel 8 32) in Hdiv; [|lia|exact Hd].
  apply Z.mod_divide; [lia|exact Hdiv].
Qed.

Lemma seeds_pairwise_distinct_witness :
  exists si sj,
    HashTableCtx_seeds 3 16 !! 0%nat = Some si /\
    HashTableCtx_seeds 3 16 !! 15%nat = Some sj /\
    si <> sj.
Proof.
  apply (seeds_pairwise_distinct 3 16 0 15).
  - vm_compute. discriminate.
  - unfold MAX_PARTITION_DEPTH. lia.
  - simpl. lia.
Defined.

(** The bound [2^24] is tight: a multiple of [2^24] makes levels 0 and 15
    share a seed, since the product of the first 15 multipliers is
    [1 + 2^8 * odd] modulo [2^32]. *)
Lemma seeds_collide_multiple_2_24 (initial_seed : Z) :
  initial_seed mod 2 ^ 24 = 0 ->
  HashTableCtx_seeds initial_seed 16 !! 0%nat
  = HashTableCtx_seeds initial_seed 16 !! 15%nat.
Proof.
  intros Hs. rewrite !HashTableCtx_seeds_lookup by (simpl; lia). f_equal.
  apply Z.mod_divide in Hs; [|lia]. destruct Hs as [k ->].
  assert (Hf : seed_factor 15 = 1 + 2 ^ 8 * ((seed_factor 15 - 1) / 2 ^ 8))
    by (vm_compute; reflexivity).
  rewrite Hf. generalize ((seed_factor 15 - 1) / 2 ^ 8). intros c.
  change (seed_factor 0) with 1. unfold uint32.
  replace (k * 2 ^ 24 * (1 + 2 ^ 8 * c)) with (k * 2 ^ 24 * 1 + (k * c) * 2 ^ 32) by lia.
  now rewrite Z_mod_plus_full.
Qed.

Lemma seeds_collide_multiple_2_24_witness :
  2 ^ 24 mod 2 ^ 24 = 0 /\
  HashTableCtx_seeds (2 ^ 24) 16 !! 0%nat = HashTableCtx_seeds (2 ^ 24) 16 !! 15%nat.
Proof.
  split; [reflexivity|]. apply (seeds_collide_multiple_2_24 (2 ^ 24)). reflexivity.
Defined.

End SeedFacts.

(** ** [HashTableCtx::Equals] *)

Section EqualsFacts.
Import HashCtx.

Variable TupleRow : Type.
Variable ColumnType : Type.
Variable GetSlotSize : ColumnType -> nat.
Variable RawValue_Eq : ColumnType -> list Z -> list Z -> bool.

Abbreviation ExprContext := (HashCtx.ExprContext TupleRow ColumnType).
Abbreviation HashTableCtx := (HashCtx.HashTableCtx TupleRow ColumnType).
Abbreviation Equals := (HashCtx.Equals GetSlotSize RawValue_Eq).
Abbreviation Equals_loop := (HashCtx.Equals_loop GetSlotSize RawValue_Eq).

(** The cached value of key [i] is NULL when its flag is set. *)
Definition cached_is_null (ctx : HashTableCtx) (i : nat) : bool :=
  cur_expr_values_null_ (expr_values_cache_ ctx) !!! i.

(** The claim's condition for key [i], whose build expression is [e]: both
    values are NULL and NULLs are found (by force or by [finds_nulls_[i]]),
    or both are non-NULL and [RawValue::Eq] holds of them. *)
Definition key_agrees (FORCE_NULL_EQUALITY : bool) (ctx : HashTableCtx)
    (build_row : TupleRow) (i : nat) (e : ExprContext) : Prop :=
  (GetValue e build_row = None /\ cached_is_null ctx i = true /\
   (FORCE_NULL_EQUALITY = true \/ (finds_nulls_ ctx !!! i) = true))
  \/
  (exists val, GetValue e build_row = Some val /\ cached_is_null ctx i = false /\
     RawValue_Eq (type e) (ExprValue GetSlotSize (expr_values_cache_ ctx) i (type e)) val = true).

Lemma Equals_loop_true (F : bool) (ctx : HashTableCtx) (row : TupleRow) :
  forall (ctxs : list ExprContext) (i : nat),
    Equals_loop F ctx row ctxs i = true <->
    (forall k e, ctxs !! k = Some e -> key_agrees F ctx row (i + k) e).
Proof.
  induction ctxs as [|e rest IH]; intros i; simpl.
  - split; [intros _ k e Hk; rewrite lookup_nil in Hk; discriminate | reflexivity].
  - assert (Hsplit :
      (forall k e', (e :: rest) !! k = Some e' -> key_agrees F ctx row (i + k) e') <->
      (key_agrees F ctx row i e /\
       forall k e', rest !! k = Some e' -> key_agrees F ctx row (S i + k) e')).
    { split.
      - intros H. split.
        + specialize (H 0%nat e eq_refl). now rewrite Nat.add_0_r in H.
        + intros k e' Hk. specialize (H (S k) e' Hk).
          now replace (i + S k)%nat with (S i + k)%nat in H by lia.
      - intros [H0 Hr] [|k] e' Hk; simpl in Hk.
        + inversion Hk; subst. now rewrite Nat.add_0_r.
        + replace (i + S k)%nat with (S i + k)%nat by lia. now apply Hr. }
    rewrite Hsplit, <- IH. unfold key_agrees, cached_is_null.
    destruct (GetValue e row) as [val|] eqn:Hval.
    + destruct (cur_expr_values_null_ (expr_values_cache_ ctx) !!! i) eqn:Hnull; simpl.
      * split; [discriminate|]. intros [[(?&?&?)|(v&?&?&?)] _]; discriminate.
      * destruct (RawValue_Eq _ _ val) eqn:Heq; simpl.
        -- split; [intros H; split; [right; exists val; auto | exact H] | intros [_ H]; exact H].
        -- split; [discriminate|].
           intros [[(?&?&?)|(v&Hv&?&Hq)] _]; [discriminate|].
           inversion Hv; subst. congruence.
    + destruct (F || finds_nulls_ ctx !!! i) eqn:Hfind; simpl.
      * destruct (cur_expr_values_null_ (expr_values_cache_ ctx) !!! i) eqn:Hnull; simpl.
        -- split; [|intros [_ H]; exact H].
           intros H. split; [|exact H]. left. repeat split; auto.
           apply orb_true_iff in Hfind. exact Hfind.
        -- split; [discriminate|].
           intros [[(?&?&?)|(v&?&?&?)] _]; discriminate.
      * split; [discriminate|].
        apply orb_false_iff in Hfind. destruct Hfind as [HF Hfn].
        intros [[(_&_&[?|?])|(v&?&?&?)] _]; congruence.
Qed.

(** C5: [Equals<FORCE_NULL_EQUALITY>(build_row)] returns true exactly when
    every key agrees: both values NULL with NULLs found (forced or by
    [finds_nulls_[i]]), or both non-NULL and equal under [RawValue::Eq].
    In particular a key whose null status differs between the build row and
    the cached row makes the result false, and so does a NULL at a key with
    [finds_nulls_[i] = false] when equality is not forced, whatever the
    cached value is. *)
Theorem Equals_characterised (FORCE_NULL_EQUALITY : bool) (ctx : HashTableCtx)
    (build_row : TupleRow) :
  (Equals FORCE_NULL_EQUALITY ctx build_row = true <->
   forall i e, build_expr_ctxs_ ctx !! i = Some e ->
               key_agrees FORCE_NULL_EQUALITY ctx build_row i e)
  /\
  (forall i e, build_expr_ctxs_ ctx !! i = Some e ->
     bool_decide (GetValue e build_row = None) <> cached_is_null ctx i ->
     Equals FORCE_NULL_EQUALITY ctx build_row = false)
  /\
  (forall i e, build_expr_ctxs_ ctx !! i = Some e ->
     GetValue e build_row = None ->
     (finds_nulls_ ctx !!! i) = false -> FORCE_NULL_EQUALITY = false ->
     Equals FORCE_NULL_EQUALITY ctx build_row = false).
Proof.
  assert (Hiff : Equals FORCE_NULL_EQUALITY ctx build_row = true <->
                 forall i e, build_expr_ctxs_ ctx !! i = Some e ->
                             key_agrees FORCE_NULL_EQUALITY ctx build_row i e).
  { unfold HashCtx.Equals. rewrite Equals_loop_true. reflexivity. }
  split; [exact Hiff|]. split.
  - intros i e Hi Hmis. apply not_true_is_false. intros Heq.
    destruct (proj1 Hiff Heq i e Hi) as [(Hv&Hn&_)|(v&Hv&Hn&_)];
      apply Hmis; rewrite Hn.
    + apply bool_decide_eq_true. exact Hv.
    + apply bool_decide_eq_false. rewrite Hv. discriminate.
  - intros i e Hi Hv Hfn HF. apply not_true_is_false. intros Heq.
    destruct (proj1 Hiff Heq i e Hi) as [(_&_&[?|?])|(v&Hv'&_&_)]; congruence.
Qed.

End EqualsFacts.

(** ** [HashTable::CheckAndResize] and [HashTable::ResizeBuckets] *)

Section ResizeFacts.
Import Runtime HashTbl.

Variable sizeof_Bucket : Z.
Variable Probe : list Bucket -> Z -> Z -> Z.

Lemma exceeds_max_fill_spec (rows buckets : Z) :
  exceeds_max_fill rows buckets = true <-> 3 * buckets < 4 * rows.
Proof. unfold exceeds_max_fill. apply Z.ltb_lt. Qed.

(** The check of the source holds of the powers of two and of nothing else. *)
Lemma is_power_of_two_spec (n : Z) :
  is_power_of_two n = true <-> exists e, 0 <= e /\ n = 2 ^ e.
Proof.
  unfold is_power_of_two. rewrite andb_true_iff, Z.ltb_lt, Z.eqb_eq. split.
  - intros [Hpos Hland]. exists (Z.log2 n).
    pose proof (Z.log2_nonneg n) as He. split; [exact He|].
    destruct (Z.log2_spec n Hpos) as [Hlo Hhi].
    destruct (Z.eq_dec n (2 ^ Z.log2 n)) as [Heq|Hne]; [exact Heq|exfalso].
    assert (Hlog : Z.log2 (n - 1) = Z.log2 n) by (apply Z.log2_unique; lia).
    assert (Hb1 : Z.testbit n (Z.log2 n) = true) by (apply Z.bit_log2; lia).
    assert (Hb2 : Z.testbit (n - 1) (Z.log2 n) = true).
    { rewrite <- Hlog. apply Z.bit_log2. lia. }
    assert (Hb : Z.testbit (Z.land n (n - 1)) (Z.log2 n) = true)
      by (rewrite Z.land_spec, Hb1, Hb2; reflexivity).
    rewrite Hland, Z.bits_0 in Hb. discriminate.
  - intros (e & He & ->).
    assert (0 < 2 ^ e) by (apply Z.pow_pos_nonneg; lia).
    split; [assumption|].
    replace (2 ^ e - 1) with (Z.ones e) by (rewrite Z.ones_equiv; lia).
    rewrite Z.land_ones by lia. apply Z.mod_same. lia.
Qed.

Lemma is_power_of_two_shift (n k : Z) :
  0 <= k -> is_power_of_two n = true -> is_power_of_two (n * 2 ^ k) = true.
Proof.
  intros Hk Hn. apply is_power_of_two_spec in Hn. destruct Hn as (e & He & ->).
  apply is_power_of_two_spec. exists (e + k). split; [lia|].
  rewrite Z.pow_add_r by lia. reflexivity.
Qed.

(** What the loop returns is the first shift, from the starting one, at
    which the fill bound holds. *)
Lemma resize_shift_sound (fuel : nat) (rows n : Z) :
  forall shift k,
    0 <= shift ->
    resize_shift fuel rows n shift = Some k ->
    shift <= k /\
    exceeds_max_fill rows (n * 2 ^ k) = false /\
    (forall s, shift <= s < k -> exceeds_max_fill rows (n * 2 ^ s) = true).
Proof.
  induction fuel as [|fuel IH]; intros shift k Hs Hk; simpl in Hk; [discriminate|].
  rewrite Z.shiftl_mul_pow2 in Hk by lia.
  destruct (2 ^ 63 <=? n * 2 ^ shift); [discriminate|].
  destruct (exceeds_max_fill rows (n * 2 ^ shift)) eqn:Hex.
  - apply IH in Hk; [|lia]. destruct Hk as (Hle & Hfit & Hmin).
    split; [lia|]. split; [exact Hfit|].
    intros s Hs'. destruct (Z.eq_dec s shift) as [->|Hne]; [exact Hex|].
    apply Hmin. lia.
  - inversion Hk; subst k. split; [lia|]. split; [exact Hex|]. intros s Hs'. lia.
Qed.

(** The size at the shift the loop returns fits [int64_t]. *)
Lemma resize_shift_fits (fuel : nat) (rows n : Z) :
  forall shift k,
    0 <= shift ->
    resize_shift fuel rows n shift = Some k ->
    n * 2 ^ k < 2 ^ 63.
Proof.
  induction fuel as [|fuel IH]; intros shift k Hs Hk; simpl in Hk; [discriminate|].
  rewrite Z.shiftl_mul_pow2 in Hk by lia.
  destruct (2 ^ 63 <=? n * 2 ^ shift) eqn:Hov; [discriminate|].
  apply Z.leb_gt in Hov.
  destruct (exceeds_max_fill rows (n * 2 ^ shift)).
  - apply IH in Hk; [exact Hk|lia].
  - inversion Hk; subst k. exact Hov.
Qed.

(** In the range where the sizes fit, the loop terminates with a shift. *)
Lemma resize_shift_total (fuel : nat) (rows n : Z) :
  0 < n -> 0 <= rows < 2 ^ 53 ->
  forall shift,
    0 <= shift -> n * 2 ^ shift < 2 ^ 63 ->
    64 <= Z.of_nat fuel + shift ->
    exists k, resize_shift fuel rows n shift = Some k.
Proof.
  intros Hn Hrows. induction fuel as [|fuel IH]; intros shift Hs Hfit Hfuel.
  - exfalso. assert (2 ^ 64 <= 2 ^ shift) by (apply Z.pow_le_mono_r; lia).
    assert (2 ^ shift <= n * 2 ^ shift) by nia. lia.
  - simpl. rewrite Z.shiftl_mul_pow2 by lia.
    destruct (2 ^ 63 <=? n * 2 ^ shift) eqn:Hov; [apply Z.leb_le in Hov; lia|].
    destruct (exceeds_max_fill rows (n * 2 ^ shift)) eqn:Hex; [|eauto].
    apply exceeds_max_fill_spec in Hex.
    apply IH; [lia| |lia].
    rewrite Z.pow_add_r by lia. change (2 ^ 1) with 2. lia.
Qed.

Lemma copy_filled_length (num_buckets : Z) (old new_buckets : list Bucket) :
  length (copy_filled Probe num_buckets old new_buckets) = length new_buckets.
Proof.
  unfold copy_filled. revert new_buckets.
  induction old as [|b old IH]; intros nb; simpl; [reflexivity|].
  rewrite IH. destruct (filled b); [apply length_insert|reflexivity].
Qed.

Lemma int64_small (z : Z) : - 2 ^ 63 <= z < 2 ^ 63 -> int64 z = z.
Proof. intros H. unfold int64. rewrite Z.mod_small; lia. Qed.

Lemma uint64_small (z : Z) : 0 <= z < 2 ^ 64 -> uint64 z = z.
Proof. intros H. unfold uint64. now rewrite Z.mod_small. Qed.

(** A remark on the statistics of the table. [ResizeBuckets] advances
    [num_resizes_] before it asks for the memory of the new array, so a
    resize that the block manager refuses is counted, while one that
    [max_num_buckets_] forbids is not. A table of 1024 empty buckets asked
    for 769 rows, the memory refused: *)
Lemma CheckAndResize_failed_consume_counts_resize :
  exists ht' w',
    CheckAndResize 16 (fun _ _ h => h) 769
      (set_buckets (Create true false (-1) 1024) (Some (replicate 1024 zero_Bucket)) 1024)
      (mkWorld (fun _ => No) 0 16384 0 0 false)
    = Some (false, ht', w') /\
    num_resizes_ (set_buckets (Create true false (-1) 1024)
                              (Some (replicate 1024 zero_Bucket)) 1024) = 0 /\
    num_resizes_ ht' = 1 /\
    num_buckets_ ht' = 1024.
Proof. eexists _, _. vm_compute. repeat split; reflexivity. Qed.

(** C6. For a table whose [num_buckets_] is a power of two below [2^63],
    as the constructor and [ResizeBuckets] check, and a demand
    [rows = num_filled_buckets_ + buckets_to_fill] below [2^53],
    [CheckAndResize] returns, and there is a smallest [shift >= 0] with
    [rows <= 0.75 * (num_buckets_ << shift)]; the size
    [num_buckets_ << shift] is again a power of two below [2^63], and:
    - with [shift = 0] it returns true and changes nothing;
    - otherwise, if the doubled size exceeds [max_num_buckets_] (when that is
      not -1) it returns false and changes nothing;
    - otherwise, if the block manager refuses the memory it returns false
      with the bucket array, [num_buckets_] and [num_filled_buckets_] as
      they were and no memory charged: the table is the one it was given
      but for the count of resizes in its statistics;
    - otherwise it returns true with an array of [num_buckets_ << shift]
      buckets, the same [num_filled_buckets_], the new array charged and
      the old one released. *)
Theorem CheckAndResize_smallest_doubling (buckets_to_fill : Z) (ht : HashTable) (w : World) :
  is_power_of_two (num_buckets_ ht) = true ->
  0 < num_buckets_ ht < 2 ^ 63 ->
  0 <= num_filled_buckets_ ht -> 0 <= buckets_to_fill ->
  num_filled_buckets_ ht + buckets_to_fill < 2 ^ 53 ->
  exists shift,
    0 <= shift /\
    is_power_of_two (num_buckets_ ht * 2 ^ shift) = true /\
    num_buckets_ ht * 2 ^ shift < 2 ^ 63 /\
    4 * (num_filled_buckets_ ht + buckets_to_fill) <= 3 * (num_buckets_ ht * 2 ^ shift) /\
    (forall s, 0 <= s < shift ->
       3 * (num_buckets_ ht * 2 ^ s) < 4 * (num_filled_buckets_ ht + buckets_to_fill)) /\
    (shift = 0 ->
       CheckAndResize sizeof_Bucket Probe buckets_to_fill ht w = Some (true, ht, w)) /\
    (0 < shift ->
       max_num_buckets_ ht <> -1 -> max_num_buckets_ ht < num_buckets_ ht * 2 ^ shift ->
       CheckAndResize sizeof_Bucket Probe buckets_to_fill ht w = Some (false, ht, w)) /\
    (0 < shift ->
       max_num_buckets_ ht = -1 \/ num_buckets_ ht * 2 ^ shift <= max_num_buckets_ ht ->
       answers w (calls w) <> Yes ->
       exists ht' w',
         CheckAndResize sizeof_Bucket Probe buckets_to_fill ht w = Some (false, ht', w') /\
         ht' = incr_num_resizes ht /\
         buckets_ ht' = buckets_ ht /\
         num_buckets_ ht' = num_buckets_ ht /\
         num_filled_buckets_ ht' = num_filled_buckets_ ht /\
         consumed w' = consumed w) /\
    (0 < shift ->
       max_num_buckets_ ht = -1 \/ num_buckets_ ht * 2 ^ shift <= max_num_buckets_ ht ->
       answers w (calls w) = Yes ->
       exists ht' w' new_buckets,
         CheckAndResize sizeof_Bucket Probe buckets_to_fill ht w = Some (true, ht', w') /\
         buckets_ ht' = Some new_buckets /\
         length new_buckets = Z.to_nat (num_buckets_ ht * 2 ^ shift) /\
         num_buckets_ ht' = num_buckets_ ht * 2 ^ shift /\
         num_filled_buckets_ ht' = num_filled_buckets_ ht /\
         consumed w' = consumed w
                       + int64 (num_buckets_ ht * 2 ^ shift * sizeof_Bucket)
                       - int64 (num_buckets_ ht * sizeof_Bucket)).
Proof.
  intros Hpow Hn Hfilled Hfill Hrows.
  set (rows := num_filled_buckets_ ht + buckets_to_fill) in *.
  destruct (resize_shift_total 64 rows (num_buckets_ ht)) with (shift := 0)
    as [shift Hshift]; try lia.
  destruct (resize_shift_sound _ _ _ _ _ (Z.le_refl 0) Hshift) as (Hs0 & Hfit & Hmin).
  exists shift. split; [exact Hs0|].
  split; [apply is_power_of_two_shift; assumption|].
  split; [exact (resize_shift_fits _ _ _ _ _ (Z.le_refl 0) Hshift)|].
  assert (Hfit' : 4 * rows <= 3 * (num_buckets_ ht * 2 ^ shift)).
  { unfold exceeds_max_fill in Hfit. apply Z.ltb_ge in Hfit. exact Hfit. }
  split; [exact Hfit'|]. split.
  { intros s Hs. apply exceeds_max_fill_spec, Hmin. exact Hs. }
  unfold CheckAndResize. fold rows. rewrite uint64_small by lia. rewrite Hshift.
  split; [intros ->; reflexivity|].
  assert (Hpos : forall (H : 0 < shift), (0 <? shift) = true) by (intros; apply Z.ltb_lt; lia).
  rewrite !Z.shiftl_mul_pow2 by lia.
  split; [|split].
  - intros H Hmax Hlt. rewrite (Hpos H). unfold ResizeBuckets.
    apply Z.eqb_neq in Hmax. apply Z.ltb_lt in Hlt. now rewrite Hmax, Hlt.
  - intros H Hmax Hans. rewrite (Hpos H). unfold ResizeBuckets.
    assert (Hguard : negb (max_num_buckets_ ht =? -1)
                     && (max_num_buckets_ ht <? num_buckets_ ht * 2 ^ shift) = false).
    { destruct Hmax as [->|Hle]; [reflexivity|].
      apply andb_false_iff. right. apply Z.ltb_ge. exact Hle. }
    rewrite Hguard. unfold ConsumeMemory, ask.
    destruct (answers w (calls w)) eqn:Ha; [congruence| |];
      eexists _, _; (split; [reflexivity|]); simpl; auto.
  - intros H Hmax Hans. rewrite (Hpos H). unfold ResizeBuckets.
    assert (Hguard : negb (max_num_buckets_ ht =? -1)
                     && (max_num_buckets_ ht <? num_buckets_ ht * 2 ^ shift) = false).
    { destruct Hmax as [->|Hle]; [reflexivity|].
      apply andb_false_iff. right. apply Z.ltb_ge. exact Hle. }
    rewrite Hguard. unfold ConsumeMemory, ask. rewrite Hans.
    eexists _, _, _. split; [reflexivity|]. simpl.
    split; [reflexivity|]. split.
    { rewrite copy_filled_length, length_replicate. reflexivity. }
    repeat split; lia.
Qed.

End ResizeFacts.

(** A table of 1024 empty buckets, 16 bytes each, asked for 769 rows while
    the block manager grants every request: it doubles once. *)
Lemma CheckAndResize_smallest_doubling_witness :
  exists ht' w',
    HashTbl.CheckAndResize 16 (fun _ _ h => h) 769
      (HashTbl.set_buckets (HashTbl.Create true false (-1) 1024)
                           (Some (replicate 1024 HashTbl.zero_Bucket)) 1024)
      (Runtime.mkWorld (fun _ => Runtime.Yes) 0 16384 0 0 false)
    = Some (true, ht', w') /\
    HashTbl.num_buckets_ ht' = 2048 /\
    Runtime.consumed w' = 16384 + 32768 - 16384.
Proof.
  destruct (CheckAndResize_smallest_doubling 16 (fun _ _ h => h) 769
              (HashTbl.set_buckets (HashTbl.Create true false (-1) 1024)
                           (Some (replicate 1024 HashTbl.zero_Bucket)) 1024)
              (Runtime.mkWorld (fun _ => Runtime.Yes) 0 16384 0 0 false))
    as (shift & H0 & _ & _ & H1 & H2 & _ & _ & _ & H3); simpl; try lia; try reflexivity.
  simpl in H1, H2, H3.
  assert (Hshift : shift = 1).
  { destruct (Z.eq_dec shift 0) as [->|Hne0]; [simpl in H1; lia|].
    destruct (Z.eq_dec shift 1) as [->|Hne1]; [reflexivity|].
    specialize (H2 1 ltac:(lia)). simpl in H2. lia. }
  subst shift. destruct H3 as (ht' & w' & bs & Hres & _ & _ & Hn & _ & Hc); auto; [lia|].
  exists ht', w'. split; [exact Hres|]. split; [exact Hn|]. exact Hc.
Defined.

(** ** Choosing the partition to spill *)

Section PickFacts.
Import Selection.
Context {P : Type}.
Variable eligible : P -> bool.
Variable mem : P -> Z.

(** The loop either keeps the index it started with, and then no eligible
    entry exceeds the starting maximum, or it returns the position of the
    first eligible entry of largest memory. *)
Lemma pick_first_largest_spec (ps : list P) :
  forall i max_freed_mem partition_idx,
    let r := pick_first_largest eligible mem ps i max_freed_mem partition_idx in
    (r = partition_idx /\
     forall k p, ps !! k = Some p -> eligible p = true -> mem p <= max_freed_mem)
    \/
    (exists (k : nat) (p : P),
        r = i + Z.of_nat k /\ ps !! k = Some p /\ eligible p = true /\
        max_freed_mem < mem p /\
        (forall k' p', ps !! k' = Some p' -> eligible p' = true -> mem p' <= mem p) /\
        (forall k' p', (k' < k)%nat -> ps !! k' = Some p' -> eligible p' = true ->
                       mem p' < mem p)).
Proof.
  induction ps as [|p rest IH]; intros i mx idx; simpl.
  - left. split; [reflexivity|]. intros k q Hk. rewrite lookup_nil in Hk. discriminate.
  - destruct (eligible p && (mx <? mem p)) eqn:Hc.
    + apply andb_true_iff in Hc. destruct Hc as [He Hlt]. apply Z.ltb_lt in Hlt.
      right. destruct (IH (i + 1) (mem p) i) as [[Hr Hall]|(k & q & Hr & Hk & Hq & Hgt & Hmax & Hfirst)].
      * exists 0%nat, p. rewrite Hr.
        split; [lia|]. split; [reflexivity|]. split; [exact He|]. split; [exact Hlt|].
        split.
        -- intros [|k'] p' Hk' He'; simpl in Hk'.
           ++ inversion Hk'; subst. lia.
           ++ now apply (Hall k').
        -- intros k' p' Hk'. lia.
      * exists (S k), q. rewrite Hr.
        split; [lia|]. split; [exact Hk|]. split; [exact Hq|]. split; [lia|].
        split.
        -- intros [|k'] p' Hk' He'; simpl in Hk'.
           ++ inversion Hk'; subst. lia.
           ++ now apply (Hmax k').
        -- intros [|k'] p' Hlt' Hk' He'; simpl in Hk'.
           ++ inversion Hk'; subst. lia.
           ++ apply (Hfirst k'); auto. lia.
    + assert (Hp : eligible p = true -> mem p <= mx).
      { intros He. rewrite He in Hc. simpl in Hc. apply Z.ltb_ge in Hc. exact Hc. }
      destruct (IH (i + 1) mx idx) as [[Hr Hall]|(k & q & Hr & Hk & Hq & Hgt & Hmax & Hfirst)].
      * left. split; [exact Hr|].
        intros [|k'] p' Hk' He'; simpl in Hk'.
        -- inversion Hk'; subst. now apply Hp.
        -- now apply (Hall k').
      * right. exists (S k), q. rewrite Hr.
        split; [lia|]. split; [exact Hk|]. split; [exact Hq|]. split; [exact Hgt|].
        split.
        -- intros [|k'] p' Hk' He'; simpl in Hk'.
           ++ inversion Hk'; subst. specialize (Hp He'). lia.
           ++ now apply (Hmax k').
        -- intros [|k'] p' Hlt' Hk' He'; simpl in Hk'.
           ++ inversion Hk'; subst. specialize (Hp He'). lia.
           ++ apply (Hfirst k'); auto. lia.
Qed.

(** As the two functions call it: from index 0, maximum 0 and index -1. *)
Lemma pick_first_largest_top (ps : list P) :
  let r := pick_first_largest eligible mem ps 0 0 (-1) in
  (r = -1 /\ forall k p, ps !! k = Some p -> eligible p = true -> mem p <= 0)
  \/
  (exists (k : nat) (p : P),
      r = Z.of_nat k /\ ps !! k = Some p /\ eligible p = true /\ 0 < mem p /\
      (forall k' p', ps !! k' = Some p' -> eligible p' = true -> mem p' <= mem p) /\
      (forall k' p', (k' < k)%nat -> ps !! k' = Some p' -> eligible p' = true ->
                     mem p' < mem p)).
Proof.
  destruct (pick_first_largest_spec ps 0 0 (-1)) as [H|(k & p & Hr & H)]; [left; exact H|].
  right. exists k, p. split; [rewrite Hr; lia|exact H].
Qed.

End PickFacts.

(** ** Symbolic execution of the monadic code *)

(** Case analysis on a scrutinee that contains no other case analysis. *)
Ltac destruct_innermost :=
  match goal with
  | |- context [match ?x with _ => _ end] =>
      lazymatch x with
      | context [match _ with _ => _ end] => fail
      | _ => destruct x eqn:?
      end
  end.

(** What holds of the value and the state when a computation succeeds. *)
Definition on_success {St A : Type} (r : (Runtime.Status + A) * St)
    (Q : A -> St -> Prop) : Prop :=
  match r with
  | (inr a, st') => Q a st'
  | (inl _, _) => True
  end.

Lemma on_success_elim {St A : Type} (r : (Runtime.Status + A) * St) Q a st' :
  on_success r Q -> r = (inr a, st') -> Q a st'.
Proof. intros H ->. exact H. Qed.

(** ** Spilling in the join *)

Section JoinSpillFacts.
Import Runtime Join.

Variable sizeof_Bucket : Z.
Variable HashTable_ByteSize : HashTable -> Z.
Variable bytes_in_mem : bool -> Stream -> Z.

Abbreviation pick := (Join.SpillPartition_pick HashTable_ByteSize bytes_in_mem).
Abbreviation mem := (Join.spill_mem HashTable_ByteSize bytes_in_mem).
Abbreviation Spill := (Join.Partition_Spill sizeof_Bucket).
Abbreviation SpillPartition :=
  (Join.SpillPartition sizeof_Bucket HashTable_ByteSize bytes_in_mem).

Definition has_matches (p : Partition) : bool :=
  match hash_tbl_ p with Some ht => HashTbl.HasMatches ht | None => false end.

(** The partitions the join considers for spilling. *)
Definition join_candidate (p : Partition) : bool :=
  negb (is_closed_ p) && negb (is_spilled_ p) && negb (has_matches p).

Lemma join_pick_shape (ps : list Partition) :
  forall i mx idx,
    pick ps i mx idx = Selection.pick_first_largest join_candidate mem ps i mx idx.
Proof.
  induction ps as [|p rest IH]; intros i mx idx; simpl; [reflexivity|].
  unfold join_candidate, has_matches.
  destruct (is_closed_ p); simpl; [apply IH|].
  destruct (is_spilled_ p); simpl; [apply IH|].
  destruct (hash_tbl_ p) as [ht|]; simpl.
  - destruct (HashTbl.HasMatches ht); simpl; [apply IH|].
    destruct (mx <? _); apply IH.
  - destruct (mx <? _); apply IH.
Qed.

(** [Spill] on [hash_partitions_[k]] leaves the other entries alone, whatever
    the collaborators answer. *)
Lemma join_Spill_frame (k : nat) (unpin_all_build : bool) (st : St) :
  forall j, j <> k ->
    hash_partitions_ (fst (snd (Spill (HashPartition k) unpin_all_build st))) !! j
    = hash_partitions_ (fst st) !! j.
Proof.
  intros j Hj. destruct st as [n w].
  unfold Join.Partition_Spill, bind, ret, raise, check, get_partition, get_world,
    put_world, put_partition, modify_node, Streams.SwitchToIoBuffers,
    Streams.UnpinStream, ask, ok.
  cbn.
  repeat (destruct_innermost; cbn);
    rewrite ?list_lookup_insert_ne by congruence; reflexivity.
Qed.

(** When [Spill] succeeds on an existing partition, the partition is marked
    spilled and has no hash table. *)
Lemma join_Spill_success (k : nat) (unpin_all_build : bool) (st : St) :
  (k < length (hash_partitions_ (fst st)))%nat ->
  on_success (Spill (HashPartition k) unpin_all_build st)
    (fun _ st' => exists p', hash_partitions_ (fst st') !! k = Some p' /\
                             is_spilled_ p' = true /\ hash_tbl_ p' = None).
Proof.
  intros Hk. destruct st as [n w]. simpl in Hk.
  unfold on_success, Join.Partition_Spill, bind, ret, raise, check, get_partition,
    get_world, put_world, put_partition, modify_node, Streams.SwitchToIoBuffers,
    Streams.UnpinStream, ask, ok.
  cbn.
  repeat (destruct_innermost; cbn); try exact I;
    (eexists; split;
     [apply list_lookup_insert_eq; rewrite ?length_insert; exact Hk|]);
    cbn; auto.
Qed.

Lemma join_SpillPartition_unfold (n : JoinNode) (w : World) :
  SpillPartition (n, w) =
  let partition_idx := pick (hash_partitions_ n) 0 0 (-1) in
  if partition_idx =? -1 then (inl MemLimitTooLowError, (n, w))
  else
    match Spill (HashPartition (Z.to_nat partition_idx)) false (n, w) with
    | (inl e, st') => (inl e, st')
    | (inr _, st') =>
        (inr (Z.to_nat partition_idx),
         (set_hash_tbls (fst st')
            (<[ Z.to_nat partition_idx := NoTable ]> (hash_tbls_ (fst st'))), snd st'))
    end.
Proof.
  unfold Join.SpillPartition, bind, get_node, modify_node, ret, raise.
  cbv zeta. cbn [fst snd].
  destruct (pick (hash_partitions_ n) 0 0 (-1) =? -1); [reflexivity|].
  destruct (Spill _ false (n, w)) as [[e|[]] st']; reflexivity.
Qed.

(** The outcome of the join's [SpillPartition]. *)
Lemma join_SpillPartition_outcome (n : JoinNode) (w : World) :
  (pick (hash_partitions_ n) 0 0 (-1) = -1 <->
   forall k p, hash_partitions_ n !! k = Some p -> join_candidate p = true -> mem p <= 0)
  /\
  (pick (hash_partitions_ n) 0 0 (-1) = -1 ->
   SpillPartition (n, w) = (inl MemLimitTooLowError, (n, w)))
  /\
  (pick (hash_partitions_ n) 0 0 (-1) <> -1 ->
   exists (k : nat) (p : Partition),
     pick (hash_partitions_ n) 0 0 (-1) = Z.of_nat k /\
     hash_partitions_ n !! k = Some p /\ join_candidate p = true /\ 0 < mem p /\
     (forall k' p', hash_partitions_ n !! k' = Some p' -> join_candidate p' = true ->
                    mem p' <= mem p) /\
     (forall k' p', (k' < k)%nat -> hash_partitions_ n !! k' = Some p' ->
                    join_candidate p' = true -> mem p' < mem p) /\
     (forall j, j <> k ->
        hash_partitions_ (fst (snd (SpillPartition (n, w)))) !! j = hash_partitions_ n !! j) /\
     on_success (SpillPartition (n, w))
       (fun r st' => r = k /\
          exists p', hash_partitions_ (fst st') !! k = Some p' /\
                     is_spilled_ p' = true /\ hash_tbl_ p' = None)).
Proof.
  rewrite join_pick_shape.
  destruct (pick_first_largest_top join_candidate mem (hash_partitions_ n))
    as [[Hr Hall]|(k & p & Hr & Hk & He & Hpos & Hmax & Hfirst)].
  - split; [split; [intros _; exact Hall | intros _; exact Hr]|].
    split; [|intros Hne; contradiction].
    intros _. rewrite join_SpillPartition_unfold. cbv zeta.
    rewrite join_pick_shape, Hr. reflexivity.
  - split.
    { split; [intros H; rewrite Hr in H; lia|].
      intros Hall. specialize (Hall k p Hk He). lia. }
    split; [intros H; rewrite Hr in H; lia|].
    intros _. exists k, p. repeat (split; [assumption|]).
    assert (Hlen : (k < length (hash_partitions_ n))%nat)
      by (apply lookup_lt_is_Some; eauto).
    pose proof (join_Spill_frame k false (n, w)) as Hframe.
    pose proof (join_Spill_success k false (n, w) Hlen) as Hsucc.
    rewrite join_SpillPartition_unfold. cbv zeta.
    rewrite join_pick_shape, Hr.
    replace (Z.of_nat k =? -1) with false by (symmetry; apply Z.eqb_neq; lia).
    rewrite Nat2Z.id.
    destruct (Spill (HashPartition k) false (n, w)) as [[e|[]] [n' w']] eqn:Hs;
      unfold on_success in *; simpl fst in *; simpl snd in *.
    + split; [exact Hframe|exact I].
    + split; [exact Hframe|]. split; [reflexivity|exact Hsucc].
Qed.

(** C10: whatever the memory sizes of the partitions are, the join's
    [SpillPartition] does not select a partition whose hash table has
    matches, and such a partition comes out of the call exactly as it went
    in, hash table included. *)
Theorem join_spill_keeps_matched_partitions (n : JoinNode) (w : World)
    (j : nat) (p : Partition) (ht : HashTable) :
  hash_partitions_ n !! j = Some p ->
  hash_tbl_ p = Some ht ->
  HashTbl.HasMatches ht = true ->
  pick (hash_partitions_ n) 0 0 (-1) <> Z.of_nat j /\
  hash_partitions_ (fst (snd (SpillPartition (n, w)))) !! j = Some p.
Proof.
  intros Hj Hht Hm.
  assert (Hcand : join_candidate p = false).
  { unfold join_candidate, has_matches. rewrite Hht, Hm.
    now rewrite andb_false_r. }
  destruct (join_SpillPartition_outcome n w) as (_ & Hnone & Hsome).
  destruct (Z.eq_dec (pick (hash_partitions_ n) 0 0 (-1)) (-1)) as [Heq|Hne].
  - split; [lia|]. rewrite (Hnone Heq). exact Hj.
  - destruct (Hsome Hne) as (k & q & Hr & Hk & He & _ & _ & _ & Hframe & _).
    assert (Hkj : j <> k).
    { intros ->. rewrite Hj in Hk. inversion Hk; subst. congruence. }
    split; [rewrite Hr; lia|]. rewrite (Hframe j Hkj). exact Hj.
Qed.

End JoinSpillFacts.

(** ** Spilling in the aggregation *)

Section AggSpillFacts.
Import Runtime Agg.

Variable sizeof_Bucket : Z.
Variable HashTable_size : HashTable -> Z.
Variable HashTable_ByteSize : HashTable -> Z.
Variable bytes_in_mem : bool -> Stream -> Z.

Abbreviation pick := (Agg.SpillPartition_pick HashTable_ByteSize bytes_in_mem).
Abbreviation mem := (Agg.spill_mem HashTable_ByteSize bytes_in_mem).
Abbreviation Spill := (Agg.Partition_Spill sizeof_Bucket HashTable_size).
Abbreviation SpillPartition :=
  (Agg.SpillPartition sizeof_Bucket HashTable_size HashTable_ByteSize bytes_in_mem).

(** The partitions the aggregation considers for spilling. *)
Definition agg_candidate (p : Partition) : bool :=
  negb (is_closed p) && negb (is_spilled p).

Lemma agg_pick_shape (ps : list Partition) :
  forall i mx idx,
    pick ps i mx idx = Selection.pick_first_largest agg_candidate mem ps i mx idx.
Proof.
  induction ps as [|p rest IH]; intros i mx idx; simpl; [reflexivity|].
  unfold agg_candidate.
  destruct (is_closed p); simpl; [apply IH|].
  destruct (is_spilled p); simpl; [apply IH|].
  destruct (mx <? _); apply IH.
Qed.

Ltac unfold_agg_spill :=
  unfold Agg.Partition_Spill, Agg.Partition_SerializeStreamForSpilling,
    Agg.close_and_reset_hash_tbl, bind, ret, raise, check, get_node, get_partition,
    get_world, put_world, put_partition, modify_node, Streams.SwitchToIoBuffers,
    Streams.UnpinStream, Streams.Init, ask, ok.

(** [Spill] on [hash_partitions_[k]] leaves the other entries alone. *)
Lemma agg_Spill_frame (k : nat) (st : St) :
  forall j, j <> k ->
    hash_partitions_ (fst (snd (Spill k st))) !! j = hash_partitions_ (fst st) !! j.
Proof.
  intros j Hj. destruct st as [n w]. unfold_agg_spill. cbn.
  repeat (destruct_innermost; cbn);
    rewrite ?list_lookup_insert_ne by congruence; reflexivity.
Qed.

(** When [Spill] succeeds on an existing partition, its hash table is gone. *)
Lemma agg_Spill_success (k : nat) (st : St) :
  (k < length (hash_partitions_ (fst st)))%nat ->
  on_success (Spill k st)
    (fun _ st' => exists p', hash_partitions_ (fst st') !! k = Some p' /\
                             is_spilled p' = true).
Proof.
  intros Hk. destruct st as [n w]. simpl in Hk.
  unfold on_success. unfold_agg_spill. cbn.
  repeat (rewrite ?list_lookup_insert_eq by (rewrite ?length_insert; exact Hk);
          cbn; destruct_innermost; cbn);
    try exact I;
    (eexists; split;
     [apply list_lookup_insert_eq; rewrite ?length_insert; exact Hk|]);
    unfold is_spilled; cbn;
    repeat match goal with H : hash_tbl _ = None |- _ => rewrite H end;
    reflexivity.
Qed.

Lemma agg_SpillPartition_unfold (n : AggNode) (w : World) :
  SpillPartition (n, w) =
  let partition_idx := pick (hash_partitions_ n) 0 0 (-1) in
  if partition_idx =? -1 then (inl MemLimitTooLowError, (n, w))
  else
    Spill (Z.to_nat partition_idx)
          (set_hash_tbls n (<[ Z.to_nat partition_idx := false ]> (hash_tbls_ n)), w).
Proof.
  unfold Agg.SpillPartition, bind, get_node, modify_node, ret, raise.
  cbv zeta. cbn [fst snd].
  destruct (pick (hash_partitions_ n) 0 0 (-1) =? -1); reflexivity.
Qed.

(** The outcome of the aggregation's [SpillPartition]. *)
Lemma agg_SpillPartition_outcome (n : AggNode) (w : World) :
  (pick (hash_partitions_ n) 0 0 (-1) = -1 <->
   forall k p, hash_partitions_ n !! k = Some p -> agg_candidate p = true -> mem p <= 0)
  /\
  (pick (hash_partitions_ n) 0 0 (-1) = -1 ->
   SpillPartition (n, w) = (inl MemLimitTooLowError, (n, w)))
  /\
  (pick (hash_partitions_ n) 0 0 (-1) <> -1 ->
   exists (k : nat) (p : Partition),
     pick (hash_partitions_ n) 0 0 (-1) = Z.of_nat k /\
     hash_partitions_ n !! k = Some p /\ agg_candidate p = true /\ 0 < mem p /\
     (forall k' p', hash_partitions_ n !! k' = Some p' -> agg_candidate p' = true ->
                    mem p' <= mem p) /\
     (forall k' p', (k' < k)%nat -> hash_partitions_ n !! k' = Some p' ->
                    agg_candidate p' = true -> mem p' < mem p) /\
     (forall j, j <> k ->
        hash_partitions_ (fst (snd (SpillPartition (n, w)))) !! j = hash_partitions_ n !! j) /\
     on_success (SpillPartition (n, w))
       (fun _ st' => exists p', hash_partitions_ (fst st') !! k = Some p' /\
                                is_spilled p' = true)).
Proof.
  rewrite agg_pick_shape.
  destruct (pick_first_largest_top agg_candidate mem (hash_partitions_ n))
    as [[Hr Hall]|(k & p & Hr & Hk & He & Hpos & Hmax & Hfirst)].
  - split; [split; [intros _; exact Hall | intros _; exact Hr]|].
    split; [|intros Hne; contradiction].
    intros _. rewrite agg_SpillPartition_unfold. cbv zeta.
    rewrite agg_pick_shape, Hr. reflexivity.
  - split.
    { split; [intros H; rewrite Hr in H; lia|].
      intros Hall. specialize (Hall k p Hk He). lia. }
    split; [intros H; rewrite Hr in H; lia|].
    intros _. exists k, p. repeat (split; [assumption|]).
    assert (Hlen : (k < length (hash_partitions_ n))%nat)
      by (apply lookup_lt_is_Some; eauto).
    rewrite agg_SpillPartition_unfold. cbv zeta.
    rewrite agg_pick_shape, Hr.
    replace (Z.of_nat k =? -1) with false by (symmetry; apply Z.eqb_neq; lia).
    rewrite Nat2Z.id.
    split.
    + intros j Hj. now rewrite agg_Spill_frame.
    + apply agg_Spill_success. exact Hlen.
Qed.

End AggSpillFacts.

(** C3, as stated, fails for the join: of two open partitions that have not
    been spilled, the one with the larger footprint (a hash table of 1024
    buckets) is passed over because its hash table has matches, and the
    smaller one (512 buckets) is spilled. Sizes: 16 bytes per bucket, no
    build rows in memory. *)
Definition example_byte_size (ht : HashTbl.HashTable) : Z :=
  HashTbl.num_buckets_ ht * 16 + HashTbl.total_data_page_size_ ht.

Definition example_table (num_buckets : Z) (has_matches : bool) : HashTbl.HashTable :=
  HashTbl.mkHashTable true true [] 0 0 (-1)
    (Some (replicate (Z.to_nat num_buckets) HashTbl.zero_Bucket)) num_buckets
    0 0 has_matches 0 0 0 0 0.

Definition example_join_partition (num_buckets : Z) (has_matches : bool) : Join.Partition :=
  Join.set_hash_tbl (Join.new_Partition 0) (Some (example_table num_buckets has_matches)).

Definition example_join_node : Join.JoinNode :=
  Join.mkJoinNode Join.PARTITIONING_BUILD 0
    [example_join_partition 1024 true; example_join_partition 512 false]
    [Join.OfHashPartition 0; Join.OfHashPartition 1] [] None (fun _ => 0).

Definition example_world (a : Runtime.Answer) : Runtime.World :=
  Runtime.mkWorld (fun _ => a) 0 (1536 * 16) 0 0 false.


Lemma join_spill_keeps_matched_partitions_witness :
  Join.SpillPartition_pick example_byte_size (fun _ _ => 0)
    (Join.hash_partitions_ example_join_node) 0 0 (-1) <> Z.of_nat 0 /\
  Join.hash_partitions_
    (fst (snd (Join.SpillPartition 16 example_byte_size (fun _ _ => 0)
                 (example_join_node, example_world Runtime.Yes)))) !! 0%nat
  = Some (example_join_partition 1024 true).
Proof.
  apply (join_spill_keeps_matched_partitions 16 example_byte_size (fun _ _ => 0)
           example_join_node (example_world Runtime.Yes) 0
           (example_join_partition 1024 true) (example_table 1024 true));
    reflexivity.
Defined.

(** ** Repartitioning that does not reduce a spilled partition *)

Lemma foldl_pointwise {A B : Type} (f g : A -> B -> A) (l : list B) :
  (forall a b, f a b = g a b) -> forall a, foldl f a l = foldl g a l.
Proof.
  intros Hfg. induction l as [|b l IH]; intros a; simpl; [reflexivity|].
  now rewrite Hfg, IH.
Qed.

Section LargestFacts.
Context {P : Type}.
Variable skip : P -> bool.
Variable rows : P -> Z.

(** Both [LargestSpilledPartition] functions fold this step over
    [hash_partitions_]. *)
Definition largest_step (max_rows : Z) (partition : P) : Z :=
  if skip partition then max_rows
  else if max_rows <? rows partition then rows partition else max_rows.

Lemma foldl_largest_spec (ps : list P) :
  forall m0,
    let r := foldl largest_step m0 ps in
    m0 <= r /\
    (forall k p, ps !! k = Some p -> skip p = false -> rows p <= r) /\
    (r = m0 \/ exists k p, ps !! k = Some p /\ skip p = false /\ rows p = r).
Proof.
  induction ps as [|p rest IH]; intros m0; simpl.
  - split; [lia|]. split; [|left; reflexivity].
    intros k q Hk. rewrite lookup_nil in Hk. discriminate.
  - destruct (IH (largest_step m0 p)) as (Hle & Hall & Hex).
    assert (Hstep : m0 <= largest_step m0 p /\ (skip p = false -> rows p <= largest_step m0 p)).
    { unfold largest_step. destruct (skip p); [split; [lia|discriminate]|].
      destruct (m0 <? rows p) eqn:Hlt; [apply Z.ltb_lt in Hlt|apply Z.ltb_ge in Hlt];
        split; lia. }
    destruct Hstep as [H0 Hp].
    split; [lia|]. split.
    + intros [|k] q Hk Hq; simpl in Hk.
      * inversion Hk; subst. specialize (Hp Hq). lia.
      * now apply (Hall k).
    + assert (Hcases : largest_step m0 p = m0 \/
                       (skip p = false /\ largest_step m0 p = rows p)).
      { unfold largest_step. destruct (skip p); [left; reflexivity|].
        destruct (m0 <? rows p); [right; split; reflexivity|left; reflexivity]. }
      destruct Hex as [Heq|(k & q & Hk & Hq & Hr)].
      * destruct Hcases as [Hm|[Hs Hm]].
        -- left. rewrite Heq. exact Hm.
        -- right. exists 0%nat, p. simpl. rewrite Heq. auto.
      * right. exists (S k), q. simpl. auto.
Qed.

End LargestFacts.

Section AggRepartitionFacts.
Import Runtime Agg.

Variable sizeof_Bucket : Z.
Variable Probe : list HashTbl.Bucket -> Z -> Z -> Z.
Variable FLAGS_enable_quadratic_probing : bool.
Variable HashTable_size : HashTable -> Z.
Variable ProcessStream : bool -> Exec St unit.

Abbreviation read_spilled :=
  (Agg.NextPartition_read_spilled sizeof_Bucket FLAGS_enable_quadratic_probing
     HashTable_size ProcessStream).
Abbreviation check_reduction := (Agg.NextPartition_check_reduction sizeof_Bucket).
Abbreviation repartition :=
  (Agg.NextPartition_repartition sizeof_Bucket FLAGS_enable_quadratic_probing
     HashTable_size ProcessStream).
Abbreviation Close := (Agg.Partition_Close sizeof_Bucket).
Abbreviation MoveHashPartitions := (Agg.MoveHashPartitions sizeof_Bucket).

Definition agg_rows (p : Partition) : Z :=
  stream_rows (aggregated_row_stream p) + stream_rows (unaggregated_row_stream p).

(** A child that counts for [LargestSpilledPartition]. *)
Definition agg_spilled_child (p : Partition) : bool :=
  negb (is_closed p) && is_spilled p.

Lemma agg_Largest_shape (n : AggNode) :
  LargestSpilledPartition n
  = foldl (largest_step (fun p => negb (agg_spilled_child p)) agg_rows) 0 (hash_partitions_ n).
Proof.
  unfold LargestSpilledPartition. apply foldl_pointwise. intros m p.
  unfold largest_step, agg_spilled_child, agg_rows.
  destruct (is_closed p), (is_spilled p); reflexivity.
Qed.

Lemma close_stream_rows (o : option Stream) :
  stream_rows (close_stream o) = stream_rows o.
Proof. destruct o; reflexivity. Qed.

(** Closing a partition keeps the row counts of its streams. *)
Lemma agg_Close_rows (f : bool) (p : Partition) (w : World) :
  agg_rows (fst (Close f p w)) = agg_rows p.
Proof.
  unfold Agg.Partition_Close, agg_rows.
  destruct (is_closed p); [reflexivity|]. cbn.
  destruct (hash_tbl p); cbn; destruct (agg_fn_pool p); cbn;
    now rewrite !close_stream_rows.
Qed.

(** The only error [MoveHashPartitions] hands up is the one of a stream. *)
Lemma agg_move_partition_errors (i : nat) (st : St) (e : Status) :
  fst (Agg.move_partition sizeof_Bucket i st) = inl e -> e = CollaboratorError.
Proof.
  destruct st as [n w].
  unfold Agg.move_partition, Agg.Partition_Close, bind, ret, raise, check, get_partition,
    get_world, put_world, put_partition, modify_node, Streams.UnpinStream, ask, ok.
  cbn.
  repeat (destruct_innermost; cbn); intros H; inversion H; reflexivity.
Qed.

Lemma agg_for_each_errors (body : nat -> Exec St unit) (E : Status -> Prop) :
  (forall i st e, fst (body i st) = inl e -> E e) ->
  forall l st e, fst (Agg.for_each l body st) = inl e -> E e.
Proof.
  intros Hbody. induction l as [|i l IH]; intros st e; simpl.
  - unfold ret. simpl. discriminate.
  - unfold bind. destruct (body i st) as [[e'|[]] st'] eqn:Hb; simpl.
    + intros H. inversion H; subst. apply (Hbody i st). now rewrite Hb.
    + apply IH.
Qed.

Lemma agg_MoveHashPartitions_errors (num_input_rows : Z) (st : St) (e : Status) :
  fst (MoveHashPartitions num_input_rows st) = inl e -> e = CollaboratorError.
Proof.
  unfold Agg.MoveHashPartitions, bind, get_node, modify_node. cbn.
  destruct (Agg.for_each _ _ st) as [[e'|[]] st'] eqn:Hf; simpl; [|discriminate].
  intros H. inversion H; subst.
  apply (agg_for_each_errors (Agg.move_partition sizeof_Bucket)
           (fun e => e = CollaboratorError) agg_move_partition_errors
           (seq 0 (length (hash_partitions_ (fst st)))) st).
  now rewrite Hf.
Qed.

(** What [NextPartition] does after the spilled partition at the front has
    been read into its children. *)
Lemma agg_check_reduction_unfold (n : AggNode) (w : World)
    (partition : Partition) (rest : list Partition) :
  spilled_partitions_ n = partition :: rest ->
  check_reduction (n, w) =
  let n2 := set_spilled_partitions
              (COUNTER_ADD RowsRepartitioned (stream_rows (unaggregated_row_stream partition))
                 (COUNTER_ADD RowsRepartitioned (stream_rows (aggregated_row_stream partition)) n))
              rest in
  let w2 := snd (Close false partition w) in
  if agg_rows partition =? LargestSpilledPartition n
  then (inl (MemLimitExceeded RepartitionNoReduction), (n2, SetMemLimitExceeded w2))
  else MoveHashPartitions (agg_rows partition) (n2, w2).
Proof.
  intros Hsp.
  unfold Agg.NextPartition_check_reduction, bind, get_node, get_world, put_world,
    modify_node, modify_world, raise.
  cbn [fst snd]. rewrite Hsp.
  cbn -[Agg.Partition_Close Agg.MoveHashPartitions Agg.LargestSpilledPartition
        Agg.COUNTER_ADD Z.eqb Z.add].
  pose proof (agg_Close_rows false partition w) as Hrows.
  destruct (Close false partition w) as [p' w'] eqn:Hc.
  cbn -[Agg.Partition_Close Agg.MoveHashPartitions Agg.LargestSpilledPartition
        Agg.COUNTER_ADD Z.eqb Z.add] in *.
  unfold agg_rows in Hrows at 1. rewrite Hrows.
  change (LargestSpilledPartition (set_spilled_partitions _ rest))
    with (LargestSpilledPartition n).
  destruct (agg_rows partition =? LargestSpilledPartition n); reflexivity.
Qed.

(** The aggregation's half of C8. *)
Lemma agg_repartition_reduction (n : AggNode) (w : World) (n1 : AggNode) (w1 : World)
    (partition : Partition) (rest : list Partition) :
  read_spilled (n, w) = (inr tt, (n1, w1)) ->
  spilled_partitions_ n1 = partition :: rest ->
  (fst (repartition (n, w)) = inl (MemLimitExceeded RepartitionNoReduction)
   <-> agg_rows partition = LargestSpilledPartition n1)
  /\
  (agg_rows partition <> LargestSpilledPartition n1 ->
   repartition (n, w)
   = MoveHashPartitions (agg_rows partition)
       (set_spilled_partitions
          (COUNTER_ADD RowsRepartitioned (stream_rows (unaggregated_row_stream partition))
             (COUNTER_ADD RowsRepartitioned (stream_rows (aggregated_row_stream partition)) n1))
          rest,
        snd (Close false partition w1)))
  /\
  (0 < agg_rows partition ->
   (agg_rows partition = LargestSpilledPartition n1 <->
    (exists k child, hash_partitions_ n1 !! k = Some child /\
                     agg_spilled_child child = true /\
                     agg_rows child = agg_rows partition) /\
    (forall k child, hash_partitions_ n1 !! k = Some child ->
                     agg_spilled_child child = true ->
                     agg_rows child <= agg_rows partition))).
Proof.
  intros Hread Hsp.
  assert (Hrep : repartition (n, w) = check_reduction (n1, w1)).
  { unfold Agg.NextPartition_repartition, bind. now rewrite Hread. }
  rewrite Hrep, (agg_check_reduction_unfold n1 w1 partition rest Hsp). cbv zeta.
  split; [|split].
  - destruct (agg_rows partition =? LargestSpilledPartition n1) eqn:Heq.
    + apply Z.eqb_eq in Heq. split; [intros _; exact Heq|intros _; reflexivity].
    + apply Z.eqb_neq in Heq. split; [|intros H; contradiction].
      intros H. apply agg_MoveHashPartitions_errors in H. discriminate.
  - intros Hne. apply Z.eqb_neq in Hne. now rewrite Hne.
  - intros Hpos. rewrite agg_Largest_shape.
    destruct (foldl_largest_spec (fun p => negb (agg_spilled_child p)) agg_rows
                (hash_partitions_ n1) 0) as (_ & Hall & Hex).
    split.
    + intros Heq. split.
      * destruct Hex as [H0|(k & c & Hk & Hc & Hr)]; [lia|].
        exists k, c. apply negb_false_iff in Hc. split; [exact Hk|]. split; [exact Hc|lia].
      * intros k c Hk Hc. rewrite Heq. apply (Hall k c Hk). now rewrite Hc.
    + intros [(k & c & Hk & Hc & Hr) Hmax].
      apply Z.le_antisymm.
      * rewrite <- Hr. apply (Hall k c Hk). now rewrite Hc.
      * destruct Hex as [H0|(k' & c' & Hk' & Hc' & Hr')]; [lia|].
        rewrite <- Hr'. apply (Hmax k' c' Hk'). now apply negb_false_iff.
Qed.

End AggRepartitionFacts.

Section JoinRepartitionFacts.
Import Runtime Join.

Variable sizeof_Bucket : Z.
Variable ProcessBuildInput : Z -> Exec St unit.

Abbreviation build_input := (Join.repartition_build_input sizeof_Bucket ProcessBuildInput).
Abbreviation repartition := (Join.repartition_input sizeof_Bucket ProcessBuildInput).

Definition join_rows (p : Partition) : Z :=
  stream_rows (build_rows_ p) + stream_rows (probe_rows_ p).

(** A child that counts for [LargestSpilledPartition]. *)
Definition join_spilled_child (p : Partition) : bool :=
  negb (is_closed_ p) && is_spilled_ p.

Lemma join_Largest_shape (n : JoinNode) :
  LargestSpilledPartition n
  = foldl (largest_step (fun p => negb (join_spilled_child p)) join_rows) 0
          (hash_partitions_ n).
Proof.
  unfold LargestSpilledPartition. apply foldl_pointwise. intros m p.
  unfold largest_step, join_spilled_child, join_rows.
  destruct (is_closed_ p), (is_spilled_ p); reflexivity.
Qed.

Lemma join_check_reduction_unfold (num_input_rows : Z) (st : St) :
  Join.check_reduction num_input_rows st =
  if num_input_rows =? LargestSpilledPartition (fst st)
  then (inl (MemLimitExceeded RepartitionNoReduction),
        (fst st, SetMemLimitExceeded (snd st)))
  else (inr tt, st).
Proof.
  unfold Join.check_reduction, bind, get_node, modify_world, raise, ret.
  cbn [fst snd]. destruct (num_input_rows =? _); [reflexivity|]. now destruct st.
Qed.

(** [num_input_rows] is the number of build rows the input partition had
    when the branch was entered. *)
Lemma join_build_input_rows (st : St) (num : Z) (st1 : St) :
  build_input st = (inr num, st1) ->
  num = stream_rows (build_rows_ (default (new_Partition 0) (input_partition_ (fst st)))).
Proof.
  destruct st as [n w].
  unfold Join.repartition_build_input, Join.Partition_Spill, bind, ret, raise, check,
    get_partition, get_world, put_world, put_partition, modify_node,
    Streams.SwitchToIoBuffers, Streams.UnpinStream, ask, ok.
  cbn.
  repeat (destruct_innermost; cbn); intros H; inversion H; subst; cbn;
    try reflexivity;
    destruct (build_rows_ (default (new_Partition 0) (input_partition_ n)));
    reflexivity.
Qed.

(** The join's half of C8. *)
Lemma join_repartition_reduction (st : St) (num_input_rows : Z) (st1 : St) :
  build_input st = (inr num_input_rows, st1) ->
  (fst (repartition st) = inl (MemLimitExceeded RepartitionNoReduction)
   <-> num_input_rows = LargestSpilledPartition (fst st1))
  /\
  (num_input_rows <> LargestSpilledPartition (fst st1) -> repartition st = (inr tt, st1))
  /\
  (0 < num_input_rows ->
   (num_input_rows = LargestSpilledPartition (fst st1) <->
    (exists k child, hash_partitions_ (fst st1) !! k = Some child /\
                     join_spilled_child child = true /\
                     join_rows child = num_input_rows) /\
    (forall k child, hash_partitions_ (fst st1) !! k = Some child ->
                     join_spilled_child child = true ->
                     join_rows child <= num_input_rows))).
Proof.
  intros Hbuild.
  assert (Hrep : repartition st = Join.check_reduction num_input_rows st1).
  { unfold Join.repartition_input, bind. now rewrite Hbuild. }
  rewrite Hrep, join_check_reduction_unfold.
  split; [|split].
  - destruct (num_input_rows =? LargestSpilledPartition (fst st1)) eqn:Heq.
    + apply Z.eqb_eq in Heq. split; [intros _; exact Heq|intros _; reflexivity].
    + apply Z.eqb_neq in Heq. split; [simpl; discriminate|intros H; contradiction].
  - intros Hne. apply Z.eqb_neq in Hne. now rewrite Hne.
  - intros Hpos. rewrite join_Largest_shape.
    destruct (foldl_largest_spec (fun p => negb (join_spilled_child p)) join_rows
                (hash_partitions_ (fst st1)) 0) as (_ & Hall & Hex).
    split.
    + intros Heq. split.
      * destruct Hex as [H0|(k & c & Hk & Hc & Hr)]; [lia|].
        exists k, c. apply negb_false_iff in Hc. split; [exact Hk|]. split; [exact Hc|lia].
      * intros k c Hk Hc. rewrite Heq. apply (Hall k c Hk). now rewrite Hc.
    + intros [(k & c & Hk & Hc & Hr) Hmax].
      apply Z.le_antisymm.
      * rewrite <- Hr. apply (Hall k c Hk). now rewrite Hc.
      * destruct Hex as [H0|(k' & c' & Hk' & Hc' & Hr')]; [lia|].
        rewrite <- Hr'. apply (Hmax k' c' Hk'). now apply negb_false_iff.
Qed.

End JoinRepartitionFacts.

(** C8: once a spilled partition has been partitioned one level down, both
    operators return the memory-limit error "Repartitioning did not reduce
    the size of a spilled partition" exactly when [LargestSpilledPartition]
    equals the number of rows of the input (aggregated plus unaggregated
    rows in the aggregation, build rows in the join); for a non-empty input
    that is: some open spilled child holds as many rows as the input and no
    open spilled child holds more. Otherwise the aggregation goes on with
    [MoveHashPartitions] and the join's branch ends with [OK]. *)
Theorem repartition_fails_iff_no_reduction
    (sizeof_Bucket : Z) (FLAGS_enable_quadratic_probing : bool)
    (HashTable_size : HashTbl.HashTable -> Z)
    (ProcessStream : bool -> Runtime.Exec Agg.St unit)
    (ProcessBuildInput : Z -> Runtime.Exec Join.St unit) :
  (forall (n : Agg.AggNode) (w : Runtime.World) (n1 : Agg.AggNode) (w1 : Runtime.World)
          (partition : Agg.Partition) (rest : list Agg.Partition),
     Agg.NextPartition_read_spilled sizeof_Bucket FLAGS_enable_quadratic_probing
       HashTable_size ProcessStream (n, w) = (inr tt, (n1, w1)) ->
     Agg.spilled_partitions_ n1 = partition :: rest ->
     let repartition :=
       Agg.NextPartition_repartition sizeof_Bucket FLAGS_enable_quadratic_probing
         HashTable_size ProcessStream (n, w) in
     (fst repartition = inl (Runtime.MemLimitExceeded Runtime.RepartitionNoReduction)
      <-> agg_rows partition = Agg.LargestSpilledPartition n1) /\
     (agg_rows partition <> Agg.LargestSpilledPartition n1 ->
      repartition
      = Agg.MoveHashPartitions sizeof_Bucket (agg_rows partition)
          (Agg.set_spilled_partitions
             (Agg.COUNTER_ADD Agg.RowsRepartitioned
                (Agg.stream_rows (Agg.unaggregated_row_stream partition))
                (Agg.COUNTER_ADD Agg.RowsRepartitioned
                   (Agg.stream_rows (Agg.aggregated_row_stream partition)) n1))
             rest,
           snd (Agg.Partition_Close sizeof_Bucket false partition w1))) /\
     (0 < agg_rows partition ->
      (agg_rows partition = Agg.LargestSpilledPartition n1 <->
       (exists k child, Agg.hash_partitions_ n1 !! k = Some child /\
                        agg_spilled_child child = true /\
                        agg_rows child = agg_rows partition) /\
       (forall k child, Agg.hash_partitions_ n1 !! k = Some child ->
                        agg_spilled_child child = true ->
                        agg_rows child <= agg_rows partition))))
  /\
  (forall (st : Join.St) (num_input_rows : Z) (st1 : Join.St),
     Join.repartition_build_input sizeof_Bucket ProcessBuildInput st
     = (inr num_input_rows, st1) ->
     let repartition := Join.repartition_input sizeof_Bucket ProcessBuildInput st in
     num_input_rows
     = Join.stream_rows
         (Join.build_rows_ (default (Join.new_Partition 0) (Join.input_partition_ (fst st)))) /\
     (fst repartition = inl (Runtime.MemLimitExceeded Runtime.RepartitionNoReduction)
      <-> num_input_rows = Join.LargestSpilledPartition (fst st1)) /\
     (num_input_rows <> Join.LargestSpilledPartition (fst st1) ->
      repartition = (inr tt, st1)) /\
     (0 < num_input_rows ->
      (num_input_rows = Join.LargestSpilledPartition (fst st1) <->
       (exists k child, Join.hash_partitions_ (fst st1) !! k = Some child /\
                        join_spilled_child child = true /\
                        join_rows child = num_input_rows) /\
       (forall k child, Join.hash_partitions_ (fst st1) !! k = Some child ->
                        join_spilled_child child = true ->
                        join_rows child <= num_input_rows)))).
Proof.
  split.
  - intros n w n1 w1 partition rest Hread Hsp. cbv zeta.
    apply (agg_repartition_reduction sizeof_Bucket FLAGS_enable_quadratic_probing
             HashTable_size ProcessStream n w n1 w1 partition rest Hread Hsp).
  - intros st num st1 Hbuild. cbv zeta. split.
    + apply (join_build_input_rows sizeof_Bucket ProcessBuildInput st num st1 Hbuild).
    + apply (join_repartition_reduction sizeof_Bucket ProcessBuildInput st num st1 Hbuild).
Qed.

(** A spilled aggregation partition of 8 rows whose repartitioning puts all
    8 rows into one child that spills, and the same for the join. *)
Definition example_stream (rows : Z) : Streams.Stream :=
  Streams.mkStream rows false false true false false.

Definition example_spilled_agg_partition (lvl rows : Z) : Agg.Partition :=
  Agg.mkPartition lvl false None [] None (Some (example_stream rows))
                  (Some (example_stream 0)).

Definition example_agg_node : Agg.AggNode :=
  Agg.mkAggNode false false false 0 (-1) 0 [] (replicate 16 false) []
    [example_spilled_agg_partition 0 8] None (fun _ => 0) 0 0 true.

Definition example_skewed_ProcessStream (aggregated : bool)
  : Runtime.Exec Agg.St unit :=
  if aggregated
  then Agg.modify_node (fun n =>
         Agg.set_hash_partitions n
           (<[ 0%nat := example_spilled_agg_partition 1 8 ]> (Agg.hash_partitions_ n)))
  else Runtime.ret tt.

Definition example_spilled_join_partition (lvl rows : Z) : Join.Partition :=
  Join.mkPartition false true lvl None (Some (example_stream rows))
                   (Some (example_stream 0)).

Definition example_repartitioning_join_node : Join.JoinNode :=
  Join.mkJoinNode Join.PROCESSING_PROBE 0 [] (replicate 16 Join.NoTable) []
    (Some (example_spilled_join_partition 0 8)) (fun _ => 0).

Definition example_skewed_ProcessBuildInput (lvl : Z) : Runtime.Exec Join.St unit :=
  Join.modify_node (fun n =>
    Join.set_hash_partitions n [example_spilled_join_partition lvl 8]).

Lemma repartition_fails_iff_no_reduction_witness :
  fst (Agg.NextPartition_repartition 16 true (fun ht => HashTbl.num_filled_buckets_ ht)
         example_skewed_ProcessStream (example_agg_node, example_world Runtime.Yes))
  = inl (Runtime.MemLimitExceeded Runtime.RepartitionNoReduction)
  /\
  fst (Join.repartition_input 16 example_skewed_ProcessBuildInput
         (example_repartitioning_join_node, example_world Runtime.Yes))
  = inl (Runtime.MemLimitExceeded Runtime.RepartitionNoReduction).
Proof.
  pose proof (repartition_fails_iff_no_reduction 16 true
                (fun ht => HashTbl.num_filled_buckets_ ht)
                example_skewed_ProcessStream example_skewed_ProcessBuildInput)
    as [Hagg Hjoin].
  split.
  - specialize (Hagg example_agg_node (example_world Runtime.Yes)
                  (fst (snd (Agg.NextPartition_read_spilled 16 true
                               (fun ht => HashTbl.num_filled_buckets_ ht)
                               example_skewed_ProcessStream
                               (example_agg_node, example_world Runtime.Yes))))
                  (snd (snd (Agg.NextPartition_read_spilled 16 true
                               (fun ht => HashTbl.num_filled_buckets_ ht)
                               example_skewed_ProcessStream
                               (example_agg_node, example_world Runtime.Yes))))
                  (example_spilled_agg_partition 0 8) []).
    cbv zeta in Hagg. apply Hagg; vm_compute; reflexivity.
  - specialize (Hjoin (example_repartitioning_join_node, example_world Runtime.Yes) 8
                  (snd (Join.repartition_build_input 16 example_skewed_ProcessBuildInput
                          (example_repartitioning_join_node, example_world Runtime.Yes)))).
    cbv zeta in Hjoin. apply Hjoin; vm_compute; reflexivity.
Defined.

(** ** Closing twice *)

(** C9, as stated, fails for [HashTable]: [Close] neither clears
    [buckets_] nor remembers that it ran, so a second call hands the same
    array to [free] again and releases [num_buckets_ * sizeof(Bucket)]
    bytes a second time. A table of 1024 buckets of 16 bytes, with 24576
    bytes charged to the client: *)
Lemma HashTable_Close_twice_releases_twice :
  Runtime.consumed
    (snd (HashTbl.Close 16 (example_table 1024 false) (example_world Runtime.Yes)))
  = 8192 /\
  Runtime.consumed
    (snd (HashTbl.Close 16
            (fst (HashTbl.Close 16 (example_table 1024 false) (example_world Runtime.Yes)))
            (snd (HashTbl.Close 16 (example_table 1024 false) (example_world Runtime.Yes)))))
  = -8192 /\
  Runtime.freed_arrays
    (snd (HashTbl.Close 16
            (fst (HashTbl.Close 16 (example_table 1024 false) (example_world Runtime.Yes)))
            (snd (HashTbl.Close 16 (example_table 1024 false) (example_world Runtime.Yes)))))
  = 2.
Proof. vm_compute. repeat split; reflexivity. Qed.

(** The cache behaves alike once it holds memory: [capacity_] stays as it
    is, so the second [Close] releases [MemUsage] again. *)
Lemma ExprValuesCache_Close_twice_releases_twice
    (Bitmap_MemUsage : Z -> Z) (c : CtxStorage.ExprValuesCache)
    (t : CtxStorage.MemTracker) :
  CtxStorage.capacity_ c <> 0 ->
  let usage := CtxStorage.MemUsage Bitmap_MemUsage (CtxStorage.capacity_ c)
                 (CtxStorage.expr_values_bytes_per_row_ c) (CtxStorage.num_exprs_ c) in
  let '(c1, t1) := CtxStorage.Close Bitmap_MemUsage c t in
  CtxStorage.consumption (snd (CtxStorage.Close Bitmap_MemUsage c1 t1))
  = CtxStorage.consumption t - usage - usage.
Proof.
  intros Hcap. unfold CtxStorage.Close. apply Z.eqb_neq in Hcap.
  rewrite Hcap. cbn. rewrite Hcap. reflexivity.
Qed.

(** C9, amended: a second [Close] is a no-op on an operator's partition,
    in the aggregation and in the join, whatever the first call was given:
    partition, node counters, batch and surroundings come back unchanged;
    and [ExprValuesCache::Close] is a no-op on a cache whose [capacity_]
    is 0. *)
Theorem Close_twice_is_noop_where_guarded
    (sizeof_Bucket : Z) (Bitmap_MemUsage : Z -> Z) :
  (forall (finalize_rows finalize_rows' : bool) (p : Agg.Partition) (w : Runtime.World),
     let '(p1, w1) := Agg.Partition_Close sizeof_Bucket finalize_rows p w in
     Agg.Partition_Close sizeof_Bucket finalize_rows' p1 w1 = (p1, w1))
  /\
  (forall (batch batch' : option (Join.RowBatch)) (p : Join.Partition)
          (n : Join.JoinNode) (w : Runtime.World),
     let '(p1, _, n1, w1) := Join.Partition_Close sizeof_Bucket batch p n w in
     Join.Partition_Close sizeof_Bucket batch' p1 n1 w1 = (p1, batch', n1, w1))
  /\
  (forall (c : CtxStorage.ExprValuesCache) (t : CtxStorage.MemTracker),
     CtxStorage.capacity_ c = 0 ->
     CtxStorage.Close Bitmap_MemUsage c t = (c, t)).
Proof.
  split; [|split].
  - intros f f' p w. unfold Agg.Partition_Close.
    destruct (Agg.is_closed p) eqn:Hc.
    + now rewrite Hc.
    + cbn. destruct (Agg.hash_tbl p); cbn; destruct (Agg.agg_fn_pool p); reflexivity.
  - intros b b' p n w. unfold Join.Partition_Close.
    destruct (Join.is_closed_ p) eqn:Hc.
    + now rewrite Hc.
    + cbn. destruct (Join.hash_tbl_ p); reflexivity.
  - intros c t Hcap. unfold CtxStorage.Close. now rewrite Hcap.
Qed.

(** ** The decision to expand the hash tables of a pre-aggregation *)

Section PreaggExpansionFacts.
Import Runtime Agg.

Variable HashTable_size : HashTable -> Z.
Variable HashTable_CurrentMemSize : HashTable -> Z.

Abbreviation ShouldExpand :=
  (Agg.ShouldExpandPreaggHashTables HashTable_size HashTable_CurrentMemSize).

(** The threshold of the claim: 0.0 below 256 KiB, 1.1 from 256 KiB, 2.0
    from 2 MiB of hash table memory. *)
Definition R_min (ht_mem : Z) : float :=
  if ht_mem <? 256 * 1024 then 0.0%float
  else if ht_mem <? 2 * 1024 * 1024 then 0x1.199999999999ap+0%float
  else 2.0%float.

(** [r_current = n_aggregated / n_in_hash]. *)
Definition r_current (n_aggregated n_in_hash : Z) : float :=
  PrimFloat.div (double_of_int64 n_aggregated) (double_of_int64 n_in_hash).

(** The estimate as the claim writes it: [1 + (N / n) * (r - 1)]. *)
Definition R_est_claim (N_expected n_aggregated n_in_hash : Z) : float :=
  PrimFloat.add 1%float
    (PrimFloat.mul
       (PrimFloat.div (double_of_int64 N_expected) (double_of_int64 n_aggregated))
       (PrimFloat.sub (r_current n_aggregated n_in_hash) 1%float)).

(** The estimate as the function computes it: the current reduction once
    the aggregated rows have reached the expected ones, and otherwise the
    extrapolation with the [int64_t] quotient of [N] by [n]. *)
Definition R_est (N_expected n_aggregated n_in_hash : Z) : float :=
  if N_expected <=? n_aggregated then r_current n_aggregated n_in_hash
  else PrimFloat.add 1%float
         (PrimFloat.mul
            (double_of_int64 (Z.quot N_expected n_aggregated))
            (PrimFloat.sub (r_current n_aggregated n_in_hash) 1%float)).

Definition ht_mem (n : AggNode) : Z := sum_over HashTable_CurrentMemSize (preagg_tables n).
Definition n_in_hash (n : AggNode) : Z := sum_over HashTable_size (preagg_tables n).
Definition n_aggregated (n : AggNode) : Z := child_rows_returned_ n - num_rows_returned_ n.
Definition N_expected (n : AggNode) : Z :=
  estimated_input_cardinality_ n - num_rows_returned_ n.

(** The loop over [STREAMING_HT_MIN_REDUCTION] finds the threshold. *)
Lemma find_cache_level_threshold (mem : Z) :
  streaming_ht_min_reduction
    (entry_at (find_cache_level (length STREAMING_HT_MIN_REDUCTION) mem 0))
  = R_min mem.
Proof.
  unfold R_min.
  change (2 * 1024 * 1024) with 2097152. change (256 * 1024) with 262144.
  destruct (Z.ltb_spec mem 262144) as [L1|L1];
    destruct (Z.ltb_spec mem 2097152) as [L2|L2]; try lia;
    change (find_cache_level (length STREAMING_HT_MIN_REDUCTION) mem 0)
      with (if true && (262144 <=? mem)
            then if true && (2097152 <=? mem)
                 then if false && (0 <=? mem) then 3 else 2
                 else 1
            else 0);
    destruct (Z.leb_spec 262144 mem) as [M1|M1]; try lia;
    destruct (Z.leb_spec 2097152 mem) as [M2|M2]; try lia;
    reflexivity.
Qed.

Lemma ShouldExpand_decision (n : AggNode) :
  ShouldExpand n =
  if n_in_hash n =? 0 then true
  else if n_aggregated n <=? 0 then true
  else PrimFloat.ltb (R_min (ht_mem n)) (R_est (N_expected n) (n_aggregated n) (n_in_hash n)).
Proof.
  unfold Agg.ShouldExpandPreaggHashTables. cbv zeta.
  fold (n_in_hash n) (ht_mem n) (n_aggregated n) (N_expected n).
  destruct (n_in_hash n =? 0); [reflexivity|].
  destruct (n_aggregated n <=? 0); [reflexivity|].
  rewrite find_cache_level_threshold. reflexivity.
Qed.

End PreaggExpansionFacts.

(** A pre-aggregation whose sixteen hash tables of 8192 buckets of 16 bytes
    hold 5 rows each, after 240 rows of a child that the planner expected
    to return 120, and none passed through. *)
Definition example_preagg_table : HashTbl.HashTable :=
  HashTbl.mkHashTable true true [] 0 0 (-1) None 8192 5 0 false 0 0 0 0 0.

Definition example_preagg_partition : Agg.Partition :=
  Agg.mkPartition 0 false (Some example_preagg_table) [] None
    (Some (example_stream 5)) None.

Definition example_preagg_node : Agg.AggNode :=
  Agg.mkAggNode true false false 0 120 0
    (replicate 16 example_preagg_partition) (replicate 16 true) [] [] None
    (fun _ => 0) 0 240 false.

Definition example_size (ht : HashTbl.HashTable) : Z :=
  HashTbl.num_filled_buckets_ ht - HashTbl.num_buckets_with_duplicates_ ht
  + HashTbl.num_duplicate_nodes_ ht.

Definition example_mem_size (ht : HashTbl.HashTable) : Z :=
  HashTbl.num_buckets_ ht * 16.

(** C7, as stated, fails. With 2 MiB of hash tables the threshold is 2.0; 240
    aggregated rows in 80 entries give [r_current = 3]; the planner expected
    120 rows, so the formula of the claim gives [1 + (120 / 240) * (3 - 1) =
    2.0], which is not above the threshold (and less with a whole-number
    quotient); the function answers that the tables are to be expanded,
    because it takes [r_current] itself once the aggregated rows have
    reached the expected ones. *)
Lemma preagg_expands_below_claimed_estimate :
  n_in_hash example_size example_preagg_node = 80
  /\ n_aggregated example_preagg_node = 240
  /\ N_expected example_preagg_node = 120
  /\ ht_mem example_mem_size example_preagg_node = 2 * 1024 * 1024
  /\ Agg.ShouldExpandPreaggHashTables example_size example_mem_size
       example_preagg_node = true
  /\ PrimFloat.ltb (R_min (2 * 1024 * 1024)) (R_est_claim 120 240 80) = false
  /\ R_est_claim 120 240 80 = 2.0%float
  /\ R_est 120 240 80 = 3.0%float.
Proof. vm_compute. repeat split; reflexivity. Qed.

Section PreaggExpansionRule.
Import Runtime Agg.

Variable sizeof_Bucket : Z.
Variable Probe : list HashTbl.Bucket -> Z -> Z -> Z.
Variable HashTable_size : HashTable -> Z.
Variable HashTable_CurrentMemSize : HashTable -> Z.
Variable HashTable_NumInsertsBeforeResize : HashTable -> Z.
Variable Row : Type.
Variable partition_of : Row -> nat.
Variable FindBuildRowBucket : Row -> HashTable -> bool.
Variable SetTuple : Row -> HashTable -> HashTable.

(** A round of [GetRowsStreaming] in which [ShouldExpandPreaggHashTables]
    answers no goes straight to [ProcessBatchStreaming], with the remaining
    capacities of the tables as they are: no [CheckAndResize]. *)
Lemma GetRowsStreaming_round_without_expansion (child_batch : list Row) (eos : bool)
    (n : AggNode) (w : World) :
  let n' := set_child n (child_rows_returned_ n + Z.of_nat (length child_batch)) eos in
  Agg.ShouldExpandPreaggHashTables HashTable_size HashTable_CurrentMemSize n' = false ->
  Agg.GetRowsStreaming_round sizeof_Bucket Probe HashTable_size HashTable_CurrentMemSize
    HashTable_NumInsertsBeforeResize Row partition_of FindBuildRowBucket SetTuple
    child_batch eos (n, w)
  = Agg.ProcessBatchStreaming Row partition_of FindBuildRowBucket SetTuple child_batch
      (map (fun i => capacity_of HashTable_NumInsertsBeforeResize (GetHashTable n' i))
           (seq 0 PARTITION_FANOUT))
      [] (n', w).
Proof.
  intros n' H. unfold Agg.GetRowsStreaming_round.
  cbv beta iota delta [Runtime.bind modify_node get_node Runtime.modify Runtime.get
                       Runtime.ret fst snd].
  fold n'. rewrite H, andb_false_r. reflexivity.
Qed.

End PreaggExpansionRule.

(** C7 (amended). [ShouldExpandPreaggHashTables] answers yes when the hash
    tables hold no row, or when no input row has been aggregated; otherwise
    it answers yes exactly when [R_est > R_min], where [R_min] is looked up
    by the total byte size of the hash tables (0.0 below 256 KiB, 1.1 from
    256 KiB, 2.0 from 2 MiB) and [R_est] is [r_current] itself once
    [n_aggregated >= N_expected], and [1 + (N_expected quot n_aggregated) *
    (r_current - 1)] with the whole-number quotient before that. A round of
    [GetRowsStreaming] in which the answer is no resizes no hash table: it
    hands the remaining capacities to [ProcessBatchStreaming] unchanged. *)
Theorem preagg_expansion_rule
    (sizeof_Bucket : Z) (Probe : list HashTbl.Bucket -> Z -> Z -> Z)
    (HashTable_size HashTable_CurrentMemSize HashTable_NumInsertsBeforeResize
       : HashTbl.HashTable -> Z)
    (Row : Type) (partition_of : Row -> nat)
    (FindBuildRowBucket : Row -> HashTbl.HashTable -> bool)
    (SetTuple : Row -> HashTbl.HashTable -> HashTbl.HashTable) :
  (forall n : Agg.AggNode,
     Agg.ShouldExpandPreaggHashTables HashTable_size HashTable_CurrentMemSize n =
     if n_in_hash HashTable_size n =? 0 then true
     else if n_aggregated n <=? 0 then true
     else PrimFloat.ltb (R_min (ht_mem HashTable_CurrentMemSize n))
            (R_est (N_expected n) (n_aggregated n) (n_in_hash HashTable_size n)))
  /\ (forall (child_batch : list Row) (eos : bool) (n : Agg.AggNode) (w : Runtime.World),
        let n' := Agg.set_child n
                    (Agg.child_rows_returned_ n + Z.of_nat (length child_batch)) eos in
        Agg.ShouldExpandPreaggHashTables HashTable_size HashTable_CurrentMemSize n' = false ->
        Agg.GetRowsStreaming_round sizeof_Bucket Probe HashTable_size
          HashTable_CurrentMemSize HashTable_NumInsertsBeforeResize Row partition_of
          FindBuildRowBucket SetTuple child_batch eos (n, w)
        = Agg.ProcessBatchStreaming Row partition_of FindBuildRowBucket SetTuple
            child_batch
            (map (fun i => Agg.capacity_of HashTable_NumInsertsBeforeResize
                             (Agg.GetHashTable n' i))
                 (seq 0 Agg.PARTITION_FANOUT))
            [] (n', w)).
Proof.
  split.
  - apply ShouldExpand_decision.
  - intros. apply GetRowsStreaming_round_without_expansion. assumption.
Qed.

(** ** A streaming pre-aggregation never spills *)

Section Triples.
Import Runtime.
Context {St : Type}.

(** [triple P c Q E]: run from a state where [P] holds, [c] yields a value
    and a state that satisfy [Q], or stops with a status and a state that
    satisfy [E]. *)
Definition triple {A} (P : St -> Prop) (c : Exec St A)
    (Q : A -> St -> Prop) (E : Status -> St -> Prop) : Prop :=
  forall st, P st ->
    match c st with
    | (inr a, st') => Q a st'
    | (inl e, st') => E e st'
    end.

Lemma triple_ret {A} (a : A) (P : St -> Prop) Q E :
  (forall st, P st -> Q a st) -> triple P (ret a) Q E.
Proof. intros H st HP. apply H, HP. Qed.

Lemma triple_raise {A} (e : Status) (P : St -> Prop) (Q : A -> St -> Prop) E :
  (forall st, P st -> E e st) -> triple P (raise e) Q E.
Proof. intros H st HP. apply H, HP. Qed.

Lemma triple_bind {A B} (c : Exec St A) (k : A -> Exec St B) P Q R E :
  triple P c Q E -> (forall a, triple (Q a) (k a) R E) -> triple P (bind c k) R E.
Proof.
  intros Hc Hk st HP. unfold bind. specialize (Hc st HP).
  destruct (c st) as [[e|a] st']; [exact Hc|]. apply Hk, Hc.
Qed.

Lemma triple_conseq {A} (c : Exec St A) (P P' : St -> Prop) Q Q' (E E' : Status -> St -> Prop) :
  triple P' c Q' E' ->
  (forall st, P st -> P' st) -> (forall a st, Q' a st -> Q a st) ->
  (forall e st, E' e st -> E e st) ->
  triple P c Q E.
Proof.
  intros Hc HP HQ HE st Hst. specialize (Hc st (HP st Hst)).
  destruct (c st) as [[e|a] st']; auto.
Qed.

Lemma triple_pure {A} (F : Prop) (c : Exec St A) (P : St -> Prop) Q E :
  (F -> triple P c Q E) -> triple (fun st => P st /\ F) c Q E.
Proof. intros H st [HP HF]. apply (H HF), HP. Qed.

Lemma triple_frame {A} (F : Prop) (c : Exec St A) (P : St -> Prop) Q E :
  triple P c Q E ->
  triple (fun st => P st /\ F) c (fun a st => Q a st /\ F) (fun e st => E e st /\ F).
Proof.
  intros H st [HP HF]. specialize (H st HP).
  destruct (c st) as [[e|a] st']; auto.
Qed.

End Triples.

Section StreamingFacts.
Import Runtime Agg.

Variable sizeof_Bucket : Z.
Variable Probe : list HashTbl.Bucket -> Z -> Z -> Z.
Variable FLAGS_enable_quadratic_probing : bool.
Variable HashTable_size : HashTable -> Z.
Variable HashTable_CurrentMemSize : HashTable -> Z.
Variable HashTable_NumInsertsBeforeResize : HashTable -> Z.

(** What [Partition::Spill] would change first: it frees the pool of the
    aggregate functions; and only an aggregation that is not a streaming
    one gives a partition a stream of unaggregated rows. *)
Definition unspilled (p : Partition) : bool :=
  match unaggregated_row_stream p, agg_fn_pool p with
  | None, Some _ => true
  | _, _ => false
  end.

Definition resident (p : Partition) : bool := unspilled p && negb (is_spilled p).

(** The hash table of the partition has its bucket array. *)
Definition allocated (p : Partition) : bool :=
  match hash_tbl p with
  | Some ht => match HashTbl.buckets_ ht with Some _ => true | None => false end
  | None => false
  end.

(** The node is a streaming pre-aggregation that has spilled nothing: the
    counter of spilled partitions stands at [c], no partition is queued as
    spilled, no partition has a stream of unaggregated rows or has given up
    its pool, and the partitions moved to [aggregated_partitions_] have
    their hash tables. *)
Definition never_spilled (c : Z) (n : AggNode) : Prop :=
  is_streaming_preagg_ n = true /\ counters_ n SpilledPartitions = c /\
  spilled_partitions_ n = [] /\
  Forall (fun p => unspilled p = true) (hash_partitions_ n) /\
  Forall (fun p => resident p = true) (aggregated_partitions_ n).

(** Every one of the [N] hash partitions has its hash table. *)
Definition all_resident (N : nat) (n : AggNode) : Prop :=
  length (hash_partitions_ n) = N /\
  Forall (fun p => is_spilled p = false) (hash_partitions_ n).

Lemma allocated_resident (p : Partition) :
  unspilled p = true -> allocated p = true -> resident p = true.
Proof.
  unfold resident, allocated, is_spilled. intros ->.
  destruct (hash_tbl p); [reflexivity|discriminate].
Qed.

Lemma for_each_triple (Inv : nat -> St -> Prop) (E : Status -> St -> Prop)
    (body : nat -> Exec St unit) (l : list nat) :
  (forall k i, l !! k = Some i -> triple (Inv k) (body i) (fun _ => Inv (S k)) E) ->
  triple (Inv O) (for_each l body) (fun _ => Inv (length l)) E.
Proof.
  revert Inv. induction l as [|i l' IH]; intros Inv H.
  - apply triple_ret. auto.
  - cbn [for_each length]. eapply triple_bind.
    + apply (H O i). reflexivity.
    + intros u. apply (IH (fun k => Inv (S k))).
      intros k j Hk. apply (H (S k) j). exact Hk.
Qed.

Lemma triple_get_node {A} (k : AggNode -> Exec St A) (P : St -> Prop) Q E :
  (forall n, triple (fun st => P st /\ fst st = n) (k n) Q E) ->
  triple P (bind get_node k) Q E.
Proof. intros H st HP. unfold bind, get_node. apply (H (fst st)). auto. Qed.

Lemma triple_modify_node (f : AggNode -> AggNode) (P : St -> Prop) Q E :
  (forall st, P st -> Q tt (f (fst st), snd st)) -> triple P (modify_node f) Q E.
Proof. intros H st HP. apply H, HP. Qed.

Lemma triple_put_node (n : AggNode) (P : St -> Prop) Q E :
  (forall st, P st -> Q tt (n, snd st)) -> triple P (put_node n) Q E.
Proof. intros H st HP. apply H, HP. Qed.

(** *** Creating the partitions *)

(** The collaborators have granted the [k] requests made since the call
    numbered [c0], and [a] lists their answers. *)
Definition granted (a : nat -> Answer) (c0 k : nat) (w : World) : Prop :=
  answers w = a /\ calls w = (c0 + k)%nat /\ forall j, (j < k)%nat -> a (c0 + j)%nat = Yes.

(** The request numbered [c0 + k] is the first that was not granted. *)
Definition refused (a : nat -> Answer) (c0 k : nat) : Prop :=
  a (c0 + k)%nat <> Yes /\ forall j, (j < k)%nat -> a (c0 + j)%nat = Yes.

Lemma granted_step (a : nat -> Answer) (c0 k : nat) (w : World) (w' : World) :
  granted a c0 k w -> answers w (calls w) = Yes ->
  answers w' = answers w -> calls w' = S (calls w) ->
  granted a c0 (S k) w'.
Proof.
  intros (Ha & Hc & Hj) Hy Ha' Hc'. split; [congruence|]. split; [lia|].
  intros j Hlt. destruct (decide (j = k)) as [->|Hne].
  - rewrite <- Ha, <- Hc. exact Hy.
  - apply Hj. lia.
Qed.

Lemma granted_refused (a : nat -> Answer) (c0 k : nat) (w : World) :
  granted a c0 k w -> answers w (calls w) <> Yes -> refused a c0 k.
Proof. intros (Ha & Hc & Hj) Hn. split; [|exact Hj]. rewrite <- Ha, <- Hc. exact Hn. Qed.

Lemma create_partition_streaming (c : Z) (a : nat -> Answer) (c0 k : nat) (lvl : Z) (i : nat) :
  triple (fun st => never_spilled c (fst st) /\ length (hash_partitions_ (fst st)) = k /\
                    granted a c0 k (snd st))
         (create_partition lvl i)
         (fun _ st => never_spilled c (fst st) /\
                      length (hash_partitions_ (fst st)) = S k /\
                      granted a c0 (S k) (snd st))
         (fun e st => never_spilled c (fst st) /\ e = CollaboratorError /\ refused a c0 k).
Proof.
  intros [n w] [(Hs & Hc & Hsp & Hall & Hagg) [Hlen Hw]]. cbn [fst snd] in *.
  unfold create_partition, Partition_InitStreams, bind, get_node, put_node, get_partition,
    put_partition, get_world, put_world, modify_node, check, ret, raise, Streams.Init, ask.
  cbn [fst snd hash_partitions_ set_hash_partitions is_streaming_preagg_].
  rewrite Hs. cbn.
  destruct (answers w (calls w)) eqn:Hans; cbn;
    rewrite list_lookup_middle by reflexivity;
    rewrite insert_app_r_alt by lia; rewrite Nat.sub_diag; cbn.
  1: split; [|split; [rewrite length_app; cbn; lia
                     |eapply granted_step; [exact Hw|exact Hans|reflexivity|reflexivity]]].
  2, 3: split; [|split; [reflexivity
                        |eapply granted_refused; [exact Hw|rewrite Hans; discriminate]]].
  all: (split; [exact Hs|]; split; [exact Hc|]; split; [exact Hsp|]; split; [|exact Hagg]);
    cbn; apply Forall_app; (split; [exact Hall|]); repeat constructor.
Qed.

Lemma create_hash_table_streaming (c : Z) (a : nat -> Answer) (c0 N i : nat) :
  (i < N)%nat ->
  triple (fun st => never_spilled c (fst st) /\
                    length (hash_partitions_ (fst st)) = N /\
                    (forall j p, (j < i)%nat -> hash_partitions_ (fst st) !! j = Some p ->
                                 allocated p = true) /\
                    granted a c0 i (snd st))
         (create_hash_table sizeof_Bucket FLAGS_enable_quadratic_probing HashTable_size i)
         (fun _ st => never_spilled c (fst st) /\
                      length (hash_partitions_ (fst st)) = N /\
                      (forall j p, (j < S i)%nat -> hash_partitions_ (fst st) !! j = Some p ->
                                   allocated p = true) /\
                      granted a c0 (S i) (snd st))
         (fun e st => never_spilled c (fst st) /\
                      e = MemLimitExceeded PreaggHashTableInit /\
                      mem_limit_exceeded (snd st) = true /\
                      refused a c0 i).
Proof.
  intros HiN [n w] [(Hs & Hc & Hsp & Hall & Hagg) (Hlen & Hpre & Hw)]. cbn [fst snd] in *.
  assert (Hi : (i < length (hash_partitions_ n))%nat) by lia.
  destruct (lookup_lt_is_Some_2 _ _ Hi) as [p Hp].
  assert (Hu : unspilled p = true) by (eapply (proj1 (Forall_lookup _ _) Hall); eauto).
  unfold create_hash_table, Partition_InitHashTable, bind, get_node, put_node, get_partition,
    put_partition, get_world, put_world, modify_node, modify_world, check, ret, raise,
    HashTbl.Init, ConsumeMemory, ask.
  cbn [fst snd hash_partitions_ set_hash_partitions is_streaming_preagg_].
  rewrite Hp. cbn.
  destruct (answers w (calls w)) eqn:Hans; cbn; rewrite ?Hs; cbn.
  - split; [|split; [|split]].
    + repeat split; try assumption. cbn. apply Forall_insert; assumption.
    + rewrite length_insert. exact Hlen.
    + intros j p0 Hj Hj0. destruct (decide (j = i)) as [->|Hne].
      * rewrite list_lookup_insert_eq in Hj0 by exact Hi. now inversion Hj0.
      * rewrite list_lookup_insert_ne in Hj0 by congruence.
        apply (Hpre j p0); [lia|exact Hj0].
    + eapply granted_step; [exact Hw|exact Hans|reflexivity|reflexivity].
  - split; [|split; [reflexivity|split; [reflexivity|]]].
    + repeat split; try assumption. cbn. apply Forall_insert; assumption.
    + eapply granted_refused; [exact Hw|rewrite Hans; discriminate].
  - split; [|split; [reflexivity|split; [reflexivity|]]].
    + repeat split; try assumption. cbn. apply Forall_insert; assumption.
    + eapply granted_refused; [exact Hw|rewrite Hans; discriminate].
Qed.

Lemma never_spilled_frame (c : Z) (n n' : AggNode) :
  is_streaming_preagg_ n' = is_streaming_preagg_ n ->
  counters_ n' SpilledPartitions = counters_ n SpilledPartitions ->
  spilled_partitions_ n' = spilled_partitions_ n ->
  hash_partitions_ n' = hash_partitions_ n ->
  aggregated_partitions_ n' = aggregated_partitions_ n ->
  never_spilled c n -> never_spilled c n'.
Proof. unfold never_spilled. intros -> -> -> -> ->. auto. Qed.

(** How [CreateHashPartitions(0)] ends in a streaming pre-aggregation, by
    the answers [a] to the requests from the call numbered [c0] on: the
    sixteen stream initialisations, then the sixteen allocations of a
    bucket array. *)
Definition creation_failed (a : nat -> Answer) (c0 : nat) (e : Status) (w : World) : Prop :=
  (e = CollaboratorError /\ exists k, (k < PARTITION_FANOUT)%nat /\ refused a c0 k)
  \/ (e = MemLimitExceeded PreaggHashTableInit /\ mem_limit_exceeded w = true /\
      exists k, (k < PARTITION_FANOUT)%nat /\
                (forall j, (j < PARTITION_FANOUT)%nat -> a (c0 + j)%nat = Yes) /\
                refused a (c0 + PARTITION_FANOUT) k).

Lemma CreateHashPartitions_streaming (c : Z) (a : nat -> Answer) (c0 : nat) :
  triple (fun st => never_spilled c (fst st) /\ hash_partitions_ (fst st) = [] /\
                    answers (snd st) = a /\ calls (snd st) = c0)
         (CreateHashPartitions sizeof_Bucket FLAGS_enable_quadratic_probing HashTable_size 0)
         (fun _ st => never_spilled c (fst st) /\
                      length (hash_partitions_ (fst st)) = PARTITION_FANOUT /\
                      Forall (fun p => allocated p = true) (hash_partitions_ (fst st)) /\
                      forall j, (j < 2 * PARTITION_FANOUT)%nat -> a (c0 + j)%nat = Yes)
         (fun e st => never_spilled c (fst st) /\ creation_failed a c0 e (snd st)).
Proof.
  unfold CreateHashPartitions.
  change (Seeds.MAX_PARTITION_DEPTH <=? 0) with false. cbv iota.
  eapply triple_bind.
  { apply triple_modify_node with
      (Q := fun _ st => never_spilled c (fst st) /\ length (hash_partitions_ (fst st)) = O /\
                        granted a c0 O (snd st)).
    intros [n w] (H & Hl & Ha & Hc0). cbn [fst snd] in *. split; [|split].
    - revert H. apply never_spilled_frame; reflexivity.
    - cbn. now rewrite Hl.
    - split; [exact Ha|]. split; [lia|]. intros j Hj. inversion Hj. }
  intros u. eapply triple_bind.
  { eapply triple_conseq.
    - apply (for_each_triple
               (fun k st => never_spilled c (fst st) /\
                            length (hash_partitions_ (fst st)) = k /\
                            granted a c0 k (snd st))
               (fun e st => never_spilled c (fst st) /\ creation_failed a c0 e (snd st))).
      intros k i Hk. apply lookup_seq in Hk as [_ Hk].
      eapply triple_conseq; [apply (create_partition_streaming c a c0 k 0 i)| | |].
      + intros st H. exact H.
      + intros x st H. exact H.
      + intros e st (H & -> & Hr). split; [exact H|]. left. split; [reflexivity|]. eauto.
    - auto.
    - intros x st H. exact H.
    - auto. }
  intros u'. rewrite length_seq. eapply triple_bind.
  { eapply triple_conseq.
    - apply (for_each_triple
               (fun k st => never_spilled c (fst st) /\
                            length (hash_partitions_ (fst st)) = PARTITION_FANOUT /\
                            (forall j p, (j < k)%nat ->
                                         hash_partitions_ (fst st) !! j = Some p ->
                                         allocated p = true) /\
                            granted a (c0 + PARTITION_FANOUT) k (snd st) /\
                            forall j, (j < PARTITION_FANOUT)%nat -> a (c0 + j)%nat = Yes)
               (fun e st => never_spilled c (fst st) /\ creation_failed a c0 e (snd st))).
      intros k i Hk. apply lookup_seq in Hk as [-> Hk]. cbn [Nat.add].
      eapply triple_conseq.
      + apply (triple_frame (forall j, (j < PARTITION_FANOUT)%nat -> a (c0 + j)%nat = Yes)).
        apply (create_hash_table_streaming c a (c0 + PARTITION_FANOUT) PARTITION_FANOUT k Hk).
      + intros st (H & Hl & Hal & Hg & Hfirst).
        exact (conj (conj H (conj Hl (conj Hal Hg))) Hfirst).
      + intros x st [(H & Hl & Hal & Hg) Hfirst].
        exact (conj H (conj Hl (conj Hal (conj Hg Hfirst)))).
      + intros e st [(H & -> & Hm & Hr) Hfirst]. split; [exact H|]. right.
        split; [reflexivity|]. split; [exact Hm|]. exists k. auto.
    - intros st (H & Hl & Ha & Hc0 & Hy). split; [exact H|]. split; [exact Hl|].
      split; [intros j p Hj; inversion Hj|]. split; [|exact Hy].
      split; [exact Ha|]. split; [lia|]. intros j Hj. inversion Hj.
    - intros x st H. exact H.
    - auto. }
  intros u''. rewrite length_seq. apply triple_get_node. intros n.
  apply triple_put_node. intros [n0 w] [(H & Hl & Hal & Hg & Hfirst) Hn].
  cbn [fst snd] in *. subst n0.
  destruct H as (Hs & Hc & Hsp & Hall & Hagg).
  rewrite Hs. cbn [negb]. cbv iota.
  split; [|split; [|split]].
  - repeat split; assumption.
  - exact Hl.
  - apply Forall_lookup. intros j p Hj. apply (Hal j p); [|exact Hj].
    apply lookup_lt_Some in Hj. cbn in Hj. rewrite Hl in Hj. exact Hj.
  - intros j Hj. destruct (decide (j < PARTITION_FANOUT)%nat) as [Hlt|Hge].
    + apply Hfirst, Hlt.
    + destruct Hg as (_ & _ & Hy).
      replace (c0 + j)%nat with (c0 + PARTITION_FANOUT + (j - PARTITION_FANOUT))%nat by lia.
      apply Hy. lia.
Qed.

(** *** Streaming the rows of the child *)

Definition streaming_inv (c : Z) (N : nat) (n : AggNode) : Prop :=
  never_spilled c n /\ all_resident N n.

Lemma streaming_inv_frame (c : Z) (N : nat) (n n' : AggNode) :
  is_streaming_preagg_ n' = is_streaming_preagg_ n ->
  counters_ n' SpilledPartitions = counters_ n SpilledPartitions ->
  spilled_partitions_ n' = spilled_partitions_ n ->
  hash_partitions_ n' = hash_partitions_ n ->
  aggregated_partitions_ n' = aggregated_partitions_ n ->
  streaming_inv c N n -> streaming_inv c N n'.
Proof.
  unfold streaming_inv, never_spilled, all_resident. intros -> -> -> -> ->. auto.
Qed.

Lemma streaming_inv_insert (c : Z) (N : nat) (n : AggNode) (i : nat) (p' : Partition) :
  streaming_inv c N n -> resident p' = true ->
  streaming_inv c N (set_hash_partitions n (<[ i := p' ]> (hash_partitions_ n))).
Proof.
  intros [(Hs & Hc & Hsp & Hall & Hagg) [Hlen Hres]] Hp'.
  apply andb_true_iff in Hp' as [Hu Hr]. apply negb_true_iff in Hr.
  split; [|split]; cbn.
  - repeat split; try assumption. cbn. apply Forall_insert; assumption.
  - rewrite length_insert. exact Hlen.
  - apply Forall_insert; assumption.
Qed.

Lemma streaming_inv_lookup (c : Z) (N : nat) (n : AggNode) (i : nat) (p : Partition) :
  streaming_inv c N n -> hash_partitions_ n !! i = Some p ->
  resident p = true /\ (i < N)%nat.
Proof.
  intros [(Hs & Hc & Hsp & Hall & Hagg) [Hlen Hres]] Hp. split.
  - unfold resident.
    rewrite (proj1 (Forall_lookup _ _) Hall i p Hp), (proj1 (Forall_lookup _ _) Hres i p Hp).
    reflexivity.
  - apply lookup_lt_Some in Hp. lia.
Qed.

Lemma resident_set_hash_tbl (p : Partition) (ht : HashTable) :
  resident p = true -> resident (set_hash_tbl p (Some ht)) = true.
Proof.
  unfold resident, unspilled, is_spilled. cbn.
  intros H. apply andb_true_iff in H as [-> _]. reflexivity.
Qed.

Lemma GetHashTable_Some (n : AggNode) (i : nat) (ht : HashTable) :
  GetHashTable n i = Some ht ->
  exists p, hash_partitions_ n !! i = Some p /\ hash_tbl p = Some ht.
Proof.
  unfold GetHashTable. destruct (hash_tbls_ n !!! i); [|discriminate].
  destruct (hash_partitions_ n !! i) as [p|]; [|discriminate].
  intros H. exists p. auto.
Qed.

Lemma expand_hash_table_streaming (c : Z) (N : nat) (num_rows : Z) (rc : list Z) (i : nat) :
  triple (fun st => streaming_inv c N (fst st))
         (expand_hash_table sizeof_Bucket Probe HashTable_NumInsertsBeforeResize num_rows rc i)
         (fun _ st => streaming_inv c N (fst st))
         (fun _ st => streaming_inv c N (fst st)).
Proof.
  intros [n w] H. cbn [fst] in H.
  unfold expand_hash_table, bind, get_node, get_world, put_world, get_partition,
    put_partition, modify_node, ret.
  cbn [fst snd].
  destruct (GetHashTable n i) as [ht|] eqn:Hg; [|exact H].
  destruct (GetHashTable_Some _ _ _ Hg) as (p & Hp & Hht).
  destruct (streaming_inv_lookup _ _ _ _ _ H Hp) as [Hr _].
  destruct (rc !!! i <? num_rows); [|exact H].
  destruct (HashTbl.CheckAndResize _ _ _ _ _)
    as [[[[] ht'] w']|]; cbn [fst snd]; try exact H;
    rewrite Hp; cbn [default]; cbn [fst snd hash_partitions_];
    apply streaming_inv_insert; auto using resident_set_hash_tbl.
Qed.

Lemma expand_hash_tables_streaming (c : Z) (N : nat) (num_rows : Z) (l : list nat)
    (rc : list Z) :
  triple (fun st => streaming_inv c N (fst st))
         (expand_hash_tables sizeof_Bucket Probe HashTable_NumInsertsBeforeResize num_rows l rc)
         (fun _ st => streaming_inv c N (fst st))
         (fun _ st => streaming_inv c N (fst st)).
Proof.
  revert rc. induction l as [|i l' IH]; intros rc; cbn [expand_hash_tables].
  - apply triple_ret. auto.
  - eapply triple_bind; [apply expand_hash_table_streaming|]. intros rc'. apply IH.
Qed.


Variable Row : Type.
Variable partition_of : Row -> nat.
Variable FindBuildRowBucket : Row -> HashTable -> bool.
Variable SetTuple : Row -> HashTable -> HashTable.

(** What [d] says of [row]: it went into the hash table of the partition
    its hash selects, one of the [N] partitions, or it was passed through. *)
Definition disposed (N : nat) (row : Row) (d : Disposition) : Prop :=
  match d with
  | Aggregated i => i = partition_of row /\ (i < N)%nat
  | PassedThrough => True
  end.

(** The rows that were passed through. *)
Fixpoint passed_through (rows : list Row) (ds : list Disposition) : list Row :=
  match rows, ds with
  | row :: rows', PassedThrough :: ds' => row :: passed_through rows' ds'
  | _ :: rows', Aggregated _ :: ds' => passed_through rows' ds'
  | _, _ => []
  end.

Lemma passed_through_app (N : nat) (rows1 rows2 : list Row) (ds1 ds2 : list Disposition) :
  Forall2 (disposed N) rows1 ds1 ->
  passed_through (rows1 ++ rows2) (ds1 ++ ds2)
  = passed_through rows1 ds1 ++ passed_through rows2 ds2.
Proof.
  induction 1 as [|row d rows ds Hd _ IH]; [reflexivity|].
  cbn. destruct d; rewrite IH; reflexivity.
Qed.

Lemma resident_set_aggregated_row_stream (p : Partition) (s : option Stream) :
  resident p = true -> resident (set_aggregated_row_stream p s) = true.
Proof. intros H. exact H. Qed.

Lemma process_row_streaming_inv (c : Z) (N : nat) (row : Row) (rc : list Z)
    (out : list Row) :
  triple (fun st => streaming_inv c N (fst st))
         (process_row_streaming Row partition_of FindBuildRowBucket SetTuple row rc out)
         (fun r st => streaming_inv c N (fst st) /\
                      disposed N row (snd r) /\
                      snd (fst r) = out ++ passed_through [row] [snd r])
         (fun _ st => streaming_inv c N (fst st)).
Proof.
  intros [n w] H. cbn [fst] in H.
  assert (Hpass : forall n' w', streaming_inv c N n' ->
            match (let '(_, st, w'') := ConstructIntermediateTuple_pool w' in
                   put_world w'' ;;; check st ;;;
                   ret (rc, out ++ [row], PassedThrough)) (n', w') with
            | (inr r, st') => streaming_inv c N (fst st') /\ disposed N row (snd r) /\
                              snd (fst r) = out ++ passed_through [row] [snd r]
            | (inl _, st') => streaming_inv c N (fst st')
            end).
  { intros n' w' H'.
    destruct (ConstructIntermediateTuple_pool w') as [[non_null st] w''].
    unfold bind, put_world, check, ret, raise. cbn [fst snd].
    destruct (ok st); cbn; auto. }
  unfold process_row_streaming. unfold bind at 1. unfold get_node at 1. cbn [fst snd].
  destruct (GetHashTable n (partition_of row)) as [ht|] eqn:Hg.
  2: { unfold bind at 1. unfold get_world at 1. cbn [fst snd]. apply Hpass, H. }
  destruct (GetHashTable_Some _ _ _ Hg) as (p & Hp & Hht).
  destruct (streaming_inv_lookup _ _ _ _ _ H Hp) as [Hr HN].
  destruct (FindBuildRowBucket row ht).
  { cbn. rewrite app_nil_r. auto. }
  destruct (rc !!! partition_of row =? 0).
  { unfold bind at 1. unfold get_world at 1. cbn [fst snd]. apply Hpass, H. }
  unfold bind at 1. unfold get_partition at 1. cbn [fst snd]. rewrite Hp. cbn [default id].
  unfold bind at 1. unfold get_world at 1. cbn [fst snd].
  destruct (ConstructIntermediateTuple_stream _ _) as [[[non_null st] agg] w'].
  unfold bind at 1. unfold put_world at 1. cbn [fst snd].
  unfold bind at 1. unfold put_partition at 1, modify_node at 1. cbn [fst snd].
  assert (H1 : streaming_inv c N
                 (set_hash_partitions n
                    (<[partition_of row := set_aggregated_row_stream p (Some agg)]>
                       (hash_partitions_ n)))).
  { apply streaming_inv_insert; auto. }
  unfold bind at 1. unfold check at 1.
  destruct (ok st); [|exact H1]. cbn [ret].
  destruct non_null.
  - unfold bind, put_partition, modify_node, ret. cbn [fst snd].
    split; [|split].
    + apply streaming_inv_insert; auto using resident_set_hash_tbl.
    + cbn. auto.
    + cbn. now rewrite app_nil_r.
  - unfold bind at 1. unfold get_world at 1. cbn [fst snd]. apply Hpass, H1.
Qed.

Lemma ProcessBatchStreaming_inv (c : Z) (N : nat) (rows : list Row) (rc : list Z)
    (out : list Row) :
  triple (fun st => streaming_inv c N (fst st))
         (ProcessBatchStreaming Row partition_of FindBuildRowBucket SetTuple rows rc out)
         (fun r st => streaming_inv c N (fst st) /\
                      Forall2 (disposed N) rows (snd r) /\
                      fst r = out ++ passed_through rows (snd r))
         (fun _ st => streaming_inv c N (fst st)).
Proof.
  revert rc out. induction rows as [|row rows IH]; intros rc out; cbn [ProcessBatchStreaming].
  - apply triple_ret. intros st H. cbn. rewrite app_nil_r. auto.
  - eapply triple_bind; [apply process_row_streaming_inv|].
    intros [[rc' out'] d]. cbn [fst snd].
    apply triple_pure. intros [Hd Hout].
    eapply triple_bind; [apply (IH rc' out')|].
    intros [out'' ds]. cbn [fst snd].
    apply triple_ret. intros st (H & Hds & Hout'). cbn [fst snd].
    split; [exact H|]. split; [constructor; assumption|].
    rewrite Hout', Hout, <- app_assoc. f_equal.
    destruct d; reflexivity.
Qed.


Abbreviation round :=
  (GetRowsStreaming_round sizeof_Bucket Probe HashTable_size HashTable_CurrentMemSize
     HashTable_NumInsertsBeforeResize Row partition_of FindBuildRowBucket SetTuple).

Lemma GetRowsStreaming_round_inv (c : Z) (N : nat) (child_batch : list Row) (eos : bool) :
  triple (fun st => streaming_inv c N (fst st))
         (round child_batch eos)
         (fun r st => streaming_inv c N (fst st) /\
                      Forall2 (disposed N) child_batch (snd r) /\
                      fst r = passed_through child_batch (snd r))
         (fun _ st => streaming_inv c N (fst st)).
Proof.
  unfold GetRowsStreaming_round.
  eapply triple_bind.
  { apply triple_modify_node with (Q := fun _ st => streaming_inv c N (fst st)).
    intros [n w] H. cbn [fst snd] in *. revert H. apply streaming_inv_frame; reflexivity. }
  intros u. apply triple_get_node. intros n. cbv zeta.
  eapply triple_bind.
  { destruct (_ && _).
    - eapply triple_conseq; [apply expand_hash_tables_streaming| | |].
      + intros st [H _]. exact H.
      + intros a st H. exact H.
      + intros e st H. exact H.
    - apply triple_ret. intros st [H _]. exact H. }
  intros rc. apply (ProcessBatchStreaming_inv c N child_batch rc []).
Qed.

Lemma GetRowsStreaming_loop_inv (c : Z) (N : nat) (child : list (list Row * bool)) :
  triple (fun st => streaming_inv c N (fst st))
         (GetRowsStreaming_loop sizeof_Bucket Probe HashTable_size HashTable_CurrentMemSize
            HashTable_NumInsertsBeforeResize Row partition_of FindBuildRowBucket SetTuple
            child)
         (fun r st => streaming_inv c N (fst st) /\
                      exists k, let rows := concat (map fst (take k child)) in
                                Forall2 (disposed N) rows (snd r) /\
                                fst r = passed_through rows (snd r))
         (fun _ st => streaming_inv c N (fst st)).
Proof.
  induction child as [|[child_batch eos] rest IH]; cbn [GetRowsStreaming_loop].
  - apply triple_ret. intros st H. split; [exact H|]. exists O. cbn. split; constructor.
  - eapply triple_bind; [apply GetRowsStreaming_round_inv|].
    intros [out ds]. cbn [fst snd]. apply triple_pure. intros [Hds Hout].
    destruct (_ && _) eqn:Hcont.
    + eapply triple_bind; [apply IH|].
      intros [out' ds']. cbn [fst snd].
      apply triple_ret. intros st (H & k & Hds' & Hout'). cbn [fst snd].
      split; [exact H|]. exists (S k). cbn [take map concat fst].
      split.
      * apply Forall2_app; assumption.
      * rewrite (passed_through_app N) by exact Hds.
        rewrite <- Hout, <- Hout'.
        apply andb_true_iff in Hcont as [Hlen _]. apply Z.eqb_eq in Hlen.
        destruct out; [reflexivity|discriminate].
    + apply triple_ret. intros st H. cbn [fst snd]. split; [exact H|].
      exists 1%nat. cbn [take map concat fst]. rewrite !app_nil_r. auto.
Qed.


(** *** The end of the input *)

Lemma Partition_Close_resident (finalize_rows : bool) (p : Partition) (w : World) :
  resident p = true ->
  resident (fst (Partition_Close sizeof_Bucket finalize_rows p w)) = true.
Proof.
  unfold resident, unspilled, is_spilled, Partition_Close, HashTbl.Close, close_stream.
  destruct p as [lvl closed [ht|] ctxs [pool|] agg [unagg|]]; cbn;
    try discriminate; destruct closed; cbn; auto.
Qed.

Lemma move_partition_streaming (c : Z) (N i : nat) :
  (i < N)%nat ->
  triple (fun st => streaming_inv c N (fst st))
         (move_partition sizeof_Bucket i)
         (fun _ st => streaming_inv c N (fst st))
         (fun _ st => streaming_inv c N (fst st)).
Proof.
  intros Hi [n w] H. cbn [fst] in H.
  assert (Hlen : (i < length (hash_partitions_ n))%nat) by (destruct H as [_ [-> _]]; exact Hi).
  destruct (lookup_lt_is_Some_2 _ _ Hlen) as [p Hp].
  destruct (streaming_inv_lookup _ _ _ _ _ H Hp) as [Hr _].
  unfold move_partition. unfold bind at 1. unfold get_partition at 1. cbn [fst snd].
  rewrite Hp. cbn [default id]. cbv zeta.
  destruct (_ =? 0).
  - unfold bind at 1. unfold get_world at 1. cbn [fst snd].
    pose proof (Partition_Close_resident false p w Hr) as Hc.
    destruct (Partition_Close sizeof_Bucket false p w) as [p' w']. cbn [fst] in Hc.
    unfold bind, put_world, put_partition, modify_node. cbn [fst snd].
    apply streaming_inv_insert; assumption.
  - assert (Hsp : is_spilled p = false).
    { apply andb_true_iff in Hr as [_ Hr]. now apply negb_true_iff in Hr. }
    rewrite Hsp. unfold modify_node. cbn [fst snd].
    destruct H as [(Hs & Hc & Hspl & Hall & Hagg) Hres].
    split; [|exact Hres].
    repeat split; try assumption. cbn. apply Forall_app. split; [exact Hagg|].
    constructor; [exact Hr|constructor].
Qed.

Lemma MoveHashPartitions_streaming (c : Z) (N : nat) (num_input_rows : Z) :
  triple (fun st => streaming_inv c N (fst st))
         (MoveHashPartitions sizeof_Bucket num_input_rows)
         (fun _ st => streaming_inv c O (fst st))
         (fun _ st => streaming_inv c N (fst st)).
Proof.
  unfold MoveHashPartitions. apply triple_get_node. intros n.
  eapply triple_bind.
  { eapply triple_conseq.
    - apply (for_each_triple (fun _ st => streaming_inv c N (fst st) /\
                                          length (hash_partitions_ n) = N)
                             (fun _ st => streaming_inv c N (fst st))).
      intros k i Hk. apply lookup_seq in Hk as [-> Hk]. cbn [Nat.add].
      apply triple_pure. intros HN. rewrite HN in Hk.
      eapply triple_conseq; [apply (move_partition_streaming c N k Hk)| | |]; auto.
    - intros st [H Hn]. split; [exact H|]. rewrite <- Hn. apply H.
    - intros a st [H _]. exact H.
    - auto. }
  intros u. apply triple_modify_node. intros [n' w] [(Hs & Hc & Hsp & Hall & Hagg) _].
  cbn [fst snd] in *. split; [|split; [reflexivity|constructor]].
  repeat split; try assumption. constructor.
Qed.

Lemma ignore_status_triple (c : Exec St unit) (P : St -> Prop) (Q : St -> Prop)
    (E : Status -> St -> Prop) :
  triple P c (fun _ => Q) (fun _ => Q) -> triple P (ignore_status c) (fun _ => Q) E.
Proof.
  intros H st HP. unfold ignore_status. specialize (H st HP).
  destruct (c st) as [[e|a] st']; exact H.
Qed.

Lemma GetRowsStreaming_inv (c : Z) (N : nat) (child : list (list Row * bool)) :
  triple (fun st => streaming_inv c N (fst st))
         (GetRowsStreaming sizeof_Bucket Probe HashTable_size HashTable_CurrentMemSize
            HashTable_NumInsertsBeforeResize Row partition_of FindBuildRowBucket SetTuple
            child)
         (fun r st => (streaming_inv c N (fst st) \/ streaming_inv c O (fst st)) /\
                      exists k, let rows := concat (map fst (take k child)) in
                                Forall2 (disposed N) rows (snd r) /\
                                fst r = passed_through rows (snd r))
         (fun _ st => streaming_inv c N (fst st)).
Proof.
  unfold GetRowsStreaming.
  eapply triple_bind; [apply GetRowsStreaming_loop_inv|].
  intros [out ds]. cbn [fst snd]. apply triple_pure. intros Hk.
  apply triple_get_node. intros n.
  eapply triple_bind with
    (Q := fun _ st => streaming_inv c N (fst st) \/ streaming_inv c O (fst st)).
  { destruct (child_eos_ n).
    - apply ignore_status_triple. eapply triple_conseq.
      + apply (MoveHashPartitions_streaming c N).
      + intros st [H _]. exact H.
      + intros a st H. right. exact H.
      + intros e st H. left. exact H.
    - apply triple_ret. intros st [H _]. left. exact H. }
  intros u. eapply triple_bind with
    (Q := fun _ st => streaming_inv c N (fst st) \/ streaming_inv c O (fst st)).
  { apply triple_modify_node. intros [n' w] H. cbn [fst snd] in *.
    destruct H as [H|H]; [left|right]; revert H; apply streaming_inv_frame; reflexivity. }
  intros u'. apply triple_ret. intros st H. cbn [fst snd]. auto.
Qed.

End StreamingFacts.

(** A streaming pre-aggregation before its partitions are created, and
    collaborators that grant the sixteen stream initialisations and refuse
    the first bucket array. *)
Definition example_streaming_node : Agg.AggNode :=
  Agg.mkAggNode true false false 0 (-1) 0 [] (replicate 16 false) [] [] None
    (fun _ => 0) 0 0 false.

Definition example_tight_world : Runtime.World :=
  Runtime.mkWorld (fun k => if (k <? 16)%nat then Runtime.Yes else Runtime.No)
    0 0 0 0 false.

(** C2: a streaming pre-aggregation never spills. From a streaming node
    that has spilled nothing and has no partitions, [CreateHashPartitions(0)]
    either succeeds, with sixteen partitions that all have an allocated hash
    table, the collaborators having granted all thirty-two requests, or
    fails having spilled nothing: with the error of a stream that could not
    be initialised, or, when a bucket array was refused, with the
    memory-limit error "Failed to initialize hash table in preaggregation".
    From then on [GetRowsStreaming] keeps every partition resident and
    spills nothing, whether it succeeds or fails: the counter of spilled
    partitions does not move, no partition is queued as spilled, none gets
    a stream of unaggregated rows; and every row of the batches it has
    taken from the child was aggregated into the hash table of the
    partition its hash selects, or is in the output batch. *)
Theorem streaming_preagg_never_spills
    (sizeof_Bucket : Z) (Probe : list HashTbl.Bucket -> Z -> Z -> Z)
    (FLAGS_enable_quadratic_probing : bool)
    (HashTable_size HashTable_CurrentMemSize HashTable_NumInsertsBeforeResize
       : HashTbl.HashTable -> Z)
    (Row : Type) (partition_of : Row -> nat)
    (FindBuildRowBucket : Row -> HashTbl.HashTable -> bool)
    (SetTuple : Row -> HashTbl.HashTable -> HashTbl.HashTable)
    (c : Z) :
  (forall (n : Agg.AggNode) (w : Runtime.World),
     never_spilled c n -> Agg.hash_partitions_ n = [] ->
     match Agg.CreateHashPartitions sizeof_Bucket FLAGS_enable_quadratic_probing
             HashTable_size 0 (n, w) with
     | (inr _, (n', w')) =>
         streaming_inv c Agg.PARTITION_FANOUT n' /\
         Forall (fun p => allocated p = true) (Agg.hash_partitions_ n') /\
         forall j, (j < 2 * Agg.PARTITION_FANOUT)%nat ->
                   Runtime.answers w (Runtime.calls w + j)%nat = Runtime.Yes
     | (inl e, (n', w')) =>
         never_spilled c n' /\
         creation_failed (Runtime.answers w) (Runtime.calls w) e w'
     end)
  /\
  (forall (N : nat) (child : list (list Row * bool)) (n : Agg.AggNode) (w : Runtime.World),
     streaming_inv c N n ->
     match Agg.GetRowsStreaming sizeof_Bucket Probe HashTable_size HashTable_CurrentMemSize
             HashTable_NumInsertsBeforeResize Row partition_of FindBuildRowBucket SetTuple
             child (n, w) with
     | (inr (out, ds), (n', _)) =>
         (streaming_inv c N n' \/ streaming_inv c 0 n') /\
         exists k, let rows := concat (map fst (take k child)) in
                   Forall2 (disposed Row partition_of N) rows ds /\
                   out = passed_through Row rows ds
     | (inl _, (n', _)) => streaming_inv c N n'
     end).
Proof.
  split.
  - intros n w H Hnil.
    pose proof (CreateHashPartitions_streaming sizeof_Bucket FLAGS_enable_quadratic_probing
                  HashTable_size c (Runtime.answers w) (Runtime.calls w) (n, w)) as Hc.
    cbn [fst snd] in Hc. specialize (Hc (conj H (conj Hnil (conj eq_refl eq_refl)))).
    destruct (Agg.CreateHashPartitions _ _ _ _ _) as [[e|u] [n' w']]; cbn [fst snd] in Hc.
    + exact Hc.
    + destruct Hc as (Hn & Hl & Hal & Hy). split; [|auto].
      split; [exact Hn|]. split; [exact Hl|].
      apply Forall_lookup. intros j p Hj.
      pose proof (proj1 (Forall_lookup _ _) Hal j p Hj) as Ha.
      unfold allocated in Ha. unfold Agg.is_spilled.
      destruct (Agg.hash_tbl p); [reflexivity|discriminate].
  - intros N child n w H.
    pose proof (GetRowsStreaming_inv sizeof_Bucket Probe HashTable_size
                  HashTable_CurrentMemSize HashTable_NumInsertsBeforeResize Row partition_of
                  FindBuildRowBucket SetTuple c N child (n, w) H) as Hg.
    destruct (Agg.GetRowsStreaming _ _ _ _ _ _ _ _ _ _ _) as [[e|[out ds]] [n' w']];
      cbn [fst snd] in Hg; exact Hg.
Qed.

Lemma streaming_preagg_never_spills_witness :
  never_spilled 0 example_streaming_node /\
  Agg.hash_partitions_ example_streaming_node = [] /\
  match Agg.CreateHashPartitions 16 true example_size 0
          (example_streaming_node, example_tight_world) with
  | (inr _, (n', w')) =>
      streaming_inv 0 Agg.PARTITION_FANOUT n' /\
      Forall (fun p => allocated p = true) (Agg.hash_partitions_ n') /\
      forall j, (j < 2 * Agg.PARTITION_FANOUT)%nat ->
                Runtime.answers example_tight_world
                  (Runtime.calls example_tight_world + j)%nat = Runtime.Yes
  | (inl e, (n', w')) =>
      never_spilled 0 n' /\
      creation_failed (Runtime.answers example_tight_world)
        (Runtime.calls example_tight_world) e w'
  end.
Proof.
  assert (H : never_spilled 0 example_streaming_node).
  { repeat split; constructor. }
  split; [exact H|]. split; [reflexivity|].
  exact (proj1 (streaming_preagg_never_spills 16 (fun _ _ h => h) true example_size
                  example_size example_size unit (fun _ => O) (fun _ _ => false)
                  (fun _ ht => ht) 0)
               example_streaming_node example_tight_world H eq_refl).
Defined.

(** With those collaborators the creation ends with the memory-limit error,
    sixteen partitions without a stream of unaggregated rows, and the
    counter of spilled partitions at zero. *)
Lemma example_creation_fails_without_spilling :
  let r := Agg.CreateHashPartitions 16 true example_size 0
             (example_streaming_node, example_tight_world) in
  fst r = inl (Runtime.MemLimitExceeded Runtime.PreaggHashTableInit)
  /\ length (Agg.hash_partitions_ (fst (snd r))) = 16%nat
  /\ forallb (fun p => match Agg.unaggregated_row_stream p with None => true | _ => false end)
       (Agg.hash_partitions_ (fst (snd r))) = true
  /\ Agg.counters_ (fst (snd r)) Agg.SpilledPartitions = 0
  /\ Runtime.mem_limit_exceeded (snd (snd r)) = true.
Proof. vm_compute. repeat split; reflexivity. Qed.

(** ** NULL keys in the cache of evaluated expressions *)

Section BufferFacts.
Import HashCtx.

Lemma write_at_length (buf : list Z) (off : nat) (bs : list Z) :
  (off + length bs <= length buf)%nat -> length (write_at buf off bs) = length buf.
Proof.
  intros H. unfold write_at. rewrite !length_app, length_take, length_drop. lia.
Qed.

Lemma write_at_lookup_outside (buf : list Z) (off : nat) (bs : list Z) (m : nat) :
  (off + length bs <= length buf)%nat ->
  (m < off \/ off + length bs <= m)%nat ->
  write_at buf off bs !! m = buf !! m.
Proof.
  intros H Hm. unfold write_at.
  assert (Hlen : length (take off buf) = off) by (rewrite length_take; lia).
  destruct Hm as [Hm|Hm].
  - rewrite lookup_app_l by lia. apply lookup_take_lt. exact Hm.
  - rewrite lookup_app_r by lia. rewrite lookup_app_r by lia.
    rewrite lookup_drop. f_equal. lia.
Qed.

Lemma read_at_write_at_same (buf : list Z) (off : nat) (bs : list Z) :
  (off + length bs <= length buf)%nat ->
  read_at (write_at buf off bs) off (length bs) = bs.
Proof.
  intros H. unfold read_at, write_at.
  rewrite drop_app_length' by (rewrite length_take; lia).
  apply take_app_length.
Qed.

Lemma read_at_write_at_other (buf : list Z) (off : nat) (bs : list Z) (off' n : nat) :
  (off + length bs <= length buf)%nat ->
  (off' + n <= off \/ off + length bs <= off')%nat ->
  read_at (write_at buf off bs) off' n = read_at buf off' n.
Proof.
  intros H Hd. unfold read_at. apply list_eq. intros k.
  rewrite !lookup_take. destruct (decide (k < n)%nat); [|reflexivity].
  rewrite !lookup_drop. apply write_at_lookup_outside; [exact H|lia].
Qed.

End BufferFacts.

Section NullSentinel.
Import HashCtx.

Variable TupleRow : Type.
Variable ColumnType : Type.
Variable GetSlotSize : ColumnType -> nat.
Variable FNV_SEED : Z.

(** What [Expr::ComputeResultsLayout] provides and [EvalRow] checks
    ([DCHECK_LE(GetSlotSize(), sizeof(NULL_VALUE))]): every slot lies
    within the row, no two slots overlap, and no slot is larger than
    [NULL_VALUE]. *)
Definition slots_fit (types : list ColumnType) (offsets : list nat) (len : nat) : Prop :=
  (forall i ty, types !! i = Some ty ->
     (offsets !!! i + GetSlotSize ty <= len)%nat /\
     (GetSlotSize ty <= length (NULL_VALUE FNV_SEED))%nat)
  /\ (forall i j ti tj, i <> j -> types !! i = Some ti -> types !! j = Some tj ->
        (offsets !!! i + GetSlotSize ti <= offsets !!! j \/
         offsets !!! j + GetSlotSize tj <= offsets !!! i)%nat).

Definition is_null (e : ExprContext TupleRow ColumnType) (row : TupleRow) : bool :=
  match GetValue e row with None => true | Some _ => false end.

Lemma EvalRow_loop_stores_nulls (types : list ColumnType) (row : TupleRow) :
  forall (ctxs : list (ExprContext TupleRow ColumnType)) (i0 : nat) (has_null : bool)
         (c : ExprValuesCache),
    slots_fit types (expr_values_offsets_ c) (length (cur_expr_values_ c)) ->
    (i0 + length ctxs <= length types)%nat ->
    (i0 + length ctxs <= length (cur_expr_values_null_ c))%nat ->
    let r := EvalRow_loop GetSlotSize FNV_SEED true types row ctxs i0 has_null c in
    expr_values_offsets_ (snd r) = expr_values_offsets_ c /\
    length (cur_expr_values_ (snd r)) = length (cur_expr_values_ c) /\
    length (cur_expr_values_null_ (snd r)) = length (cur_expr_values_null_ c) /\
    (forall j, (j < i0)%nat ->
       cur_expr_values_null_ (snd r) !! j = cur_expr_values_null_ c !! j) /\
    (forall j ty, (j < i0)%nat -> types !! j = Some ty ->
       ExprValue GetSlotSize (snd r) j ty = ExprValue GetSlotSize c j ty) /\
    (forall k e, ctxs !! k = Some e ->
       cur_expr_values_null_ (snd r) !! (i0 + k)%nat = Some (is_null e row)) /\
    (forall k e ty, ctxs !! k = Some e -> types !! (i0 + k)%nat = Some ty ->
       GetValue e row = None ->
       ExprValue GetSlotSize (snd r) (i0 + k) ty
       = take (GetSlotSize ty) (NULL_VALUE FNV_SEED)) /\
    fst r = has_null || existsb (fun e => is_null e row) ctxs.
Proof.
  induction ctxs as [|e rest IH]; intros i0 has_null c Hfit Hty Hfl; cbn [EvalRow_loop].
  - cbn. rewrite orb_false_r. repeat split; auto.
    + intros k e Hk. rewrite lookup_nil in Hk. discriminate.
    + intros k e ty Hk. rewrite lookup_nil in Hk. discriminate.
  - cbn [length] in Hty, Hfl.
    destruct (lookup_lt_is_Some_2 types i0 ltac:(lia)) as [ty Hi0]. rewrite Hi0.
    cbn [negb]. cbv iota.
    set (off := expr_values_offsets_ c !!! i0).
    set (val := match GetValue e row with Some v => v | None => NULL_VALUE FNV_SEED end).
    set (c2 := set_cur_expr_values
                 (set_cur_expr_values_null c (<[i0 := is_null e row]> (cur_expr_values_null_ c)))
                 (RawValue_Write GetSlotSize val (cur_expr_values_ c) off ty)).
    assert (Hstep :
      (match GetValue e row with
       | None =>
           EvalRow_loop GetSlotSize FNV_SEED true types row rest (S i0) true
             (set_cur_expr_values
                (set_cur_expr_values_null c (<[i0:=true]> (cur_expr_values_null_ c)))
                (RawValue_Write GetSlotSize (NULL_VALUE FNV_SEED)
                   (cur_expr_values_
                      (set_cur_expr_values_null c (<[i0:=true]> (cur_expr_values_null_ c))))
                   off ty))
       | Some val0 =>
           EvalRow_loop GetSlotSize FNV_SEED true types row rest (S i0) has_null
             (set_cur_expr_values
                (set_cur_expr_values_null c (<[i0:=false]> (cur_expr_values_null_ c)))
                (RawValue_Write GetSlotSize val0
                   (cur_expr_values_
                      (set_cur_expr_values_null c (<[i0:=false]> (cur_expr_values_null_ c))))
                   off ty))
       end)
      = EvalRow_loop GetSlotSize FNV_SEED true types row rest (S i0)
          (has_null || is_null e row) c2).
    { unfold c2, val, is_null. destruct (GetValue e row); cbn; rewrite ?orb_true_r, ?orb_false_r;
        reflexivity. }
    rewrite Hstep. clear Hstep.
    destruct Hfit as [Hin Hdis].
    destruct (Hin i0 ty Hi0) as [Hin0 Hsz0]. fold off in Hin0.
    assert (Hbs : (off + length (take (GetSlotSize ty) val) <= length (cur_expr_values_ c))%nat).
    { rewrite length_take. lia. }
    assert (Hlen2 : length (cur_expr_values_ c2) = length (cur_expr_values_ c)).
    { cbn. unfold RawValue_Write. apply write_at_length. exact Hbs. }
    specialize (IH (S i0) (has_null || is_null e row) c2).
    destruct IH as (Ho & Hl & Hfl' & Hfr & Hvfr & Hk & Hv & Hh).
    { cbn [c2 expr_values_offsets_ set_cur_expr_values set_cur_expr_values_null].
      rewrite Hlen2. split; assumption. }
    { lia. }
    { cbn. rewrite length_insert. lia. }
    cbn zeta.
    set (r := EvalRow_loop GetSlotSize FNV_SEED true types row rest (S i0)
                (has_null || is_null e row) c2) in *.
    assert (Hval2 : forall j tj, j <> i0 -> types !! j = Some tj ->
                      ExprValue GetSlotSize c2 j tj = ExprValue GetSlotSize c j tj).
    { intros j tj Hne Hj. unfold ExprValue. cbn. unfold RawValue_Write.
      apply read_at_write_at_other; [exact Hbs|].
      destruct (Hdis j i0 tj ty Hne Hj Hi0) as [H|H]; fold off in H.
      - left. exact H.
      - right. rewrite length_take. lia. }
    split; [exact Ho|]. split; [lia|]. split; [rewrite Hfl'; cbn; apply length_insert|].
    split; [|split; [|split; [|split]]].
    + intros j Hj. rewrite Hfr by lia. cbn. apply list_lookup_insert_ne. lia.
    + intros j tj Hj Htj. rewrite (Hvfr j tj) by (auto; lia). apply Hval2; [lia|exact Htj].
    + intros [|k] e' He'; cbn in He'.
      * inversion He'; subst e'. rewrite Nat.add_0_r. rewrite Hfr by lia. cbn.
        apply list_lookup_insert_eq. lia.
      * replace (i0 + S k)%nat with (S i0 + k)%nat by lia. apply Hk. exact He'.
    + intros [|k] e' ty' He' Hty' Hnull; cbn in He'.
      * inversion He'; subst e'. rewrite Nat.add_0_r in *.
        rewrite Hi0 in Hty'. inversion Hty'; subst ty'.
        rewrite (Hvfr i0 ty) by (auto; lia).
        unfold ExprValue, c2.
        cbn [cur_expr_values_ expr_values_offsets_ set_cur_expr_values
             set_cur_expr_values_null].
        fold off. unfold RawValue_Write, val. rewrite Hnull.
        assert (Hl128 : length (take (GetSlotSize ty) (NULL_VALUE FNV_SEED)) = GetSlotSize ty).
        { rewrite length_take. lia. }
        set (bs := take (GetSlotSize ty) (NULL_VALUE FNV_SEED)) in *.
        rewrite <- Hl128. apply read_at_write_at_same. lia.
      * replace (i0 + S k)%nat with (S i0 + k)%nat in * by lia. apply (Hv k e' ty'); assumption.
    + rewrite Hh. cbn [existsb]. now rewrite orb_assoc.
Qed.

End NullSentinel.

(** The context once [EvalRow] has filled the current row of its cache. *)
Definition after_EvalRow {TupleRow ColumnType : Type}
    (ctx : HashCtx.HashTableCtx TupleRow ColumnType) (c : HashCtx.ExprValuesCache)
  : HashCtx.HashTableCtx TupleRow ColumnType :=
  {| HashCtx.build_expr_ctxs_ := HashCtx.build_expr_ctxs_ ctx;
     HashCtx.probe_expr_ctxs_ := HashCtx.probe_expr_ctxs_ ctx;
     HashCtx.stores_nulls_ := HashCtx.stores_nulls_ ctx;
     HashCtx.finds_nulls_ := HashCtx.finds_nulls_ ctx;
     HashCtx.level_ := HashCtx.level_ ctx;
     HashCtx.seeds_ := HashCtx.seeds_ ctx;
     HashCtx.expr_values_cache_ := c |}.

(** A context of two keys, four and eight bytes wide, in a row of twelve
    bytes; a row is the pair of its key values. *)
Definition example_key_ctx (second : bool)
  : HashCtx.ExprContext (option Z * option Z) nat :=
  {| HashCtx.GetValue := fun row =>
       if second then option_map HashCtx.int64_bytes (snd row)
       else option_map (fun v => take 4 (HashCtx.int64_bytes v)) (fst row);
     HashCtx.type := if second then 8%nat else 4%nat |}.

Definition example_ctx : HashCtx.HashTableCtx (option Z * option Z) nat :=
  {| HashCtx.build_expr_ctxs_ := [example_key_ctx false; example_key_ctx true];
     HashCtx.probe_expr_ctxs_ := [example_key_ctx false; example_key_ctx true];
     HashCtx.stores_nulls_ := true;
     HashCtx.finds_nulls_ := [true; true];
     HashCtx.level_ := 0;
     HashCtx.seeds_ := [1];
     HashCtx.expr_values_cache_ :=
       {| HashCtx.expr_values_offsets_ := [0%nat; 4%nat];
          HashCtx.var_result_offset_ := -1;
          HashCtx.expr_values_bytes_per_row_ := 12;
          HashCtx.cur_expr_values_ := replicate 12 0;
          HashCtx.cur_expr_values_null_ := [false; false] |} |}.

Lemma example_ctx_slots_fit :
  slots_fit nat (fun ty => ty) 2166136261
    (map HashCtx.type (HashCtx.build_expr_ctxs_ example_ctx))
    (HashCtx.expr_values_offsets_ (HashCtx.expr_values_cache_ example_ctx))
    (length (HashCtx.cur_expr_values_ (HashCtx.expr_values_cache_ example_ctx))).
Proof.
  split.
  - intros [|[|i]] ty H; cbn in H; inversion H; subst; cbn; lia.
  - intros [|[|i]] [|[|j]] ti tj Hne Hi Hj; cbn in Hi, Hj; inversion Hi; inversion Hj;
      subst; cbn; try lia; congruence.
Qed.

(** With [stores_nulls_], a key expression that evaluates to NULL on the
    row makes [EvalRow] return true, sets the null flag of the key and
    leaves in its value slot the first bytes of [NULL_VALUE], which are not
    all zero when the low byte of [FNV_SEED] is not. *)
Theorem EvalRow_writes_null_sentinel (TupleRow ColumnType : Type)
    (GetSlotSize : ColumnType -> nat) (FNV_SEED : Z)
    (ctx : HashCtx.HashTableCtx TupleRow ColumnType) (row : TupleRow)
    (ctxs : list (HashCtx.ExprContext TupleRow ColumnType)) (i : nat)
    (e be : HashCtx.ExprContext TupleRow ColumnType) :
  HashCtx.stores_nulls_ ctx = true ->
  slots_fit ColumnType GetSlotSize FNV_SEED (map HashCtx.type (HashCtx.build_expr_ctxs_ ctx))
    (HashCtx.expr_values_offsets_ (HashCtx.expr_values_cache_ ctx))
    (length (HashCtx.cur_expr_values_ (HashCtx.expr_values_cache_ ctx))) ->
  (length ctxs <= length (HashCtx.build_expr_ctxs_ ctx))%nat ->
  (length ctxs <= length (HashCtx.cur_expr_values_null_ (HashCtx.expr_values_cache_ ctx)))%nat ->
  ctxs !! i = Some e -> HashCtx.build_expr_ctxs_ ctx !! i = Some be ->
  HashCtx.GetValue e row = None ->
  let r := HashCtx.EvalRow GetSlotSize FNV_SEED ctx row ctxs in
  let slot := HashCtx.ExprValue GetSlotSize (snd r) i (HashCtx.type be) in
  fst r = true /\
  HashCtx.cur_expr_values_null_ (snd r) !! i = Some true /\
  slot = take (GetSlotSize (HashCtx.type be)) (HashCtx.NULL_VALUE FNV_SEED) /\
  (Z.land FNV_SEED 255 <> 0 -> (0 < GetSlotSize (HashCtx.type be))%nat ->
   slot <> replicate (GetSlotSize (HashCtx.type be)) 0).
Proof.
  intros Hs Hfit Hlen Hfl Hi Hbe Hnull r slot. subst slot r. unfold HashCtx.EvalRow. rewrite Hs.
  pose proof (EvalRow_loop_stores_nulls TupleRow ColumnType GetSlotSize FNV_SEED
                (map HashCtx.type (HashCtx.build_expr_ctxs_ ctx)) row ctxs 0 false
                (HashCtx.expr_values_cache_ ctx) Hfit) as H.
  cbn zeta in H. rewrite length_map in H.
  destruct (H ltac:(lia) ltac:(lia)) as (_ & _ & _ & _ & _ & Hk & Hv & Hh). clear H.
  assert (Hty : map HashCtx.type (HashCtx.build_expr_ctxs_ ctx) !! i = Some (HashCtx.type be)).
  { rewrite list_lookup_fmap, Hbe. reflexivity. }
  assert (Hslot : HashCtx.ExprValue GetSlotSize
                    (HashCtx.EvalRow_loop GetSlotSize FNV_SEED true
                       (map HashCtx.type (HashCtx.build_expr_ctxs_ ctx)) row ctxs 0 false
                       (HashCtx.expr_values_cache_ ctx)).2 i (HashCtx.type be)
                  = take (GetSlotSize (HashCtx.type be)) (HashCtx.NULL_VALUE FNV_SEED)).
  { apply (Hv i e (HashCtx.type be) Hi Hty Hnull). }
  split; [|split; [|split]].
  - rewrite Hh. cbn [orb]. apply existsb_exists. exists e. split.
    + apply list_elem_of_In. eapply list_elem_of_lookup_2. exact Hi.
    + unfold is_null. now rewrite Hnull.
  - specialize (Hk i e Hi). cbn in Hk. rewrite Hk. unfold is_null. now rewrite Hnull.
  - exact Hslot.
  - intros Hnz Hpos. rewrite Hslot.
    destruct (GetSlotSize (HashCtx.type be)) as [|n]; [lia|].
    intros Heq. apply (f_equal (fun l => l !! 0%nat)) in Heq. cbn in Heq.
    inversion Heq as [H0]. rewrite ?Z.shiftr_0_r in H0. contradiction.
Qed.

Lemma EvalRow_writes_null_sentinel_witness :
  let r := HashCtx.EvalRow (fun ty => ty) 2166136261 example_ctx (None, Some 7)
             (HashCtx.probe_expr_ctxs_ example_ctx) in
  let slot := HashCtx.ExprValue (fun ty => ty) (snd r) 0 4%nat in
  fst r = true /\
  HashCtx.cur_expr_values_null_ (snd r) !! 0%nat = Some true /\
  slot = take 4 (HashCtx.NULL_VALUE 2166136261) /\
  (Z.land 2166136261 255 <> 0 -> (0 < 4)%nat -> slot <> replicate 4 0).
Proof.
  exact (EvalRow_writes_null_sentinel (option Z * option Z) nat (fun ty => ty) 2166136261
           example_ctx (None, Some 7) (HashCtx.probe_expr_ctxs_ example_ctx) 0
           (example_key_ctx false) (example_key_ctx false)
           eq_refl example_ctx_slots_fit (le_n 2) (le_n 2) eq_refl eq_refl eq_refl).
Defined.

Section NullFlags.
Import HashCtx.

Variable TupleRow : Type.
Variable ColumnType : Type.
Variable GetSlotSize : ColumnType -> nat.
Variable FNV_SEED : Z.

Lemma EvalRow_loop_flags (types : list ColumnType) (row : TupleRow) :
  forall (ctxs : list (ExprContext TupleRow ColumnType)) (i0 : nat) (has_null : bool)
         (c : ExprValuesCache),
    (i0 + length ctxs <= length types)%nat ->
    (i0 + length ctxs <= length (cur_expr_values_null_ c))%nat ->
    let r := EvalRow_loop GetSlotSize FNV_SEED true types row ctxs i0 has_null c in
    length (cur_expr_values_null_ (snd r)) = length (cur_expr_values_null_ c) /\
    (forall j, (j < i0)%nat ->
       cur_expr_values_null_ (snd r) !! j = cur_expr_values_null_ c !! j) /\
    (forall k e, ctxs !! k = Some e ->
       cur_expr_values_null_ (snd r) !! (i0 + k)%nat
       = Some (is_null TupleRow ColumnType e row)).
Proof.
  induction ctxs as [|e rest IH]; intros i0 has_null c Hty Hfl; cbn [EvalRow_loop].
  - cbn. repeat split; auto. intros k e Hk. rewrite lookup_nil in Hk. discriminate.
  - cbn [length] in Hty, Hfl.
    destruct (lookup_lt_is_Some_2 types i0 ltac:(lia)) as [ty Hi0]. rewrite Hi0.
    cbn [negb]. cbv iota. cbn zeta.
    assert (Hcase : exists h c2,
      (match GetValue e row with
       | None =>
           EvalRow_loop GetSlotSize FNV_SEED true types row rest (S i0) true
             (set_cur_expr_values
                (set_cur_expr_values_null c (<[i0:=true]> (cur_expr_values_null_ c)))
                (RawValue_Write GetSlotSize (NULL_VALUE FNV_SEED)
                   (cur_expr_values_
                      (set_cur_expr_values_null c (<[i0:=true]> (cur_expr_values_null_ c))))
                   (expr_values_offsets_ c !!! i0) ty))
       | Some val0 =>
           EvalRow_loop GetSlotSize FNV_SEED true types row rest (S i0) has_null
             (set_cur_expr_values
                (set_cur_expr_values_null c (<[i0:=false]> (cur_expr_values_null_ c)))
                (RawValue_Write GetSlotSize val0
                   (cur_expr_values_
                      (set_cur_expr_values_null c (<[i0:=false]> (cur_expr_values_null_ c))))
                   (expr_values_offsets_ c !!! i0) ty))
       end) = EvalRow_loop GetSlotSize FNV_SEED true types row rest (S i0) h c2
      /\ cur_expr_values_null_ c2
         = <[i0 := is_null TupleRow ColumnType e row]> (cur_expr_values_null_ c)).
    { unfold is_null. destruct (GetValue e row); eexists _, _; split; reflexivity. }
    destruct Hcase as (h & c2 & -> & Hc2).
    destruct (IH (S i0) h c2) as (Hl & Hfr & Hk).
    { lia. }
    { rewrite Hc2, length_insert. lia. }
    split; [|split].
    + rewrite Hl, Hc2. apply length_insert.
    + intros j Hj. rewrite Hfr by lia. rewrite Hc2. apply list_lookup_insert_ne. lia.
    + intros [|k] e' He'; cbn in He'.
      * inversion He'; subst e'. rewrite Nat.add_0_r. rewrite Hfr by lia. rewrite Hc2.
        apply list_lookup_insert_eq. lia.
      * replace (i0 + S k)%nat with (S i0 + k)%nat by lia. apply Hk. exact He'.
Qed.

End NullFlags.

(** After [EvalRow] has cached a row, [Equals] is false of every build row
    that is NULL at a key where the cached row is not, or the other way
    round, whatever the values of the other keys. *)
Theorem NULL_key_never_equals_value (TupleRow ColumnType : Type)
    (GetSlotSize : ColumnType -> nat) (FNV_SEED : Z)
    (RawValue_Eq : ColumnType -> list Z -> list Z -> bool)
    (FORCE_NULL_EQUALITY : bool)
    (ctx : HashCtx.HashTableCtx TupleRow ColumnType) (row build_row : TupleRow)
    (ctxs : list (HashCtx.ExprContext TupleRow ColumnType)) (i : nat)
    (e be : HashCtx.ExprContext TupleRow ColumnType) :
  HashCtx.stores_nulls_ ctx = true ->
  (length ctxs <= length (HashCtx.build_expr_ctxs_ ctx))%nat ->
  (length ctxs <= length (HashCtx.cur_expr_values_null_ (HashCtx.expr_values_cache_ ctx)))%nat ->
  ctxs !! i = Some e -> HashCtx.build_expr_ctxs_ ctx !! i = Some be ->
  is_null TupleRow ColumnType e row <> is_null TupleRow ColumnType be build_row ->
  HashCtx.Equals GetSlotSize RawValue_Eq FORCE_NULL_EQUALITY
    (after_EvalRow ctx (snd (HashCtx.EvalRow GetSlotSize FNV_SEED ctx row ctxs)))
    build_row = false.
Proof.
  intros Hs Hlen Hfl Hi Hbe Hdiff.
  apply not_true_is_false. intros Heq. apply Hdiff.
  unfold HashCtx.Equals in Heq.
  pose proof (proj1 (Equals_loop_true TupleRow ColumnType GetSlotSize RawValue_Eq
                       FORCE_NULL_EQUALITY _ build_row _ 0) Heq i be Hbe) as Hag.
  cbn [Nat.add] in Hag.
  destruct (EvalRow_loop_flags TupleRow ColumnType GetSlotSize FNV_SEED
              (map HashCtx.type (HashCtx.build_expr_ctxs_ ctx)) row ctxs 0 false
              (HashCtx.expr_values_cache_ ctx)) as (_ & _ & Hk).
  { rewrite length_map. lia. }
  { lia. }
  specialize (Hk i e Hi). cbn [Nat.add] in Hk.
  assert (Hc : cached_is_null TupleRow ColumnType
                 (after_EvalRow ctx (HashCtx.EvalRow GetSlotSize FNV_SEED ctx row ctxs).2) i
               = is_null TupleRow ColumnType e row).
  { unfold cached_is_null, HashCtx.EvalRow. cbn. rewrite Hs.
    apply list_lookup_total_correct. exact Hk. }
  unfold is_null at 2.
  destruct Hag as [(Hv & Hn & _)|(v & Hv & Hn & _)]; rewrite Hv; congruence.
Qed.

Lemma NULL_key_never_equals_value_witness :
  HashCtx.Equals (fun ty => ty) (fun _ a b => bool_decide (a = b)) true
    (after_EvalRow example_ctx
       (snd (HashCtx.EvalRow (fun ty => ty) 2166136261 example_ctx (None, Some 7)
               (HashCtx.probe_expr_ctxs_ example_ctx))))
    (Some 0, Some 7) = false.
Proof.
  exact (NULL_key_never_equals_value (option Z * option Z) nat (fun ty => ty) 2166136261
           (fun _ a b => bool_decide (a = b)) true example_ctx (None, Some 7)
           (Some 0, Some 7) (HashCtx.probe_expr_ctxs_ example_ctx) 0
           (example_key_ctx false) (example_key_ctx false)
           eq_refl (le_n 2) (le_n 2) eq_refl eq_refl ltac:(discriminate)).
Defined.

(** * Part III: more of the code *)

(** ** The bucket array over the life of a hash table *)

Section TableLifeFacts.
Import Runtime HashTbl.

Variable sizeof_Bucket : Z.
Variable Probe : list Bucket -> Z -> Z -> Z.

(** What [Close] is going to release for the bucket array. *)
Definition bucket_bytes (ht : HashTable) : Z := int64 (num_buckets_ ht * sizeof_Bucket).

Lemma ResizeBuckets_accounting (num_buckets : Z) (ht : HashTable) (w : World) :
  let '(b, ht', w') := ResizeBuckets sizeof_Bucket Probe num_buckets ht w in
  consumed w' - bucket_bytes ht' = consumed w - bucket_bytes ht /\
  HASH_TABLE_TOTAL_BYTES w' = HASH_TABLE_TOTAL_BYTES w /\
  total_data_page_size_ ht' = total_data_page_size_ ht.
Proof.
  unfold ResizeBuckets, ConsumeMemory, ask, ReleaseMemory, bucket_bytes.
  destruct (negb (max_num_buckets_ ht =? -1) && (max_num_buckets_ ht <? num_buckets));
    [auto|].
  destruct (answers w (calls w)); cbn; repeat split; lia.
Qed.

Lemma CheckAndResize_accounting (buckets_to_fill : Z) (ht : HashTable) (w : World)
    (b : bool) (ht' : HashTable) (w' : World) :
  CheckAndResize sizeof_Bucket Probe buckets_to_fill ht w = Some (b, ht', w') ->
  consumed w' - bucket_bytes ht' = consumed w - bucket_bytes ht /\
  HASH_TABLE_TOTAL_BYTES w' = HASH_TABLE_TOTAL_BYTES w /\
  total_data_page_size_ ht' = total_data_page_size_ ht.
Proof.
  unfold CheckAndResize. destruct (resize_shift _ _ _ _) as [shift|]; [|discriminate].
  destruct (0 <? shift).
  - intros H. inversion H as [H1]. clear H.
    pose proof (ResizeBuckets_accounting (num_buckets_ ht ≪ shift) ht w) as Ha.
    rewrite H1 in Ha. exact Ha.
  - intros H. inversion H; subst. auto.
Qed.

Lemma resize_all_accounting (requests : list Z) :
  forall ht w ht' w',
    TableLife.resize_all sizeof_Bucket Probe requests ht w = Some (ht', w') ->
    consumed w' - bucket_bytes ht' = consumed w - bucket_bytes ht /\
    HASH_TABLE_TOTAL_BYTES w' = HASH_TABLE_TOTAL_BYTES w /\
    total_data_page_size_ ht' = total_data_page_size_ ht.
Proof.
  induction requests as [|r rest IH]; intros ht w ht' w'; cbn.
  - intros H. inversion H; subst. auto.
  - destruct (CheckAndResize _ _ _ _ _) as [[[b ht1] w1]|] eqn:Hc; [|discriminate].
    intros H. apply IH in H. apply CheckAndResize_accounting in Hc. lia.
Qed.

End TableLifeFacts.

(** Whatever the block manager grants or refuses, a table gives back at
    [Close] exactly the bytes that [Init] and the resizes in between have
    left charged to the client, and takes off the gauge what its data pages
    had put on it. *)
Theorem HashTable_gives_back_its_buckets (sizeof_Bucket : Z)
    (Probe : list HashTbl.Bucket -> Z -> Z -> Z)
    (requests : list Z) (ht ht1 ht2 : HashTbl.HashTable) (w w1 w2 : Runtime.World)
    (b : bool) :
  HashTbl.Init sizeof_Bucket ht w = (b, ht1, w1) ->
  TableLife.resize_all sizeof_Bucket Probe requests ht1 w1 = Some (ht2, w2) ->
  let w3 := snd (HashTbl.Close sizeof_Bucket ht2 w2) in
  Runtime.consumed w3 = Runtime.consumed w /\
  Runtime.HASH_TABLE_TOTAL_BYTES w3
  = Runtime.HASH_TABLE_TOTAL_BYTES w - HashTbl.total_data_page_size_ ht.
Proof.
  intros Hi Hr.
  apply (resize_all_accounting sizeof_Bucket Probe) in Hr as (Hc & Hg & Ht).
  assert (Hinit : Runtime.consumed w1 - bucket_bytes sizeof_Bucket ht1 = Runtime.consumed w /\
                  Runtime.HASH_TABLE_TOTAL_BYTES w1 = Runtime.HASH_TABLE_TOTAL_BYTES w /\
                  HashTbl.total_data_page_size_ ht1 = HashTbl.total_data_page_size_ ht).
  { revert Hi. unfold HashTbl.Init, Runtime.ConsumeMemory, Runtime.ask, bucket_bytes.
    assert (H0 : int64 (0 * sizeof_Bucket) = 0) by reflexivity.
    destruct (Runtime.answers w (Runtime.calls w)); intros Hi; inversion Hi; subst;
      cbn [HashTbl.num_buckets_ HashTbl.set_buckets HashTbl.total_data_page_size_
           Runtime.consumed Runtime.add_consumed Runtime.HASH_TABLE_TOTAL_BYTES];
      rewrite ?H0; repeat split; lia. }
  destruct Hinit as (Hc1 & Hg1 & Ht1).
  unfold HashTbl.Close, Runtime.ReleaseMemory, bucket_bytes in *. cbn.
  destruct (HashTbl.buckets_ ht2); cbn; split; lia.
Qed.

Lemma HashTable_gives_back_its_buckets_witness :
  let ht := HashTbl.Create true false (-1) 1024 in
  let w := example_world Runtime.Yes in
  let r1 := HashTbl.Init 16 ht w in
  let r2 := default (ht, w)
              (TableLife.resize_all 16 (fun _ _ h => h) [800; 10] (snd (fst r1)) (snd r1)) in
  let w3 := snd (HashTbl.Close 16 (fst r2) (snd r2)) in
  HashTbl.num_buckets_ (fst r2) = 2048 /\
  Runtime.consumed w3 = Runtime.consumed w /\
  Runtime.HASH_TABLE_TOTAL_BYTES w3
  = Runtime.HASH_TABLE_TOTAL_BYTES w - HashTbl.total_data_page_size_ ht.
Proof.
  split; [reflexivity|].
  exact (HashTable_gives_back_its_buckets 16 (fun _ _ h => h) [800; 10]
           (HashTbl.Create true false (-1) 1024) _ _ (example_world Runtime.Yes) _ _ true
           eq_refl eq_refl).
Defined.

(** ** What a resize keeps *)

Section ResizeKeeps.
Import Runtime HashTbl.

Variable sizeof_Bucket : Z.
Variable Probe : list Bucket -> Z -> Z -> Z.

(** [Probe<true>] on an array that has a free bucket finds one: the two
    [DCHECK]s after the call in [ResizeBuckets]. *)
Definition Probe_finds_free : Prop :=
  forall (nb : list Bucket) (num_buckets hash : Z),
    (exists j b, nb !! j = Some b /\ filled b = false) ->
    0 <= Probe nb num_buckets hash /\
    exists b, nb !! Z.to_nat (Probe nb num_buckets hash) = Some b /\ filled b = false.

Definition filled_buckets (l : list Bucket) : list Bucket := List.filter filled l.

Lemma filled_buckets_app (l1 l2 : list Bucket) :
  filled_buckets (l1 ++ l2) = filled_buckets l1 ++ filled_buckets l2.
Proof. apply List.filter_app. Qed.

Lemma filled_buckets_length (l : list Bucket) :
  (length (filled_buckets l) <= length l)%nat.
Proof. apply List.filter_length_le. Qed.

Lemma free_bucket_exists (l : list Bucket) :
  (length (filled_buckets l) < length l)%nat ->
  exists j b, l !! j = Some b /\ filled b = false.
Proof.
  unfold filled_buckets. induction l as [|x l IH]; cbn; [lia|].
  destruct (filled x) eqn:Hx; cbn.
  - intros H. destruct IH as (j & b & Hj & Hb); [lia|]. exists (S j), b. auto.
  - intros _. exists O, x. auto.
Qed.

Lemma filled_buckets_insert (l : list Bucket) (j : nat) (free b : Bucket) :
  l !! j = Some free -> filled free = false -> filled b = true ->
  Permutation (filled_buckets (<[ j := b ]> l)) (b :: filled_buckets l).
Proof.
  intros Hj Hfree Hb.
  assert (Hlt : (j < length l)%nat) by (eapply lookup_lt_Some; eauto).
  rewrite insert_take_drop by exact Hlt.
  rewrite <- (take_drop_middle l j free Hj) at 3.
  rewrite !filled_buckets_app. cbn. rewrite Hb, Hfree.
  symmetry. apply Permutation_middle.
Qed.

Lemma copy_filled_keeps (num_buckets : Z) (old : list Bucket) :
  Probe_finds_free ->
  forall nb,
    (length (filled_buckets nb) + length (filled_buckets old) < length nb)%nat ->
    Permutation (filled_buckets (copy_filled Probe num_buckets old nb))
                (filled_buckets old ++ filled_buckets nb).
Proof.
  intros HP. unfold copy_filled.
  induction old as [|b old IH]; intros nb Hroom; cbn [foldl].
  - reflexivity.
  - cbn [filled_buckets List.filter] in *. fold (filled_buckets old) in *.
    destruct (filled b) eqn:Hb.
    + cbn [length] in Hroom.
      destruct (HP nb num_buckets (hash b)) as (Hpos & free & Hj & Hfree).
      { apply free_bucket_exists. lia. }
      pose proof (filled_buckets_insert nb _ free b Hj Hfree Hb) as Hperm.
      rewrite IH.
      * rewrite Hperm. cbn. symmetry. apply Permutation_middle.
      * rewrite (Permutation_length Hperm), length_insert. cbn. lia.
    + apply IH. exact Hroom.
Qed.

End ResizeKeeps.

(** When [ResizeBuckets] succeeds the new array has [num_buckets] buckets
    and holds the filled buckets of the old one, each once, and no other;
    when it fails the array is the old one. *)
Theorem ResizeBuckets_keeps_filled_buckets (sizeof_Bucket : Z)
    (Probe : list HashTbl.Bucket -> Z -> Z -> Z) (num_buckets : Z)
    (ht : HashTbl.HashTable) (w : Runtime.World) (old : list HashTbl.Bucket) :
  Probe_finds_free Probe ->
  HashTbl.buckets_ ht = Some old ->
  (length (filled_buckets old) < Z.to_nat num_buckets)%nat ->
  let '(resized, ht', w') := HashTbl.ResizeBuckets sizeof_Bucket Probe num_buckets ht w in
  HashTbl.num_filled_buckets_ ht' = HashTbl.num_filled_buckets_ ht /\
  if resized then
    HashTbl.num_buckets_ ht' = num_buckets /\
    exists nb, HashTbl.buckets_ ht' = Some nb /\ length nb = Z.to_nat num_buckets /\
               Permutation (filled_buckets nb) (filled_buckets old)
  else
    HashTbl.buckets_ ht' = Some old /\ HashTbl.num_buckets_ ht' = HashTbl.num_buckets_ ht.
Proof.
  intros HP Hold Hroom. unfold HashTbl.ResizeBuckets, Runtime.ConsumeMemory, Runtime.ask.
  destruct (negb (HashTbl.max_num_buckets_ ht =? -1)
            && (HashTbl.max_num_buckets_ ht <? num_buckets)); [auto|].
  assert (Hz : forall n, filled_buckets (replicate n HashTbl.zero_Bucket) = []).
  { induction n; cbn; auto. }
  destruct (Runtime.answers w (Runtime.calls w)); cbv beta iota zeta;
    cbn [HashTbl.num_filled_buckets_ HashTbl.incr_num_resizes HashTbl.set_buckets
         HashTbl.buckets_ HashTbl.num_buckets_]; auto.
  split; [reflexivity|]. split; [reflexivity|].
  rewrite Hold. cbn [default option.from_option id].
  eexists. split; [reflexivity|]. split.
  - rewrite copy_filled_length, length_replicate. reflexivity.
  - rewrite (copy_filled_keeps Probe num_buckets old HP).
    + rewrite Hz, app_nil_r. reflexivity.
    + rewrite Hz, length_replicate. cbn. lia.
Qed.

(** A probe that takes the first free bucket. *)
Fixpoint example_first_free (nb : list HashTbl.Bucket) : nat :=
  match nb with
  | [] => O
  | b :: rest => if HashTbl.filled b then S (example_first_free rest) else O
  end.

Definition example_Probe (nb : list HashTbl.Bucket) (num_buckets hash : Z) : Z :=
  Z.of_nat (example_first_free nb).

Lemma example_Probe_finds_free : Probe_finds_free example_Probe.
Proof.
  intros nb n h Hex. unfold example_Probe. split; [lia|]. rewrite Nat2Z.id.
  destruct Hex as (j & b & Hj & Hb). revert j Hj.
  induction nb as [|x nb IH]; intros j Hj; [rewrite lookup_nil in Hj; discriminate|].
  cbn. destruct (HashTbl.filled x) eqn:Hx.
  - destruct j as [|j]; cbn in Hj.
    + inversion Hj; subst. congruence.
    + cbn. apply (IH j Hj).
  - exists x. auto.
Qed.

Definition example_filled_table : HashTbl.HashTable :=
  HashTbl.mkHashTable true true [] 0 0 (-1)
    (Some [HashTbl.mkBucket true false false 7 70; HashTbl.zero_Bucket;
           HashTbl.mkBucket true true false 9 90; HashTbl.zero_Bucket])
    4 2 0 false 0 0 0 0 0.

Lemma ResizeBuckets_keeps_filled_buckets_witness :
  let '(resized, ht', w') :=
    HashTbl.ResizeBuckets 16 example_Probe 8 example_filled_table (example_world Runtime.Yes) in
  HashTbl.num_filled_buckets_ ht' = 2 /\
  if resized then
    HashTbl.num_buckets_ ht' = 8 /\
    exists nb, HashTbl.buckets_ ht' = Some nb /\ length nb = 8%nat /\
               Permutation (filled_buckets nb)
                 [HashTbl.mkBucket true false false 7 70; HashTbl.mkBucket true true false 9 90]
  else
    HashTbl.buckets_ ht'
    = Some [HashTbl.mkBucket true false false 7 70; HashTbl.zero_Bucket;
            HashTbl.mkBucket true true false 9 90; HashTbl.zero_Bucket] /\
    HashTbl.num_buckets_ ht' = 4.
Proof.
  exact (ResizeBuckets_keeps_filled_buckets 16 example_Probe 8 example_filled_table
           (example_world Runtime.Yes) _ example_Probe_finds_free eq_refl
           ltac:(cbn; lia)).
Defined.

(** ** The largest spilled partition *)

(** [LargestSpilledPartition()], in both operators, returns the largest
    number of rows held by a partition of [hash_partitions_] that is open
    and spilled, and 0 when there is none. *)
Theorem LargestSpilledPartition_is_maximum (n : Agg.AggNode) (m : Join.JoinNode) :
  (0 <= Agg.LargestSpilledPartition n /\
   (forall k p, Agg.hash_partitions_ n !! k = Some p -> agg_spilled_child p = true ->
                agg_rows p <= Agg.LargestSpilledPartition n) /\
   ((Agg.LargestSpilledPartition n = 0 /\
     forall k p, Agg.hash_partitions_ n !! k = Some p -> agg_spilled_child p = true ->
                 agg_rows p <= 0)
    \/ exists k p, Agg.hash_partitions_ n !! k = Some p /\ agg_spilled_child p = true /\
                   agg_rows p = Agg.LargestSpilledPartition n))
  /\
  (0 <= Join.LargestSpilledPartition m /\
   (forall k p, Join.hash_partitions_ m !! k = Some p -> join_spilled_child p = true ->
                join_rows p <= Join.LargestSpilledPartition m) /\
   ((Join.LargestSpilledPartition m = 0 /\
     forall k p, Join.hash_partitions_ m !! k = Some p -> join_spilled_child p = true ->
                 join_rows p <= 0)
    \/ exists k p, Join.hash_partitions_ m !! k = Some p /\ join_spilled_child p = true /\
                   join_rows p = Join.LargestSpilledPartition m)).
Proof.
  split.
  - rewrite agg_Largest_shape.
    destruct (foldl_largest_spec (fun p => negb (agg_spilled_child p)) agg_rows
                (Agg.hash_partitions_ n) 0) as (H0 & Hall & Hex).
    split; [exact H0|]. split.
    + intros k p Hk Hc. apply (Hall k p Hk). now rewrite Hc.
    + destruct Hex as [Hz|(k & p & Hk & Hc & Hr)].
      * left. split; [exact Hz|]. intros k p Hk Hc. rewrite <- Hz.
        apply (Hall k p Hk). now rewrite Hc.
      * right. exists k, p. apply negb_false_iff in Hc. auto.
  - rewrite join_Largest_shape.
    destruct (foldl_largest_spec (fun p => negb (join_spilled_child p)) join_rows
                (Join.hash_partitions_ m) 0) as (H0 & Hall & Hex).
    split; [exact H0|]. split.
    + intros k p Hk Hc. apply (Hall k p Hk). now rewrite Hc.
    + destruct Hex as [Hz|(k & p & Hk & Hc & Hr)].
      * left. split; [exact Hz|]. intros k p Hk Hc. rewrite <- Hz.
        apply (Hall k p Hk). now rewrite Hc.
      * right. exists k, p. apply negb_false_iff in Hc. auto.
Qed.

(** ** The memory of the hash tables of an aggregation *)

Section AggMemoryFacts.
Import Runtime Agg.

Variable sizeof_Bucket : Z.
Variable HashTable_size : HashTable -> Z.
Variable HashTable_ByteSize : HashTable -> Z.
Variable bytes_in_mem : bool -> Stream -> Z.

(** The bytes the bucket array of a partition holds at the block manager. *)
Definition table_bytes (p : Partition) : Z :=
  match hash_tbl p with
  | Some ht => bucket_bytes sizeof_Bucket ht
  | None => 0
  end.

Lemma serialize_tuples_consumed (k : nat) :
  forall (s : Stream) (w : World),
    consumed (snd (serialize_tuples k s w)) = consumed w.
Proof.
  induction k as [|k IH]; intros s w; cbn [serialize_tuples]; [reflexivity|].
  unfold Streams.AddRow, ask.
  destruct (answers w (calls w)); cbn; rewrite ?IH; reflexivity.
Qed.

Ltac unfold_spill :=
  unfold Agg.Partition_Spill, Agg.Partition_SerializeStreamForSpilling,
    Agg.close_and_reset_hash_tbl, bind, ret, raise, check, get_node, get_partition,
    get_world, put_world, put_partition, modify_node, Streams.SwitchToIoBuffers,
    Streams.UnpinStream, Streams.Init, ask, ok, HashTbl.Close, ReleaseMemory.

(** [Spill] gives the bucket array back whether it succeeds or fails. *)
Lemma agg_Spill_effect (k : nat) (n : AggNode) (w : World) (p : Partition) :
  hash_partitions_ n !! k = Some p ->
  let st' := snd (Partition_Spill sizeof_Bucket HashTable_size k (n, w)) in
  let p' := default (new_Partition 0) (hash_partitions_ (fst st') !! k) in
  hash_partitions_ (fst st') = <[ k := p' ]> (hash_partitions_ n) /\
  hash_tbl p' = None /\ is_closed p' = is_closed p /\ level p' = level p /\
  consumed (snd st') = consumed w - table_bytes p /\
  aggregated_partitions_ (fst st') = aggregated_partitions_ n /\
  spilled_partitions_ (fst st') = spilled_partitions_ n /\
  is_streaming_preagg_ (fst st') = is_streaming_preagg_ n.
Proof.
  intros Hp. assert (Hk : (k < length (hash_partitions_ n))%nat) by (eapply lookup_lt_Some; eauto).
  cbv zeta. unfold_spill. cbn [fst snd]. rewrite Hp. cbn [default option.from_option id].
  unfold table_bytes, bucket_bytes.
  destruct (hash_tbl p) as [ht|] eqn:Hht;
    destruct (needs_serialize_ n && _);
    repeat (rewrite ?Hp, ?Hht;
            rewrite ?list_lookup_insert_eq by (rewrite ?length_insert; exact Hk);
            cbn; rewrite ?Hp, ?Hht; destruct_innermost; cbn);
    rewrite ?Hp, ?Hht;
    rewrite ?list_lookup_insert_eq by (rewrite ?length_insert; exact Hk);
    rewrite ?list_insert_insert_eq; cbn; rewrite ?Hp, ?Hht;
    try match goal with
        | H : serialize_tuples ?t ?s ?w = (_, _, _, _) |- _ =>
            let Hc := fresh in
            pose proof (serialize_tuples_consumed t s w) as Hc; rewrite H in Hc; cbn in Hc
        end;
    repeat split; try reflexivity; try lia;
    cbn [default option.from_option id] in *; simplify_eq; try reflexivity; lia.
Qed.
End AggMemoryFacts.

Section AggAccounting.
Import Runtime Agg AggMore.

Variable sizeof_Bucket : Z.
Variable Probe : list HashTbl.Bucket -> Z -> Z -> Z.
Variable FLAGS_enable_quadratic_probing : bool.
Variable HashTable_size : HashTable -> Z.
Variable HashTable_ByteSize : HashTable -> Z.
Variable bytes_in_mem : bool -> Stream -> Z.

(** What a partition still holds at the block manager for its bucket
    array: [Close] has released it in a closed partition. *)
Definition charge (p : Partition) : Z :=
  if is_closed p then 0 else table_bytes sizeof_Bucket p.

Fixpoint charges (l : list Partition) : Z :=
  match l with
  | [] => 0
  | p :: rest => charge p + charges rest
  end.

(** The bucket arrays of all the partitions of the node. *)
Definition held (n : AggNode) : Z :=
  charges (hash_partitions_ n) + charges (aggregated_partitions_ n)
  + charges (spilled_partitions_ n).

Lemma charges_app (l1 l2 : list Partition) : charges (l1 ++ l2) = charges l1 + charges l2.
Proof. induction l1 as [|p l1 IH]; cbn; [reflexivity|]. rewrite IH. lia. Qed.

Lemma charges_insert (l : list Partition) :
  forall (k : nat) (p p' : Partition),
    l !! k = Some p -> charges (<[ k := p' ]> l) = charges l - charge p + charge p'.
Proof.
  induction l as [|q l IH]; intros k p p' Hk; [discriminate|].
  destruct k as [|k].
  - cbn in *. inversion Hk; subst. lia.
  - change (<[ S k := p' ]> (q :: l)) with (q :: <[ k := p' ]> l).
    cbn [charges]. rewrite (IH k p p' Hk). lia.
Qed.

Lemma charges_drop (l : list Partition) (k : nat) (p : Partition) :
  l !! k = Some p -> charges (drop k l) = charge p + charges (drop (S k) l).
Proof.
  revert k. induction l as [|q l IH]; intros k Hk; [discriminate|].
  destruct k as [|k]; cbn in *.
  - inversion Hk; subst. now rewrite drop_0.
  - apply IH, Hk.
Qed.

(** The partitions being built are open. *)
Definition all_open (n : AggNode) : Prop :=
  Forall (fun p => is_closed p = false) (hash_partitions_ n).

(** The invariant of the building phase: the bytes the client has consumed
    beyond the bucket arrays of the partitions stand at [K]. *)
Definition building (K : Z) (st : St) : Prop :=
  consumed (snd st) - held (fst st) = K /\ all_open (fst st).

Lemma Spill_building (K : Z) (k : nat) (st : St) (p : Partition) :
  hash_partitions_ (fst st) !! k = Some p ->
  building K st ->
  building K (snd (Partition_Spill sizeof_Bucket HashTable_size k st)).
Proof.
  destruct st as [n w]. cbn [fst snd]. intros Hp [HK Hopen].
  destruct (agg_Spill_effect sizeof_Bucket HashTable_size k n w p Hp)
    as (Hl & Hnone & Hcl & _ & Hc & Hagg & Hsp & _).
  set (st' := snd (Partition_Spill sizeof_Bucket HashTable_size k (n, w))) in *.
  set (p' := default (new_Partition 0) (hash_partitions_ (fst st') !! k)) in *.
  assert (Hpo : is_closed p = false)
    by (eapply (proj1 (Forall_lookup _ _) Hopen); eauto).
  split.
  - unfold held in *. rewrite Hl, Hagg, Hsp, Hc.
    rewrite (charges_insert _ k p p' Hp).
    assert (Hc1 : charge p = table_bytes sizeof_Bucket p) by (unfold charge; now rewrite Hpo).
    assert (Hc2 : charge p' = 0).
    { unfold charge, table_bytes. rewrite Hnone. now destruct (is_closed p'). }
    cbn [fst snd] in HK. unfold held in HK. lia.
  - unfold all_open. rewrite Hl. apply Forall_insert; [exact Hopen|]. congruence.
Qed.

Abbreviation SpillPartition :=
  (Agg.SpillPartition sizeof_Bucket HashTable_size HashTable_ByteSize bytes_in_mem).

(** The partitions [SpillPartition] can choose from. *)
Definition candidates (n : AggNode) : nat :=
  length (List.filter agg_candidate (hash_partitions_ n)).

Lemma filter_insert_drops (l : list Partition) :
  forall (k : nat) (p p' : Partition),
    l !! k = Some p -> agg_candidate p = true -> agg_candidate p' = false ->
    S (length (List.filter agg_candidate (<[ k := p' ]> l)))
    = length (List.filter agg_candidate l).
Proof.
  induction l as [|q l IH]; intros k p p' Hk Hp Hp'; [discriminate|].
  destruct k as [|k].
  - cbn in *. inversion Hk; subst. rewrite Hp, Hp'. reflexivity.
  - change (<[ S k := p' ]> (q :: l)) with (q :: <[ k := p' ]> l).
    cbn [List.filter]. destruct (agg_candidate q); cbn [length];
      rewrite <- (IH k p p' Hk Hp Hp'); reflexivity.
Qed.

Lemma filter_insert_same (l : list Partition) :
  forall (k : nat) (p p' : Partition),
    l !! k = Some p -> agg_candidate p' = agg_candidate p ->
    length (List.filter agg_candidate (<[ k := p' ]> l))
    = length (List.filter agg_candidate l).
Proof.
  induction l as [|q l IH]; intros k p p' Hk Hp; [discriminate|].
  destruct k as [|k].
  - cbn in *. inversion Hk; subst. rewrite Hp. now destruct (agg_candidate p).
  - change (<[ S k := p' ]> (q :: l)) with (q :: <[ k := p' ]> l).
    cbn [List.filter]. destruct (agg_candidate q); cbn [length];
      rewrite (IH k p p' Hk Hp); reflexivity.
Qed.

(** When [SpillPartition] returns OK one candidate fewer is left. *)
Lemma SpillPartition_candidates (st : St) :
  match fst (SpillPartition st) with
  | inr _ => S (candidates (fst (snd (SpillPartition st)))) = candidates (fst st)
  | inl _ => (candidates (fst (snd (SpillPartition st))) <= candidates (fst st))%nat
  end.
Proof.
  destruct st as [n w].
  destruct (agg_SpillPartition_outcome sizeof_Bucket HashTable_size HashTable_ByteSize
              bytes_in_mem n w) as (_ & Hnone & Hsome).
  destruct (Z.eq_dec (Agg.SpillPartition_pick HashTable_ByteSize bytes_in_mem
                        (hash_partitions_ n) 0 0 (-1)) (-1)) as [Heq|Hne].
  - rewrite (Hnone Heq). cbn. lia.
  - destruct (Hsome Hne) as (k & p & Hr & Hk & Hcand & _ & _ & _ & _ & _).
    rewrite agg_SpillPartition_unfold. cbv zeta. rewrite Hr.
    replace (Z.of_nat k =? -1) with false by (symmetry; apply Z.eqb_neq; lia).
    rewrite Nat2Z.id.
    set (n0 := set_hash_tbls n (<[ k := false ]> (hash_tbls_ n))).
    destruct (agg_Spill_effect sizeof_Bucket HashTable_size k n0 w p Hk)
      as (Hl & Hnone' & Hcl & _).
    set (st' := snd (Partition_Spill sizeof_Bucket HashTable_size k (n0, w))) in *.
    set (p' := default (new_Partition 0) (hash_partitions_ (fst st') !! k)) in *.
    assert (Hp' : agg_candidate p' = false).
    { unfold agg_candidate, is_spilled. rewrite Hnone'. apply andb_false_r. }
    unfold candidates. rewrite Hl. cbn [fst hash_partitions_ n0 set_hash_tbls].
    pose proof (filter_insert_drops (hash_partitions_ n) k p p' Hk Hcand Hp') as Hd.
    destruct (fst (Partition_Spill _ _ _ _)); lia.
Qed.

(** [SpillPartition] keeps the invariant, whatever it returns. *)
Lemma SpillPartition_building (K : Z) (st : St) :
  building K st -> building K (snd (SpillPartition st)).
Proof.
  destruct st as [n w]. intros Hb.
  destruct (agg_SpillPartition_outcome sizeof_Bucket HashTable_size HashTable_ByteSize
              bytes_in_mem n w) as (_ & Hnone & Hsome).
  destruct (Z.eq_dec (Agg.SpillPartition_pick HashTable_ByteSize bytes_in_mem
                        (hash_partitions_ n) 0 0 (-1)) (-1)) as [Heq|Hne].
  - rewrite (Hnone Heq). exact Hb.
  - destruct (Hsome Hne) as (k & p & Hr & Hk & Hcand & _ & _ & _ & _ & _).
    rewrite agg_SpillPartition_unfold. cbv zeta. rewrite Hr.
    replace (Z.of_nat k =? -1) with false by (symmetry; apply Z.eqb_neq; lia).
    rewrite Nat2Z.id.
    set (n0 := set_hash_tbls n (<[ k := false ]> (hash_tbls_ n))).
    assert (Hb0 : building K (n0, w)) by exact Hb.
    assert (Hk0 : hash_partitions_ (fst (n0, w)) !! k = Some p) by exact Hk.
    exact (Spill_building K k (n0, w) p Hk0 Hb0).
Qed.

(** After [SpillPartition] a partition is as it was or has no hash table. *)
Lemma SpillPartition_tables (st : St) (j : nat) (p' : Partition) :
  hash_partitions_ (fst (snd (SpillPartition st))) !! j = Some p' ->
  hash_tbl p' = None \/ hash_partitions_ (fst st) !! j = Some p'.
Proof.
  destruct st as [n w].
  destruct (agg_SpillPartition_outcome sizeof_Bucket HashTable_size HashTable_ByteSize
              bytes_in_mem n w) as (_ & Hnone & Hsome).
  destruct (Z.eq_dec (Agg.SpillPartition_pick HashTable_ByteSize bytes_in_mem
                        (hash_partitions_ n) 0 0 (-1)) (-1)) as [Heq|Hne].
  - rewrite (Hnone Heq). cbn. auto.
  - destruct (Hsome Hne) as (k & p & Hr & Hk & _ & _ & _ & _ & Hframe & _).
    destruct (decide (j = k)) as [->|Hjk].
    + rewrite agg_SpillPartition_unfold. cbv zeta. rewrite Hr.
      replace (Z.of_nat k =? -1) with false by (symmetry; apply Z.eqb_neq; lia).
      rewrite Nat2Z.id.
      set (n0 := set_hash_tbls n (<[ k := false ]> (hash_tbls_ n))).
      destruct (agg_Spill_effect sizeof_Bucket HashTable_size k n0 w p Hk)
        as (_ & Hnone' & _).
      intros H. rewrite H in Hnone'. left. exact Hnone'.
    + rewrite (Hframe j Hjk). auto.
Qed.

(** The hash table of the partition, if it has one, takes [num_rows] more
    entries within the fill factor. *)
Definition has_room (num_rows : Z) (p : Partition) : Prop :=
  match hash_tbl p with
  | None => True
  | Some ht =>
      HashTbl.exceeds_max_fill (uint64 (HashTbl.num_filled_buckets_ ht + num_rows))
                               (HashTbl.num_buckets_ ht) = false
  end.

Definition room_at (num_rows : Z) (j : nat) (st : St) : Prop :=
  forall p, hash_partitions_ (fst st) !! j = Some p -> has_room num_rows p.

Lemma CheckAndResize_room (num_rows : Z) (ht ht' : HashTable) (w w' : World) :
  HashTbl.CheckAndResize sizeof_Bucket Probe num_rows ht w = Some (true, ht', w') ->
  HashTbl.exceeds_max_fill (uint64 (HashTbl.num_filled_buckets_ ht' + num_rows))
                           (HashTbl.num_buckets_ ht') = false.
Proof.
  unfold HashTbl.CheckAndResize.
  destruct (HashTbl.resize_shift _ _ _ _) as [shift|] eqn:Hs; [|discriminate].
  apply resize_shift_sound in Hs; [|lia]. destruct Hs as (Hle & Hfit & _).
  destruct (0 <? shift) eqn:Hpos.
  - unfold HashTbl.ResizeBuckets, ConsumeMemory, ask.
    destruct (negb _ && _); [discriminate|].
    destruct (answers w (calls w)); intros H; inversion H; subst; cbn.
    rewrite Z.shiftl_mul_pow2 by lia. exact Hfit.
  - apply Z.ltb_ge in Hpos. assert (shift = 0) by lia. subst shift.
    intros H. inversion H; subst. rewrite Z.mul_1_r in Hfit. exact Hfit.
Qed.

Lemma SpillPartition_room (num_rows : Z) (j : nat) (st : St) :
  room_at num_rows j st -> room_at num_rows j (snd (SpillPartition st)).
Proof.
  intros H p' Hp'. destruct (SpillPartition_tables st j p' Hp') as [Hn|Hsame].
  - unfold has_room. now rewrite Hn.
  - apply H, Hsame.
Qed.

(** One round of the loop on a partition that has a hash table. *)
Lemma resize_step (K : Z) (num_rows : Z) (i : nat) (n : AggNode) (w : World)
    (p : Partition) (ht ht' : HashTable) (b : bool) (w' : World) :
  hash_partitions_ n !! i = Some p -> hash_tbl p = Some ht ->
  HashTbl.CheckAndResize sizeof_Bucket Probe num_rows ht w = Some (b, ht', w') ->
  let n' := set_hash_partitions n (<[ i := set_hash_tbl p (Some ht') ]> (hash_partitions_ n)) in
  (candidates n' = candidates n)%nat /\
  (building K (n, w) -> building K (n', w')) /\
  (forall j, j <> i -> room_at num_rows j (n, w) -> room_at num_rows j (n', w')) /\
  (b = true -> room_at num_rows i (n', w')).
Proof.
  intros Hp Hht Hc n'.
  assert (Hi : (i < length (hash_partitions_ n))%nat) by (eapply lookup_lt_Some; eauto).
  split; [|split; [|split]].
  - unfold candidates, n'. cbn. apply (filter_insert_same _ i p); [exact Hp|].
    unfold agg_candidate, is_spilled. cbn. now rewrite Hht.
  - intros [HK Hopen]. cbn [fst snd] in *.
    assert (Hpo : is_closed p = false)
      by (eapply (proj1 (Forall_lookup _ _) Hopen); eauto).
    apply (CheckAndResize_accounting sizeof_Bucket Probe) in Hc. destruct Hc as (Hc & _).
    split.
    + unfold held, n' in *. cbn [hash_partitions_ aggregated_partitions_ spilled_partitions_
                                 set_hash_partitions fst snd].
      rewrite (charges_insert _ i p _ Hp).
      assert (Hc1 : charge p = bucket_bytes sizeof_Bucket ht).
      { unfold charge, table_bytes. now rewrite Hpo, Hht. }
      assert (Hc2 : charge (set_hash_tbl p (Some ht')) = bucket_bytes sizeof_Bucket ht').
      { unfold charge, table_bytes. cbn. now rewrite Hpo. }
      lia.
    + unfold all_open, n'. cbn. apply Forall_insert; [exact Hopen|exact Hpo].
  - intros j Hj Hr q Hq. unfold n' in Hq. cbn in Hq.
    rewrite list_lookup_insert_ne in Hq by congruence. apply Hr, Hq.
  - intros -> q Hq. unfold n' in Hq. cbn in Hq.
    rewrite list_lookup_insert_eq in Hq by exact Hi. inversion Hq; subst q.
    unfold has_room. cbn. eapply CheckAndResize_room, Hc.
Qed.

Abbreviation resize_or_spill :=
  (AggMore.resize_or_spill sizeof_Bucket Probe HashTable_size HashTable_ByteSize bytes_in_mem).

Lemma resize_or_spill_unfold (fuel : nat) (num_rows : Z) (i : nat) (n : AggNode) (w : World) :
  resize_or_spill (S fuel) num_rows i (n, w) =
  match hash_tbl (default (new_Partition 0) (hash_partitions_ n !! i)) with
  | None => (inr Returned, (n, w))
  | Some ht =>
      match HashTbl.CheckAndResize sizeof_Bucket Probe num_rows ht w with
      | None => (inr Undefined, (n, w))
      | Some (resized, ht', w') =>
          let n' := set_hash_partitions n
                      (<[ i := set_hash_tbl (default (new_Partition 0) (hash_partitions_ n !! i))
                                            (Some ht') ]> (hash_partitions_ n)) in
          if resized then (inr Returned, (n', w'))
          else match SpillPartition (n', w') with
               | (inl e, st') => (inl e, st')
               | (inr _, st') => resize_or_spill fuel num_rows i st'
               end
      end
  end.
Proof.
  cbn [AggMore.resize_or_spill].
  unfold bind at 1. unfold get_partition at 1. cbn [fst snd].
  destruct (hash_tbl _) as [ht|]; [|reflexivity].
  unfold bind at 1. unfold get_world at 1. cbn [fst snd].
  destruct (HashTbl.CheckAndResize _ _ _ _ _) as [[[b ht'] w']|]; [|reflexivity].
  unfold bind at 1. unfold put_world at 1. cbn [fst snd].
  unfold bind at 1. unfold put_partition at 1, modify_node at 1. cbn [fst snd].
  destruct b; [reflexivity|].
  unfold bind at 1.
  destruct (Agg.SpillPartition _ _ _ _ _) as [[e|u] st']; reflexivity.
Qed.

(** The loop on one partition ends before the fuel does when there is more
    fuel than candidates; it keeps the invariant and the room of the
    other hash tables, and leaves, when it returns OK, the partition with
    room or without hash table. *)
Lemma resize_or_spill_ends (K : Z) (num_rows : Z) (i : nat) :
  forall (fuel : nat) (st : St),
    let r := resize_or_spill fuel num_rows i st in
    ((candidates (fst st) < fuel)%nat -> fst r <> inr FuelSpent) /\
    (candidates (fst (snd r)) <= candidates (fst st))%nat /\
    (building K st -> building K (snd r)) /\
    (forall j, j <> i -> room_at num_rows j st -> room_at num_rows j (snd r)) /\
    (fst r = inr Returned -> room_at num_rows i (snd r)).
Proof.
  induction fuel as [|fuel IH]; intros [n w].
  { cbn. split; [lia|]. split; [lia|]. split; [auto|]. split; [auto|]. discriminate. }
  cbv zeta. rewrite resize_or_spill_unfold. cbn [fst].
  destruct (hash_partitions_ n !! i) as [p|] eqn:Hp; cbn [default option.from_option id].
  2: { cbn [hash_tbl new_Partition fst snd].
       split; [discriminate|]. split; [lia|]. split; [auto|]. split; [auto|].
       intros _ q Hq. cbn in Hq. congruence. }
  destruct (hash_tbl p) as [ht|] eqn:Hht.
  2: { cbn [fst snd].
       split; [discriminate|]. split; [lia|]. split; [auto|]. split; [auto|].
       intros _ q Hq. cbn in Hq. rewrite Hp in Hq. inversion Hq; subst q.
       unfold has_room. now rewrite Hht. }
  destruct (HashTbl.CheckAndResize _ _ _ _ _) as [[[b ht'] w']|] eqn:Hc.
  2: { cbn [fst snd].
       split; [discriminate|]. split; [lia|]. split; [auto|]. split; [auto|]. discriminate. }
  destruct (resize_step K num_rows i n w p ht ht' b w' Hp Hht Hc) as (Hcand & Hbuild & Hroom & Hi).
  cbv zeta.
  set (n' := set_hash_partitions n _) in *.
  destruct b.
  - cbn [fst snd]. split; [discriminate|]. split; [lia|]. auto.
  - pose proof (SpillPartition_candidates (n', w')) as Hsc.
    pose proof (SpillPartition_building K (n', w')) as Hsp.
    pose proof (SpillPartition_room num_rows) as Hsr.
    destruct (SpillPartition (n', w')) as [[e|u] st'] eqn:Hs; cbn [fst snd] in *.
    + split; [discriminate|]. split; [lia|]. split; [auto|]. split; [|discriminate].
      intros j Hj Hr. specialize (Hsr j (n', w')). rewrite Hs in Hsr. apply Hsr.
      apply Hroom; assumption.
    + destruct (IH st') as (H1 & H2 & H3 & H4 & H5).
      split; [intros Hlt; apply H1; lia|]. split; [lia|]. split; [auto|]. split; [|exact H5].
      intros j Hj Hr. apply H4; [exact Hj|].
      specialize (Hsr j (n', w')). rewrite Hs in Hsr. apply Hsr.
      apply Hroom; assumption.
Qed.

Lemma SpillPartition_length (st : St) :
  length (hash_partitions_ (fst (snd (SpillPartition st))))
  = length (hash_partitions_ (fst st)).
Proof.
  destruct st as [n w].
  destruct (agg_SpillPartition_outcome sizeof_Bucket HashTable_size HashTable_ByteSize
              bytes_in_mem n w) as (_ & Hnone & Hsome).
  destruct (Z.eq_dec (Agg.SpillPartition_pick HashTable_ByteSize bytes_in_mem
                        (hash_partitions_ n) 0 0 (-1)) (-1)) as [Heq|Hne].
  - now rewrite (Hnone Heq).
  - destruct (Hsome Hne) as (k & p & Hr & Hk & _).
    rewrite agg_SpillPartition_unfold. cbv zeta. rewrite Hr.
    replace (Z.of_nat k =? -1) with false by (symmetry; apply Z.eqb_neq; lia).
    rewrite Nat2Z.id.
    set (n0 := set_hash_tbls n (<[ k := false ]> (hash_tbls_ n))).
    destruct (agg_Spill_effect sizeof_Bucket HashTable_size k n0 w p Hk) as (Hl & _).
    rewrite Hl. now rewrite length_insert.
Qed.

Lemma resize_or_spill_length (num_rows : Z) (i : nat) :
  forall (fuel : nat) (st : St),
    length (hash_partitions_ (fst (snd (resize_or_spill fuel num_rows i st))))
    = length (hash_partitions_ (fst st)).
Proof.
  induction fuel as [|fuel IH]; intros [n w]; [reflexivity|].
  rewrite resize_or_spill_unfold.
  destruct (hash_tbl _) as [ht|]; [|reflexivity].
  destruct (HashTbl.CheckAndResize _ _ _ _ _) as [[[b ht'] w']|]; [|reflexivity].
  cbv zeta. set (n' := set_hash_partitions n _).
  assert (Hn' : length (hash_partitions_ n') = length (hash_partitions_ n))
    by (unfold n'; cbn; apply length_insert).
  destruct b; [exact Hn'|].
  pose proof (SpillPartition_length (n', w')) as Hs.
  destruct (SpillPartition (n', w')) as [[e|u] st']; cbn [fst snd] in *.
  - congruence.
  - rewrite IH. congruence.
Qed.

Lemma resize_or_spill_each_length (num_rows : Z) (fuel : nat) :
  forall (l : list nat) (st : St),
    length (hash_partitions_
              (fst (snd (AggMore.resize_or_spill_each sizeof_Bucket Probe HashTable_size
                           HashTable_ByteSize bytes_in_mem fuel num_rows l st))))
    = length (hash_partitions_ (fst st)).
Proof.
  induction l as [|i l IH]; intros st; [reflexivity|].
  cbn [AggMore.resize_or_spill_each]. unfold bind. cbv beta.
  pose proof (resize_or_spill_length num_rows i fuel st) as Hl.
  destruct (resize_or_spill fuel num_rows i st) as [[e|[]] st']; cbn [fst snd] in *;
    [exact Hl| |exact Hl|exact Hl].
  rewrite IH. exact Hl.
Qed.

Abbreviation resize_or_spill_each :=
  (AggMore.resize_or_spill_each sizeof_Bucket Probe HashTable_size HashTable_ByteSize
     bytes_in_mem).

Lemma resize_or_spill_each_ends (K : Z) (num_rows : Z) (fuel : nat) :
  forall (l : list nat) (st : St),
    NoDup l ->
    let r := resize_or_spill_each fuel num_rows l st in
    ((candidates (fst st) < fuel)%nat -> fst r <> inr FuelSpent) /\
    (candidates (fst (snd r)) <= candidates (fst st))%nat /\
    (building K st -> building K (snd r)) /\
    (forall j, j ∉ l -> room_at num_rows j st -> room_at num_rows j (snd r)) /\
    (fst r = inr Returned -> forall j, j ∈ l -> room_at num_rows j (snd r)).
Proof.
  induction l as [|i l IH]; intros st Hnd.
  - cbn. split; [discriminate|]. split; [lia|]. split; [auto|]. split; [auto|].
    intros _ j Hj. inversion Hj.
  - apply NoDup_cons in Hnd as [Hil Hnd].
    cbv zeta. cbn [AggMore.resize_or_spill_each]. unfold bind. cbv beta.
    destruct (resize_or_spill_ends K num_rows i fuel st) as (H1 & H2 & H3 & H4 & H5).
    destruct (resize_or_spill fuel num_rows i st) as [[e|[]] st'] eqn:Hr; cbn [fst snd] in *.
    + split; [discriminate|]. split; [lia|]. split; [auto|]. split; [|discriminate].
      intros j Hj. apply not_elem_of_cons in Hj as [Hne _]. apply H4, Hne.
    + destruct (IH st' Hnd) as (G1 & G2 & G3 & G4 & G5).
      split; [intros Hlt; apply G1; lia|]. split; [lia|]. split; [auto|]. split.
      * intros j Hj Hroom. apply not_elem_of_cons in Hj as [Hne Hnin].
        apply G4; [exact Hnin|]. apply H4; [exact Hne|exact Hroom].
      * intros Hret j Hj. apply elem_of_cons in Hj as [->|Hj].
        -- apply G4; [exact Hil|]. apply H5. reflexivity.
        -- apply G5; assumption.
    + cbn. split; [exact H1|]. split; [lia|]. split; [auto|]. split; [|discriminate].
      intros j Hj. apply not_elem_of_cons in Hj as [Hne _]. apply H4, Hne.
    + cbn. split; [discriminate|]. split; [lia|]. split; [auto|]. split; [|discriminate].
      intros j Hj. apply not_elem_of_cons in Hj as [Hne _]. apply H4, Hne.
Qed.

(** *** Bucket counts in the range of the fill test *)

(** The range in which [HashTbl.exceeds_max_fill] is the comparison the
    source makes on [double]s, for a request of [num_rows] entries: the
    bucket count is a power of two that fits [int64_t], as the constructor
    and [ResizeBuckets] check, and the demand is below [2^53]. *)
Definition in_range (num_rows : Z) (ht : HashTable) : Prop :=
  HashTbl.is_power_of_two (HashTbl.num_buckets_ ht) = true /\
  HashTbl.num_buckets_ ht < 2 ^ 63 /\
  0 <= HashTbl.num_filled_buckets_ ht /\
  HashTbl.num_filled_buckets_ ht + num_rows < 2 ^ 53.

(** The hash table of the partition, if it has one, is in that range. *)
Definition well_sized (num_rows : Z) (p : Partition) : Prop :=
  match hash_tbl p with
  | None => True
  | Some ht => in_range num_rows ht
  end.

(** In that range [CheckAndResize] returns, and leaves a table in it. *)
Lemma CheckAndResize_in_range (num_rows : Z) (ht : HashTable) (w : World) :
  0 <= num_rows -> in_range num_rows ht ->
  exists b ht' w',
    HashTbl.CheckAndResize sizeof_Bucket Probe num_rows ht w = Some (b, ht', w') /\
    in_range num_rows ht'.
Proof.
  intros Hrows (Hpow & Hlt & Hfilled & Hdemand).
  assert (Hpos : 0 < HashTbl.num_buckets_ ht).
  { apply is_power_of_two_spec in Hpow. destruct Hpow as (e & He & ->).
    apply Z.pow_pos_nonneg; lia. }
  unfold HashTbl.CheckAndResize. rewrite uint64_small by lia.
  destruct (resize_shift_total 64 (HashTbl.num_filled_buckets_ ht + num_rows)
              (HashTbl.num_buckets_ ht)) with (shift := 0) as [shift Hshift]; try lia.
  rewrite Hshift.
  destruct (resize_shift_sound _ _ _ _ _ (Z.le_refl 0) Hshift) as (Hs0 & _ & _).
  pose proof (resize_shift_fits _ _ _ _ _ (Z.le_refl 0) Hshift) as Hfits.
  destruct (0 <? shift); [|eexists _, _, _; split; [reflexivity|]; repeat split; assumption].
  unfold HashTbl.ResizeBuckets, ConsumeMemory, ask.
  destruct (negb _ && _);
    [eexists _, _, _; split; [reflexivity|]; repeat split; assumption|].
  destruct (answers w (calls w)); eexists _, _, _; (split; [reflexivity|]);
    unfold in_range; cbn; rewrite ?Z.shiftl_mul_pow2 by lia;
    repeat split; try assumption.
  apply is_power_of_two_shift; assumption.
Qed.

Lemma SpillPartition_well_sized (num_rows : Z) (st : St) :
  Forall (well_sized num_rows) (hash_partitions_ (fst st)) ->
  Forall (well_sized num_rows) (hash_partitions_ (fst (snd (SpillPartition st)))).
Proof.
  intros H. apply Forall_lookup. intros j p' Hp'.
  destruct (SpillPartition_tables st j p' Hp') as [Hn|Hsame].
  - unfold well_sized. now rewrite Hn.
  - exact (proj1 (Forall_lookup _ _) H j p' Hsame).
Qed.

(** With hash tables in that range the loop on one partition never reaches
    a shift that is not defined, and leaves them in it. *)
Lemma resize_or_spill_defined (num_rows : Z) (i : nat) :
  0 <= num_rows ->
  forall (fuel : nat) (st : St),
    Forall (well_sized num_rows) (hash_partitions_ (fst st)) ->
    let r := resize_or_spill fuel num_rows i st in
    fst r <> inr Undefined /\
    Forall (well_sized num_rows) (hash_partitions_ (fst (snd r))).
Proof.
  intros Hrows. induction fuel as [|fuel IH]; intros [n w] Hall.
  { cbn. split; [discriminate|exact Hall]. }
  cbv zeta. rewrite resize_or_spill_unfold. cbn [fst] in Hall.
  destruct (hash_partitions_ n !! i) as [p|] eqn:Hp; cbn [default option.from_option id].
  2: { cbn [hash_tbl new_Partition fst snd]. split; [discriminate|exact Hall]. }
  destruct (hash_tbl p) as [ht|] eqn:Hht.
  2: { cbn [fst snd]. split; [discriminate|exact Hall]. }
  assert (Hin : in_range num_rows ht).
  { pose proof (proj1 (Forall_lookup _ _) Hall i p Hp) as H.
    unfold well_sized in H. now rewrite Hht in H. }
  destruct (CheckAndResize_in_range num_rows ht w Hrows Hin) as (b & ht' & w' & Hc & Hin').
  rewrite Hc. cbv zeta.
  set (n' := set_hash_partitions n _).
  assert (Hall' : Forall (well_sized num_rows) (hash_partitions_ n')).
  { unfold n'. cbn. apply Forall_insert; [exact Hall|]. exact Hin'. }
  destruct b; [cbn [fst snd]; split; [discriminate|exact Hall']|].
  pose proof (SpillPartition_well_sized num_rows (n', w') Hall') as Hsp.
  destruct (SpillPartition (n', w')) as [[e|u] st']; cbn [fst snd] in *.
  - split; [discriminate|exact Hsp].
  - exact (IH st' Hsp).
Qed.

Lemma resize_or_spill_each_defined (num_rows : Z) (fuel : nat) :
  0 <= num_rows ->
  forall (l : list nat) (st : St),
    Forall (well_sized num_rows) (hash_partitions_ (fst st)) ->
    let r := resize_or_spill_each fuel num_rows l st in
    fst r <> inr Undefined /\
    Forall (well_sized num_rows) (hash_partitions_ (fst (snd r))).
Proof.
  intros Hrows. induction l as [|i l IH]; intros st Hall.
  { cbn. split; [discriminate|exact Hall]. }
  cbv zeta. cbn [AggMore.resize_or_spill_each]. unfold bind. cbv beta.
  destruct (resize_or_spill_defined num_rows i Hrows fuel st Hall) as [Hd Hs].
  destruct (resize_or_spill fuel num_rows i st) as [[e|[]] st']; cbn [fst snd] in *.
  - split; [discriminate|exact Hs].
  - exact (IH st' Hs).
  - split; [discriminate|exact Hs].
  - congruence.
Qed.

Ltac split_all := repeat match goal with |- _ /\ _ => split end.

(** *** Appending to a spilled stream *)

Definition stream_of (n : AggNode) (r : StreamRef) : Stream :=
  match r with
  | AggregatedStream i =>
      default (Streams.new_stream true)
              (aggregated_row_stream (default (new_Partition 0) (hash_partitions_ n !! i)))
  | UnaggregatedStream i =>
      default (Streams.new_stream true)
              (unaggregated_row_stream (default (new_Partition 0) (hash_partitions_ n !! i)))
  end.

Definition with_stream (n : AggNode) (r : StreamRef) (s : Stream) : AggNode :=
  match r with
  | AggregatedStream i =>
      set_hash_partitions n
        (<[ i := set_aggregated_row_stream
                   (default (new_Partition 0) (hash_partitions_ n !! i)) (Some s) ]>
           (hash_partitions_ n))
  | UnaggregatedStream i =>
      set_hash_partitions n
        (<[ i := set_unaggregated_row_stream
                   (default (new_Partition 0) (hash_partitions_ n !! i)) (Some s) ]>
           (hash_partitions_ n))
  end.

Lemma get_stream_run (r : StreamRef) (n : AggNode) (w : World) :
  get_stream r (n, w) = (inr (stream_of n r), (n, w)).
Proof. destruct r; reflexivity. Qed.

Lemma put_stream_run (r : StreamRef) (s : Stream) (n : AggNode) (w : World) :
  put_stream r s (n, w) = (inr tt, (with_stream n r s, w)).
Proof. destruct r; reflexivity. Qed.

(** Writing a stream back changes neither which partitions are candidates
    nor what they hold. *)
Lemma with_stream_keeps (K : Z) (num_rows : Z) (n : AggNode) (r : StreamRef) (s : Stream)
    (w w' : World) :
  consumed w' = consumed w ->
  (candidates (with_stream n r s) = candidates n)%nat /\
  length (hash_partitions_ (with_stream n r s)) = length (hash_partitions_ n) /\
  (building K (n, w) -> building K (with_stream n r s, w')).
Proof.
  intros Hw.
  assert (Hgen : forall (i : nat) (f : Partition -> Partition),
             (forall p, is_closed (f p) = is_closed p /\ hash_tbl (f p) = hash_tbl p) ->
             let n' := set_hash_partitions n
                         (<[ i := f (default (new_Partition 0) (hash_partitions_ n !! i)) ]>
                            (hash_partitions_ n)) in
             (candidates n' = candidates n)%nat /\
             length (hash_partitions_ n') = length (hash_partitions_ n) /\
             (building K (n, w) -> building K (n', w'))).
  { intros i f Hf n'. unfold n'. cbn [hash_partitions_ set_hash_partitions].
    destruct (hash_partitions_ n !! i) as [p|] eqn:Hp; cbn [default option.from_option id].
    - destruct (Hf p) as [Hcl Hht].
      split; [|split; [apply length_insert|]].
      + unfold candidates. cbn. apply (filter_insert_same _ i p); [exact Hp|].
        unfold agg_candidate, is_spilled. now rewrite Hcl, Hht.
      + intros [HK Hopen]. cbn [fst snd] in *. split.
        * unfold held in *. cbn [hash_partitions_ aggregated_partitions_ spilled_partitions_
                                 set_hash_partitions fst snd].
          rewrite (charges_insert _ i p _ Hp).
          assert (charge (f p) = charge p)
            by (unfold charge, table_bytes; now rewrite Hcl, Hht).
          lia.
        * unfold all_open in *. cbn. apply Forall_insert; [exact Hopen|].
          rewrite Hcl. eapply (proj1 (Forall_lookup _ _) Hopen); eauto.
    - rewrite list_insert_ge by (apply lookup_ge_None; exact Hp).
      split; [reflexivity|]. split; [reflexivity|].
      intros [HK Hopen]. split; [|exact Hopen]. cbn [fst snd] in *.
      unfold held in *. cbn. lia. }
  destruct r as [i|i]; cbn [with_stream].
  - apply (Hgen i (fun p => set_aggregated_row_stream p (Some s))). intros p. split; reflexivity.
  - apply (Hgen i (fun p => set_unaggregated_row_stream p (Some s))). intros p. split; reflexivity.
Qed.

Abbreviation switch_or_spill :=
  (AggMore.switch_or_spill sizeof_Bucket HashTable_size HashTable_ByteSize bytes_in_mem).

Lemma switch_or_spill_unfold (fuel : nat) (stream : StreamRef) (n : AggNode) (w : World) :
  switch_or_spill (S fuel) stream (n, w) =
  let '(status, got_buffer, s', w') := Streams.SwitchToIoBuffers (stream_of n stream) w in
  let n' := with_stream n stream s' in
  if ok status then
    if got_buffer then (inr Returned, (n', w'))
    else match SpillPartition (n', w') with
         | (inl e, st') => (inl e, st')
         | (inr _, st') => switch_or_spill fuel stream st'
         end
  else (inl status, (n', w')).
Proof.
  cbn [AggMore.switch_or_spill].
  unfold bind at 1. rewrite get_stream_run.
  unfold bind at 1. unfold get_world at 1. cbn [fst snd].
  destruct (Streams.SwitchToIoBuffers _ _) as [[[status got] s'] w'].
  unfold bind at 1. unfold put_world at 1. cbn [fst snd].
  unfold bind at 1. rewrite put_stream_run.
  unfold bind at 1. unfold check at 1.
  destruct (ok status); [|reflexivity].
  unfold ret at 1.
  destruct got; [reflexivity|].
  unfold bind at 1.
  destruct (Agg.SpillPartition _ _ _ _ _) as [[e|u] st']; reflexivity.
Qed.

Lemma SwitchToIoBuffers_consumed (s : Stream) (w : World) :
  consumed (snd (Streams.SwitchToIoBuffers s w)) = consumed w.
Proof. unfold Streams.SwitchToIoBuffers, ask. now destruct (answers w (calls w)). Qed.

Lemma AddRow_consumed (s : Stream) (w : World) :
  consumed (snd (Streams.AddRow s w)) = consumed w.
Proof. unfold Streams.AddRow, ask. now destruct (answers w (calls w)). Qed.

Lemma switch_or_spill_ends (K : Z) (stream : StreamRef) :
  forall (fuel : nat) (st : St),
    let r := switch_or_spill fuel stream st in
    ((candidates (fst st) < fuel)%nat -> fst r <> inr FuelSpent) /\
    fst r <> inr Undefined /\
    (candidates (fst (snd r)) <= candidates (fst st))%nat /\
    length (hash_partitions_ (fst (snd r))) = length (hash_partitions_ (fst st)) /\
    (building K st -> building K (snd r)).
Proof.
  induction fuel as [|fuel IH]; intros [n w].
  { cbn. split_all; try discriminate; try lia; auto. }
  cbv zeta. rewrite switch_or_spill_unfold. cbn [fst].
  pose proof (SwitchToIoBuffers_consumed (stream_of n stream) w) as Hcons.
  destruct (Streams.SwitchToIoBuffers _ _) as [[[status got] s'] w']. cbn [snd] in Hcons.
  destruct (with_stream_keeps K 0 n stream s' w w' Hcons) as (Hc & Hlen & Hb).
  cbv zeta. set (n' := with_stream n stream s') in *.
  destruct (ok status).
  2: { cbn [fst snd]. split_all; try discriminate; try lia; auto. }
  destruct got.
  { cbn [fst snd]. split_all; try discriminate; try lia; auto. }
  pose proof (SpillPartition_candidates (n', w')) as Hsc.
  pose proof (SpillPartition_building K (n', w')) as Hsp.
  pose proof (SpillPartition_length (n', w')) as Hsl.
  destruct (SpillPartition (n', w')) as [[e|u] st'] eqn:Hs; cbn [fst snd] in *.
  - split_all; try discriminate; try lia; auto.
  - destruct (IH st') as (H1 & H2 & H3 & H4 & H5).
    split_all; try assumption; try lia; auto. intros Hlt. apply H1. lia.
Qed.

Abbreviation AppendSpilledRow :=
  (AggMore.AppendSpilledRow sizeof_Bucket HashTable_size HashTable_ByteSize bytes_in_mem).

Lemma add_row_run (stream : StreamRef) (n : AggNode) (w : World) :
  add_row stream (n, w) =
  let '(added, status, s', w') := Streams.AddRow (stream_of n stream) w in
  (inr (added, status), (with_stream n stream s', w')).
Proof.
  unfold add_row. unfold bind at 1. rewrite get_stream_run.
  unfold bind at 1. unfold get_world at 1. cbn [fst snd].
  destruct (Streams.AddRow _ _) as [[[added status] s'] w'].
  unfold bind at 1. unfold put_world at 1. cbn [fst snd].
  unfold bind at 1. rewrite put_stream_run. reflexivity.
Qed.

Lemma add_row_keeps (K : Z) (stream : StreamRef) (st : St) :
  let r := add_row stream st in
  (exists v, fst r = inr v) /\
  (candidates (fst (snd r)) = candidates (fst st))%nat /\
  length (hash_partitions_ (fst (snd r))) = length (hash_partitions_ (fst st)) /\
  (building K st -> building K (snd r)).
Proof.
  destruct st as [n w]. cbv zeta. rewrite add_row_run.
  pose proof (AddRow_consumed (stream_of n stream) w) as Hcons.
  destruct (Streams.AddRow _ _) as [[[added status] s'] w']. cbn [snd] in Hcons.
  destruct (with_stream_keeps K 0 n stream s' w w' Hcons) as (Hc & Hlen & Hb).
  cbn [fst snd]. split; [eauto|]. auto.
Qed.

Lemma AppendSpilledRow_unfold (fuel : nat) (stream : StreamRef) (st : St) :
  AppendSpilledRow fuel stream st =
  match add_row stream st with
  | (inl e, st1) => (inl e, st1)
  | (inr (true, _), st1) => (inr Returned, st1)
  | (inr (false, status), st1) =>
      if ok status then
        match switch_or_spill fuel stream st1 with
        | (inl e, st2) => (inl e, st2)
        | (inr Returned, st2) =>
            match add_row stream st2 with
            | (inl e, st3) => (inl e, st3)
            | (inr (true, _), st3) => (inr Returned, st3)
            | (inr (false, status'), st3) =>
                if ok status' then (inr Returned, st3) else (inl status', st3)
            end
        | (inr e, st2) => (inr e, st2)
        end
      else (inl status, st1)
  end.
Proof.
  unfold AggMore.AppendSpilledRow. unfold bind at 1.
  destruct (add_row stream st) as [[e|[[] status]] st1]; cbn [fst snd]; [reflexivity..|].
  unfold bind at 1. unfold check at 1. destruct (ok status); [|reflexivity].
  unfold ret at 1. unfold bind at 1.
  destruct (AggMore.switch_or_spill _ _ _ _ _ _ _) as [[e|[]] st2]; try reflexivity.
  unfold bind at 1.
  destruct (add_row stream st2) as [[e|[[] status']] st3]; cbn [fst snd]; [reflexivity..|].
  unfold bind, check, ret. destruct (ok status'); reflexivity.
Qed.

Lemma AppendSpilledRow_keeps (K : Z) (stream : StreamRef) (fuel : nat) (st : St) :
  let r := AppendSpilledRow fuel stream st in
  ((candidates (fst st) < fuel)%nat -> fst r <> inr FuelSpent) /\
  fst r <> inr Undefined /\
  (candidates (fst (snd r)) <= candidates (fst st))%nat /\
  length (hash_partitions_ (fst (snd r))) = length (hash_partitions_ (fst st)) /\
  (building K st -> building K (snd r)).
Proof.
  cbv zeta. rewrite AppendSpilledRow_unfold.
  destruct (add_row_keeps K stream st) as ([v Hv] & Hc & Hl & Hb).
  destruct (add_row stream st) as [[e|[added status]] st1]; cbn [fst snd] in *;
    [discriminate|].
  destruct added.
  { cbn [fst snd]. split_all; try discriminate; try lia; auto. }
  destruct (ok status).
  2: { cbn [fst snd]. split_all; try discriminate; try lia; auto. }
  destruct (switch_or_spill_ends K stream fuel st1) as (H1 & H2 & H3 & H4 & H5).
  destruct (switch_or_spill fuel stream st1) as [[e|[]] st2]; cbn [fst snd] in *;
    try congruence.
  - split_all; try discriminate; try lia; auto.
  - destruct (add_row_keeps K stream st2) as ([v' Hv'] & Hc' & Hl' & Hb').
    destruct (add_row stream st2) as [[e|[added' status']] st3]; cbn [fst snd] in *;
      [discriminate|].
    destruct added'.
    { cbn [fst snd]. split_all; try discriminate; try lia; auto. }
    destruct (ok status'); cbn [fst snd];
      split_all; try discriminate; try lia; auto.
  - split_all; try discriminate; try lia; auto. intros Hlt. apply H1. lia.
Qed.

(** *** Creating the partitions *)

(** A partition as [create_partition] leaves it. *)
Definition fresh (p : Partition) : Prop := hash_tbl p = None /\ is_closed p = false.

Lemma create_partition_effect (lvl : Z) (i : nat) (n : AggNode) (w : World) :
  let st' := snd (create_partition lvl i (n, w)) in
  exists p', hash_partitions_ (fst st') = hash_partitions_ n ++ [p'] /\ fresh p' /\
             consumed (snd st') = consumed w /\
             aggregated_partitions_ (fst st') = aggregated_partitions_ n /\
             spilled_partitions_ (fst st') = spilled_partitions_ n.
Proof.
  cbv zeta.
  unfold create_partition, Partition_InitStreams, bind, get_node, put_node, get_partition,
    put_partition, get_world, put_world, modify_node, check, ret, raise, Streams.Init, ask, ok.
  cbn [fst snd hash_partitions_ set_hash_partitions is_streaming_preagg_].
  rewrite list_lookup_middle by reflexivity. cbn [default option.from_option id].
  repeat (destruct_innermost; cbn [fst snd hash_partitions_ set_hash_partitions
                                    is_streaming_preagg_ negb]);
    cbn;
    rewrite ?insert_app_r_alt by lia; rewrite ?Nat.sub_diag; cbn;
    rewrite ?list_lookup_middle by reflexivity; cbn;
    rewrite ?insert_app_r_alt by lia; rewrite ?Nat.sub_diag; cbn;
    eexists; (split; [reflexivity|]); repeat split; reflexivity.
Qed.

Abbreviation create_hash_table :=
  (Agg.create_hash_table sizeof_Bucket FLAGS_enable_quadratic_probing HashTable_size).

(** The state when the second loop is done with partition [i]. *)
Definition note_hash_tbl (i : nat) (st : St) : St :=
  (set_hash_tbls (fst st)
     (<[ i := negb (is_spilled (default (new_Partition 0) (hash_partitions_ (fst st) !! i))) ]>
        (hash_tbls_ (fst st))),
   snd st).

Lemma create_hash_table_unfold (i : nat) (n : AggNode) (w : World) :
  create_hash_table i (n, w) =
  let p := default (new_Partition 0) (hash_partitions_ n !! i) in
  let '(b, ht', w') :=
    HashTbl.Init sizeof_Bucket
      (HashTbl.Create FLAGS_enable_quadratic_probing false
         (Z.shiftl 1 (32 - NUM_PARTITIONING_BITS)) PAGG_DEFAULT_HASH_TABLE_SZ) w in
  let n1 := set_hash_partitions n (<[ i := set_hash_tbl p (Some ht') ]> (hash_partitions_ n)) in
  if b then (inr tt, note_hash_tbl i (n1, w'))
  else if is_streaming_preagg_ n
       then (inl (MemLimitExceeded PreaggHashTableInit), (n1, SetMemLimitExceeded w'))
       else match Partition_Spill sizeof_Bucket HashTable_size i (n1, w') with
            | (inl e, st') => (inl e, st')
            | (inr _, st') => (inr tt, note_hash_tbl i st')
            end.
Proof.
  unfold Agg.create_hash_table, Partition_InitHashTable.
  unfold bind at 1. unfold bind at 1. unfold get_partition at 1. cbn [fst snd].
  unfold bind at 1. unfold get_world at 1. cbn [fst snd].
  cbv zeta.
  destruct (HashTbl.Init _ _ _) as [[b ht'] w'].
  unfold bind at 1. unfold put_world at 1. cbn [fst snd].
  unfold bind at 1. unfold put_partition at 1, modify_node at 1. cbn [fst snd].
  unfold ret at 1.
  unfold bind at 1. unfold get_node at 1. cbn [fst snd].
  unfold bind at 1.
  destruct b; cbn [negb].
  - unfold ret at 1. reflexivity.
  - cbn [is_streaming_preagg_ set_hash_partitions].
    destruct (is_streaming_preagg_ n).
    + reflexivity.
    + destruct (Partition_Spill _ _ _ _) as [[e|u] st']; reflexivity.
Qed.

Lemma charge_fresh (p : Partition) : fresh p -> charge p = 0.
Proof.
  intros [Hn Hc]. unfold charge, table_bytes. now rewrite Hn, Hc.
Qed.

Lemma building_frame (K : Z) (n n' : AggNode) (w w' : World) :
  hash_partitions_ n' = hash_partitions_ n ->
  aggregated_partitions_ n' = aggregated_partitions_ n ->
  spilled_partitions_ n' = spilled_partitions_ n ->
  consumed w' = consumed w ->
  building K (n, w) -> building K (n', w').
Proof.
  unfold building, held, all_open. cbn [fst snd].
  intros -> -> -> ->. auto.
Qed.

Definition created (K : Z) (k : nat) (st : St) : Prop :=
  building K st /\ length (hash_partitions_ (fst st)) = k /\
  Forall fresh (hash_partitions_ (fst st)).

Lemma create_partition_building (K : Z) (lvl : Z) (i k : nat) :
  triple (created K k) (create_partition lvl i)
         (fun _ => created K (S k)) (fun _ => building K).
Proof.
  intros [n w] ([HK Hopen] & Hlen & Hfresh). cbn [fst snd] in *.
  destruct (create_partition_effect lvl i n w) as (p' & Hl & Hp' & Hc & Ha & Hs).
  assert (Hb : building K (snd (create_partition lvl i (n, w)))).
  { split.
    - unfold held in *. rewrite Hl, Ha, Hs, Hc, charges_app. cbn [charges].
      rewrite (charge_fresh p' Hp'). lia.
    - unfold all_open. rewrite Hl. apply Forall_app. split; [exact Hopen|].
      constructor; [apply Hp'|constructor]. }
  destruct (create_partition lvl i (n, w)) as [[e|u] st']; cbn [fst snd] in *; [exact Hb|].
  split; [exact Hb|]. split.
  - rewrite Hl, length_app. cbn. lia.
  - rewrite Hl. apply Forall_app. split; [exact Hfresh|]. constructor; [exact Hp'|constructor].
Qed.

Lemma Init_accounting (ht : HashTable) (w : World) :
  let '(b, ht', w') := HashTbl.Init sizeof_Bucket ht w in
  consumed w' - bucket_bytes sizeof_Bucket ht' = consumed w.
Proof.
  unfold HashTbl.Init, ConsumeMemory, ask, bucket_bytes.
  assert (H0 : int64 (0 * sizeof_Bucket) = 0) by reflexivity.
  destruct (answers w (calls w));
    cbn [HashTbl.num_buckets_ HashTbl.set_buckets consumed add_consumed]; rewrite ?H0; lia.
Qed.

Definition tabled (K : Z) (k : nat) (st : St) : Prop :=
  building K st /\ length (hash_partitions_ (fst st)) = PARTITION_FANOUT /\
  forall j p, (k <= j)%nat -> hash_partitions_ (fst st) !! j = Some p -> fresh p.

Lemma create_hash_table_building (K : Z) (k : nat) :
  (k < PARTITION_FANOUT)%nat ->
  triple (tabled K k) (create_hash_table k) (fun _ => tabled K (S k)) (fun _ => building K).
Proof.
  intros Hk [n w] ([HK Hopen] & Hlen & Hfresh). cbn [fst snd] in *.
  assert (Hi : (k < length (hash_partitions_ n))%nat) by lia.
  destruct (lookup_lt_is_Some_2 _ _ Hi) as [p Hp].
  destruct (Hfresh k p (le_n _) Hp) as [Hnone Hcl].
  rewrite create_hash_table_unfold. cbv zeta. rewrite Hp. cbn [default option.from_option id].
  pose proof (Init_accounting
                (HashTbl.Create FLAGS_enable_quadratic_probing false
                   (Z.shiftl 1 (32 - NUM_PARTITIONING_BITS)) PAGG_DEFAULT_HASH_TABLE_SZ) w) as Hinit.
  destruct (HashTbl.Init _ _ _) as [[b ht'] w'].
  set (n1 := set_hash_partitions n _).
  assert (Hp1 : hash_partitions_ n1 !! k = Some (set_hash_tbl p (Some ht')))
    by (unfold n1; cbn; apply list_lookup_insert_eq; exact Hi).
  assert (Hb1 : building K (n1, w')).
  { split; cbn [fst snd].
    - unfold held, n1 in *. cbn [hash_partitions_ aggregated_partitions_
                                     spilled_partitions_ set_hash_partitions].
      rewrite (charges_insert _ k p _ Hp).
      rewrite (charge_fresh p (conj Hnone Hcl)).
      assert (charge (set_hash_tbl p (Some ht')) = bucket_bytes sizeof_Bucket ht').
      { unfold charge, table_bytes. cbn. now rewrite Hcl. }
      lia.
    - unfold all_open, n1. cbn. apply Forall_insert; [exact Hopen|exact Hcl]. }
  assert (Hlen1 : length (hash_partitions_ n1) = PARTITION_FANOUT)
    by (unfold n1; cbn; now rewrite length_insert).
  assert (Hfresh1 : forall j q, (S k <= j)%nat -> hash_partitions_ n1 !! j = Some q -> fresh q).
  { intros j q Hj Hq. unfold n1 in Hq. cbn in Hq.
    rewrite list_lookup_insert_ne in Hq by lia. apply (Hfresh j q); [lia|exact Hq]. }
  destruct b.
  - split; [|split]; [exact Hb1|exact Hlen1|exact Hfresh1].
  - destruct (is_streaming_preagg_ n).
    + revert Hb1. apply building_frame; reflexivity.
    + pose proof (Spill_building K k (n1, w') _ Hp1 Hb1) as Hsb.
      destruct (agg_Spill_effect sizeof_Bucket HashTable_size k n1 w' _ Hp1) as (Hl & _).
      destruct (Partition_Spill sizeof_Bucket HashTable_size k (n1, w')) as [[e|u] [n2 w2]];
        cbn [fst snd] in *; [exact Hsb|].
      split; [|split].
      * revert Hsb. apply building_frame; reflexivity.
      * cbn. rewrite Hl, length_insert. exact Hlen1.
      * intros j q Hj Hq. cbn in Hq. rewrite Hl in Hq.
        rewrite list_lookup_insert_ne in Hq by lia. apply (Hfresh1 j q Hj Hq).
Qed.

Abbreviation CreateHashPartitions :=
  (Agg.CreateHashPartitions sizeof_Bucket FLAGS_enable_quadratic_probing HashTable_size).

(** [CreateHashPartitions], called without hash partitions as its [DCHECK]
    asks, keeps the invariant whether it succeeds or fails. *)
Lemma CreateHashPartitions_building (K : Z) (lvl : Z) :
  triple (fun st => building K st /\ hash_partitions_ (fst st) = [])
         (CreateHashPartitions lvl)
         (fun _ => building K) (fun _ => building K).
Proof.
  unfold Agg.CreateHashPartitions.
  destruct (Seeds.MAX_PARTITION_DEPTH <=? lvl).
  { intros [n w] [Hb _]. cbn. revert Hb. apply building_frame; reflexivity. }
  eapply triple_bind.
  { apply triple_modify_node with (Q := fun _ => created K 0).
    intros [n w] [Hb Hl]. cbn [fst snd] in *. split; [|split].
    - revert Hb. apply building_frame; reflexivity.
    - cbn. now rewrite Hl.
    - cbn. rewrite Hl. constructor. }
  intros u. eapply triple_bind.
  { apply (for_each_triple (created K) (fun _ => building K)).
    intros k i _. apply create_partition_building. }
  intros u'. rewrite length_seq. eapply triple_bind.
  { eapply triple_conseq.
    - apply (for_each_triple (tabled K) (fun _ => building K)).
      intros k i Hk. apply lookup_seq in Hk as [-> Hk]. cbn [Nat.add].
      apply create_hash_table_building. exact Hk.
    - intros st (Hb & Hl & Hf). split; [exact Hb|]. split; [exact Hl|].
      intros j p _ Hj. eapply (proj1 (Forall_lookup _ _) Hf); eauto.
    - intros x st H. exact H.
    - auto. }
  intros u''. apply triple_get_node. intros n.
  apply triple_put_node. intros [n0 w] [(Hb & _) Hn]. cbn [fst snd] in *. subst n0.
  destruct (negb (is_streaming_preagg_ n)); revert Hb; apply building_frame; reflexivity.
Qed.

(** *** Moving and closing the partitions *)

Lemma Partition_Close_consumed (finalize_rows : bool) (p : Partition) (w : World) :
  consumed (snd (Partition_Close sizeof_Bucket finalize_rows p w)) = consumed w - charge p.
Proof.
  unfold Partition_Close, charge, table_bytes, bucket_bytes, HashTbl.Close, ReleaseMemory.
  destruct (is_closed p); cbn; [lia|].
  destruct (hash_tbl p) as [ht|]; cbn; [|lia].
  destruct (HashTbl.buckets_ ht); destruct (agg_fn_pool p); cbn; lia.
Qed.

Lemma Partition_Close_charge (finalize_rows : bool) (p : Partition) (w : World) :
  charge (fst (Partition_Close sizeof_Bucket finalize_rows p w)) = 0.
Proof.
  unfold Partition_Close, charge.
  destruct (is_closed p) eqn:Hc; cbn; [now rewrite Hc|].
  destruct (hash_tbl p) as [ht|]; cbn; destruct (agg_fn_pool p); reflexivity.
Qed.

(** The invariant while [MoveHashPartitions] is at partition [k]: the
    partitions before it have been closed or handed to one of the two
    lists. *)
Definition moving (K : Z) (N k : nat) (st : St) : Prop :=
  consumed (snd st)
  - (charges (drop k (hash_partitions_ (fst st))) + charges (aggregated_partitions_ (fst st))
     + charges (spilled_partitions_ (fst st))) = K /\
  length (hash_partitions_ (fst st)) = N.

Lemma UnpinStream_consumed (all : bool) (s : Stream) (w : World) :
  consumed (snd (Streams.UnpinStream all s w)) = consumed w.
Proof. unfold Streams.UnpinStream, ask. now destruct (answers w (calls w)). Qed.

Lemma move_partition_moving (K : Z) (N k : nat) :
  (k < N)%nat ->
  triple (moving K N k) (move_partition sizeof_Bucket k)
         (fun _ => moving K N (S k)) (fun _ _ => True).
Proof.
  intros HkN [n w] [HK Hlen]. cbn [fst snd] in *.
  assert (Hi : (k < length (hash_partitions_ n))%nat) by lia.
  destruct (lookup_lt_is_Some_2 _ _ Hi) as [p Hp].
  rewrite (charges_drop _ k p Hp) in HK.
  unfold move_partition, bind, get_partition, get_world, put_world, put_partition,
    modify_node, check, ret, raise. cbn [fst snd].
  rewrite Hp. cbn [default option.from_option id].
  destruct (_ =? 0).
  - pose proof (Partition_Close_consumed false p w) as Hc.
    pose proof (Partition_Close_charge false p w) as Hz.
    destruct (Partition_Close _ _ _ _) as [p' w']. cbn [fst snd] in *.
    split; cbn [fst snd hash_partitions_ aggregated_partitions_ spilled_partitions_
                set_hash_partitions]; [|now rewrite length_insert].
    rewrite drop_insert_lt by lia. lia.
  - destruct (is_spilled p) eqn:Hsp.
    + assert (Hp0 : charge p = 0).
      { unfold charge, table_bytes. unfold is_spilled in Hsp.
        destruct (hash_tbl p); [discriminate|]. now destruct (is_closed p). }
      pose proof (UnpinStream_consumed true
                    (default (Streams.new_stream true) (aggregated_row_stream p)) w) as Hc1.
      destruct (Streams.UnpinStream _ _ _) as [[s1 agg] w1]. cbn [fst snd] in *.
      destruct (ok s1); cbn [fst snd]; [|exact I].
      pose proof (UnpinStream_consumed true
                    (default (Streams.new_stream true)
                       (unaggregated_row_stream
                          (set_aggregated_row_stream p (Some agg)))) w1) as Hc2.
      destruct (Streams.UnpinStream _ _ _) as [[s2 unagg] w2]. cbn [fst snd] in *.
      destruct (ok s2); cbn [fst snd]; [|exact I].
      split; cbn [fst snd hash_partitions_ aggregated_partitions_ spilled_partitions_
                  set_hash_partitions set_spilled_partitions];
        [|now rewrite !length_insert].
      rewrite !drop_insert_lt by lia. cbn [charges].
      assert (Hp2 : charge (set_unaggregated_row_stream
                              (set_aggregated_row_stream p (Some agg)) (Some unagg)) = 0).
      { unfold charge, table_bytes in *. exact Hp0. }
      rewrite Hp2. lia.
    + split; cbn [fst snd hash_partitions_ aggregated_partitions_ spilled_partitions_
                  set_aggregated_partitions]; [|exact Hlen].
      rewrite charges_app. cbn [charges]. lia.
Qed.

(** When [MoveHashPartitions] returns OK no hash partition is left and the
    invariant holds. *)
Lemma MoveHashPartitions_building (K : Z) (num_input_rows : Z) :
  triple (fun st => consumed (snd st) - held (fst st) = K)
         (MoveHashPartitions sizeof_Bucket num_input_rows)
         (fun _ st => building K st /\ hash_partitions_ (fst st) = [])
         (fun _ _ => True).
Proof.
  unfold MoveHashPartitions. apply triple_get_node. intros n.
  eapply triple_bind.
  { eapply triple_conseq.
    - apply (for_each_triple (moving K (length (hash_partitions_ n))) (fun _ _ => True)).
      intros k i Hk. apply lookup_seq in Hk as [-> Hk]. cbn [Nat.add].
      apply move_partition_moving. exact Hk.
    - intros [n0 w] [HK Hn]. cbn [fst snd] in *. subst n0. split; [|reflexivity].
      cbn [fst snd]. rewrite drop_0. exact HK.
    - intros x st H. exact H.
    - auto. }
  intros u. rewrite length_seq. apply triple_modify_node.
  intros [n1 w1] [HK Hlen]. cbn [fst snd] in *.
  rewrite <- Hlen, drop_all in HK. cbn [charges] in HK.
  split; [|reflexivity]. split; [|constructor].
  cbn. unfold held. cbn. lia.
Qed.

Lemma close_each_consumed (l : list Partition) :
  forall w, consumed (close_each sizeof_Bucket l w) = consumed w - charges l.
Proof.
  induction l as [|p l IH]; intros w; cbn [close_each charges]; [lia|].
  rewrite IH, Partition_Close_consumed. lia.
Qed.

(** [ClosePartitions] releases what the partitions hold. *)
Lemma ClosePartitions_consumed (st : St) :
  consumed (snd (ClosePartitions sizeof_Bucket st)) = consumed (snd st) - held (fst st).
Proof.
  unfold ClosePartitions, held. cbn [snd]. rewrite !close_each_consumed. lia.
Qed.

Abbreviation call :=
  (AggMore.call sizeof_Bucket Probe HashTable_size HashTable_ByteSize bytes_in_mem).
Abbreviation call_each :=
  (AggMore.call_each sizeof_Bucket Probe HashTable_size HashTable_ByteSize bytes_in_mem).

Lemma call_building (K : Z) (c : Call) (st : St) :
  building K st -> building K (snd (call c st)).
Proof.
  intros Hb. destruct c as [|fuel num_rows|fuel stream]; cbn [AggMore.call].
  - unfold bind, ret. pose proof (SpillPartition_building K st Hb) as H.
    destruct (SpillPartition st) as [[e|u] st']; exact H.
  - unfold AggMore.CheckAndResizeHashPartitions.
    destruct (resize_or_spill_each_ends K num_rows fuel (seq 0 PARTITION_FANOUT) st
                (NoDup_seq _ _)) as (_ & _ & H & _).
    exact (H Hb).
  - destruct (AppendSpilledRow_keeps K stream fuel st) as (_ & _ & _ & _ & H).
    exact (H Hb).
Qed.

Lemma call_each_building (K : Z) (l : list Call) :
  forall st, building K st -> building K (snd (call_each l st)).
Proof.
  induction l as [|c l IH]; intros st Hb; [exact Hb|].
  cbn [AggMore.call_each]. unfold bind.
  pose proof (call_building K c st Hb) as Hc.
  destruct (call c st) as [[e|[]] st']; cbn [fst snd] in *; auto.
Qed.

End AggAccounting.

(** Let every hash table of the node have a power of two below [2^63] for
    bucket count and a demand, with [num_rows >= 0] more entries, below
    [2^53]. Then, with more fuel than there are open partitions with a hash
    table, [CheckAndResizeHashPartitions] returns: the loops are left
    before the fuel is spent, each round that does not leave a loop
    spilling one more partition, and no call of [CheckAndResize] meets a
    shift that is not defined. The hash tables stay in that range, and
    when the function returns OK every partition has been spilled or has a
    hash table that takes [num_rows] more entries within the fill factor. *)
Theorem CheckAndResizeHashPartitions_ends (sizeof_Bucket : Z)
    (Probe : list HashTbl.Bucket -> Z -> Z -> Z)
    (HashTable_size HashTable_ByteSize : HashTbl.HashTable -> Z)
    (bytes_in_mem : bool -> Streams.Stream -> Z)
    (fuel : nat) (num_rows : Z) (n : Agg.AggNode) (w : Runtime.World) :
  length (Agg.hash_partitions_ n) = Agg.PARTITION_FANOUT ->
  (candidates n < fuel)%nat ->
  0 <= num_rows ->
  Forall (well_sized num_rows) (Agg.hash_partitions_ n) ->
  let r := AggMore.CheckAndResizeHashPartitions sizeof_Bucket Probe HashTable_size
             HashTable_ByteSize bytes_in_mem fuel num_rows (n, w) in
  fst r <> inr AggMore.FuelSpent /\ fst r <> inr AggMore.Undefined /\
  (candidates (fst (snd r)) <= candidates n)%nat /\
  Forall (well_sized num_rows) (Agg.hash_partitions_ (fst (snd r))) /\
  (fst r = inr AggMore.Returned ->
   Forall (has_room num_rows) (Agg.hash_partitions_ (fst (snd r)))).
Proof.
  intros Hlen Hlt Hrows Hall. cbv zeta. unfold AggMore.CheckAndResizeHashPartitions.
  destruct (resize_or_spill_each_ends sizeof_Bucket Probe HashTable_size HashTable_ByteSize
              bytes_in_mem 0 num_rows fuel (seq 0 Agg.PARTITION_FANOUT) (n, w)
              (NoDup_seq _ _)) as (H1 & H2 & _ & _ & H5).
  destruct (resize_or_spill_each_defined sizeof_Bucket Probe HashTable_size HashTable_ByteSize
              bytes_in_mem num_rows fuel Hrows (seq 0 Agg.PARTITION_FANOUT) (n, w) Hall)
    as (Hdef & Hsized).
  split; [exact (H1 Hlt)|]. split; [exact Hdef|]. split; [exact H2|].
  split; [exact Hsized|].
  intros Hret. apply Forall_lookup. intros i p Hp.
  apply (H5 Hret i); [|exact Hp].
  apply elem_of_seq. split; [lia|].
  apply lookup_lt_Some in Hp.
  rewrite (resize_or_spill_each_length sizeof_Bucket Probe HashTable_size HashTable_ByteSize
             bytes_in_mem) in Hp.
  cbn [fst] in Hp. lia.
Qed.

(** Sixteen open partitions with hash tables of 1024 buckets, and
    collaborators that grant the first request and refuse the others. *)
Definition example_resident_agg_partition : Agg.Partition :=
  Agg.mkPartition 0 false (Some (example_table 1024 false)) [] (Some 0)
                  (Some (example_stream 0)) (Some (example_stream 0)).

Definition example_building_node : Agg.AggNode :=
  Agg.mkAggNode false false false 0 (-1) 0 (replicate 16 example_resident_agg_partition)
    (replicate 16 true) [] [] None (fun _ => 0) 0 0 false.

Definition example_one_grant_world : Runtime.World :=
  Runtime.mkWorld (fun k => if (k <? 1)%nat then Runtime.Yes else Runtime.No)
    0 (16 * 1024 * 16) 0 0 false.

Lemma CheckAndResizeHashPartitions_ends_witness :
  let r := AggMore.CheckAndResizeHashPartitions 16 (fun _ _ h => h) (fun _ => 0)
             example_byte_size (fun _ _ => 0) 17 800
             (example_building_node, example_one_grant_world) in
  fst r = inr AggMore.Returned /\
  Forall (has_room 800) (Agg.hash_partitions_ (fst (snd r))) /\
  Forall (fun p => Agg.is_spilled p = true) (Agg.hash_partitions_ (fst (snd r))).
Proof.
  cbv zeta.
  assert (E : fst (AggMore.CheckAndResizeHashPartitions 16 (fun _ _ h => h) (fun _ => 0)
                     example_byte_size (fun _ _ => 0) 17 800
                     (example_building_node, example_one_grant_world))
              = inr AggMore.Returned) by (vm_compute; reflexivity).
  split; [exact E|]. split.
  - refine (proj2 (proj2 (proj2 (proj2
              (CheckAndResizeHashPartitions_ends 16 (fun _ _ h => h) (fun _ => 0)
                 example_byte_size (fun _ _ => 0) 17 800
                 example_building_node example_one_grant_world _ _ _ _)))) E).
    + reflexivity.
    + vm_compute. lia.
    + lia.
    + repeat constructor; cbn; lia.
  - vm_compute. repeat constructor.
Defined.

(** With more fuel than there are open partitions with a hash table, the
    loop of [AppendSpilledRow] is left before the fuel is spent, for the
    same reason; the function neither adds nor removes a partition and
    makes none a candidate for spilling that was not one. *)
Theorem AppendSpilledRow_ends (sizeof_Bucket : Z)
    (HashTable_size HashTable_ByteSize : HashTbl.HashTable -> Z)
    (bytes_in_mem : bool -> Streams.Stream -> Z)
    (fuel : nat) (stream : AggMore.StreamRef) (n : Agg.AggNode) (w : Runtime.World) :
  (candidates n < fuel)%nat ->
  let r := AggMore.AppendSpilledRow sizeof_Bucket HashTable_size HashTable_ByteSize
             bytes_in_mem fuel stream (n, w) in
  fst r <> inr AggMore.FuelSpent /\ fst r <> inr AggMore.Undefined /\
  (candidates (fst (snd r)) <= candidates n)%nat /\
  length (Agg.hash_partitions_ (fst (snd r))) = length (Agg.hash_partitions_ n).
Proof.
  intros Hlt. cbv zeta.
  destruct (AppendSpilledRow_keeps sizeof_Bucket HashTable_size HashTable_ByteSize
              bytes_in_mem 0 stream fuel (n, w)) as (H1 & H2 & H3 & H4 & _).
  split; [exact (H1 Hlt)|]. split; [exact H2|]. split; [exact H3|exact H4].
Qed.

(** The stream declines the row, then declines twice to switch to I/O
    buffers, so that two partitions are spilled before the row is added. *)
Definition example_declining_world : Runtime.World :=
  Runtime.mkWorld (fun k => if (k <? 5)%nat then Runtime.No else Runtime.Yes)
    0 (16 * 1024 * 16) 0 0 false.

Lemma AppendSpilledRow_ends_witness :
  let r := AggMore.AppendSpilledRow 16 (fun _ => 0) example_byte_size (fun _ _ => 0) 17
             (AggMore.UnaggregatedStream 0)
             (example_building_node, example_declining_world) in
  candidates example_building_node = 16%nat /\
  fst r = inr AggMore.Returned /\
  candidates (fst (snd r)) = 14%nat /\
  length (Agg.hash_partitions_ (fst (snd r))) = 16%nat.
Proof.
  cbv zeta. split; [reflexivity|]. split; [vm_compute; reflexivity|].
  split; [vm_compute; reflexivity|].
  refine (proj2 (proj2 (proj2 (AppendSpilledRow_ends 16 (fun _ => 0) example_byte_size
                                 (fun _ _ => 0) 17 (AggMore.UnaggregatedStream 0)
                                 example_building_node example_declining_world _)))).
  vm_compute. lia.
Defined.

(** An aggregation gives back the memory of its hash tables. From a node
    without hash partitions, let [CreateHashPartitions] run and then any
    calls of [SpillPartition], [CheckAndResizeHashPartitions] and
    [AppendSpilledRow], up to the first that fails, whatever the
    collaborators answer: [ClosePartitions] then leaves the client's
    consumption at what it was before, less what the partitions queued in
    the node held for their hash tables. The same holds when
    [MoveHashPartitions] has returned OK in between, after which no hash
    partition is left. *)
Theorem aggregation_gives_back_its_hash_tables (sizeof_Bucket : Z)
    (Probe : list HashTbl.Bucket -> Z -> Z -> Z) (FLAGS_enable_quadratic_probing : bool)
    (HashTable_size HashTable_ByteSize : HashTbl.HashTable -> Z)
    (bytes_in_mem : bool -> Streams.Stream -> Z)
    (lvl : Z) (cs : list AggMore.Call) (num_input_rows : Z)
    (n : Agg.AggNode) (w : Runtime.World) :
  Agg.hash_partitions_ n = [] ->
  let K := Runtime.consumed w - held sizeof_Bucket n in
  let built :=
    (Agg.CreateHashPartitions sizeof_Bucket FLAGS_enable_quadratic_probing HashTable_size lvl ;;;
     AggMore.call_each sizeof_Bucket Probe HashTable_size HashTable_ByteSize bytes_in_mem cs)
      (n, w) in
  Runtime.consumed (snd (AggMore.ClosePartitions sizeof_Bucket (snd built))) = K /\
  (forall st2,
     fst built = inr AggMore.Returned ->
     Agg.MoveHashPartitions sizeof_Bucket num_input_rows (snd built) = (inr tt, st2) ->
     Agg.hash_partitions_ (fst st2) = [] /\
     Runtime.consumed (snd (AggMore.ClosePartitions sizeof_Bucket st2)) = K).
Proof.
  intros Hnil K built.
  assert (Hb0 : building sizeof_Bucket K (n, w) /\ Agg.hash_partitions_ (fst (n, w)) = []).
  { split; [|exact Hnil]. split; [reflexivity|].
    unfold all_open. cbn. rewrite Hnil. constructor. }
  pose proof (CreateHashPartitions_building sizeof_Bucket FLAGS_enable_quadratic_probing
                HashTable_size K lvl (n, w) Hb0) as Hc.
  assert (Hb : building sizeof_Bucket K (snd built)).
  { unfold built, Runtime.bind.
    destruct (Agg.CreateHashPartitions _ _ _ _ _) as [[e|u] st1]; [exact Hc|].
    apply call_each_building. exact Hc. }
  clearbody built. split.
  - rewrite ClosePartitions_consumed. apply Hb.
  - intros st2 _ Hm.
    pose proof (MoveHashPartitions_building sizeof_Bucket K num_input_rows (snd built)
                  (proj1 Hb)) as Ht.
    rewrite Hm in Ht. destruct Ht as [Hb2 Hn2].
    split; [exact Hn2|]. rewrite ClosePartitions_consumed. apply Hb2.
Qed.

Lemma aggregation_gives_back_its_hash_tables_witness :
  let cs := [AggMore.CallCheckAndResizeHashPartitions 17 800; AggMore.CallSpillPartition;
             AggMore.CallAppendSpilledRow 17 (AggMore.UnaggregatedStream 1)] in
  let built :=
    (Agg.CreateHashPartitions 16 true (fun _ => 0) 1 ;;;
     AggMore.call_each 16 (fun _ _ h => h) (fun _ => 0) example_byte_size (fun _ _ => 0) cs)
      (example_agg_node, example_world Runtime.Yes) in
  fst built = inr AggMore.Returned /\
  Runtime.consumed (snd (snd built))
  = Runtime.consumed (example_world Runtime.Yes) + 15 * 2048 * 16 /\
  Runtime.consumed (snd (AggMore.ClosePartitions 16 (snd built)))
  = Runtime.consumed (example_world Runtime.Yes).
Proof.
  cbv zeta. split; [vm_compute; reflexivity|]. split; [vm_compute; reflexivity|].
  exact (proj1 (aggregation_gives_back_its_hash_tables 16 (fun _ _ h => h) true (fun _ => 0)
                  example_byte_size (fun _ _ => 0) 1
                  [AggMore.CallCheckAndResizeHashPartitions 17 800; AggMore.CallSpillPartition;
                   AggMore.CallAppendSpilledRow 17 (AggMore.UnaggregatedStream 1)]
                  0 example_agg_node (example_world Runtime.Yes) eq_refl)).
Defined.

(** ** Spilling a partition of the join *)

Section JoinSpillEffect.
Import Runtime Join.

Variable sizeof_Bucket : Z.
Variable HashTable_ByteSize : HashTable -> Z.
Variable bytes_in_mem : bool -> Stream -> Z.

(** The bytes the bucket array of a partition holds at the block manager. *)
Definition join_table_bytes (p : Partition) : Z :=
  match hash_tbl_ p with
  | Some ht => bucket_bytes sizeof_Bucket ht
  | None => 0
  end.

(** [put_partition] as a function of the node. *)
Definition put_ref (r : PartitionRef) (p : Partition) (n : JoinNode) : JoinNode :=
  match r with
  | HashPartition i => set_hash_partitions n (<[ i := p ]> (hash_partitions_ n))
  | InputPartition => set_input_partition n (Some p)
  end.

Definition get_ref (r : PartitionRef) (n : JoinNode) : Partition :=
  default (new_Partition 0)
    match r with
    | HashPartition i => hash_partitions_ n !! i
    | InputPartition => input_partition_ n
    end.

(** [Spill], step by step. *)
Lemma join_Spill_unfold (r : PartitionRef) (unpin_all_build : bool) (n : JoinNode) (w : World) :
  Partition_Spill sizeof_Bucket r unpin_all_build (n, w) =
  let p := get_ref r n in
  let w1 := match hash_tbl_ p with
            | Some ht => snd (HashTbl.Close sizeof_Bucket ht w)
            | None => w
            end in
  let p1 := set_hash_tbl p None in
  let build := default (Streams.new_stream true) (build_rows_ p) in
  let '(s1, got_buffer, build1, w2) :=
    if Streams.using_small_buffers build then Streams.SwitchToIoBuffers build w1
    else (OK, true, build, w1) in
  let n1 := put_ref r (set_build_rows p1 (Some build1)) (put_ref r p1 n) in
  if ok s1 then
    let '(s2, build2, w3) := Streams.UnpinStream unpin_all_build build1 w2 in
    let p2 := set_build_rows p1 (Some build2) in
    let n2 := put_ref r p2 n1 in
    if ok s2 then
      let probe := default (Streams.new_stream true) (probe_rows_ p) in
      let '(s3, got_buffer', probe1, w4) :=
        if got_buffer && Streams.using_small_buffers probe
        then Streams.SwitchToIoBuffers probe w3
        else (OK, got_buffer, probe, w3) in
      let p3 := set_probe_rows p2 (Some probe1) in
      let n3 := put_ref r p3 n2 in
      if ok s3 then
        (inr tt,
         (put_ref r (set_is_spilled p3 true)
            (if is_spilled_ p then n3 else COUNTER_ADD SpilledPartitions 1 n3), w4))
      else (inl s3, (n3, w4))
    else (inl s2, (n2, w3))
  else (inl s1, (n1, w2)).
Proof.
  unfold Join.Partition_Spill, get_ref.
  unfold bind at 1. unfold get_partition at 1. cbn [fst snd].
  unfold bind at 1. unfold get_world at 1. cbn [fst snd].
  cbv zeta.
  set (p := default (new_Partition 0) _).
  destruct (hash_tbl_ p) as [ht|] eqn:Hht.
  - unfold bind at 1. unfold put_world at 1. cbn [fst snd].
    unfold bind at 1. unfold put_partition at 1, modify_node at 1. cbn [fst snd].
    cbn [build_rows_ set_hash_tbl].
    destruct (if Streams.using_small_buffers _ then _ else _) as [[[s1 got] build1] w2].
    unfold bind at 1. unfold put_world at 1. cbn [fst snd].
    unfold bind at 1. unfold put_partition at 1, modify_node at 1. cbn [fst snd].
    unfold bind at 1. unfold check at 1.
    destruct (ok s1); [|reflexivity]. unfold ret at 1.
    destruct (Streams.UnpinStream _ _ _) as [[s2 build2] w3].
    unfold bind at 1. unfold put_world at 1. cbn [fst snd].
    unfold bind at 1. unfold put_partition at 1, modify_node at 1. cbn [fst snd].
    unfold bind at 1. unfold check at 1.
    destruct (ok s2); [|reflexivity]. unfold ret at 1.
    cbn [probe_rows_ set_build_rows set_hash_tbl].
    destruct (if got && _ then _ else _) as [[[s3 got'] probe1] w4].
    unfold bind at 1. unfold put_world at 1. cbn [fst snd].
    unfold bind at 1. unfold put_partition at 1, modify_node at 1. cbn [fst snd].
    unfold bind at 1. unfold check at 1.
    destruct (ok s3); [|reflexivity]. unfold ret at 1.
    unfold bind at 1.
    cbn [is_spilled_ set_probe_rows set_build_rows set_hash_tbl].
    destruct (is_spilled_ p); cbn [negb]; reflexivity.
  - assert (Hp1 : set_hash_tbl p None = p).
    { destruct p; cbn in *. now subst. }
    rewrite Hp1.
    unfold bind at 1. unfold put_world at 1. cbn [fst snd].
    unfold bind at 1. unfold put_partition at 1, modify_node at 1. cbn [fst snd].
    destruct (if Streams.using_small_buffers _ then _ else _) as [[[s1 got] build1] w2].
    unfold bind at 1. unfold put_world at 1. cbn [fst snd].
    unfold bind at 1. unfold put_partition at 1, modify_node at 1. cbn [fst snd].
    unfold bind at 1. unfold check at 1.
    destruct (ok s1); [|reflexivity]. unfold ret at 1.
    destruct (Streams.UnpinStream _ _ _) as [[s2 build2] w3].
    unfold bind at 1. unfold put_world at 1. cbn [fst snd].
    unfold bind at 1. unfold put_partition at 1, modify_node at 1. cbn [fst snd].
    unfold bind at 1. unfold check at 1.
    destruct (ok s2); [|reflexivity]. unfold ret at 1.
    cbn [probe_rows_ set_build_rows set_hash_tbl].
    destruct (if got && _ then _ else _) as [[[s3 got'] probe1] w4].
    unfold bind at 1. unfold put_world at 1. cbn [fst snd].
    unfold bind at 1. unfold put_partition at 1, modify_node at 1. cbn [fst snd].
    unfold bind at 1. unfold check at 1.
    destruct (ok s3); [|reflexivity]. unfold ret at 1.
    unfold bind at 1.
    cbn [is_spilled_ set_probe_rows set_build_rows set_hash_tbl].
    destruct (is_spilled_ p); cbn [negb]; reflexivity.
Qed.

Lemma SwitchToIoBuffers_rows (s : Stream) (w : World) :
  let '(status, got_buffer, s', w') := Streams.SwitchToIoBuffers s w in
  Streams.num_rows s' = Streams.num_rows s /\ consumed w' = consumed w /\
  (got_buffer = true -> Streams.using_small_buffers s' = false) /\
  (got_buffer = false -> s' = s).
Proof.
  unfold Streams.SwitchToIoBuffers, ask.
  destruct (answers w (calls w)); cbn; repeat split; auto; discriminate.
Qed.

Lemma UnpinStream_rows (all : bool) (s : Stream) (w : World) :
  let '(status, s', w') := Streams.UnpinStream all s w in
  Streams.num_rows s' = Streams.num_rows s /\ consumed w' = consumed w /\
  Streams.using_small_buffers s' = Streams.using_small_buffers s.
Proof.
  unfold Streams.UnpinStream, ask.
  destruct (answers w (calls w)); cbn; repeat split; auto.
Qed.

(** The partition a reference points at. *)
Definition points_at (r : PartitionRef) (n : JoinNode) (p : Partition) : Prop :=
  match r with
  | HashPartition k => hash_partitions_ n !! k = Some p
  | InputPartition => input_partition_ n = Some p
  end.

(** What [Spill] does to the partition and to the surroundings, whether it
    succeeds or fails: the hash table is released, the rows of the two
    streams stay, and the counter of spilled partitions moves only when
    the call succeeds on a partition that was not spilled. *)
Lemma join_Spill_effect_at (r : PartitionRef) (unpin_all_build : bool) (n : JoinNode)
    (w : World) (p : Partition) :
  points_at r n p ->
  let res := Partition_Spill sizeof_Bucket r unpin_all_build (n, w) in
  let p' := get_ref r (fst (snd res)) in
  points_at r (fst (snd res)) p' /\
  hash_partitions_ (fst (snd res))
  = match r with
    | HashPartition k => <[ k := p' ]> (hash_partitions_ n)
    | InputPartition => hash_partitions_ n
    end /\
  hash_tbl_ p' = None /\ is_closed_ p' = is_closed_ p /\ level_ p' = level_ p /\
  stream_rows (build_rows_ p') = stream_rows (build_rows_ p) /\
  stream_rows (probe_rows_ p') = stream_rows (probe_rows_ p) /\
  consumed (snd (snd res)) = consumed w - join_table_bytes p /\
  spilled_partitions_ (fst (snd res)) = spilled_partitions_ n /\
  match fst res with
  | inr _ =>
      is_spilled_ p' = true /\
      counters_ (fst (snd res)) SpilledPartitions
      = counters_ n SpilledPartitions + (if is_spilled_ p then 0 else 1)
  | inl e =>
      ok e = false /\ is_spilled_ p' = is_spilled_ p /\
      counters_ (fst (snd res)) SpilledPartitions = counters_ n SpilledPartitions
  end.
Proof.
  clear HashTable_ByteSize bytes_in_mem. intros Hp.
  assert (Hg : get_ref r n = p).
  { unfold get_ref. destruct r; cbn in Hp; now rewrite Hp. }
  assert (Hk : match r with
               | HashPartition k => (k < length (hash_partitions_ n))%nat
               | InputPartition => True
               end).
  { destruct r; [eapply lookup_lt_Some; eauto|exact I]. }
  cbv zeta. rewrite join_Spill_unfold. cbv zeta. rewrite Hg.
  assert (Hw1 : consumed match hash_tbl_ p with
                         | Some ht => snd (HashTbl.Close sizeof_Bucket ht w)
                         | None => w
                         end = consumed w - join_table_bytes p).
  { unfold join_table_bytes, HashTbl.Close, ReleaseMemory, bucket_bytes.
    destruct (hash_tbl_ p) as [ht|]; [|lia].
    cbn. destruct (HashTbl.buckets_ ht); cbn; lia. }
  set (w1 := match hash_tbl_ p with Some _ => _ | None => _ end) in *. clearbody w1.
  set (build := default (Streams.new_stream true) (build_rows_ p)).
  set (probe := default (Streams.new_stream true) (probe_rows_ p)).
  assert (Hbuild : Streams.num_rows build = stream_rows (build_rows_ p))
    by (unfold build, stream_rows; destruct (build_rows_ p); auto).
  assert (H1 : let '(s1, got, build1, w2) :=
                 if Streams.using_small_buffers build then Streams.SwitchToIoBuffers build w1
                 else (OK, true, build, w1) in
               Streams.num_rows build1 = Streams.num_rows build /\ consumed w2 = consumed w1).
  { destruct (Streams.using_small_buffers build); [|auto].
    pose proof (SwitchToIoBuffers_rows build w1) as H.
    destruct (Streams.SwitchToIoBuffers build w1) as [[[? ?] ?] ?]. tauto. }
  destruct (if Streams.using_small_buffers build then _ else _) as [[[s1 got] build1] w2].
  destruct H1 as [Hr1 Hc1].
  assert (Hprobe : Streams.num_rows probe = stream_rows (probe_rows_ p))
    by (unfold probe, stream_rows; destruct (probe_rows_ p); auto).
  destruct (ok s1) eqn:Hok1.
  2: { destruct r as [k|]; unfold points_at, get_ref;
         cbn [fst snd put_ref hash_partitions_ set_hash_partitions spilled_partitions_
              input_partition_ set_input_partition counters_];
         rewrite ?list_insert_insert_eq, ?list_lookup_insert_eq by exact Hk;
         cbn; unfold stream_rows in *; cbn;
         repeat split; try reflexivity; try assumption; try lia. }
  pose proof (UnpinStream_rows unpin_all_build build1 w2) as H2.
  destruct (Streams.UnpinStream unpin_all_build build1 w2) as [[s2 build2] w3].
  destruct H2 as (Hr2 & Hc2 & _).
  destruct (ok s2) eqn:Hok2.
  2: { destruct r as [k|]; unfold points_at, get_ref;
         cbn [fst snd put_ref hash_partitions_ set_hash_partitions spilled_partitions_
              input_partition_ set_input_partition counters_];
         rewrite ?list_insert_insert_eq, ?list_lookup_insert_eq by exact Hk;
         cbn; unfold stream_rows in *; cbn;
         repeat split; try reflexivity; try assumption; try lia. }
  assert (H3 : let '(s3, got', probe1, w4) :=
                 if got && Streams.using_small_buffers probe
                 then Streams.SwitchToIoBuffers probe w3
                 else (OK, got, probe, w3) in
               Streams.num_rows probe1 = Streams.num_rows probe /\ consumed w4 = consumed w3).
  { destruct (got && Streams.using_small_buffers probe); [|auto].
    pose proof (SwitchToIoBuffers_rows probe w3) as H.
    destruct (Streams.SwitchToIoBuffers probe w3) as [[[? ?] ?] ?]. tauto. }
  destruct (if got && Streams.using_small_buffers probe then _ else _)
    as [[[s3 got'] probe1] w4].
  destruct H3 as [Hr3 Hc3].
  destruct (ok s3) eqn:Hok3.
  2: { destruct r as [k|]; unfold points_at, get_ref;
         cbn [fst snd put_ref hash_partitions_ set_hash_partitions spilled_partitions_
              input_partition_ set_input_partition counters_];
         rewrite ?list_insert_insert_eq, ?list_lookup_insert_eq by exact Hk;
         cbn; unfold stream_rows in *; cbn;
         repeat split; try reflexivity; try assumption; try lia. }
  destruct (is_spilled_ p) eqn:Hsp; destruct r as [k|]; unfold points_at, get_ref;
    cbn [fst snd put_ref hash_partitions_ set_hash_partitions spilled_partitions_
         input_partition_ set_input_partition counters_ COUNTER_ADD set_counters];
    rewrite ?list_insert_insert_eq, ?list_lookup_insert_eq by exact Hk;
    cbn; unfold stream_rows in *; cbn; repeat split; try reflexivity; try lia.
Qed.

Lemma join_Spill_effect (k : nat) (unpin_all_build : bool) (n : JoinNode) (w : World)
    (p : Partition) :
  hash_partitions_ n !! k = Some p ->
  let r := Partition_Spill sizeof_Bucket (HashPartition k) unpin_all_build (n, w) in
  let p' := default (new_Partition 0) (hash_partitions_ (fst (snd r)) !! k) in
  hash_partitions_ (fst (snd r)) = <[ k := p' ]> (hash_partitions_ n) /\
  hash_tbl_ p' = None /\ is_closed_ p' = is_closed_ p /\ level_ p' = level_ p /\
  stream_rows (build_rows_ p') = stream_rows (build_rows_ p) /\
  stream_rows (probe_rows_ p') = stream_rows (probe_rows_ p) /\
  consumed (snd (snd r)) = consumed w - join_table_bytes p /\
  spilled_partitions_ (fst (snd r)) = spilled_partitions_ n /\
  match fst r with
  | inr _ =>
      is_spilled_ p' = true /\
      counters_ (fst (snd r)) SpilledPartitions
      = counters_ n SpilledPartitions + (if is_spilled_ p then 0 else 1)
  | inl e =>
      ok e = false /\ is_spilled_ p' = is_spilled_ p /\
      counters_ (fst (snd r)) SpilledPartitions = counters_ n SpilledPartitions
  end.
Proof.
  clear HashTable_ByteSize bytes_in_mem. intros Hp.
  destruct (join_Spill_effect_at (HashPartition k) unpin_all_build n w p Hp)
    as (_ & H1 & H2 & H3 & H4 & H5 & H6 & H7 & H8 & H9).
  repeat split; assumption.
Qed.

(** The partitions [SpillPartition] can choose from. *)
Definition join_candidates (n : JoinNode) : nat :=
  length (List.filter join_candidate (hash_partitions_ n)).

Lemma join_filter_insert_drops (l : list Partition) :
  forall (k : nat) (p p' : Partition),
    l !! k = Some p -> join_candidate p = true -> join_candidate p' = false ->
    S (length (List.filter join_candidate (<[ k := p' ]> l)))
    = length (List.filter join_candidate l).
Proof.
  induction l as [|q l IH]; intros k p p' Hk Hp Hp'; [discriminate|].
  destruct k as [|k].
  - cbn in *. inversion Hk; subst. rewrite Hp, Hp'. reflexivity.
  - change (<[ S k := p' ]> (q :: l)) with (q :: <[ k := p' ]> l).
    cbn [List.filter]. destruct (join_candidate q); cbn [length];
      rewrite <- (IH k p p' Hk Hp Hp'); reflexivity.
Qed.

Lemma join_filter_insert_same (l : list Partition) :
  forall (k : nat) (p p' : Partition),
    l !! k = Some p -> join_candidate p' = join_candidate p ->
    length (List.filter join_candidate (<[ k := p' ]> l))
    = length (List.filter join_candidate l).
Proof.
  induction l as [|q l IH]; intros k p p' Hk Hp; [discriminate|].
  destruct k as [|k].
  - cbn in *. inversion Hk; subst. rewrite Hp. now destruct (join_candidate p).
  - change (<[ S k := p' ]> (q :: l)) with (q :: <[ k := p' ]> l).
    cbn [List.filter]. destruct (join_candidate q); cbn [length];
      rewrite (IH k p p' Hk Hp); reflexivity.
Qed.

Lemma join_filter_insert_le (l : list Partition) :
  forall (k : nat) (p p' : Partition),
    l !! k = Some p -> (join_candidate p' = true -> join_candidate p = true) ->
    (length (List.filter join_candidate (<[ k := p' ]> l))
     <= length (List.filter join_candidate l))%nat.
Proof.
  induction l as [|q l IH]; intros k p p' Hk Hp; [discriminate|].
  destruct k as [|k].
  - cbn in *. inversion Hk; subst.
    destruct (join_candidate p'); [rewrite (Hp eq_refl); reflexivity|].
    destruct (join_candidate p); cbn; lia.
  - change (<[ S k := p' ]> (q :: l)) with (q :: <[ k := p' ]> l).
    cbn [List.filter]. pose proof (IH k p p' Hk Hp).
    destruct (join_candidate q); cbn [length]; lia.
Qed.

Abbreviation SpillPartition :=
  (Join.SpillPartition sizeof_Bucket HashTable_ByteSize bytes_in_mem).

(** What the join's [SpillPartition] leaves behind. When it returns OK the
    partition it names has been spilled, was a candidate before and is none
    now, and the others are as they were. *)
Lemma join_SpillPartition_summary (st : St) :
  let r := SpillPartition st in
  length (hash_partitions_ (fst (snd r))) = length (hash_partitions_ (fst st)) /\
  (forall j p', hash_partitions_ (fst (snd r)) !! j = Some p' ->
     exists p, hash_partitions_ (fst st) !! j = Some p /\
               stream_rows (build_rows_ p') = stream_rows (build_rows_ p) /\
               stream_rows (probe_rows_ p') = stream_rows (probe_rows_ p) /\
               is_closed_ p' = is_closed_ p) /\
  match fst r with
  | inr k =>
      S (join_candidates (fst (snd r))) = join_candidates (fst st) /\
      (exists p', hash_partitions_ (fst (snd r)) !! k = Some p' /\
                  is_spilled_ p' = true /\ is_closed_ p' = false) /\
      (forall j, j <> k ->
         hash_partitions_ (fst (snd r)) !! j = hash_partitions_ (fst st) !! j)
  | inl e =>
      ok e = false /\ (join_candidates (fst (snd r)) <= join_candidates (fst st))%nat
  end.
Proof.
  destruct st as [n w]. cbv zeta. cbn [fst snd].
  destruct (join_SpillPartition_outcome sizeof_Bucket HashTable_ByteSize bytes_in_mem n w)
    as (_ & Hnone & Hsome).
  destruct (Z.eq_dec (Join.SpillPartition_pick HashTable_ByteSize bytes_in_mem
                        (hash_partitions_ n) 0 0 (-1)) (-1)) as [Heq|Hne].
  { rewrite (Hnone Heq). cbn [fst snd]. split; [reflexivity|]. split; [|split; [reflexivity|lia]].
    intros j p' Hj. exists p'. auto. }
  destruct (Hsome Hne) as (k & p & Hr & Hk & Hcand & _ & _ & _ & _ & _).
  rewrite join_SpillPartition_unfold. cbv zeta. rewrite Hr.
  replace (Z.of_nat k =? -1) with false by (symmetry; apply Z.eqb_neq; lia).
  rewrite Nat2Z.id.
  destruct (join_Spill_effect k false n w p Hk)
    as (Hl & Hnone' & Hcl & _ & Hbr & Hpr & _ & _ & Hout).
  assert (Hlen : (k < length (hash_partitions_ n))%nat) by (eapply lookup_lt_Some; eauto).
  assert (Hclp : is_closed_ p = false).
  { unfold join_candidate in Hcand. destruct (is_closed_ p); [discriminate|reflexivity]. }
  destruct (Partition_Spill sizeof_Bucket (HashPartition k) false (n, w)) as [[e|[]] [n' w']];
    cbn [fst snd] in *;
    set (p' := default (new_Partition 0) (hash_partitions_ n' !! k)) in *.
  - split; [rewrite Hl; apply length_insert|]. split.
    + intros j q Hj. rewrite Hl in Hj. destruct (decide (j = k)) as [->|Hjk].
      * rewrite list_lookup_insert_eq in Hj by exact Hlen. inversion Hj; subst q.
        exists p. auto.
      * rewrite list_lookup_insert_ne in Hj by congruence. exists q. auto.
    + split; [apply Hout|]. unfold join_candidates. rewrite Hl.
      apply (join_filter_insert_le _ k p p' Hk). intros _. exact Hcand.
  - destruct Hout as [Hsp _].
    split; [cbn; rewrite Hl; apply length_insert|]. split; [|split; [|split]].
    + intros j q Hj. cbn in Hj. rewrite Hl in Hj. destruct (decide (j = k)) as [->|Hjk].
      * rewrite list_lookup_insert_eq in Hj by exact Hlen. inversion Hj; subst q.
        exists p. auto.
      * rewrite list_lookup_insert_ne in Hj by congruence. exists q. auto.
    + unfold join_candidates. cbn. rewrite Hl.
      apply (join_filter_insert_drops _ k p p' Hk Hcand).
      unfold join_candidate. rewrite Hsp. now rewrite andb_false_r.
    + exists p'. cbn. rewrite Hl. split; [apply list_lookup_insert_eq; exact Hlen|].
      split; [exact Hsp|congruence].
    + intros j Hj. cbn. rewrite Hl. apply list_lookup_insert_ne. congruence.
Qed.

End JoinSpillEffect.

(** ** What [SpillPartition] returns *)


Section AggSpillOutcome.
Import Runtime Agg.

Variable sizeof_Bucket : Z.
Variable HashTable_size : HashTable -> Z.
Variable HashTable_ByteSize : HashTable -> Z.
Variable bytes_in_mem : bool -> Stream -> Z.

Local Abbreviation pick := (Agg.SpillPartition_pick HashTable_ByteSize bytes_in_mem).
Local Abbreviation mem := (Agg.spill_mem HashTable_ByteSize bytes_in_mem).
Local Abbreviation Spill := (Agg.Partition_Spill sizeof_Bucket HashTable_size).
Local Abbreviation SpillPartition :=
  (Agg.SpillPartition sizeof_Bucket HashTable_size HashTable_ByteSize bytes_in_mem).








End AggSpillOutcome.

Section JoinSpillOutcome.
Import Runtime Join.

Variable sizeof_Bucket : Z.
Variable HashTable_ByteSize : HashTable -> Z.
Variable bytes_in_mem : bool -> Stream -> Z.

Local Abbreviation pick := (Join.SpillPartition_pick HashTable_ByteSize bytes_in_mem).
Local Abbreviation Spill := (Join.Partition_Spill sizeof_Bucket).
Local Abbreviation SpillPartition :=
  (Join.SpillPartition sizeof_Bucket HashTable_ByteSize bytes_in_mem).




End JoinSpillOutcome.

(** In the aggregation the error is not reserved to the case without
    candidate: a node that has to serialize its intermediate values, one
    open partition with a hash table of one tuple and an aggregated stream
    of one row, and a stream that declines the serialized row. The
    partition is chosen, [SerializeStreamForSpilling] fails to add the row
    and [SpillPartition] returns the error, the hash table closed. *)
Definition example_serializing_node : Agg.AggNode :=
  Agg.mkAggNode false true false 0 (-1) 0
    [Agg.mkPartition 0 false (Some (example_table 1024 false)) [] (Some 0)
                     (Some (example_stream 1)) (Some (example_stream 0))]
    [true] [] [] (Some (Streams.new_stream false)) (fun _ => 0) 0 0 false.

Lemma agg_spill_too_low_with_candidate :
  Agg.SpillPartition_pick example_byte_size (fun _ _ => 0)
    (Agg.hash_partitions_ example_serializing_node) 0 0 (-1) = 0 /\
  fst (Agg.SpillPartition 16 (fun _ => 1) example_byte_size (fun _ _ => 0)
         (example_serializing_node, example_world Runtime.No))
  = inl Runtime.MemLimitTooLowError /\
  Forall (fun p => Agg.is_spilled p = true)
    (Agg.hash_partitions_
       (fst (snd (Agg.SpillPartition 16 (fun _ => 1) example_byte_size (fun _ _ => 0)
                    (example_serializing_node, example_world Runtime.No))))).
Proof. vm_compute. repeat split. repeat constructor. Qed.


(** ** Appending to a stream that is full *)

Section JoinAppendFacts.
Import Runtime Join JoinMore.

Variable sizeof_Bucket : Z.
Variable HashTable_ByteSize : HashTable -> Z.
Variable bytes_in_mem : bool -> Stream -> Z.

Definition stream_index (r : StreamRef) : nat :=
  match r with BuildRows i | ProbeRows i => i end.

(** The rows of the stream a reference points at. *)
Definition rows_of (n : JoinNode) (r : StreamRef) : Z := Streams.num_rows (stream_of n r).

Lemma rows_of_lookup (n : JoinNode) (r : StreamRef) (p : Partition) :
  hash_partitions_ n !! stream_index r = Some p ->
  rows_of n r = stream_rows match r with
                            | BuildRows _ => build_rows_ p
                            | ProbeRows _ => probe_rows_ p
                            end.
Proof.
  intros Hp. unfold rows_of, stream_of, stream_rows.
  destruct r as [i|i]; cbn in Hp; rewrite Hp; cbn.
  - destruct (build_rows_ p); reflexivity.
  - destruct (probe_rows_ p); reflexivity.
Qed.

(** Writing a stream back changes only that stream. *)
Lemma join_with_stream_keeps (n : JoinNode) (r : StreamRef) (s : Stream) :
  (stream_index r < length (hash_partitions_ n))%nat ->
  stream_of (with_stream n r s) r = s /\
  length (hash_partitions_ (with_stream n r s)) = length (hash_partitions_ n) /\
  join_candidates (with_stream n r s) = join_candidates n.
Proof.
  intros Hv. destruct (lookup_lt_is_Some_2 _ _ Hv) as [p Hp].
  destruct r as [i|i]; cbn in Hv, Hp; unfold stream_of, with_stream, join_candidates;
    cbn [hash_partitions_ set_hash_partitions]; rewrite Hp;
    cbn [default option.from_option id];
    rewrite list_lookup_insert_eq by exact Hv; cbn;
    (split; [reflexivity|]); (split; [apply length_insert|]);
    apply (join_filter_insert_same _ i p); [exact Hp|reflexivity|exact Hp|reflexivity].
Qed.

(** [AddRow] through a reference: the stream has one more row exactly when
    the row was added, and then the status is OK. *)
Lemma join_add_row_spec (stream : StreamRef) (n : JoinNode) (w : World) :
  (stream_index stream < length (hash_partitions_ n))%nat ->
  let '(added, status, st') := add_row stream (n, w) in
  length (hash_partitions_ (fst st')) = length (hash_partitions_ n) /\
  join_candidates (fst st') = join_candidates n /\
  rows_of (fst st') stream = rows_of n stream + (if added then 1 else 0) /\
  (added = true -> ok status = true).
Proof.
  intros Hv. unfold add_row. cbn [fst snd].
  destruct (Streams.AddRow (stream_of n stream) w) as [[[added status] s'] w'] eqn:Ha.
  destruct (join_with_stream_keeps n stream s' Hv) as (Hs & Hl & Hc).
  cbn [fst]. unfold rows_of. rewrite Hs, Hl, Hc.
  unfold Streams.AddRow, ask in Ha.
  destruct (answers w (calls w)); inversion Ha; subst; cbn;
    repeat split; auto; try lia; discriminate.
Qed.

Lemma join_switch_and_add_spec (stream : StreamRef) (status : Status)
    (n : JoinNode) (w : World) :
  (stream_index stream < length (hash_partitions_ n))%nat ->
  let '(returned, status1, st1) := switch_and_add stream status (n, w) in
  length (hash_partitions_ (fst st1)) = length (hash_partitions_ n) /\
  join_candidates (fst st1) = join_candidates n /\
  match returned with
  | Some true => ok status1 = true /\ rows_of (fst st1) stream = rows_of n stream + 1
  | Some false => ok status1 = false /\ rows_of (fst st1) stream = rows_of n stream
  | None => rows_of (fst st1) stream = rows_of n stream
  end.
Proof.
  intros Hv. unfold switch_and_add. cbn [fst snd].
  destruct (Streams.using_small_buffers (stream_of n stream)); [|auto].
  pose proof (SwitchToIoBuffers_rows (stream_of n stream) w) as Hsw.
  destruct (Streams.SwitchToIoBuffers (stream_of n stream) w) as [[[status1 got] s1] w1].
  destruct Hsw as (Hr & _).
  destruct (join_with_stream_keeps n stream s1 Hv) as (Hs & Hl & Hc).
  assert (Hrows : rows_of (with_stream n stream s1) stream = rows_of n stream)
    by (unfold rows_of; now rewrite Hs).
  destruct (ok status1) eqn:Hok; cbn [negb].
  2: { cbn [fst]. auto. }
  destruct got; [|cbn [fst]; auto].
  assert (Hv1 : (stream_index stream < length (hash_partitions_ (with_stream n stream s1)))%nat)
    by (rewrite Hl; exact Hv).
  pose proof (join_add_row_spec stream (with_stream n stream s1) w1 Hv1) as Ha.
  destruct (add_row stream (with_stream n stream s1, w1)) as [[added status2] st2].
  destruct Ha as (Hl2 & Hc2 & Hr2 & Hok2).
  destruct added.
  - split; [congruence|]. split; [congruence|]. split; [auto|]. lia.
  - destruct (ok status2) eqn:Hok2'; cbn [negb];
      (split; [congruence|]); (split; [congruence|]); try split; try assumption; lia.
Qed.

Lemma join_SpillPartition_rows (stream : StreamRef) (st : St) :
  (stream_index stream < length (hash_partitions_ (fst st)))%nat ->
  rows_of (fst (snd (Join.SpillPartition sizeof_Bucket HashTable_ByteSize bytes_in_mem st)))
          stream
  = rows_of (fst st) stream.
Proof.
  intros Hv.
  destruct (join_SpillPartition_summary sizeof_Bucket HashTable_ByteSize bytes_in_mem st)
    as (Hl & Hrows & _).
  set (st' := snd (Join.SpillPartition _ _ _ st)) in *.
  assert (Hv' : (stream_index stream < length (hash_partitions_ (fst st')))%nat) by lia.
  destruct (lookup_lt_is_Some_2 _ _ Hv') as [p' Hp'].
  destruct (Hrows _ _ Hp') as (p & Hp & Hb & Hpr & _).
  rewrite (rows_of_lookup _ _ p' Hp'), (rows_of_lookup _ _ p Hp).
  destruct stream; assumption.
Qed.

Lemma join_spill_and_add_spec (stream : StreamRef) (n : JoinNode) (w : World) :
  (stream_index stream < length (hash_partitions_ n))%nat ->
  let '(returned, status2, st2) :=
    spill_and_add sizeof_Bucket HashTable_ByteSize bytes_in_mem stream (n, w) in
  length (hash_partitions_ (fst st2)) = length (hash_partitions_ n) /\
  match returned with
  | Some true =>
      ok status2 = true /\ rows_of (fst st2) stream = rows_of n stream + 1 /\
      (join_candidates (fst st2) <= join_candidates n)%nat
  | Some false =>
      ok status2 = false /\ rows_of (fst st2) stream = rows_of n stream /\
      (join_candidates (fst st2) <= join_candidates n)%nat
  | None =>
      rows_of (fst st2) stream = rows_of n stream /\
      S (join_candidates (fst st2)) = join_candidates n
  end.
Proof.
  intros Hv. unfold spill_and_add.
  pose proof (join_SpillPartition_rows stream (n, w) Hv) as Hrows.
  destruct (join_SpillPartition_summary sizeof_Bucket HashTable_ByteSize bytes_in_mem (n, w))
    as (Hl & _ & Hout).
  destruct (Join.SpillPartition _ _ _ (n, w)) as [[e|k] [n1 w1]]; cbn [fst snd] in *.
  - destruct Hout as [Hok Hc]. auto.
  - destruct Hout as (Hc & _).
    assert (Hv1 : (stream_index stream < length (hash_partitions_ n1))%nat) by lia.
    pose proof (join_add_row_spec stream n1 w1 Hv1) as Ha.
    destruct (add_row stream (n1, w1)) as [[added status2] st2].
    destruct Ha as (Hl2 & Hc2 & Hr2 & Hok2).
    destruct added; cbn [fst]; (split; [congruence|]).
    + split; [auto|]. split; lia.
    + split; lia.
Qed.

Abbreviation AppendRowStreamFull :=
  (JoinMore.AppendRowStreamFull sizeof_Bucket HashTable_ByteSize bytes_in_mem).

Lemma AppendRowStreamFull_spec (stream : StreamRef) :
  forall (fuel : nat) (status : Status) (n : JoinNode) (w : World),
    (stream_index stream < length (hash_partitions_ n))%nat ->
    (join_candidates n < fuel)%nat ->
    let '(returned, status', st') := AppendRowStreamFull fuel stream status (n, w) in
    length (hash_partitions_ (fst st')) = length (hash_partitions_ n) /\
    (join_candidates (fst st') <= join_candidates n)%nat /\
    match returned with
    | Some true =>
        ok status = true /\ ok status' = true /\
        rows_of (fst st') stream = rows_of n stream + 1
    | Some false => ok status' = false /\ rows_of (fst st') stream = rows_of n stream
    | None => False
    end.
Proof.
  induction fuel as [|fuel IH]; intros status n w Hv Hlt; [lia|].
  cbn [JoinMore.AppendRowStreamFull].
  destruct (ok status) eqn:Hok; cbn [negb].
  2: { cbn [fst]. auto. }
  pose proof (join_switch_and_add_spec stream status n w Hv) as H1.
  destruct (switch_and_add stream status (n, w)) as [[[b|] status1] [n1 w1]];
    cbn [fst snd] in *.
  { destruct H1 as (Hl1 & Hc1 & Hb). split; [exact Hl1|]. split; [lia|].
    destruct b; tauto. }
  destruct H1 as (Hl1 & Hc1 & Hr1).
  assert (Hv1 : (stream_index stream < length (hash_partitions_ n1))%nat) by lia.
  pose proof (join_spill_and_add_spec stream n1 w1 Hv1) as H2.
  destruct (spill_and_add _ _ _ stream (n1, w1)) as [[[b|] status2] [n2 w2]];
    cbn [fst snd] in *.
  { destruct H2 as (Hl2 & Hb). split; [congruence|].
    destruct b; (split; [lia|]); repeat split; try tauto; lia. }
  destruct H2 as (Hl2 & Hr2 & Hc2).
  assert (Hv2 : (stream_index stream < length (hash_partitions_ n2))%nat) by lia.
  assert (Hlt2 : (join_candidates n2 < fuel)%nat) by lia.
  specialize (IH status2 n2 w2 Hv2 Hlt2).
  destruct (AppendRowStreamFull fuel stream status2 (n2, w2)) as [[returned status'] st'].
  destruct IH as (Hl3 & Hc3 & Hret).
  split; [congruence|]. split; [lia|].
  destruct returned as [[|]|]; [| |exact Hret].
  - destruct Hret as (_ & Hok' & Hrows). repeat split; auto. lia.
  - destruct Hret as (Hok' & Hrows). split; [exact Hok'|]. lia.
Qed.

End JoinAppendFacts.

(** [AppendRowStreamFull] returns, after at most as many rounds as there
    are partitions the join can still spill plus one. It returns [true]
    exactly when it has appended the row, once, leaving an OK status; when
    it returns [false] the stream has the rows it had and the status is an
    error: the one it was given, the stream's, or that of a [SpillPartition]
    that found nothing to spill. *)
Theorem AppendRowStreamFull_appends_or_fails (sizeof_Bucket : Z)
    (HashTable_ByteSize : HashTbl.HashTable -> Z)
    (bytes_in_mem : bool -> Streams.Stream -> Z)
    (fuel : nat) (stream : JoinMore.StreamRef) (status : Runtime.Status)
    (n : Join.JoinNode) (w : Runtime.World) :
  (stream_index stream < length (Join.hash_partitions_ n))%nat ->
  (join_candidates n < fuel)%nat ->
  let '(returned, status', st') :=
    JoinMore.AppendRowStreamFull sizeof_Bucket HashTable_ByteSize bytes_in_mem
      fuel stream status (n, w) in
  match returned with
  | Some true =>
      Runtime.ok status = true /\ Runtime.ok status' = true /\
      rows_of (fst st') stream = rows_of n stream + 1
  | Some false =>
      Runtime.ok status' = false /\ rows_of (fst st') stream = rows_of n stream
  | None => False
  end.
Proof.
  intros Hv Hlt.
  pose proof (AppendRowStreamFull_spec sizeof_Bucket HashTable_ByteSize bytes_in_mem
                stream fuel status n w Hv Hlt) as H.
  destruct (JoinMore.AppendRowStreamFull _ _ _ _ _ _ _) as [[returned status'] st'].
  apply H.
Qed.

(** ** Reserving IO buffers for the spilled partitions *)

Section JoinBuildFacts.
Import Runtime Join JoinMore.

Variable sizeof_Bucket : Z.
Variable HashTable_ByteSize : HashTable -> Z.
Variable bytes_in_mem : bool -> Stream -> Z.
Variable Partition_BuildHashTable : nat -> Exec St bool.

Lemma put_ref_length (r : PartitionRef) (p : Partition) (n : JoinNode) :
  length (hash_partitions_ (put_ref r p n)) = length (hash_partitions_ n).
Proof. destruct r; cbn; [apply length_insert|reflexivity]. Qed.

Lemma join_Spill_length (r : PartitionRef) (unpin_all_build : bool) (st : St) :
  length (hash_partitions_ (fst (snd (Partition_Spill sizeof_Bucket r unpin_all_build st))))
  = length (hash_partitions_ (fst st)).
Proof.
  destruct st as [n w]. rewrite join_Spill_unfold. cbv zeta.
  destruct (if Streams.using_small_buffers _ then _ else _) as [[[s1 got] build1] w2].
  destruct (ok s1); [|cbn [fst snd]; rewrite !put_ref_length; reflexivity].
  destruct (Streams.UnpinStream _ _ _) as [[s2 build2] w3].
  destruct (ok s2); [|cbn [fst snd]; rewrite !put_ref_length; reflexivity].
  destruct (if got && _ then _ else _) as [[[s3 got'] probe1] w4].
  destruct (ok s3); [|cbn [fst snd]; rewrite !put_ref_length; reflexivity].
  cbn [fst snd]. destruct (is_spilled_ _); rewrite put_ref_length;
    unfold COUNTER_ADD; cbn [set_counters hash_partitions_];
    rewrite !put_ref_length; reflexivity.
Qed.

Lemma join_for_each_triple (Inv : nat -> St -> Prop) (E : Status -> St -> Prop)
    (body : nat -> Exec St unit) (l : list nat) :
  (forall k i, l !! k = Some i -> triple (Inv k) (body i) (fun _ => Inv (S k)) E) ->
  triple (Inv O) (JoinMore.for_each l body) (fun _ => Inv (length l)) E.
Proof.
  revert Inv. induction l as [|i l' IH]; intros Inv H.
  - apply triple_ret. auto.
  - cbn [JoinMore.for_each length]. eapply triple_bind.
    + apply (H O i). reflexivity.
    + intros u. apply (IH (fun k => Inv (S k))).
      intros k j Hk. apply (H (S k) j). exact Hk.
Qed.

Hypothesis BuildHashTable_length :
  forall i st,
    length (hash_partitions_ (fst (snd (Partition_BuildHashTable i st))))
    = length (hash_partitions_ (fst st)).

Lemma Partition_Close_partitions (batch : option RowBatch) (p : Partition) (n : JoinNode)
    (w : World) :
  hash_partitions_ (snd (fst (Partition_Close sizeof_Bucket batch p n w)))
  = hash_partitions_ n.
Proof.
  unfold Partition_Close. destruct (is_closed_ p); [reflexivity|].
  cbn. destruct (hash_tbl_ p); reflexivity.
Qed.

Lemma build_or_spill_length (N i : nat) :
  triple (fun st => length (hash_partitions_ (fst st)) = N)
         (build_or_spill sizeof_Bucket Partition_BuildHashTable i)
         (fun _ st => length (hash_partitions_ (fst st)) = N) (fun _ _ => True).
Proof.
  intros [n w] Hl. cbn [fst] in Hl.
  unfold build_or_spill. unfold bind at 1. unfold get_partition at 1. cbn [fst snd].
  destruct (_ =? 0).
  - unfold bind, get_node, get_world. cbn [fst snd].
    pose proof (Partition_Close_partitions None
                  (default (new_Partition 0) (hash_partitions_ n !! i)) n w) as Hc.
    destruct (Partition_Close _ _ _ _ _) as [[[p' b'] n'] w']. cbn [fst snd] in Hc.
    cbn. rewrite length_insert, Hc. exact Hl.
  - destruct (negb _); [|exact Hl].
    unfold bind.
    pose proof (BuildHashTable_length i (n, w)) as Hb.
    destruct (Partition_BuildHashTable i (n, w)) as [[e|built] st1]; [exact I|].
    cbn [fst snd] in Hb.
    destruct built; cbn [negb]; [cbn; congruence|].
    pose proof (join_Spill_length (HashPartition i) true st1) as Hs.
    destruct (Partition_Spill _ _ _ st1) as [[e|u] st2]; [exact I|].
    cbn [fst snd] in *. congruence.
Qed.

(** Every partition that still needs an IO buffer is on the list. *)
Definition listed (spilled_partitions : list nat) (st : St) : Prop :=
  forall i p, hash_partitions_ (fst st) !! i = Some p -> needs_io_buffer p = true ->
              i ∈ spilled_partitions.

Lemma collect_listed (ps : list Partition) :
  forall (k i : nat) (p : Partition),
    ps !! i = Some p -> needs_io_buffer p = true -> (k + i)%nat ∈ collect ps k.
Proof.
  induction ps as [|q ps IH]; intros k i p Hi Hn; [discriminate|].
  destruct i as [|i]; cbn in Hi.
  - inversion Hi; subst q. cbn [collect]. rewrite Hn. rewrite Nat.add_0_r. left.
  - cbn [collect]. replace (k + S i)%nat with (S k + i)%nat by lia.
    destruct (needs_io_buffer q); [right|]; eapply IH; eauto.
Qed.

Lemma collect_length (ps : list Partition) :
  forall k, (length (collect ps k) <= length ps)%nat.
Proof.
  induction ps as [|q ps IH]; intros k; cbn [collect length]; [lia|].
  specialize (IH (S k)). destruct (needs_io_buffer q); cbn [length]; lia.
Qed.

Lemma join_candidates_le (n : JoinNode) :
  (join_candidates n <= length (hash_partitions_ n))%nat.
Proof.
  unfold join_candidates. induction (hash_partitions_ n) as [|q l IH]; cbn; [lia|].
  destruct (join_candidate q); cbn; lia.
Qed.

Abbreviation reserve_io_buffers :=
  (JoinMore.reserve_io_buffers sizeof_Bucket HashTable_ByteSize bytes_in_mem).

Lemma reserve_io_buffers_unfold (fuel : nat) (partition : nat) (rest : list nat)
    (n : JoinNode) (w : World) :
  reserve_io_buffers (S fuel) (partition :: rest) (n, w) =
  let p := default (new_Partition 0) (hash_partitions_ n !! partition) in
  let '(status, got_buffer, probe', w') := Streams.SwitchToIoBuffers (probe_of p) w in
  let n1 := set_hash_partitions n
              (<[ partition := set_probe_rows p (Some probe') ]> (hash_partitions_ n)) in
  if ok status then
    if got_buffer then reserve_io_buffers fuel rest (n1, w')
    else
      match Join.SpillPartition sizeof_Bucket HashTable_ByteSize bytes_in_mem (n1, w') with
      | (inl e, st2) => (inl e, st2)
      | (inr k, st2) =>
          reserve_io_buffers fuel
            (partition ::
               if Streams.using_small_buffers
                    (probe_of (default (new_Partition 0) (hash_partitions_ (fst st2) !! k)))
               then rest ++ [k] else rest) st2
      end
  else (inl status, (n1, w')).
Proof.
  cbn [JoinMore.reserve_io_buffers].
  unfold bind at 1. unfold get_partition at 1. cbn [fst snd].
  unfold bind at 1. unfold get_world at 1. cbn [fst snd].
  cbv zeta.
  destruct (Streams.SwitchToIoBuffers _ _) as [[[status got] probe'] w'].
  unfold bind at 1. unfold put_world at 1. cbn [fst snd].
  unfold bind at 1. unfold put_partition at 1, modify_node at 1. cbn [fst snd].
  unfold bind at 1. unfold check at 1.
  destruct (ok status); [|reflexivity]. unfold ret at 1.
  destruct got; [reflexivity|].
  unfold bind at 1.
  destruct (Join.SpillPartition _ _ _ _) as [[e|k] st2]; [reflexivity|].
  unfold bind at 1. unfold get_partition at 1. cbn [fst snd]. destruct st2; reflexivity.
Qed.

Lemma needs_io_buffer_set_probe (p : Partition) (s : Stream) :
  needs_io_buffer (set_probe_rows p (Some s))
  = negb (is_closed_ p) && (is_spilled_ p && Streams.using_small_buffers s).
Proof. reflexivity. Qed.

(** The probe stream of [hash_partitions_[partition]] is replaced. *)
Lemma set_probe_keeps (n : JoinNode) (partition : nat) (s : Stream) :
  let p := default (new_Partition 0) (hash_partitions_ n !! partition) in
  let n1 := set_hash_partitions n
              (<[ partition := set_probe_rows p (Some s) ]> (hash_partitions_ n)) in
  length (hash_partitions_ n1) = length (hash_partitions_ n) /\
  join_candidates n1 = join_candidates n /\
  (forall i q, hash_partitions_ n1 !! i = Some q ->
     (i = partition /\ q = set_probe_rows p (Some s) /\ hash_partitions_ n !! i = Some p)
     \/ (i <> partition /\ hash_partitions_ n !! i = Some q)).
Proof.
  cbv zeta. cbn [hash_partitions_ set_hash_partitions].
  split; [apply length_insert|].
  destruct (hash_partitions_ n !! partition) as [p|] eqn:Hp; cbn [default option.from_option id].
  - assert (Hv : (partition < length (hash_partitions_ n))%nat)
      by (eapply lookup_lt_Some; eauto).
    split.
    + unfold join_candidates. cbn. apply (join_filter_insert_same _ partition p); auto.
    + intros i q Hq. destruct (decide (i = partition)) as [->|Hne].
      * rewrite list_lookup_insert_eq in Hq by exact Hv. inversion Hq. left. auto.
      * rewrite list_lookup_insert_ne in Hq by congruence. right. auto.
  - rewrite list_insert_ge by (apply lookup_ge_None; exact Hp).
    split; [reflexivity|]. intros i q Hq. right. split; [|exact Hq].
    intros ->. congruence.
Qed.

(** The loop ends when there is fuel for two rounds per partition that can
    still be spilled and one per listed partition; when it returns OK no
    open spilled partition is left whose probe stream uses small buffers. *)
Lemma reserve_io_buffers_spec :
  forall (fuel : nat) (spilled_partitions : list nat) (st : St),
    listed spilled_partitions st ->
    (2 * join_candidates (fst st) + length spilled_partitions < fuel)%nat ->
    let r := reserve_io_buffers fuel spilled_partitions st in
    fst r <> inr FuelSpent /\ fst r <> inr Undefined /\
    length (hash_partitions_ (fst (snd r))) = length (hash_partitions_ (fst st)) /\
    (fst r = inr Returned ->
     Forall (fun p => needs_io_buffer p = false) (hash_partitions_ (fst (snd r)))).
Proof.
  induction fuel as [|fuel IH]; intros wl [n w] Hlisted Hm; [lia|].
  destruct wl as [|partition rest].
  { cbn. split; [discriminate|]. split; [discriminate|]. split; [reflexivity|].
    intros _. apply Forall_lookup. intros i p Hp.
    destruct (needs_io_buffer p) eqn:Hn; [|reflexivity].
    specialize (Hlisted i p Hp Hn). inversion Hlisted. }
  cbv zeta. rewrite reserve_io_buffers_unfold. cbv zeta. cbn [fst snd] in *.
  set (p := default (new_Partition 0) (hash_partitions_ n !! partition)).
  pose proof (SwitchToIoBuffers_rows (probe_of p) w) as Hsw.
  destruct (Streams.SwitchToIoBuffers (probe_of p) w) as [[[status got] probe'] w'].
  destruct Hsw as (_ & _ & Hgot & Hnot).
  destruct (set_probe_keeps n partition probe') as (Hl1 & Hc1 & Hlook1).
  fold p in Hl1, Hc1, Hlook1.
  set (n1 := set_hash_partitions n _) in *.
  destruct (ok status).
  2: { cbn [fst snd]. split; [discriminate|]. split; [discriminate|].
       split; [exact Hl1|discriminate]. }
  destruct got.
  - assert (Hlisted1 : listed rest (n1, w')).
    { intros i q Hq Hn. cbn [fst] in Hq.
      destruct (Hlook1 i q Hq) as [(-> & -> & _)|(Hne & Hq')].
      - rewrite needs_io_buffer_set_probe, (Hgot eq_refl) in Hn.
        rewrite !andb_false_r in Hn. discriminate.
      - specialize (Hlisted i q Hq' Hn). apply elem_of_cons in Hlisted as [->|Hin];
          [contradiction|exact Hin]. }
    assert (Hm1 : (2 * join_candidates (fst (n1, w')) + length rest < fuel)%nat)
      by (cbn [fst length] in *; lia).
    destruct (IH rest (n1, w') Hlisted1 Hm1) as (H1 & H2 & H3 & H4).
    cbn [fst] in H3. split; [exact H1|]. split; [exact H2|]. split; [lia|exact H4].
  - rewrite (Hnot eq_refl) in *.
    assert (Hlisted1 : listed (partition :: rest) (n1, w')).
    { intros i q Hq Hn. cbn [fst] in Hq.
      destruct (Hlook1 i q Hq) as [(-> & _)|(Hne & Hq')]; [left|].
      exact (Hlisted i q Hq' Hn). }
    destruct (join_SpillPartition_summary sizeof_Bucket HashTable_ByteSize bytes_in_mem (n1, w'))
      as (Hl2 & _ & Hout).
    destruct (Join.SpillPartition _ _ _ (n1, w')) as [[e|k] [n2 w2]]; cbn [fst snd] in *.
    { split; [discriminate|]. split; [discriminate|]. split; [lia|discriminate]. }
    destruct Hout as (Hc2 & (pk & Hpk & _) & Hframe).
    remember (partition :: if Streams.using_small_buffers _ then rest ++ [k] else rest)
      as wl' eqn:Hwl.
    assert (Hlisted2 : listed wl' (n2, w2)).
    { intros i q Hq Hn. cbn [fst] in Hq. rewrite Hwl.
      destruct (decide (i = k)) as [->|Hne].
      - rewrite Hq. cbn [default option.from_option id].
        assert (Hsmall : Streams.using_small_buffers (probe_of q) = true).
        { unfold needs_io_buffer in Hn.
          apply andb_true_iff in Hn as [_ Hn]. apply andb_true_iff in Hn as [_ Hn].
          exact Hn. }
        rewrite Hsmall. right. apply elem_of_app. right. left.
      - rewrite (Hframe i Hne) in Hq. specialize (Hlisted1 i q Hq Hn).
        apply elem_of_cons in Hlisted1 as [->|Hin]; [left|right].
        match goal with |- context [if ?b then _ else _] => destruct b end;
          [apply elem_of_app; left|]; exact Hin. }
    assert (Hm2 : (2 * join_candidates (fst (n2, w2)) + length wl' < fuel)%nat).
    { cbn [fst]. rewrite Hwl. cbn [length] in *.
      match goal with |- context [if ?b then _ else _] => destruct b end;
        rewrite ?length_app; cbn [length]; lia. }
    destruct (IH wl' (n2, w2) Hlisted2 Hm2) as (H1 & H2 & H3 & H4).
    cbn [fst] in H3. split; [exact H1|]. split; [exact H2|]. split; [lia|exact H4].
Qed.

Abbreviation BuildHashTables :=
  (JoinMore.BuildHashTables sizeof_Bucket HashTable_ByteSize bytes_in_mem
     Partition_BuildHashTable).

Lemma needs_io_buffer_close_probe (p : Partition) :
  probe_missing p = false -> needs_io_buffer (close_probe p) = needs_io_buffer p.
Proof.
  unfold probe_missing, close_probe, needs_io_buffer, probe_of.
  destruct (hash_tbl_ p); [|reflexivity].
  destruct (probe_rows_ p); [reflexivity|discriminate].
Qed.

Lemma BuildHashTables_unfold (fuel : nat) (n : JoinNode) (w : World) :
  BuildHashTables fuel (n, w) =
  match JoinMore.for_each (seq 0 (length (hash_partitions_ n)))
          (build_or_spill sizeof_Bucket Partition_BuildHashTable) (n, w) with
  | (inl e, st1) => (inl e, st1)
  | (inr _, st1) =>
      match reserve_io_buffers fuel (collect (hash_partitions_ (fst st1)) 0) st1 with
      | (inl e, st2) => (inl e, st2)
      | (inr Returned, st2) =>
          if existsb probe_missing (hash_partitions_ (fst st2)) then (inr Undefined, st2)
          else
            let ps := map close_probe (hash_partitions_ (fst st2)) in
            (inr Returned,
             (set_hash_tbls (set_hash_partitions (fst st2) ps)
                (map (table_ref ps) (seq 0 PARTITION_FANOUT)), snd st2))
      | (inr e, st2) => (inr e, st2)
      end
  end.
Proof.
  unfold JoinMore.BuildHashTables.
  unfold bind at 1. unfold get_node at 1. cbn [fst snd].
  unfold bind at 1.
  destruct (JoinMore.for_each _ _ (n, w)) as [[e|u] [n1 w1]]; [reflexivity|].
  unfold bind at 1. unfold get_node at 1. cbn [fst snd].
  unfold bind at 1.
  destruct (JoinMore.reserve_io_buffers _ _ _ _ _ _) as [[e|[]] [n2 w2]]; try reflexivity.
  unfold bind at 1. unfold get_node at 1. cbn [fst snd].
  destruct (existsb probe_missing (hash_partitions_ n2)); reflexivity.
Qed.

Lemma BuildHashTables_spec (fuel : nat) (n : JoinNode) (w : World) :
  (3 * length (hash_partitions_ n) < fuel)%nat ->
  let r := BuildHashTables fuel (n, w) in
  fst r <> inr FuelSpent /\
  (fst r = inr Returned ->
   length (hash_partitions_ (fst (snd r))) = length (hash_partitions_ n) /\
   Forall (fun p => needs_io_buffer p = false) (hash_partitions_ (fst (snd r)))).
Proof.
  intros Hfuel. cbv zeta. rewrite BuildHashTables_unfold.
  pose proof (join_for_each_triple
                (fun _ st => length (hash_partitions_ (fst st)) = length (hash_partitions_ n))
                (fun _ _ => True)
                (build_or_spill sizeof_Bucket Partition_BuildHashTable)
                (seq 0 (length (hash_partitions_ n)))
                (fun k i _ => build_or_spill_length (length (hash_partitions_ n)) i)
                (n, w) eq_refl) as Hloop.
  destruct (JoinMore.for_each _ _ (n, w)) as [[e|u] [n1 w1]].
  { cbn [fst]. split; [discriminate|intros H; discriminate H]. }
  cbn [fst snd] in *.
  assert (Hlisted : listed (collect (hash_partitions_ n1) 0) (n1, w1)).
  { intros i p Hp Hn. exact (collect_listed _ 0 i p Hp Hn). }
  assert (Hm : (2 * join_candidates (fst (n1, w1))
                + length (collect (hash_partitions_ n1) 0) < fuel)%nat).
  { cbn [fst]. pose proof (join_candidates_le n1).
    pose proof (collect_length (hash_partitions_ n1) 0). lia. }
  destruct (reserve_io_buffers_spec fuel _ (n1, w1) Hlisted Hm) as (H1 & H2 & H3 & H4).
  destruct (reserve_io_buffers fuel _ (n1, w1)) as [[e|[]] [n2 w2]]; cbn [fst snd] in *;
    try congruence.
  { split; [discriminate|intros H; discriminate H]. }
  destruct (existsb probe_missing (hash_partitions_ n2)) eqn:Hmiss.
  { cbn [fst]. split; [discriminate|intros H; discriminate H]. }
  cbn. split; [discriminate|]. intros _. split.
  - rewrite length_map. lia.
  - apply Forall_map. specialize (H4 eq_refl).
    apply Forall_lookup. intros i p Hp. cbn.
    rewrite needs_io_buffer_close_probe.
    + eapply (proj1 (Forall_lookup _ _) H4); eauto.
    + destruct (probe_missing p) eqn:Hpm; [|reflexivity].
      assert (existsb probe_missing (hash_partitions_ n2) = true).
      { apply existsb_exists. exists p. split; [|exact Hpm].
        apply list_elem_of_In. eapply list_elem_of_lookup_2; eauto. }
      congruence.
Qed.

End JoinBuildFacts.

(** [Spill] counts a partition once and releases its hash table once:
    after two calls that return OK on the same partition (a hash partition
    or the input partition, which is spilled again for repartitioning) the
    counter of spilled partitions has moved by one if the partition was not
    spilled before and not at all if it was, the client's consumption has
    gone down by the bytes of the bucket array, and the partition is
    spilled and has no hash table. *)
Theorem join_Spill_counts_once (sizeof_Bucket : Z) (r : Join.PartitionRef)
    (unpin1 unpin2 : bool) (n : Join.JoinNode) (w : Runtime.World) (p : Join.Partition) :
  points_at r n p ->
  let r1 := Join.Partition_Spill sizeof_Bucket r unpin1 (n, w) in
  let r2 := Join.Partition_Spill sizeof_Bucket r unpin2 (snd r1) in
  fst r1 = inr tt -> fst r2 = inr tt ->
  Join.counters_ (fst (snd r2)) Join.SpilledPartitions
  = Join.counters_ n Join.SpilledPartitions + (if Join.is_spilled_ p then 0 else 1) /\
  Runtime.consumed (snd (snd r2)) = Runtime.consumed w - join_table_bytes sizeof_Bucket p /\
  Join.is_spilled_ (get_ref r (fst (snd r2))) = true /\
  Join.hash_tbl_ (get_ref r (fst (snd r2))) = None.
Proof.
  intros Hp r1 r2 Hok1 Hok2.
  destruct (join_Spill_effect_at sizeof_Bucket r unpin1 n w p Hp)
    as (Hp1 & _ & Hn1 & _ & _ & _ & _ & Hc1 & _ & Ho1).
  fold r1 in Hp1, Hn1, Hc1, Ho1. rewrite Hok1 in Ho1. destruct Ho1 as [Hs1 Hcnt1].
  destruct (snd r1) as [n1 w1] eqn:E1. cbn [fst snd] in *.
  destruct (join_Spill_effect_at sizeof_Bucket r unpin2 n1 w1 _ Hp1)
    as (_ & _ & Hn2 & _ & _ & _ & _ & Hc2 & _ & Ho2).
  fold r2 in Hn2, Hc2, Ho2. rewrite Hok2 in Ho2. destruct Ho2 as [Hs2 Hcnt2].
  rewrite Hs1 in Hcnt2.
  assert (Hz : join_table_bytes sizeof_Bucket (get_ref r n1) = 0)
    by (unfold join_table_bytes; now rewrite Hn1).
  repeat split; [lia|lia|exact Hs2|exact Hn2].
Qed.

Lemma join_Spill_counts_once_witness :
  let r1 := Join.Partition_Spill 16 (Join.HashPartition 1) false
              (example_join_node, example_world Runtime.Yes) in
  let r2 := Join.Partition_Spill 16 (Join.HashPartition 1) true (snd r1) in
  Join.counters_ (fst (snd r2)) Join.SpilledPartitions = 1 /\
  Runtime.consumed (snd (snd r2)) = 1024 * 16.
Proof.
  cbv zeta.
  destruct (join_Spill_counts_once 16 (Join.HashPartition 1) false true example_join_node
              (example_world Runtime.Yes) (example_join_partition 512 false)
              eq_refl eq_refl eq_refl) as (H1 & H2 & _).
  split; [exact H1|exact H2].
Defined.

(** The stream has no IO buffer at first and the row is declined; the
    partition without matches is spilled, and then the stream takes the
    row. *)
Definition example_full_world : Runtime.World :=
  Runtime.mkWorld (fun k => if (k <? 2)%nat then Runtime.No else Runtime.Yes)
    0 (1536 * 16) 0 0 false.

Lemma AppendRowStreamFull_appends_or_fails_witness :
  let r := JoinMore.AppendRowStreamFull 16 example_byte_size (fun _ _ => 0) 2
             (JoinMore.BuildRows 0) Runtime.OK (example_join_node, example_full_world) in
  fst (fst r) = Some true /\
  Join.is_spilled_ (get_ref (Join.HashPartition 1) (fst (snd r))) = true /\
  rows_of (fst (snd r)) (JoinMore.BuildRows 0) = 1.
Proof.
  cbv zeta.
  assert (E : fst (fst (JoinMore.AppendRowStreamFull 16 example_byte_size (fun _ _ => 0) 2
                          (JoinMore.BuildRows 0) Runtime.OK
                          (example_join_node, example_full_world))) = Some true)
    by (vm_compute; reflexivity).
  split; [exact E|]. split; [vm_compute; reflexivity|].
  pose proof (AppendRowStreamFull_appends_or_fails 16 example_byte_size (fun _ _ => 0) 2
                (JoinMore.BuildRows 0) Runtime.OK example_join_node example_full_world
                ltac:(vm_compute; lia) ltac:(vm_compute; lia)) as H.
  destruct (JoinMore.AppendRowStreamFull _ _ _ _ _ _ _) as [[returned status'] st'].
  cbn [fst snd] in *. subst returned. destruct H as (_ & _ & H). exact H.
Defined.

(** [BuildHashTables] leaves no spilled partition without an IO buffer for
    its probe rows. Whatever [Partition::BuildHashTable] does to the
    partitions it is called on, as long as it keeps their number: the loop
    over the list of spilled partitions ends, within two rounds for each
    partition [SpillPartition] can still spill and one for each listed
    partition; and when the function returns OK every partition is closed,
    or not spilled, or has a probe stream that no longer uses small
    buffers. *)
Theorem BuildHashTables_reserves_io_buffers (sizeof_Bucket : Z)
    (HashTable_ByteSize : HashTbl.HashTable -> Z)
    (bytes_in_mem : bool -> Streams.Stream -> Z)
    (Partition_BuildHashTable : nat -> Runtime.Exec Join.St bool)
    (fuel : nat) (n : Join.JoinNode) (w : Runtime.World) :
  (forall i st,
     length (Join.hash_partitions_ (fst (snd (Partition_BuildHashTable i st))))
     = length (Join.hash_partitions_ (fst st))) ->
  length (Join.hash_partitions_ n) = Join.PARTITION_FANOUT ->
  (3 * Join.PARTITION_FANOUT < fuel)%nat ->
  let r := JoinMore.BuildHashTables sizeof_Bucket HashTable_ByteSize bytes_in_mem
             Partition_BuildHashTable fuel (n, w) in
  fst r <> inr JoinMore.FuelSpent /\
  (fst r = inr JoinMore.Returned ->
   length (Join.hash_partitions_ (fst (snd r))) = Join.PARTITION_FANOUT /\
   Forall (fun p => Join.is_closed_ p = true \/ Join.is_spilled_ p = false \/
                    Streams.using_small_buffers (JoinMore.probe_of p) = false)
          (Join.hash_partitions_ (fst (snd r)))).
Proof.
  intros HB Hlen Hfuel. cbv zeta.
  destruct (BuildHashTables_spec sizeof_Bucket HashTable_ByteSize bytes_in_mem
              Partition_BuildHashTable HB fuel n w) as [H1 H2]; [lia|].
  split; [exact H1|]. intros Hret. destruct (H2 Hret) as [Hl Hall].
  split; [lia|]. eapply Forall_impl; [exact Hall|]. intros p Hp. cbv beta in Hp.
  unfold JoinMore.needs_io_buffer in Hp.
  destruct (Join.is_closed_ p); [auto|]. destruct (Join.is_spilled_ p); [|auto].
  cbn in Hp. auto.
Qed.

(** Sixteen partitions with five build rows each; the hash tables of the
    last eight can be built, those of the first eight cannot; the
    collaborators decline the first seventeen requests. *)
Definition example_built_partition : Join.Partition :=
  Join.mkPartition false false 0 None
    (Some (Streams.mkStream 5 true true true false false))
    (Some (Streams.new_stream true)).

Definition example_build_node : Join.JoinNode :=
  Join.mkJoinNode Join.PARTITIONING_BUILD 0 (replicate 16 example_built_partition)
    (replicate 16 Join.NoTable) [] None (fun _ => 0).

Definition example_BuildHashTable (i : nat) : Runtime.Exec Join.St bool :=
  fun st =>
    if (8 <=? i)%nat then
      (inr true,
       (Join.set_hash_partitions (fst st)
          (<[ i := Join.set_hash_tbl example_built_partition
                     (Some (example_table 1024 false)) ]>
             (Join.hash_partitions_ (fst st))),
        snd st))
    else (inr false, st).

Definition example_build_world : Runtime.World :=
  Runtime.mkWorld (fun k => if (k <? 17)%nat then Runtime.No else Runtime.Yes)
    0 (8 * 1024 * 16) 0 0 false.

Lemma BuildHashTables_reserves_io_buffers_witness :
  let r := JoinMore.BuildHashTables 16 example_byte_size (fun _ _ => 0)
             example_BuildHashTable 49 (example_build_node, example_build_world) in
  fst r = inr JoinMore.Returned /\
  map Join.is_spilled_ (Join.hash_partitions_ (fst (snd r)))
  = replicate 9 true ++ replicate 7 false /\
  Forall (fun p => Join.is_closed_ p = true \/ Join.is_spilled_ p = false \/
                   Streams.using_small_buffers (JoinMore.probe_of p) = false)
         (Join.hash_partitions_ (fst (snd r))).
Proof.
  cbv zeta.
  assert (E : fst (JoinMore.BuildHashTables 16 example_byte_size (fun _ _ => 0)
                     example_BuildHashTable 49 (example_build_node, example_build_world))
              = inr JoinMore.Returned) by (vm_compute; reflexivity).
  split; [exact E|]. split; [vm_compute; reflexivity|].
  refine (proj2 (proj2 (BuildHashTables_reserves_io_buffers 16 example_byte_size
                          (fun _ _ => 0) example_BuildHashTable 49 example_build_node
                          example_build_world _ _ _) E)).
  - intros i st. unfold example_BuildHashTable.
    destruct (8 <=? i)%nat; cbn; rewrite ?length_insert; reflexivity.
  - reflexivity.
  - vm_compute. lia.
Defined.

(** ** The hash of a row and the bytes [EvalRow] stores *)

Section HashRowFacts.
Import HashCtx HashRow.

Variable TupleRow : Type.
Variable ColumnType : Type.
Variable GetSlotSize : ColumnType -> nat.
Variable FNV_SEED : Z.
Variable HashUtil_Hash : list Z -> Z -> Z.
Variable HashUtil_MurmurHash2_64 : list Z -> Z -> Z.
Variable is_string : ColumnType -> bool.
Variable sizeof_StringValue : nat.
Variable StringValue_bytes : list Z -> list Z.

(** The bytes [EvalRow] hands to [RawValue::Write] for a key. *)
Definition stored (e : ExprContext TupleRow ColumnType) (row : TupleRow) : list Z :=
  match GetValue e row with Some val => val | None => NULL_VALUE FNV_SEED end.

(** Two caches that [HashCurrentRow] cannot tell apart: the same layout,
    the same value bytes, and the same null flags at the string keys. *)
Definition same_for_hash (types : list ColumnType) (c1 c2 : ExprValuesCache) : Prop :=
  expr_values_offsets_ c1 = expr_values_offsets_ c2 /\
  var_result_offset_ c1 = var_result_offset_ c2 /\
  expr_values_bytes_per_row_ c1 = expr_values_bytes_per_row_ c2 /\
  cur_expr_values_ c1 = cur_expr_values_ c2 /\
  length (cur_expr_values_null_ c1) = length (cur_expr_values_null_ c2) /\
  (forall j ty, types !! j = Some ty -> is_string ty = true ->
     cur_expr_values_null_ c1 !! j = cur_expr_values_null_ c2 !! j).

(** Two rows that store the same bytes for every key, and agree on which
    string keys are NULL. *)
Definition store_alike (types : list ColumnType)
    (ctxs : list (ExprContext TupleRow ColumnType)) (i0 : nat) (row1 row2 : TupleRow) : Prop :=
  forall k e ty, ctxs !! k = Some e -> types !! (i0 + k)%nat = Some ty ->
    take (GetSlotSize ty) (stored e row1) = take (GetSlotSize ty) (stored e row2) /\
    (is_string ty = true ->
     is_null TupleRow ColumnType e row1 = is_null TupleRow ColumnType e row2).

Lemma EvalRow_loop_step (types : list ColumnType) (row : TupleRow)
    (e : ExprContext TupleRow ColumnType) (rest : list (ExprContext TupleRow ColumnType))
    (i0 : nat) (has_null : bool) (c : ExprValuesCache) (ty : ColumnType) :
  types !! i0 = Some ty ->
  exists h,
    EvalRow_loop GetSlotSize FNV_SEED true types row (e :: rest) i0 has_null c
    = EvalRow_loop GetSlotSize FNV_SEED true types row rest (S i0) h
        (set_cur_expr_values
           (set_cur_expr_values_null c
              (<[i0 := is_null TupleRow ColumnType e row]> (cur_expr_values_null_ c)))
           (write_at (cur_expr_values_ c) (expr_values_offsets_ c !!! i0)
              (take (GetSlotSize ty) (stored e row)))).
Proof.
  intros Hty. cbn [EvalRow_loop]. rewrite Hty. cbn [negb]. cbv iota.
  unfold stored, is_null, RawValue_Write.
  destruct (GetValue e row); eexists; reflexivity.
Qed.

Lemma EvalRow_loop_same_for_hash (types : list ColumnType) (row1 row2 : TupleRow) :
  forall (ctxs : list (ExprContext TupleRow ColumnType)) (i0 : nat) (h1 h2 : bool)
         (c1 c2 : ExprValuesCache),
    same_for_hash types c1 c2 ->
    store_alike types ctxs i0 row1 row2 ->
    same_for_hash types
      (snd (EvalRow_loop GetSlotSize FNV_SEED true types row1 ctxs i0 h1 c1))
      (snd (EvalRow_loop GetSlotSize FNV_SEED true types row2 ctxs i0 h2 c2)).
Proof.
  induction ctxs as [|e rest IH]; intros i0 h1 h2 c1 c2 Hsame Halike.
  - exact Hsame.
  - destruct (types !! i0) as [ty|] eqn:Hty.
    2: { cbn [EvalRow_loop]. rewrite Hty. exact Hsame. }
    destruct (EvalRow_loop_step types row1 e rest i0 h1 c1 ty Hty) as [h1' ->].
    destruct (EvalRow_loop_step types row2 e rest i0 h2 c2 ty Hty) as [h2' ->].
    destruct (Halike 0%nat e ty eq_refl) as [Hbytes Hnull].
    { rewrite Nat.add_0_r. exact Hty. }
    destruct Hsame as (Ho & Hv & Hb & Hc & Hl & Hf).
    apply IH.
    + unfold same_for_hash. cbn.
      rewrite Ho, Hc, Hbytes, !length_insert.
      repeat match goal with |- _ /\ _ => split end; auto.
      intros j tj Hj Hs.
      destruct (decide (j = i0)) as [->|Hne].
      * rewrite Hty in Hj. inversion Hj; subst tj.
        rewrite (Hnull Hs).
        destruct (decide (i0 < length (cur_expr_values_null_ c1))%nat) as [Hlt|Hge].
        -- rewrite !list_lookup_insert_eq by lia. reflexivity.
        -- rewrite !lookup_ge_None_2 by (rewrite length_insert; lia). reflexivity.
      * rewrite !list_lookup_insert_ne by auto. eauto.
    + intros k e' ty' He' Hty'. apply (Halike (S k) e' ty'); [exact He'|].
      replace (i0 + S k)%nat with (S i0 + k)%nat by lia. exact Hty'.
Qed.

Lemma HashVariableLenRow_loop_same (ctx : HashTableCtx TupleRow ColumnType)
    (types : list ColumnType) (c1 c2 : ExprValuesCache) :
  same_for_hash types c1 c2 ->
  forall (ctxs : list (ExprContext TupleRow ColumnType)) (i : nat) (hash : Z),
    (forall k e, ctxs !! k = Some e -> types !! (i + k)%nat = Some (type e)) ->
    HashVariableLenRow_loop HashUtil_Hash HashUtil_MurmurHash2_64 is_string
      sizeof_StringValue StringValue_bytes (after_EvalRow ctx c1) ctxs i hash
    = HashVariableLenRow_loop HashUtil_Hash HashUtil_MurmurHash2_64 is_string
        sizeof_StringValue StringValue_bytes (after_EvalRow ctx c2) ctxs i hash.
Proof.
  intros (Ho & Hv & Hb & Hc & Hl & Hf).
  induction ctxs as [|e rest IH]; intros i hash Hty; [reflexivity|].
  assert (Hrest : forall h, HashVariableLenRow_loop HashUtil_Hash HashUtil_MurmurHash2_64
            is_string sizeof_StringValue StringValue_bytes (after_EvalRow ctx c1) rest (S i) h
          = HashVariableLenRow_loop HashUtil_Hash HashUtil_MurmurHash2_64
            is_string sizeof_StringValue StringValue_bytes (after_EvalRow ctx c2) rest (S i) h).
  { intros h. apply IH. intros k e' He'.
    replace (S i + k)%nat with (i + S k)%nat by lia. apply Hty. exact He'. }
  cbn [HashVariableLenRow_loop].
  destruct (is_string (type e)) eqn:Hs; cbn [negb]; cbv iota; [|apply Hrest].
  cbn [after_EvalRow expr_values_cache_]. cbv zeta.
  assert (Hflag : cur_expr_values_null_ c1 !!! i = cur_expr_values_null_ c2 !!! i).
  { rewrite !list_lookup_total_alt.
    rewrite (Hf i (type e)); [reflexivity| |exact Hs].
    specialize (Hty 0%nat e eq_refl). rewrite Nat.add_0_r in Hty. exact Hty. }
  rewrite Hflag, Hc, Ho. unfold Hash. cbn [level_ after_EvalRow].
  destruct (cur_expr_values_null_ c2 !!! i); apply Hrest.
Qed.

End HashRowFacts.

(** A hash over the bytes, for the examples. *)
Definition example_hash (data : list Z) (seed : Z) : Z :=
  foldl (fun h b => uint32 (h * 16777619 + b)) seed data.

(** [HashCurrentRow] sees of a row only what [EvalRow] has stored: two rows
    that leave the same bytes in every key slot, and agree on which string
    keys are NULL, get the same hash, at every level and whatever the hash
    functions. A NULL key leaves the first bytes of [NULL_VALUE]; so a row
    that is NULL at a key other than a string hashes like the row that has
    those bytes as the value of the key. *)
Theorem rows_storing_same_bytes_hash_alike (TupleRow ColumnType : Type)
    (GetSlotSize : ColumnType -> nat) (FNV_SEED : Z)
    (HashUtil_Hash HashUtil_MurmurHash2_64 : list Z -> Z -> Z)
    (is_string : ColumnType -> bool) (sizeof_StringValue : nat)
    (StringValue_bytes : list Z -> list Z)
    (ctx : HashCtx.HashTableCtx TupleRow ColumnType) (row1 row2 : TupleRow)
    (ctxs : list (HashCtx.ExprContext TupleRow ColumnType)) :
  HashCtx.stores_nulls_ ctx = true ->
  store_alike TupleRow ColumnType GetSlotSize FNV_SEED is_string
    (map HashCtx.type (HashCtx.build_expr_ctxs_ ctx)) ctxs 0 row1 row2 ->
  HashRow.HashCurrentRow HashUtil_Hash HashUtil_MurmurHash2_64 is_string sizeof_StringValue
    StringValue_bytes
    (after_EvalRow ctx (snd (HashCtx.EvalRow GetSlotSize FNV_SEED ctx row1 ctxs)))
  = HashRow.HashCurrentRow HashUtil_Hash HashUtil_MurmurHash2_64 is_string sizeof_StringValue
      StringValue_bytes
      (after_EvalRow ctx (snd (HashCtx.EvalRow GetSlotSize FNV_SEED ctx row2 ctxs))).
Proof.
  intros Hs Halike. unfold HashCtx.EvalRow. rewrite Hs.
  set (types := map HashCtx.type (HashCtx.build_expr_ctxs_ ctx)) in *.
  pose proof (EvalRow_loop_same_for_hash TupleRow ColumnType GetSlotSize FNV_SEED is_string
                types row1 row2 ctxs 0 false false (HashCtx.expr_values_cache_ ctx)
                (HashCtx.expr_values_cache_ ctx)) as Hsame.
  specialize (Hsame ltac:(repeat split; reflexivity) Halike).
  set (c1 := snd (HashCtx.EvalRow_loop GetSlotSize FNV_SEED true types row1 ctxs 0 false
                    (HashCtx.expr_values_cache_ ctx))) in *.
  set (c2 := snd (HashCtx.EvalRow_loop GetSlotSize FNV_SEED true types row2 ctxs 0 false
                    (HashCtx.expr_values_cache_ ctx))) in *.
  clearbody c1 c2.
  pose proof Hsame as (Ho & Hv & Hb & Hc & Hl & Hf).
  unfold HashRow.HashCurrentRow, HashRow.HashVariableLenRow.
  cbn [after_EvalRow HashCtx.expr_values_cache_ HashCtx.seeds_ HashCtx.level_
       HashCtx.build_expr_ctxs_].
  cbv zeta. rewrite Hv, Hb, Hc.
  destruct (HashCtx.var_result_offset_ c2 =? -1).
  - reflexivity.
  - replace (HashCtx.Hash HashUtil_Hash HashUtil_MurmurHash2_64 (after_EvalRow ctx c1))
      with (HashCtx.Hash HashUtil_Hash HashUtil_MurmurHash2_64 (after_EvalRow ctx c2))
      by reflexivity.
    apply (HashVariableLenRow_loop_same TupleRow ColumnType HashUtil_Hash
             HashUtil_MurmurHash2_64 is_string sizeof_StringValue StringValue_bytes
             ctx types c1 c2 Hsame).
    intros k e He. unfold types. rewrite list_lookup_fmap. cbn [Nat.add]. rewrite He.
    reflexivity.
Qed.

Lemma rows_storing_same_bytes_hash_alike_witness :
  HashRow.HashCurrentRow example_hash example_hash (fun _ : nat => false) 16 (fun bs => bs)
    (after_EvalRow example_ctx
       (snd (HashCtx.EvalRow (fun ty => ty) 2166136261 example_ctx (None, Some 7)
               (HashCtx.probe_expr_ctxs_ example_ctx))))
  = HashRow.HashCurrentRow example_hash example_hash (fun _ : nat => false) 16 (fun bs => bs)
      (after_EvalRow example_ctx
         (snd (HashCtx.EvalRow (fun ty => ty) 2166136261 example_ctx
                 (Some 2166136261, Some 7) (HashCtx.probe_expr_ctxs_ example_ctx)))).
Proof.
  apply (rows_storing_same_bytes_hash_alike (option Z * option Z) nat (fun ty => ty)
           2166136261 example_hash example_hash (fun _ => false) 16 (fun bs => bs)
           example_ctx (None, Some 7) (Some 2166136261, Some 7)
           (HashCtx.probe_expr_ctxs_ example_ctx)).
  - reflexivity.
  - intros [|[|k]] e ty He Hty; cbn in He, Hty; inversion He; inversion Hty; subst;
      (split; [reflexivity|discriminate]).
Defined.

(** ** What [Create] charges and [Close] gives back *)

Section CtxInitFacts.
Import CtxStorage CtxInit.

Variable Bitmap_MemUsage : Z -> Z.
Variable Bitmap_Reset : Z -> list bool.
Variable MAX_EXPR_VALUES_ARRAY_SIZE : Z.
Variable batch_size : Z.
Variable ExprContext : Type.
Variable ComputeResultsLayout : list ExprContext -> Z * Layout.

(** The rows the cache is given: as many as fit the budget of the value
    array, at most a batch and at least one. *)
Lemma capacity_within_budget (bytes_per_row : Z) :
  let capacity :=
    Z.max 1 (Z.min batch_size (Z.quot MAX_EXPR_VALUES_ARRAY_SIZE bytes_per_row)) in
  1 <= capacity <= Z.max 1 batch_size /\
  (0 < bytes_per_row ->
   capacity = 1 \/ bytes_per_row * capacity <= MAX_EXPR_VALUES_ARRAY_SIZE).
Proof.
  intros capacity. split; [unfold capacity; lia|].
  intros Hb. destruct (Z.eq_dec capacity 1) as [H1|H1]; [left; exact H1|right].
  assert (Hq : capacity <= Z.quot MAX_EXPR_VALUES_ARRAY_SIZE bytes_per_row)
    by (unfold capacity in *; lia).
  assert (Hc : 1 < capacity) by (unfold capacity in *; lia).
  assert (HM : 0 <= MAX_EXPR_VALUES_ARRAY_SIZE).
  { destruct (Z.le_gt_cases 0 MAX_EXPR_VALUES_ARRAY_SIZE) as [H|H]; [exact H|].
    pose proof (Z.quot_opp_l MAX_EXPR_VALUES_ARRAY_SIZE bytes_per_row ltac:(lia)) as Ho.
    pose proof (Z.quot_pos (- MAX_EXPR_VALUES_ARRAY_SIZE) bytes_per_row ltac:(lia) Hb).
    lia. }
  rewrite Z.quot_div_nonneg in Hq by lia.
  pose proof (Z.mul_div_le MAX_EXPR_VALUES_ARRAY_SIZE bytes_per_row Hb).
  clearbody capacity. nia.
Qed.

Lemma Init_then_Close (c : ExprValuesCache) (t : MemTracker)
    (build_expr_ctxs : list ExprContext) (granted : bool) :
  capacity_ c = 0 ->
  let r := Init Bitmap_MemUsage Bitmap_Reset MAX_EXPR_VALUES_ARRAY_SIZE batch_size
             ExprContext ComputeResultsLayout c t build_expr_ctxs granted in
  let status := fst (fst (fst r)) in
  let c' := snd (fst (fst r)) in
  let t' := snd r in
  let bytes_per_row := fst (ComputeResultsLayout build_expr_ctxs) in
  consumption (snd (Close Bitmap_MemUsage c' t')) = consumption t /\
  (status = InitOK ->
   consumption t' = consumption t
     + (if bytes_per_row =? 0 then 0
        else MemUsage Bitmap_MemUsage (capacity_ c') bytes_per_row
               (Z.of_nat (length build_expr_ctxs))) /\
   (bytes_per_row <> 0 ->
    capacity_ c'
    = Z.max 1 (Z.min batch_size (Z.quot MAX_EXPR_VALUES_ARRAY_SIZE bytes_per_row)))) /\
  (status <> InitOK -> t' = t /\ capacity_ c' = 0 /\ granted = false).
Proof.
  intros Hc r status c' t' bytes_per_row.
  subst r status c' t' bytes_per_row. unfold Init.
  destruct (ComputeResultsLayout build_expr_ctxs) as [bytes layout]. cbn [fst].
  pose proof (capacity_within_budget bytes) as [Hcap _]. cbv zeta in Hcap.
  destruct (Z.eqb_spec bytes 0) as [Hb|Hb].
  - cbn. rewrite Hc. cbn. split; [reflexivity|]. split; [|congruence].
    intros _. split; [lia|]. intros H; contradiction.
  - unfold TryConsume. destruct granted.
    + cbn [fst snd]. unfold Close. cbn [capacity_ num_exprs_ expr_values_bytes_per_row_].
      destruct (Z.eqb_spec (Z.max 1 (Z.min batch_size
                  (Z.quot MAX_EXPR_VALUES_ARRAY_SIZE bytes))) 0) as [H0|H0]; [lia|].
      cbn. split; [lia|]. split; [|congruence]. intros _. split; [reflexivity|].
      intros _. reflexivity.
    + cbn. split; [reflexivity|]. split; [discriminate|]. intros _. auto.
Qed.

End CtxInitFacts.

(** What [HashTableCtx::Create] has charged to the tracker, [Close] gives
    back: after the two the tracker is where it was, whether the scratch
    row could be allocated or not, whether the tracker took the bytes of the
    cache or not, and whether there are keys or not; the scratch row is
    freed once when there was one. When [Create] returns OK the tracker has
    been charged [MemUsage] of the capacity, which is at least one row, at
    most a batch, and, above one row, no more rows than fit
    [MAX_EXPR_VALUES_ARRAY_SIZE]; when it fails nothing is charged. *)
Theorem HashTableCtx_Close_gives_back_what_Create_took
    (Bitmap_MemUsage : Z -> Z) (Bitmap_Reset : Z -> list bool)
    (MAX_EXPR_VALUES_ARRAY_SIZE batch_size : Z) (ExprContext : Type)
    (ComputeResultsLayout : list ExprContext -> Z * CtxInit.Layout)
    (sizeof_Tuple_ptr : Z) (malloc : Z -> option Z)
    (num_exprs expr_values_bytes_per_row : Z) (tracker : CtxStorage.MemTracker)
    (num_build_tuples : Z) (build_expr_ctxs : list ExprContext) (granted : bool) :
  let r := CtxInit.HashTableCtx_Create Bitmap_MemUsage Bitmap_Reset
             MAX_EXPR_VALUES_ARRAY_SIZE batch_size ExprContext ComputeResultsLayout
             sizeof_Tuple_ptr malloc num_exprs expr_values_bytes_per_row tracker
             num_build_tuples build_expr_ctxs granted in
  let status := fst (fst r) in
  let ctx := snd (fst r) in
  let closed := CtxStorage.HashTableCtx_Close Bitmap_MemUsage ctx in
  let bytes_per_row := fst (ComputeResultsLayout build_expr_ctxs) in
  let capacity := CtxStorage.capacity_ (CtxStorage.expr_values_cache_ ctx) in
  CtxStorage.consumption (CtxStorage.tracker_ closed) = CtxStorage.consumption tracker /\
  CtxStorage.scratch_row_ closed = None /\
  CtxStorage.freed_rows_ closed
  = match malloc (sizeof_Tuple_ptr * num_build_tuples) with Some _ => 1 | None => 0 end /\
  (status = CtxInit.InitOK -> bytes_per_row <> 0 ->
   CtxStorage.consumption (CtxStorage.tracker_ ctx)
   = CtxStorage.consumption tracker
     + CtxStorage.MemUsage Bitmap_MemUsage capacity bytes_per_row
         (Z.of_nat (length build_expr_ctxs)) /\
   1 <= capacity <= Z.max 1 batch_size /\
   (0 < bytes_per_row ->
    capacity = 1 \/ bytes_per_row * capacity <= MAX_EXPR_VALUES_ARRAY_SIZE)) /\
  (status <> CtxInit.InitOK ->
   CtxStorage.tracker_ ctx = tracker /\ capacity = 0).
Proof.
  intros r status ctx closed bytes_per_row capacity.
  subst r status ctx closed bytes_per_row capacity.
  unfold CtxInit.HashTableCtx_Create, CtxInit.HashTableCtx_Init, CtxInit.new_HashTableCtx.
  cbn [CtxStorage.expr_values_cache_ CtxStorage.tracker_ CtxStorage.freed_rows_].
  destruct (malloc (sizeof_Tuple_ptr * num_build_tuples)) as [row|].
  - pose proof (Init_then_Close Bitmap_MemUsage Bitmap_Reset MAX_EXPR_VALUES_ARRAY_SIZE
                  batch_size ExprContext ComputeResultsLayout
                  (CtxInit.new_ExprValuesCache num_exprs expr_values_bytes_per_row)
                  tracker build_expr_ctxs granted eq_refl) as H.
    cbv zeta in H.
    destruct (CtxInit.Init _ _ _ _ _ _ _ _ _ _) as [[[status c] layout] t].
    cbn [fst snd] in H |- *. destruct H as (Hclose & Hok & Hfail).
    unfold CtxStorage.HashTableCtx_Close.
    cbn [CtxStorage.expr_values_cache_ CtxStorage.tracker_ CtxStorage.freed_rows_
         CtxStorage.scratch_row_].
    destruct (CtxStorage.Close Bitmap_MemUsage c t) as [c2 t2] eqn:Hcl.
    cbn [CtxStorage.tracker_ CtxStorage.scratch_row_ CtxStorage.freed_rows_ snd] in *.
    split; [exact Hclose|]. split; [reflexivity|]. split; [reflexivity|]. split.
    + intros Hs Hb. destruct (Hok Hs) as [Hcons Hcap]. specialize (Hcap Hb).
      destruct (Z.eqb_spec (fst (ComputeResultsLayout build_expr_ctxs)) 0); [contradiction|].
      split; [exact Hcons|]. rewrite Hcap.
      apply capacity_within_budget.
    + intros Hs. destruct (Hfail Hs) as (Ht & Hc & _). auto.
  - cbn. split; [reflexivity|]. split; [reflexivity|]. split; [reflexivity|].
    split; [discriminate|]. intros _. auto.
Qed.

(** ** The data pages over the life of a hash table *)

Section TableNodesFacts.
Import Runtime HashTbl TableNodes.

Variable max_block_size : Z.
Variable sizeof_DuplicateNode : Z.
Variable sizeof_Bucket : Z.
Variable Probe : list Bucket -> Z -> Z -> Z.

Fixpoint sum_sizes (l : list Z) : Z :=
  match l with
  | [] => 0
  | x :: rest => x + sum_sizes rest
  end.

Lemma sum_sizes_app (l1 l2 : list Z) : sum_sizes (l1 ++ l2) = sum_sizes l1 + sum_sizes l2.
Proof. induction l1 as [|x l1 IH]; cbn [sum_sizes app]; lia. Qed.

Lemma next_page_size_bounds (n : nat) :
  0 <= max_block_size -> 0 <= next_page_size max_block_size n <= max_block_size.
Proof.
  intros Hm. unfold next_page_size, NUM_SMALL_DATA_PAGES, INITIAL_DATA_PAGE_SIZES.
  destruct n as [|[|n]]; cbn; lia.
Qed.

(** The data pages against the gauge and the member that counts their
    bytes; [G] is the gauge without the pages of this table. *)
Definition paged (G : Z) (ht : HashTable) (w : World) : Prop :=
  HASH_TABLE_TOTAL_BYTES w = G + sum_sizes (data_pages_ ht) /\
  total_data_page_size_ ht = sum_sizes (data_pages_ ht) /\
  0 <= sum_sizes (data_pages_ ht) <= Z.of_nat (length (data_pages_ ht)) * max_block_size /\
  (forall i size, data_pages_ ht !! i = Some size -> size = next_page_size max_block_size i).

Lemma CheckAndResize_pages (buckets_to_fill : Z) (ht : HashTable) (w : World)
    (b : bool) (ht' : HashTable) (w' : World) :
  CheckAndResize sizeof_Bucket Probe buckets_to_fill ht w = Some (b, ht', w') ->
  data_pages_ ht' = data_pages_ ht.
Proof.
  unfold CheckAndResize. destruct (resize_shift _ _ _ _) as [shift|]; [|discriminate].
  destruct (0 <? shift).
  - unfold ResizeBuckets, ConsumeMemory, ask.
    destruct (negb _ && _); [intros H; inversion H; reflexivity|].
    destruct (answers w (calls w)); intros H; inversion H; reflexivity.
  - intros H. inversion H; subst. reflexivity.
Qed.

Lemma GrowNodeArray_paged (G : Z) (ht : HashTable) (cursor : NodeCursor) (w : World) :
  0 <= max_block_size ->
  (Z.of_nat (length (data_pages_ ht)) + 1) * max_block_size < 2 ^ 63 ->
  paged G ht w ->
  let r := GrowNodeArray max_block_size sizeof_DuplicateNode ht cursor w in
  paged G (snd (fst (fst r))) (snd r) /\
  consumed (snd r) = consumed w /\
  bucket_bytes sizeof_Bucket (snd (fst (fst r))) = bucket_bytes sizeof_Bucket ht /\
  buckets_ (snd (fst (fst r))) = buckets_ ht /\
  (length (data_pages_ (snd (fst (fst r)))) <= S (length (data_pages_ ht)))%nat.
Proof.
  intros Hm Hfit (Hg & Ht & Hs & Hp) r. subst r.
  unfold GrowNodeArray, ask.
  pose proof (next_page_size_bounds (length (data_pages_ ht)) Hm) as Hb.
  destruct (answers w (calls w)); cbn [fst snd];
    try (split; [unfold paged; cbn; auto|]; repeat split; cbn; lia).
  unfold paged, bucket_bytes.
  cbn [push_data_page data_pages_ total_data_page_size_ num_buckets_ buckets_
       add_metric HASH_TABLE_TOTAL_BYTES consumed].
  rewrite sum_sizes_app, length_app. cbn [sum_sizes length].
  assert (Hi : int64 (total_data_page_size_ ht
                      + next_page_size max_block_size (length (data_pages_ ht)))
               = total_data_page_size_ ht
                 + next_page_size max_block_size (length (data_pages_ ht))).
  { unfold int64. rewrite Z.mod_small; lia. }
  rewrite Hi.
  repeat match goal with |- _ /\ _ => split end; try lia; try reflexivity.
  intros i size Hi'.
  apply lookup_app_Some in Hi'. destruct Hi' as [Hin|[Hge Hlast]].
  - apply Hp. exact Hin.
  - destruct (i - length (data_pages_ ht))%nat as [|k] eqn:Hk; cbn in Hlast; [|discriminate].
    inversion Hlast. f_equal. lia.
Qed.

Lemma call_each_paged (G C N : Z) (cs : list Call) :
  0 <= max_block_size -> N * max_block_size < 2 ^ 63 ->
  forall ht cursor w ht' cursor' w',
    Z.of_nat (length (data_pages_ ht)) + Z.of_nat (length cs) <= N ->
    paged G ht w -> consumed w - bucket_bytes sizeof_Bucket ht = C ->
    call_each max_block_size sizeof_DuplicateNode sizeof_Bucket Probe cs ht cursor w
    = Some (ht', cursor', w') ->
    paged G ht' w' /\ consumed w' - bucket_bytes sizeof_Bucket ht' = C.
Proof.
  intros Hm HN. induction cs as [|c rest IH]; intros ht cursor w ht' cursor' w' Hlen Hp Hc;
    cbn [call_each length] in *.
  - intros H. inversion H; subst. auto.
  - destruct c as [buckets_to_fill|].
    + destruct (CheckAndResize _ _ _ _ _) as [[[b ht1] w1]|] eqn:Hcr; [|discriminate].
      pose proof (CheckAndResize_pages _ _ _ _ _ _ Hcr) as Hpages.
      apply (CheckAndResize_accounting sizeof_Bucket Probe) in Hcr as (Hc1 & Hg1 & Ht1).
      apply IH.
      * rewrite Hpages. lia.
      * destruct Hp as (Hg & Ht & Hs & Hsz). unfold paged. rewrite Hpages, Hg1, Ht1. auto.
      * lia.
    + pose proof (GrowNodeArray_paged G ht cursor w Hm) as Hgrow.
      destruct (GrowNodeArray _ _ _ _ _) as [[[b ht1] cursor1] w1].
      cbn [fst snd] in Hgrow.
      destruct Hgrow as (Hp1 & Hc1 & Hb1 & _ & Hl1); [nia|exact Hp|].
      apply IH; [lia|exact Hp1|lia].
Qed.

End TableNodesFacts.

(** The data pages of a table, from its creation to [Close]: whatever the
    block manager hands out or refuses, the first page is the smaller of
    64 KB and a block, the second the smaller of 512 KB and a block, every
    later one a block; the gauge stands above its starting value by the
    bytes of the pages, and [Close] takes it back to that value, clears the
    pages and gives back the bytes of the bucket array. *)
Theorem HashTable_gives_back_its_data_pages
    (max_block_size sizeof_DuplicateNode sizeof_Bucket : Z)
    (Probe : list HashTbl.Bucket -> Z -> Z -> Z)
    (quadratic_probing stores_duplicates : bool) (max_num_buckets initial_num_buckets : Z)
    (cs : list TableNodes.Call) (ht1 ht2 : HashTbl.HashTable)
    (cursor2 : TableNodes.NodeCursor) (w w1 w2 : Runtime.World) (b : bool) :
  0 <= max_block_size ->
  Z.of_nat (length cs) * max_block_size < 2 ^ 63 ->
  HashTbl.Init sizeof_Bucket
    (HashTbl.Create quadratic_probing stores_duplicates max_num_buckets initial_num_buckets)
    w = (b, ht1, w1) ->
  TableNodes.call_each max_block_size sizeof_DuplicateNode sizeof_Bucket Probe cs ht1
    TableNodes.no_nodes w1 = Some (ht2, cursor2, w2) ->
  let closed := HashTbl.Close sizeof_Bucket ht2 w2 in
  (forall i size, HashTbl.data_pages_ ht2 !! i = Some size ->
     size = TableNodes.next_page_size max_block_size i) /\
  Runtime.HASH_TABLE_TOTAL_BYTES w2
  = Runtime.HASH_TABLE_TOTAL_BYTES w + sum_sizes (HashTbl.data_pages_ ht2) /\
  Runtime.HASH_TABLE_TOTAL_BYTES (snd closed) = Runtime.HASH_TABLE_TOTAL_BYTES w /\
  Runtime.consumed (snd closed) = Runtime.consumed w /\
  HashTbl.data_pages_ (fst closed) = [].
Proof.
  intros Hm HN Hi Hcalls closed.
  set (ht := HashTbl.Create quadratic_probing stores_duplicates max_num_buckets
               initial_num_buckets) in *.
  assert (Hinit : paged max_block_size (Runtime.HASH_TABLE_TOTAL_BYTES w) ht1 w1 /\
                  Runtime.consumed w1 - bucket_bytes sizeof_Bucket ht1 = Runtime.consumed w /\
                  HashTbl.data_pages_ ht1 = []).
  { revert Hi. unfold HashTbl.Init, Runtime.ConsumeMemory, Runtime.ask, bucket_bytes, paged.
    assert (H0 : int64 (0 * sizeof_Bucket) = 0) by reflexivity.
    destruct (Runtime.answers w (Runtime.calls w)); intros Hi; inversion Hi; subst;
      cbn [HashTbl.num_buckets_ HashTbl.set_buckets HashTbl.total_data_page_size_
           HashTbl.data_pages_ HashTbl.Create ht sum_sizes length
           Runtime.consumed Runtime.add_consumed Runtime.HASH_TABLE_TOTAL_BYTES];
      rewrite ?H0;
      (repeat match goal with |- _ /\ _ => split end); try lia; try reflexivity;
      intros i size Hl; rewrite lookup_nil in Hl; discriminate. }
  destruct Hinit as (Hp1 & Hc1 & Hnil).
  destruct (call_each_paged max_block_size sizeof_DuplicateNode sizeof_Bucket Probe
              (Runtime.HASH_TABLE_TOTAL_BYTES w) (Runtime.consumed w)
              (Z.of_nat (length cs)) cs Hm HN ht1 TableNodes.no_nodes w1 ht2 cursor2 w2)
    as ((Hg & Ht & Hs & Hsz) & Hc2); auto.
  { rewrite Hnil. cbn [length]. lia. }
  subst closed. unfold HashTbl.Close, Runtime.ReleaseMemory, bucket_bytes in *.
  cbn [fst snd]. split; [exact Hsz|]. split; [exact Hg|].
  destruct (HashTbl.buckets_ (HashTbl.clear_data_pages ht2)); cbn;
    repeat match goal with |- _ /\ _ => split end; try lia; reflexivity.
Qed.

Lemma HashTable_gives_back_its_data_pages_witness :
  let w := example_world Runtime.Yes in
  let r1 := HashTbl.Init 16 (HashTbl.Create true true (-1) 4) w in
  let r2 := default (snd (fst r1), TableNodes.no_nodes, snd r1)
              (TableNodes.call_each 8388608 16 16 (fun _ _ h => h)
                 [TableNodes.CallGrowNodeArray; TableNodes.CallCheckAndResize 4;
                  TableNodes.CallGrowNodeArray; TableNodes.CallGrowNodeArray]
                 (snd (fst r1)) TableNodes.no_nodes (snd r1)) in
  let closed := HashTbl.Close 16 (fst (fst r2)) (snd r2) in
  HashTbl.data_pages_ (fst (fst r2)) = [65536; 524288; 8388608] /\
  (forall i size, HashTbl.data_pages_ (fst (fst r2)) !! i = Some size ->
     size = TableNodes.next_page_size 8388608 i) /\
  Runtime.HASH_TABLE_TOTAL_BYTES (snd r2)
  = Runtime.HASH_TABLE_TOTAL_BYTES w + sum_sizes (HashTbl.data_pages_ (fst (fst r2))) /\
  Runtime.HASH_TABLE_TOTAL_BYTES (snd closed) = Runtime.HASH_TABLE_TOTAL_BYTES w /\
  Runtime.consumed (snd closed) = Runtime.consumed w /\
  HashTbl.data_pages_ (fst closed) = [].
Proof.
  intros w r1 r2 closed.
  assert (E1 : HashTbl.Init 16 (HashTbl.Create true true (-1) 4) w
               = (true, snd (fst r1), snd r1)) by (vm_compute; reflexivity).
  assert (E2 : TableNodes.call_each 8388608 16 16 (fun _ _ h => h)
                 [TableNodes.CallGrowNodeArray; TableNodes.CallCheckAndResize 4;
                  TableNodes.CallGrowNodeArray; TableNodes.CallGrowNodeArray]
                 (snd (fst r1)) TableNodes.no_nodes (snd r1)
               = Some (fst (fst r2), snd (fst r2), snd r2)) by (vm_compute; reflexivity).
  split; [vm_compute; reflexivity|].
  refine (HashTable_gives_back_its_data_pages 8388608 16 16 (fun _ _ h => h) true true (-1)
            4 _ (snd (fst r1)) (fst (fst r2)) (snd (fst r2)) w (snd r1) (snd r2) true
            _ _ E1 E2).
  - lia.
  - vm_compute. reflexivity.
Defined.

(** ** Rounding of decimals *)

Section RoundFacts.
Import Decimal.

(** Truncating division against the rounded quotients, for a quotient [q]
    and a remainder [r] that has the sign of the dividend. *)
Definition truncated (v b q r : Z) : Prop :=
  v = b * q + r /\ (0 <= v -> 0 <= r < b) /\ (v <= 0 -> - b < r <= 0).

Lemma quot_rem_truncated (v b : Z) : 0 < b -> truncated v b (Z.quot v b) (Z.rem v b).
Proof.
  intros Hb. split; [apply Z.quot_rem'|]. split; intros Hv.
  - apply Z.rem_bound_pos_pos; lia.
  - apply Z.rem_bound_pos_neg; lia.
Qed.

Lemma floor_of_truncated (v b q r : Z) :
  0 < b -> truncated v b q r -> v / b = if r <? 0 then q - 1 else q.
Proof.
  intros Hb (Hv & Hp & Hn).
  destruct (Z.ltb_spec r 0); symmetry.
  - apply (Z.div_unique v b _ (r + b)); lia.
  - apply (Z.div_unique v b _ r); lia.
Qed.

Lemma ceil_of_truncated (v b q r : Z) :
  0 < b -> truncated v b q r -> - (- v / b) = if 0 <? r then q + 1 else q.
Proof.
  intros Hb (Hv & Hp & Hn).
  destruct (Z.ltb_spec 0 r).
  - enough (- v / b = - (q + 1)) by lia. symmetry.
    apply (Z.div_unique (- v) b _ (b - r)); lia.
  - enough (- v / b = - q) by lia. symmetry.
    apply (Z.div_unique (- v) b _ (- r)); lia.
Qed.

Lemma round_of_truncated (v b q r : Z) :
  0 < b -> truncated v b q r ->
  Z.sgn v * ((2 * Z.abs v + b) / (2 * b))
  = if 2 * Z.abs r <? b then q else if v <? 0 then q - 1 else q + 1.
Proof.
  intros Hb (Hv & Hp & Hn).
  destruct (Z.lt_trichotomy v 0) as [Hs|[Hs|Hs]].
  - rewrite Z.sgn_neg, Z.abs_neq by lia.
    destruct (Z.ltb_spec v 0); [|lia].
    destruct (Z.ltb_spec (2 * Z.abs r) b).
    + enough ((2 * - v + b) / (2 * b) = - q) by lia. symmetry.
      apply (Z.div_unique _ (2 * b) _ (b - 2 * r)); lia.
    + enough ((2 * - v + b) / (2 * b) = - q + 1) by lia. symmetry.
      apply (Z.div_unique _ (2 * b) _ (- b - 2 * r)); lia.
  - assert (Hr : r = 0) by lia. rewrite Hs, Hr.
    assert (Hq : b * q = 0) by lia. apply Z.mul_eq_0 in Hq.
    change (2 * Z.abs 0) with 0. change (Z.sgn 0) with 0. rewrite Z.mul_0_l.
    destruct (Z.ltb_spec 0 b); lia.
  - rewrite Z.sgn_pos, Z.abs_eq by lia.
    destruct (Z.ltb_spec v 0); [lia|].
    destruct (Z.ltb_spec (2 * Z.abs r) b).
    + enough ((2 * v + b) / (2 * b) = q) by lia. symmetry.
      apply (Z.div_unique _ (2 * b) _ (b + 2 * r)); lia.
    + enough ((2 * v + b) / (2 * b) = q + 1) by lia. symmetry.
      apply (Z.div_unique _ (2 * b) _ (2 * r - b)); lia.
Qed.

(** What [RoundDelta] returns once the scale goes down, in terms of the
    remainder of the truncating division. *)
Lemma RoundDelta_cases (GSM : Z -> Z -> Z) (size : Z) (v s t : Z) (op : DecimalRoundOp) :
  let G := GSM size in
  t < s -> 0 < G (s - t) -> Z.even (G (s - t)) = true ->
  let r := Z.rem v (G (s - t)) in
  RoundDelta GSM size v s t op =
    match op with
    | TRUNCATE => 0
    | FLOOR => if r <? 0 then -1 else 0
    | CEIL => if 0 <? r then 1 else 0
    | ROUND => if 2 * Z.abs r <? G (s - t) then 0 else if v <? 0 then -1 else 1
    end.
Proof.
  intros G Hst Hb He r. subst r. unfold RoundDelta. fold G.
  set (b := G (s - t)) in *.
  destruct (quot_rem_truncated v b Hb) as (Hv & Hp & Hn).
  apply Zeven_bool_iff in He. destruct (Zeven_ex _ He) as [h Hh].
  assert (Hq2 : Z.quot b 2 = h).
  { rewrite Z.quot_div_nonneg by lia. rewrite Hh, Z.mul_comm. apply Z.div_mul. lia. }
  rewrite Hq2. clear Hq2 He.
  set (r := Z.rem v b) in *. set (q := Z.quot v b) in *.
  clearbody q r b.
  destruct (Z.leb_spec s t); [lia|].
  destruct op; cbn [is_op andb]; rewrite ?andb_true_r, ?andb_false_r;
    repeat match goal with
           | |- context [Z.ltb ?a ?b] => destruct (Z.ltb_spec a b)
           | |- context [Z.eqb ?a ?b] => destruct (Z.eqb_spec a b)
           end; try reflexivity; try lia.
Qed.

(** The quotient of [v] by [b] as each rounding operation wants it: cut
    towards zero, the floor, the ceiling, and the nearest integer with a
    half going away from zero. *)
Definition rounded_quotient (op : DecimalRoundOp) (v b : Z) : Z :=
  match op with
  | TRUNCATE => Z.quot v b
  | FLOOR => v / b
  | CEIL => - (- v / b)
  | ROUND => Z.sgn v * ((2 * Z.abs v + b) / (2 * b))
  end.

Lemma RoundDelta_rounded (GSM : Z -> Z -> Z) (size : Z) (v s t : Z) (op : DecimalRoundOp) :
  t < s -> 0 < GSM size (s - t) -> Z.even (GSM size (s - t)) = true ->
  Z.quot v (GSM size (s - t)) + RoundDelta GSM size v s t op
  = rounded_quotient op v (GSM size (s - t)).
Proof.
  intros Hst Hb He.
  rewrite (RoundDelta_cases GSM size v s t op Hst Hb He). cbv zeta.
  pose proof (quot_rem_truncated v _ Hb) as Ht.
  destruct op; cbn [rounded_quotient].
  - lia.
  - rewrite (floor_of_truncated _ _ _ _ Hb Ht). destruct (_ <? _); lia.
  - rewrite (ceil_of_truncated _ _ _ _ Hb Ht). destruct (_ <? _); lia.
  - rewrite (round_of_truncated _ _ _ _ Hb Ht).
    destruct (_ <? _); [lia|]. destruct (_ <? _); lia.
Qed.

Lemma pow10_pos_even (k : Z) : 0 < k -> 0 < 10 ^ k /\ Z.even (10 ^ k) = true.
Proof.
  intros Hk. split; [apply Z.pow_pos_nonneg; lia|].
  replace k with (Z.succ (k - 1)) by lia. rewrite Z.pow_succ_r by lia.
  rewrite Z.even_mul. reflexivity.
Qed.

Lemma wrap_small (bits z : Z) :
  0 < bits -> - 2 ^ (bits - 1) <= z < 2 ^ (bits - 1) -> wrap bits z = z.
Proof.
  intros Hb Hz. unfold wrap.
  assert (H2 : 2 ^ bits = 2 * 2 ^ (bits - 1)).
  { replace bits with (Z.succ (bits - 1)) at 1 by lia. apply Z.pow_succ_r. lia. }
  rewrite Z.mod_small by lia. lia.
Qed.

(** The step the rounding adds to the value, against the rounded quotient. *)
Lemma rounded_step (op : DecimalRoundOp) (v b d : Z) :
  0 < b -> Z.quot v b + d = rounded_quotient op v b -> - 1 <= d <= 1 ->
  v - Z.rem v b = b * Z.quot v b /\
  d * b - Z.rem v b = b * rounded_quotient op v b - v /\
  Z.abs (b * Z.quot v b) <= Z.abs v.
Proof.
  intros Hb Hd Hr. destruct (quot_rem_truncated v b Hb) as (Hv & Hp & Hn).
  rewrite <- Hd. split; [lia|]. split; [lia|].
  generalize dependent (Z.quot v b). generalize dependent (Z.rem v b). intros r Hp Hn q Hd Hv.
  destruct (Z.le_gt_cases 0 v).
  - assert (0 <= q) by nia. rewrite !Z.abs_eq by nia. lia.
  - assert (q <= 0) by nia. rewrite !Z.abs_neq by nia. lia.
Qed.

Lemma RoundDelta_unit (GSM : Z -> Z -> Z) (size v s t : Z) (op : DecimalRoundOp) :
  - 1 <= RoundDelta GSM size v s t op <= 1.
Proof.
  unfold RoundDelta.
  repeat match goal with |- context [if ?c then _ else _] => destruct c end; lia.
Qed.

(** The rounded value is within one multiplier of the value. *)
Lemma rounded_near (op : DecimalRoundOp) (v b : Z) :
  0 < b -> Z.even b = true -> Z.abs (b * rounded_quotient op v b - v) <= b.
Proof.
  intros Hb He.
  pose proof (quot_rem_truncated v b Hb) as Ht.
  pose proof Ht as (Hv & Hp & Hn).
  destruct op; cbn [rounded_quotient].
  - lia.
  - rewrite (floor_of_truncated _ _ _ _ Hb Ht). destruct (Z.ltb_spec (Z.rem v b) 0); lia.
  - rewrite (ceil_of_truncated _ _ _ _ Hb Ht). destruct (Z.ltb_spec 0 (Z.rem v b)); lia.
  - rewrite (round_of_truncated _ _ _ _ Hb Ht).
    destruct (Z.ltb_spec (2 * Z.abs (Z.rem v b)) b); [lia|].
    destruct (Z.ltb_spec v 0); lia.
Qed.

End RoundFacts.

(** Once the scale goes down, [RoundDelta] is what the quotient cut towards
    zero lacks to be the quotient the operation asks for: nothing for
    [TRUNCATE], the floor for [FLOOR], the ceiling for [CEIL] and, for
    [ROUND], the nearest integer, a half going away from zero. *)
Theorem RoundDelta_completes_truncation (GetScaleMultiplier : Z -> Z -> Z)
    (byte_size v src_scale target_scale : Z) (op : Decimal.DecimalRoundOp) :
  target_scale < src_scale ->
  GetScaleMultiplier byte_size (src_scale - target_scale) = 10 ^ (src_scale - target_scale) ->
  Z.quot v (10 ^ (src_scale - target_scale))
  + Decimal.RoundDelta GetScaleMultiplier byte_size v src_scale target_scale op
  = rounded_quotient op v (10 ^ (src_scale - target_scale)).
Proof.
  intros Hst HG.
  destruct (pow10_pos_even (src_scale - target_scale) ltac:(lia)) as [Hpos Hev].
  rewrite <- HG in Hpos, Hev |- *.
  apply RoundDelta_rounded; assumption.
Qed.

Lemma RoundDelta_completes_truncation_witness :
  Z.quot (- 12350) (10 ^ (3 - 1)) + Decimal.RoundDelta (fun _ k => 10 ^ k) 8 (- 12350) 3 1 Decimal.ROUND
  = rounded_quotient Decimal.ROUND (- 12350) (10 ^ (3 - 1)).
Proof.
  apply (RoundDelta_completes_truncation (fun _ k => 10 ^ k) 8 (- 12350) 3 1 Decimal.ROUND);
    [lia|reflexivity].
Defined.

Section NegativeScale.
Import Decimal.

Variable GetDecimalByteSize : Z -> Z.
Variable GetScaleMultiplier : Z -> Z -> Z.
Variable MAX_UNSCALED_DECIMAL16 : Z.
Variable ScaleTo : Z -> Z -> Z -> Z -> Z -> bool -> Z * bool.
Variable ToDecimal : Z -> Z -> Z -> bool -> Z * bool.

Lemma ScaleDecimalValue_size (val_byte_size val val_scale output_precision output_scale x : Z)
    (w : bool) :
  ScaleDecimalValue GetDecimalByteSize ScaleTo ToDecimal val_byte_size val val_scale
    output_precision output_scale = (Some x, w) ->
  GetDecimalByteSize output_precision = 4 \/ GetDecimalByteSize output_precision = 8 \/
  GetDecimalByteSize output_precision = 16.
Proof.
  clear GetScaleMultiplier MAX_UNSCALED_DECIMAL16.
  unfold ScaleDecimalValue.
  destruct (Z.eqb_spec (GetDecimalByteSize output_precision) 4); [tauto|].
  destruct (Z.eqb_spec (GetDecimalByteSize output_precision) 8); [tauto|].
  destruct (Z.eqb_spec (GetDecimalByteSize output_precision) 16); [tauto|].
  cbn. discriminate.
Qed.

Lemma negative_scale_delta (size x rs : Z) (op : DecimalRoundOp) :
  0 < rs <= 38 -> GetScaleMultiplier size rs = 10 ^ rs ->
  let b := 10 ^ rs in
  let d := RoundDelta GetScaleMultiplier size x 0 (int32 (- rs)) op in
  0 < b /\ Z.even b = true /\ - 1 <= d <= 1 /\
  x - Z.rem x b = b * Z.quot x b /\
  d * b - Z.rem x b = b * rounded_quotient op x b - x /\
  Z.abs (b * Z.quot x b) <= Z.abs x.
Proof.
  intros Hrs HG b d.
  destruct (pow10_pos_even rs ltac:(lia)) as [Hpos Hev]. fold b in Hpos, Hev.
  assert (H32 : int32 (- rs) = - rs) by (apply wrap_small; lia).
  assert (Hk : 0 - int32 (- rs) = rs) by lia.
  assert (Hd : Z.quot x b + d = rounded_quotient op x b).
  { unfold d, b. rewrite <- HG. rewrite <- Hk at 1 3.
    apply RoundDelta_rounded; rewrite ?Hk, ?HG; try lia; assumption. }
  split; [exact Hpos|]. split; [exact Hev|].
  split; [apply RoundDelta_unit|].
  apply (rounded_step op x b d Hpos Hd). apply RoundDelta_unit.
Qed.

Lemma round_in_place_small (size x rs : Z) (op : DecimalRoundOp) :
  size = 4 \/ size = 8 ->
  0 < rs <= 38 -> GetScaleMultiplier size rs = 10 ^ rs ->
  Z.abs x < 2 ^ (bits_of size - 1) -> 10 ^ rs < 2 ^ (bits_of size - 1) ->
  round_in_place GetScaleMultiplier MAX_UNSCALED_DECIMAL16 size x rs op
  = (Some (wrap (bits_of size) (10 ^ rs * rounded_quotient op x (10 ^ rs))), false).
Proof.
  intros Hsize Hrs HG Hx Hb.
  destruct (negative_scale_delta size x rs op Hrs HG) as (Hpos & _ & Hd & H1 & H2 & H3).
  unfold round_in_place. rewrite HG.
  set (d := RoundDelta GetScaleMultiplier size x 0 (int32 (- rs)) op) in *.
  set (b := 10 ^ rs) in *.
  assert (Hbits : 0 < bits_of size) by (unfold bits_of; lia).
  replace ((size =? 4) || (size =? 8)) with true
    by (destruct Hsize; subst size; reflexivity).
  rewrite H1.
  rewrite (wrap_small _ (b * Z.quot x b)) by lia.
  rewrite (wrap_small _ (d * b)) by nia.
  do 3 f_equal. lia.
Qed.

Lemma round_in_place_16 (x rs : Z) (op : DecimalRoundOp) :
  0 < rs <= 38 -> GetScaleMultiplier 16 rs = 10 ^ rs ->
  0 <= MAX_UNSCALED_DECIMAL16 < 2 ^ 127 -> Z.abs x < 2 ^ 127 ->
  let r := 10 ^ rs * rounded_quotient op x (10 ^ rs) in
  round_in_place GetScaleMultiplier MAX_UNSCALED_DECIMAL16 16 x rs op
  = if MAX_UNSCALED_DECIMAL16 <? Z.abs x + Z.abs (r - x) then (None, true)
    else (Some r, false).
Proof.
  intros Hrs HG HM Hx r.
  destruct (negative_scale_delta 16 x rs op Hrs HG) as (Hpos & Hev & Hd & H1 & H2 & H3).
  pose proof (rounded_near op x (10 ^ rs) Hpos Hev) as Hnear. fold r in Hnear, H2.
  assert (Hb : 10 ^ rs < 2 ^ 127).
  { apply Z.le_lt_trans with (10 ^ 38); [apply Z.pow_le_mono_r; lia|reflexivity]. }
  unfold round_in_place. rewrite HG.
  set (d := RoundDelta GetScaleMultiplier 16 x 0 (int32 (- rs)) op) in *.
  set (b := 10 ^ rs) in *.
  change ((16 =? 4) || (16 =? 8)) with false. change (16 =? 16) with true. cbv iota.
  unfold int128.
  rewrite (wrap_small 128 (d * b)) by (change (128 - 1) with 127; nia).
  rewrite H2.
  rewrite (wrap_small 128 (r - x)) by (change (128 - 1) with 127; lia).
  rewrite (wrap_small 128 (MAX_UNSCALED_DECIMAL16 - _)) by (change (128 - 1) with 127; lia).
  destruct (Z.ltb_spec (MAX_UNSCALED_DECIMAL16 - Z.abs (r - x)) (Z.abs x));
    destruct (Z.ltb_spec MAX_UNSCALED_DECIMAL16 (Z.abs x + Z.abs (r - x))); try lia.
  - reflexivity.
  - rewrite wrap_small by (change (128 - 1) with 127; lia). do 3 f_equal. lia.
Qed.

End NegativeScale.

(** A context for decimals of up to 38 digits: four bytes hold nine digits,
    eight bytes eighteen; scaling multiplies or divides by the power of
    ten, the quotient cut towards zero; a conversion keeps the value. *)
Definition example_GetDecimalByteSize (precision : Z) : Z :=
  if precision <=? 9 then 4 else if precision <=? 18 then 8 else 16.

Definition example_ScaleTo (size v src_scale dst_scale dst_precision : Z) (overflow : bool)
  : Z * bool :=
  let scaled := if src_scale <=? dst_scale then v * 10 ^ (dst_scale - src_scale)
                else Z.quot v (10 ^ (src_scale - dst_scale)) in
  (scaled, overflow || (10 ^ dst_precision <=? Z.abs scaled)).

Definition example_ToDecimal (from to v : Z) (overflow : bool) : Z * bool := (v, overflow).

(** [RoundDecimalNegativeScale], once the cast has given the value [x] of
    the output type: with [r] the multiple of [10^rounding_scale] that the
    operation picks for [x], a result of four or eight bytes is [r] in the
    arithmetic of its type; a result of sixteen bytes is [r], unless
    [|x| + |r - x|] exceeds [MAX_UNSCALED_DECIMAL16], in which case the
    function warns and returns NULL; so a value it returns is never beyond
    that maximum. *)
Theorem RoundDecimalNegativeScale_rounds_to_multiple
    (GetDecimalByteSize : Z -> Z) (GetScaleMultiplier : Z -> Z -> Z)
    (MAX_UNSCALED_DECIMAL16 : Z)
    (ScaleTo : Z -> Z -> Z -> Z -> Z -> bool -> Z * bool)
    (ToDecimal : Z -> Z -> Z -> bool -> Z * bool)
    (v val_precision val_scale output_precision output_scale : Z)
    (op : Decimal.DecimalRoundOp) (rounding_scale x : Z) (w : bool) :
  let val_size := GetDecimalByteSize val_precision in
  let size := GetDecimalByteSize output_precision in
  let r := 10 ^ rounding_scale * rounded_quotient op x (10 ^ rounding_scale) in
  val_size = 4 \/ val_size = 8 \/ val_size = 16 ->
  Decimal.ScaleDecimalValue GetDecimalByteSize ScaleTo ToDecimal val_size v val_scale
    output_precision output_scale = (Some x, w) ->
  0 < rounding_scale <= 38 ->
  GetScaleMultiplier size rounding_scale = 10 ^ rounding_scale ->
  Z.abs x < 2 ^ (Decimal.bits_of size - 1) -> 10 ^ rounding_scale < 2 ^ (Decimal.bits_of size - 1) ->
  0 <= MAX_UNSCALED_DECIMAL16 < 2 ^ 127 ->
  let returned := Decimal.RoundDecimalNegativeScale GetDecimalByteSize GetScaleMultiplier
                    MAX_UNSCALED_DECIMAL16 ScaleTo ToDecimal (Some v) val_precision
                    val_scale output_precision output_scale op rounding_scale in
  returned =
    (if size =? 16
     then if MAX_UNSCALED_DECIMAL16 <? Z.abs x + Z.abs (r - x) then (None, true)
          else (Some r, false)
     else (Some (Decimal.wrap (Decimal.bits_of size) r), false))
  /\ (size = 16 -> forall y, fst returned = Some y -> Z.abs y <= MAX_UNSCALED_DECIMAL16).
Proof.
  intros val_size size r Hvs Hscale Hrs HG Hx Hb HM returned.
  assert (Hret : returned =
    Decimal.round_in_place GetScaleMultiplier MAX_UNSCALED_DECIMAL16 size x rounding_scale op).
  { unfold returned, Decimal.RoundDecimalNegativeScale. fold val_size.
    replace ((val_size =? 4) || (val_size =? 8) || (val_size =? 16)) with true
      by (destruct Hvs as [->|[->| ->]]; reflexivity).
    rewrite Hscale. reflexivity. }
  assert (Heq : returned =
    (if size =? 16
     then if MAX_UNSCALED_DECIMAL16 <? Z.abs x + Z.abs (r - x) then (None, true)
          else (Some r, false)
     else (Some (Decimal.wrap (Decimal.bits_of size) r), false))).
  { rewrite Hret.
    pose proof Hscale as Hs. apply ScaleDecimalValue_size in Hs. fold size in Hs.
    destruct Hs as [Hs|[Hs|Hs]]; rewrite Hs in *.
    - apply round_in_place_small; auto.
    - apply round_in_place_small; auto.
    - apply round_in_place_16; auto. }
  split; [exact Heq|].
  intros Hs y Hy. rewrite Heq, Hs in Hy. change (16 =? 16) with true in Hy. cbv iota in Hy.
  destruct (Z.ltb_spec MAX_UNSCALED_DECIMAL16 (Z.abs x + Z.abs (r - x))) as [Hlt|Hle];
    cbn in Hy; [discriminate|].
  inversion Hy; subst y. lia.
Qed.

(** Cutting the largest decimal of 38 digits to tens is reported as an
    overflow. *)
Lemma RoundDecimalNegativeScale_rounds_to_multiple_witness :
  let x := 10 ^ 38 - 1 in
  let r := 10 ^ 1 * rounded_quotient Decimal.TRUNCATE x (10 ^ 1) in
  let returned := Decimal.RoundDecimalNegativeScale example_GetDecimalByteSize (fun _ k => 10 ^ k)
                    (10 ^ 38 - 1) example_ScaleTo example_ToDecimal (Some (10 ^ 38 - 1))
                    38 0 38 0 Decimal.TRUNCATE 1 in
  returned = (None, true)
  /\ (16 = 16 -> forall y, fst returned = Some y -> Z.abs y <= 10 ^ 38 - 1).
Proof.
  refine (RoundDecimalNegativeScale_rounds_to_multiple example_GetDecimalByteSize
            (fun _ k => 10 ^ k) (10 ^ 38 - 1) example_ScaleTo example_ToDecimal
            (10 ^ 38 - 1) 38 0 38 0 Decimal.TRUNCATE 1 (10 ^ 38 - 1) false _ _ _ _ _ _ _).
  - right; right; reflexivity.
  - reflexivity.
  - lia.
  - reflexivity.
  - reflexivity.
  - reflexivity.
  - split; [discriminate|reflexivity].
Defined.

(** ** Where the partitions go at the end of the probe phase *)

Section JoinCleanUpFacts.
Import Runtime Join JoinCleanUp.

Variable sizeof_Bucket : Z.
Variable TupleRow : Type.
Variable rows_of : Stream -> list TupleRow.
Variable EvalConjuncts : TupleRow -> TupleRow -> bool.
Variable FirstUnmatched : HashTable -> Z.

Lemma some_build_row_matches_existsb (probe_row : TupleRow) (build_rows : list TupleRow) :
  some_build_row_matches TupleRow EvalConjuncts probe_row build_rows
  = existsb (EvalConjuncts probe_row) build_rows.
Proof.
  induction build_rows as [|b rest IH]; cbn; [reflexivity|].
  rewrite IH. destruct (EvalConjuncts probe_row b); reflexivity.
Qed.

Lemma match_null_probe_spec (build_rows : list TupleRow) :
  forall (probe_rows : list TupleRow) (i : nat) (matched : list bool),
    let r := match_null_probe TupleRow EvalConjuncts probe_rows build_rows i matched in
    length r = length matched /\
    (forall j, (j < i)%nat -> r !! j = matched !! j) /\
    (forall k probe_row m, probe_rows !! k = Some probe_row ->
       matched !! (i + k)%nat = Some m ->
       r !! (i + k)%nat = Some (m || existsb (EvalConjuncts probe_row) build_rows)) /\
    (forall j, (i + length probe_rows <= j)%nat -> r !! j = matched !! j).
Proof.
  induction probe_rows as [|pr rest IH]; intros i matched; cbn [match_null_probe length].
  - cbn zeta. split; [reflexivity|]. split; [auto|]. split; [|auto].
    intros k probe_row m Hk. rewrite lookup_nil in Hk. discriminate.
  - rewrite some_build_row_matches_existsb.
    set (found := existsb (EvalConjuncts pr) build_rows).
    assert (Hnext : exists matched1,
      (if (matched !!! i : bool)
       then match_null_probe TupleRow EvalConjuncts rest build_rows (S i) matched
       else if found
            then match_null_probe TupleRow EvalConjuncts rest build_rows (S i)
                   (<[i:=true]> matched)
            else match_null_probe TupleRow EvalConjuncts rest build_rows (S i) matched)
      = match_null_probe TupleRow EvalConjuncts rest build_rows (S i) matched1
      /\ length matched1 = length matched
      /\ (forall j, j <> i -> matched1 !! j = matched !! j)
      /\ (forall m, matched !! i = Some m -> matched1 !! i = Some (m || found))).
    { destruct (matched !!! i) eqn:Hm.
      - exists matched. repeat split; auto. intros m Hi.
        rewrite (list_lookup_total_correct _ _ _ Hi) in Hm. subst m. exact Hi.
      - destruct found.
        + exists (<[i:=true]> matched). split; [reflexivity|].
          split; [apply length_insert|]. split.
          * intros j Hj. apply list_lookup_insert_ne. auto.
          * intros m Hi. rewrite orb_true_r. apply list_lookup_insert_eq.
            apply lookup_lt_Some in Hi. exact Hi.
        + exists matched. repeat split; auto. intros m Hi. rewrite orb_false_r. exact Hi. }
    destruct Hnext as (matched1 & -> & Hl1 & Hother & Hat).
    destruct (IH (S i) matched1) as (Hl & Hbefore & Hin & Hafter).
    cbn zeta. split; [lia|]. split; [|split].
    + intros j Hj. rewrite Hbefore by lia. apply Hother. lia.
    + intros [|k] probe_row m Hk Hm; cbn in Hk.
      * inversion Hk; subst probe_row. rewrite Nat.add_0_r in *.
        rewrite Hbefore by lia. apply Hat. exact Hm.
      * replace (i + S k)%nat with (S i + k)%nat in * by lia.
        apply Hin; [exact Hk|]. rewrite Hother by lia. exact Hm.
    + intros j Hj. rewrite Hafter by lia. apply Hother. lia.
Qed.

(** A stream after a successful [UnpinStream(true)]. *)
Definition unpinned (s : Stream) : Stream :=
  Streams.mkStream (Streams.num_rows s) (Streams.using_small_buffers s) false false true
                   (Streams.stream_closed s).

Lemma UnpinStream_all_ok (s : Stream) (w : World) :
  let r := Streams.UnpinStream true s w in
  ok (fst (fst r)) = true -> snd (fst r) = unpinned s.
Proof.
  unfold Streams.UnpinStream, ask, unpinned.
  destruct (answers w (calls w)); cbn; intros H; try discriminate;
    rewrite andb_false_r, orb_true_r; reflexivity.
Qed.

(** A spilled partition once the clean-up has unpinned its two streams. *)
Definition unpin_both (p : Partition) : Partition :=
  let p1 := set_build_rows p
              (Some (unpinned (default (Streams.new_stream true) (build_rows_ p)))) in
  set_probe_rows p1
    (Some (unpinned (default (Streams.new_stream true) (probe_rows_ p1)))).

Definition to_requeue (p : Partition) : bool := negb (is_closed_ p) && is_spilled_ p.
Definition in_memory (p : Partition) : bool := negb (is_closed_ p) && negb (is_spilled_ p).

Lemma EvaluateNullProbe_frame (build : Stream) (nd : Node) (w : World) :
  let r := EvaluateNullProbe TupleRow rows_of EvalConjuncts build nd w in
  join (snd (fst r)) = join nd /\
  join_op_ (snd (fst r)) = join_op_ nd /\
  output_build_partitions_ (snd (fst r)) = output_build_partitions_ nd /\
  null_probe_rows_ (snd (fst r)) = null_probe_rows_ nd.
Proof.
  unfold EvaluateNullProbe, GetRows, ask.
  destruct (null_probe_rows_ nd) as [s|] eqn:Hs; [|cbn; rewrite ?Hs; auto].
  destruct (_ =? 0); [cbn; rewrite ?Hs; auto|].
  destruct (answers w (calls w)); cbn [fst snd]; try (cbn; rewrite ?Hs; auto; fail).
  destruct (answers _ _); cbn; rewrite ?Hs; auto.
Qed.

Lemma close_hash_partition_frame (i : nat) (p : Partition) (nd : Node)
    (batch : option RowBatch) (w : World) :
  let r := close_hash_partition sizeof_Bucket i p nd batch w in
  let nd' := fst (fst r) in
  join_op_ nd' = join_op_ nd /\
  length (hash_partitions_ (join nd')) = length (hash_partitions_ (join nd)) /\
  (forall j, j <> i ->
     hash_partitions_ (join nd') !! j = hash_partitions_ (join nd) !! j) /\
  spilled_partitions_ (join nd') = spilled_partitions_ (join nd) /\
  output_build_partitions_ nd' = output_build_partitions_ nd /\
  null_probe_rows_ nd' = null_probe_rows_ nd.
Proof.
  unfold close_hash_partition, Partition_Close.
  destruct (is_closed_ p).
  - cbn. rewrite length_insert. repeat split; auto.
    intros j Hj. apply list_lookup_insert_ne. auto.
  - cbn [set_is_closed hash_tbl_].
    destruct (hash_tbl_ p) as [ht|].
    + destruct (HashTbl.Close sizeof_Bucket ht w) as [ht' w'].
      cbn. rewrite length_insert. repeat split; auto.
      intros j Hj. apply list_lookup_insert_ne. auto.
    + cbn. rewrite length_insert. repeat split; auto.
      intros j Hj. apply list_lookup_insert_ne. auto.
Qed.

Lemma clean_up_partition_step (i : nat) (nd : Node) (batch : option RowBatch) (w : World)
    (p : Partition) (nd' : Node) (batch' : option RowBatch) (w' : World) :
  hash_partitions_ (join nd) !! i = Some p ->
  clean_up_partition sizeof_Bucket TupleRow rows_of EvalConjuncts FirstUnmatched i nd batch w
  = (Ok, nd', batch', w') ->
  join_op_ nd' = join_op_ nd /\
  length (hash_partitions_ (join nd')) = length (hash_partitions_ (join nd)) /\
  (forall j, j <> i ->
     hash_partitions_ (join nd') !! j = hash_partitions_ (join nd) !! j) /\
  spilled_partitions_ (join nd')
  = (if to_requeue p then [unpin_both p] else []) ++ spilled_partitions_ (join nd) /\
  output_build_partitions_ nd'
  = output_build_partitions_ nd
    ++ (if in_memory p && keeps_build_rows (join_op_ nd) then [p] else []) /\
  null_probe_rows_ nd' = null_probe_rows_ nd.
Proof.
  intros Hp. unfold clean_up_partition. rewrite Hp. unfold to_requeue, in_memory.
  destruct (is_closed_ p) eqn:Hc; cbn [negb andb].
  { intros H. inversion H; subst. rewrite app_nil_r. repeat split; auto. }
  destruct (is_spilled_ p) eqn:Hsp; cbn [negb andb].
  - pose proof (UnpinStream_all_ok (default (Streams.new_stream true) (build_rows_ p)) w) as H1.
    destruct (Streams.UnpinStream true _ w) as [[s1 build1] w1]. cbn [fst snd] in H1.
    destruct (ok s1); cbn [negb]; [|discriminate]. specialize (H1 eq_refl). subst build1.
    cbn [probe_rows_ set_build_rows].
    pose proof (UnpinStream_all_ok (default (Streams.new_stream true) (probe_rows_ p)) w1) as H2.
    destruct (Streams.UnpinStream true _ w1) as [[s2 probe1] w2]. cbn [fst snd] in H2.
    destruct (ok s2); cbn [negb]; [|discriminate]. specialize (H2 eq_refl). subst probe1.
    intros H. inversion H; subst. cbn. rewrite length_insert, app_nil_r.
    repeat split; auto. intros j Hj. apply list_lookup_insert_ne. auto.
  - destruct (keeps_build_rows (join_op_ nd)) eqn:Hk.
    + destruct (output_build_partitions_ nd) as [|q out] eqn:Hout;
        intros H; inversion H; subst; cbn; rewrite ?Hout; repeat split; auto.
    + rewrite app_nil_r.
      assert (Hclose : forall nd0 w0,
                join_op_ nd0 = join_op_ nd -> join nd0 = join nd ->
                output_build_partitions_ nd0 = output_build_partitions_ nd ->
                null_probe_rows_ nd0 = null_probe_rows_ nd ->
                (let '(nd2, batch2, w2) :=
                   close_hash_partition sizeof_Bucket i p nd0 batch w0 in
                 (Ok, nd2, batch2, w2)) = (Ok, nd', batch', w') ->
                join_op_ nd' = join_op_ nd /\
                length (hash_partitions_ (join nd')) = length (hash_partitions_ (join nd)) /\
                (forall j, j <> i ->
                   hash_partitions_ (join nd') !! j = hash_partitions_ (join nd) !! j) /\
                spilled_partitions_ (join nd') = [] ++ spilled_partitions_ (join nd) /\
                output_build_partitions_ nd' = output_build_partitions_ nd /\
                null_probe_rows_ nd' = null_probe_rows_ nd).
      { intros nd0 w0 Ho Hj Hout Hn.
        pose proof (close_hash_partition_frame i p nd0 batch w0) as Hf.
        destruct (close_hash_partition sizeof_Bucket i p nd0 batch w0) as [[nd2 batch2] w2].
        cbn [fst snd] in Hf. cbv zeta in Hf.
        intros H. inversion H; subst. rewrite <- Ho, <- Hj, <- Hout, <- Hn. exact Hf. }
      destruct (join_op_ nd) eqn:Hop; try discriminate Hk;
        try (apply (Hclose nd w); auto; fail).
      pose proof (EvaluateNullProbe_frame (default (Streams.new_stream true) (build_rows_ p))
                    nd w) as Hf.
      destruct (EvaluateNullProbe _ _ _ _ _ _) as [[o nd1] w1]. cbn [fst snd] in Hf.
      destruct Hf as (Hj & Ho & Hout & Hn).
      destruct o; try discriminate.
      apply (Hclose nd1 w1); congruence.
Qed.

End JoinCleanUpFacts.

Section JoinCleanUpLoop.
Import Runtime Join JoinCleanUp.

Variable sizeof_Bucket : Z.
Variable TupleRow : Type.
Variable rows_of : Stream -> list TupleRow.
Variable EvalConjuncts : TupleRow -> TupleRow -> bool.
Variable FirstUnmatched : HashTable -> Z.

Lemma clean_up_each_spec (hps0 : list Partition) (op : TJoinOp) :
  forall (k i : nat) (nd : Node) (batch : option RowBatch) (w : World)
         (nd' : Node) (batch' : option RowBatch) (w' : World),
    (i + k = length hps0)%nat ->
    join_op_ nd = op ->
    length (hash_partitions_ (join nd)) = length hps0 ->
    (forall j, (i <= j)%nat -> hash_partitions_ (join nd) !! j = hps0 !! j) ->
    clean_up_each sizeof_Bucket TupleRow rows_of EvalConjuncts FirstUnmatched
      (seq i k) nd batch w = (Ok, nd', batch', w') ->
    join_op_ nd' = op /\
    spilled_partitions_ (join nd')
    = rev (map unpin_both (List.filter to_requeue (drop i hps0)))
      ++ spilled_partitions_ (join nd) /\
    output_build_partitions_ nd'
    = output_build_partitions_ nd
      ++ (if keeps_build_rows op then List.filter in_memory (drop i hps0) else []) /\
    null_probe_rows_ nd' = null_probe_rows_ nd.
Proof.
  induction k as [|k IH]; intros i nd batch w nd' batch' w' Hik Hop Hlen Hsame;
    cbn [seq clean_up_each].
  - intros H. inversion H; subst. rewrite drop_ge by lia. cbn.
    destruct (keeps_build_rows _); rewrite app_nil_r; auto.
  - destruct (lookup_lt_is_Some_2 hps0 i ltac:(lia)) as [p Hp].
    assert (Hpi : hash_partitions_ (join nd) !! i = Some p) by (rewrite Hsame by lia; exact Hp).
    destruct (clean_up_partition _ _ _ _ _ _ _ _ _) as [[[o nd1] batch1] w1] eqn:Hstep.
    destruct o; try discriminate.
    destruct (clean_up_partition_step sizeof_Bucket TupleRow rows_of EvalConjuncts
                FirstUnmatched i nd batch w p nd1 batch1 w1 Hpi Hstep)
      as (Hop1 & Hlen1 & Hother & Hsp & Hout & Hnull).
    intros Hrest.
    destruct (IH (S i) nd1 batch1 w1 nd' batch' w') as (Hop2 & Hsp2 & Hout2 & Hnull2);
      [lia|congruence|congruence| |exact Hrest|].
    { intros j Hj. rewrite Hother by lia. apply Hsame. lia. }
    rewrite (drop_S _ _ _ Hp). cbn [List.filter].
    split; [exact Hop2|]. split; [|split; [|congruence]].
    + rewrite Hsp2, Hsp. destruct (to_requeue p); cbn [map rev app].
      * rewrite <- app_assoc. reflexivity.
      * reflexivity.
    + rewrite Hout2, Hout, Hop. unfold in_memory at 2.
      destruct (keeps_build_rows op); rewrite ?andb_true_r, ?andb_false_r.
      * fold (in_memory p). destruct (in_memory p); cbn [app]; rewrite <- app_assoc; reflexivity.
      * rewrite !app_nil_r. reflexivity.
Qed.

End JoinCleanUpLoop.

(** Two rows of NULL probe keys against three build rows; the conjunct is
    the equality of the numbers. *)
Definition example_null_probe_rows : Streams.Stream :=
  Streams.mkStream 2 false true true false false.
Definition example_naaj_build_rows : Streams.Stream :=
  Streams.mkStream 3 false true true false false.
Definition example_rows_of (s : Streams.Stream) : list Z :=
  if Streams.num_rows s =? 2 then [1; 5] else [5; 7; 9].

Definition example_naaj_node : JoinCleanUp.Node :=
  JoinCleanUp.mkNode example_join_node JoinCleanUp.NULL_AWARE_LEFT_ANTI_JOIN [] None
    (Some example_null_probe_rows) [false; false].

(** When [EvaluateNullProbe] returns OK after looking at the rows, the
    flag of a NULL probe row is set exactly when it was set before or some
    row of the build stream satisfies the join conjuncts with that row; no
    flag is cleared, and the flags beyond the probe rows stay. *)
Theorem EvaluateNullProbe_marks_matched_rows (TupleRow : Type)
    (rows_of : Streams.Stream -> list TupleRow)
    (EvalConjuncts : TupleRow -> TupleRow -> bool)
    (build probe : Streams.Stream) (nd nd' : JoinCleanUp.Node) (w w' : Runtime.World) :
  JoinCleanUp.null_probe_rows_ nd = Some probe ->
  Streams.num_rows probe <> 0 ->
  (length (rows_of probe) <= length (JoinCleanUp.matched_null_probe_ nd))%nat ->
  JoinCleanUp.EvaluateNullProbe TupleRow rows_of EvalConjuncts build nd w
  = (JoinCleanUp.Ok, nd', w') ->
  length (JoinCleanUp.matched_null_probe_ nd') = length (JoinCleanUp.matched_null_probe_ nd) /\
  forall i m, JoinCleanUp.matched_null_probe_ nd !! i = Some m ->
    JoinCleanUp.matched_null_probe_ nd' !! i
    = Some (m || match rows_of probe !! i with
                 | Some probe_row => existsb (EvalConjuncts probe_row) (rows_of build)
                 | None => false
                 end).
Proof.
  intros Hprobe Hrows Hlen. unfold JoinCleanUp.EvaluateNullProbe. rewrite Hprobe.
  destruct (Z.eqb_spec (Streams.num_rows probe) 0) as [H0|_]; [contradiction|].
  unfold JoinCleanUp.GetRows, Runtime.ask.
  destruct (Runtime.answers w (Runtime.calls w)); cbn [fst snd]; try discriminate.
  destruct (Runtime.answers _ _); cbn [fst snd]; try discriminate.
  intros H. inversion H; subst nd' w'. clear H.
  cbn [JoinCleanUp.matched_null_probe_ JoinCleanUp.set_matched_null_probe].
  destruct (match_null_probe_spec TupleRow EvalConjuncts (rows_of build) (rows_of probe) 0
              (JoinCleanUp.matched_null_probe_ nd)) as (Hl & _ & Hin & Hafter).
  split; [exact Hl|]. intros i m Hm.
  destruct (rows_of probe !! i) as [pr|] eqn:Hi.
  - apply (Hin i pr m Hi Hm).
  - rewrite orb_false_r, Hafter; [exact Hm|].
    apply lookup_ge_None in Hi. cbn. lia.
Qed.

Lemma EvaluateNullProbe_marks_matched_rows_witness :
  let r := JoinCleanUp.EvaluateNullProbe Z example_rows_of Z.eqb example_naaj_build_rows
             example_naaj_node (example_world Runtime.Yes) in
  JoinCleanUp.matched_null_probe_ (snd (fst r)) = [false; true] /\
  length (JoinCleanUp.matched_null_probe_ (snd (fst r))) = 2%nat /\
  forall i m, JoinCleanUp.matched_null_probe_ example_naaj_node !! i = Some m ->
    JoinCleanUp.matched_null_probe_ (snd (fst r)) !! i
    = Some (m || match example_rows_of example_null_probe_rows !! i with
                 | Some probe_row => existsb (Z.eqb probe_row)
                                       (example_rows_of example_naaj_build_rows)
                 | None => false
                 end).
Proof.
  split; [reflexivity|].
  refine (EvaluateNullProbe_marks_matched_rows Z example_rows_of Z.eqb
            example_naaj_build_rows example_null_probe_rows example_naaj_node _
            (example_world Runtime.Yes) _ eq_refl _ _ eq_refl).
  - discriminate.
  - cbn. lia.
Defined.

(** A node at the end of the probe phase of a right outer join: a resident
    partition, a spilled one, a closed one and another spilled one. *)
Definition example_probed_node : JoinCleanUp.Node :=
  JoinCleanUp.mkNode
    (Join.mkJoinNode Join.PROCESSING_PROBE 0
       [example_join_partition 4 true; example_spilled_join_partition 1 10;
        Join.set_is_closed (Join.new_Partition 1) true;
        example_spilled_join_partition 1 20]
       [] [example_spilled_join_partition 0 7] None (fun _ => 0))
    JoinCleanUp.RIGHT_OUTER_JOIN [] None None [].

(** When [CleanUpHashPartitions] returns OK, every hash partition that was
    open has gone to exactly one place: the spilled ones, both streams
    unpinned, are at the front of [spilled_partitions_], the last of them
    first; the others are at the back of [output_build_partitions_], in
    their order, when the join has to hand out build rows (right outer,
    right anti, full outer), and are closed otherwise; [hash_partitions_] is
    empty and there is no input partition. *)
Theorem CleanUpHashPartitions_sorts_partitions (sizeof_Bucket : Z) (TupleRow : Type)
    (rows_of : Streams.Stream -> list TupleRow)
    (EvalConjuncts : TupleRow -> TupleRow -> bool)
    (FirstUnmatched : HashTbl.HashTable -> Z)
    (batch batch' : option Join.RowBatch) (nd nd' : JoinCleanUp.Node)
    (w w' : Runtime.World) :
  JoinCleanUp.CleanUpHashPartitions sizeof_Bucket TupleRow rows_of EvalConjuncts
    FirstUnmatched batch nd w = (JoinCleanUp.Ok, nd', batch', w') ->
  let hps := Join.hash_partitions_ (JoinCleanUp.join nd) in
  Join.hash_partitions_ (JoinCleanUp.join nd') = [] /\
  Join.input_partition_ (JoinCleanUp.join nd') = None /\
  Join.spilled_partitions_ (JoinCleanUp.join nd')
  = rev (map unpin_both (List.filter to_requeue hps))
    ++ Join.spilled_partitions_ (JoinCleanUp.join nd) /\
  JoinCleanUp.output_build_partitions_ nd'
  = JoinCleanUp.output_build_partitions_ nd
    ++ (if JoinCleanUp.keeps_build_rows (JoinCleanUp.join_op_ nd)
        then List.filter in_memory hps else []).
Proof.
  intros H hps. unfold JoinCleanUp.CleanUpHashPartitions in H.
  destruct (JoinCleanUp.clean_up_each _ _ _ _ _ _ _ _ _) as [[[o nd1] batch1] w1] eqn:Hloop.
  destruct o; try discriminate.
  destruct (clean_up_each_spec sizeof_Bucket TupleRow rows_of EvalConjuncts FirstUnmatched
              hps (JoinCleanUp.join_op_ nd) (length hps) 0 nd batch w nd1 batch1 w1)
    as (Hop & Hsp & Hout & Hnull); auto.
  rewrite drop_0 in Hsp, Hout.
  destruct (JoinCleanUp.null_probe_rows_ nd1) as [s|].
  - destruct (Streams.UnpinStream false s w1) as [[st s'] w2].
    destruct (Runtime.ok st); cbn [negb] in H; [|discriminate].
    inversion H; subst. cbn. auto.
  - cbn in H. inversion H; subst. cbn. auto.
Qed.

Lemma CleanUpHashPartitions_sorts_partitions_witness :
  let r := JoinCleanUp.CleanUpHashPartitions 16 Z example_rows_of Z.eqb (fun _ => 0) None
             example_probed_node (example_world Runtime.Yes) in
  let nd' := snd (fst (fst r)) in
  map Join.level_ (Join.spilled_partitions_ (JoinCleanUp.join nd')) = [1; 1; 0] /\
  map (fun p => option_map Streams.num_rows (Join.build_rows_ p))
      (Join.spilled_partitions_ (JoinCleanUp.join nd')) = [Some 20; Some 10; Some 7] /\
  Join.hash_partitions_ (JoinCleanUp.join nd') = [] /\
  Join.input_partition_ (JoinCleanUp.join nd') = None /\
  Join.spilled_partitions_ (JoinCleanUp.join nd')
  = rev (map unpin_both
           (List.filter to_requeue
              (Join.hash_partitions_ (JoinCleanUp.join example_probed_node))))
    ++ Join.spilled_partitions_ (JoinCleanUp.join example_probed_node) /\
  JoinCleanUp.output_build_partitions_ nd'
  = JoinCleanUp.output_build_partitions_ example_probed_node
    ++ (if JoinCleanUp.keeps_build_rows (JoinCleanUp.join_op_ example_probed_node)
        then List.filter in_memory
               (Join.hash_partitions_ (JoinCleanUp.join example_probed_node))
        else []).
Proof.
  intros r nd'.
  assert (E : JoinCleanUp.CleanUpHashPartitions 16 Z example_rows_of Z.eqb (fun _ => 0) None
                example_probed_node (example_world Runtime.Yes)
              = (JoinCleanUp.Ok, nd', snd (fst r), snd r)) by (vm_compute; reflexivity).
  split; [vm_compute; reflexivity|]. split; [vm_compute; reflexivity|].
  exact (CleanUpHashPartitions_sorts_partitions 16 Z example_rows_of Z.eqb (fun _ => 0)
           None (snd (fst r)) example_probed_node nd' (example_world Runtime.Yes) (snd r) E).
Defined.

(** ** The string data of the grouping values *)

Section AggTupleFacts.
Import AggTuple.

Variable StringValue_at : list Z -> StringValue.
Variable set_ptr : list Z -> Z -> list Z.
Variable ExprValue : nat -> list Z.
Variable ExprValueNull : nat -> bool.
Variable slot_size : nat -> nat.

(** The string of a grouping expression in the cache, and the bytes of
    string data that the expressions [idxs] have between them. *)
Definition cached_string (idx : nat) : StringValue := StringValue_at (ExprValue idx).

Fixpoint string_bytes (idxs : list nat) : Z :=
  match idxs with
  | [] => 0
  | idx :: rest =>
      (if ExprValueNull idx then 0 else len (cached_string idx)) + string_bytes rest
  end.

Definition lengths_ok (idxs : list nat) : Prop :=
  Forall (fun idx => ExprValueNull idx = false -> 0 <= len (cached_string idx)) idxs.

Lemma string_bytes_nonneg (idxs : list nat) : lengths_ok idxs -> 0 <= string_bytes idxs.
Proof.
  induction 1 as [|idx rest H _ IH]; cbn [string_bytes]; [lia|].
  destruct (ExprValueNull idx); [lia|]. specialize (H eq_refl). lia.
Qed.

Lemma int_small (z : Z) : - 2 ^ 31 <= z < 2 ^ 31 -> int z = z.
Proof. intros H. unfold int. rewrite Z.mod_small; lia. Qed.

Lemma varlen_size_sum (idxs : list nat) :
  lengths_ok idxs ->
  forall acc, 0 <= acc -> acc + string_bytes idxs < 2 ^ 31 ->
    foldl (fun varlen_size expr_idx =>
             let sv := StringValue_at (ExprValue expr_idx) in
             int (varlen_size + int (len sv * (if ExprValueNull expr_idx then 0 else 1))))
          acc idxs
    = acc + string_bytes idxs.
Proof.
  induction 1 as [|idx rest H Hrest IH]; intros acc Hacc Hfit; cbn [foldl string_bytes] in *.
  - lia.
  - pose proof (string_bytes_nonneg rest Hrest) as Hnn.
    fold (cached_string idx). cbv zeta.
    destruct (ExprValueNull idx).
    + rewrite Z.mul_0_r, (int_small 0), Z.add_0_r, (int_small acc) by lia.
      rewrite IH by lia. lia.
    + specialize (H eq_refl). rewrite Z.mul_1_r.
      rewrite (int_small (len (cached_string idx))) by lia.
      rewrite int_small by lia. rewrite IH by lia. lia.
Qed.

Lemma copy_grouping_slots_spec :
  forall (n s : nat) (t : Tuple),
    let t' := foldl (copy_grouping_slot ExprValue ExprValueNull slot_size) t (seq s n) in
    length (slots t') = length (slots t) /\
    length (null_indicators t') = length (null_indicators t) /\
    (forall i, (s <= i < s + n)%nat -> ExprValueNull i = false ->
       (i < length (slots t))%nat ->
       slots t' !! i = Some (take (slot_size i) (ExprValue i))) /\
    (forall i, (i < s \/ s + n <= i)%nat \/ ExprValueNull i = true ->
       slots t' !! i = slots t !! i) /\
    (forall i, (s <= i < s + n)%nat -> ExprValueNull i = true ->
       (i < length (null_indicators t))%nat -> null_indicators t' !! i = Some true) /\
    (forall i, (i < s \/ s + n <= i)%nat \/ ExprValueNull i = false ->
       null_indicators t' !! i = null_indicators t !! i).
Proof.
  induction n as [|n IH]; intros s t; cbn [seq foldl].
  - cbn zeta. repeat split; auto; intros; lia.
  - specialize (IH (S s) (copy_grouping_slot ExprValue ExprValueNull slot_size t s)).
    cbn zeta in IH |- *.
    destruct IH as (Hl & Hn & Hset & Hkeep & Hnull & Hnkeep).
    set (t' := foldl _ _ _) in *.
    unfold copy_grouping_slot in Hl, Hn, Hset, Hkeep, Hnull, Hnkeep.
    destruct (ExprValueNull s) eqn:Hs; cbn [slots null_indicators] in *;
      rewrite ?length_insert in *.
    + split; [exact Hl|]. split; [exact Hn|]. split; [|split; [|split]].
      * intros i Hi Hf Hlt. apply Hset; auto.
        destruct (decide (i = s)) as [->|]; [congruence|lia].
      * intros i Hi. destruct (decide (i = s)) as [->|Hne].
        -- apply Hkeep. left. lia.
        -- apply Hkeep. destruct Hi as [Hi|Hi]; [left; lia|right; exact Hi].
      * intros i Hi Ht Hlt. destruct (decide (i = s)) as [->|Hne].
        -- rewrite Hnkeep by (left; lia). apply list_lookup_insert_eq. exact Hlt.
        -- apply Hnull; auto. lia.
      * intros i Hi. destruct (decide (i = s)) as [->|Hne].
        -- destruct Hi as [Hi|Hi]; [lia|congruence].
        -- rewrite Hnkeep by (destruct Hi as [Hi|Hi]; [left; lia|right; exact Hi]).
           apply list_lookup_insert_ne. auto.
    + split; [exact Hl|]. split; [exact Hn|]. split; [|split; [|split]].
      * intros i Hi Hf Hlt. destruct (decide (i = s)) as [->|Hne].
        -- rewrite Hkeep by (left; lia). apply list_lookup_insert_eq. exact Hlt.
        -- apply Hset; auto. lia.
      * intros i Hi. destruct (decide (i = s)) as [->|Hne].
        -- destruct Hi as [Hi|Hi]; [lia|congruence].
        -- rewrite Hkeep by (destruct Hi as [Hi|Hi]; [left; lia|right; exact Hi]).
           apply list_lookup_insert_ne. auto.
      * intros i Hi Ht Hlt. apply Hnull; auto.
        destruct (decide (i = s)) as [->|]; [congruence|lia].
      * intros i Hi. destruct (decide (i = s)) as [->|Hne].
        -- apply Hnkeep. left. lia.
        -- apply Hnkeep. destruct Hi as [Hi|Hi]; [left; lia|right; exact Hi].
Qed.

Hypothesis set_ptr_spec :
  forall bytes p,
    StringValue_at (set_ptr bytes p) = mkStringValue p (len (StringValue_at bytes)).

Lemma copy_strings_spec :
  forall (idxs : list nat) (t : Tuple) (m : Memory) (buffer : Z),
    NoDup idxs -> lengths_ok idxs ->
    (forall idx, idx ∈ idxs -> ExprValueNull idx = false ->
       (idx < length (slots t))%nat /\
       StringValue_at (default [] (slots t !! idx)) = cached_string idx) ->
    (forall idx k, idx ∈ idxs -> ExprValueNull idx = false ->
       0 <= k < len (cached_string idx) ->
       ~ (buffer <= ptr (cached_string idx) + k < buffer + string_bytes idxs)) ->
    let r := foldl (copy_string_data StringValue_at set_ptr ExprValueNull) (t, m, buffer)
               idxs in
    let t' := fst (fst r) in
    let m' := snd (fst r) in
    snd r = buffer + string_bytes idxs /\
    (forall a, ~ (buffer <= a < buffer + string_bytes idxs) -> m' a = m a) /\
    null_indicators t' = null_indicators t /\
    length (slots t') = length (slots t) /\
    (forall j, j ∉ idxs \/ ExprValueNull j = true -> slots t' !! j = slots t !! j) /\
    (forall idx, idx ∈ idxs -> ExprValueNull idx = false ->
       let sv' := StringValue_at (default [] (slots t' !! idx)) in
       len sv' = len (cached_string idx) /\
       buffer <= ptr sv' /\ ptr sv' + len sv' <= buffer + string_bytes idxs /\
       forall k, 0 <= k < len sv' -> m' (ptr sv' + k) = m (ptr (cached_string idx) + k)).
Proof.
  induction idxs as [|idx rest IH]; intros t m buffer Hnd Hlen Hslot Hsrc.
  - cbn. split; [lia|]. split; [auto|]. split; [auto|]. split; [auto|]. split; [auto|].
    intros idx Hin. apply elem_of_nil in Hin. contradiction.
  - apply NoDup_cons in Hnd as [Hnotin Hnd].
    pose proof Hlen as Hlen0.
    apply Forall_cons in Hlen as [Hl Hlen].
    pose proof (string_bytes_nonneg rest Hlen) as Hnn.
    cbn [foldl string_bytes] in *.
    destruct (ExprValueNull idx) eqn:Hnull.
    + assert (Hstep : copy_string_data StringValue_at set_ptr ExprValueNull (t, m, buffer) idx
                      = (t, m, buffer)).
      { unfold copy_string_data. rewrite Hnull. reflexivity. }
      rewrite Hstep. rewrite Z.add_0_l in *.
      destruct (IH t m buffer Hnd Hlen) as (Hb & Hm & Hni & Hls & Hkeep & Hstr).
      { intros i Hi. apply Hslot. right. exact Hi. }
      { intros i k Hi. apply Hsrc. right. exact Hi. }
      cbv zeta in *. split; [exact Hb|]. split; [exact Hm|]. split; [exact Hni|].
      split; [exact Hls|]. split.
      * intros j Hj. apply Hkeep. destruct Hj as [Hj|Hj]; [left|right; exact Hj].
        intros Hin. apply Hj. right. exact Hin.
      * intros i Hi Hf. apply elem_of_cons in Hi as [->|Hi]; [congruence|].
        apply Hstr; assumption.
    + specialize (Hl eq_refl).
      destruct (Hslot idx ltac:(left) Hnull) as [Hidx Hsv].
      set (bytes := default [] (slots t !! idx)) in *.
      set (L := len (cached_string idx)) in *.
      set (t1 := mkTuple (null_indicators t) (<[idx := set_ptr bytes buffer]> (slots t))).
      set (m1 := memcpy buffer (ptr (cached_string idx)) L m).
      assert (Hstep : copy_string_data StringValue_at set_ptr ExprValueNull (t, m, buffer) idx
                      = (t1, m1, buffer + L)).
      { unfold copy_string_data. rewrite Hnull. fold bytes. rewrite Hsv. reflexivity. }
      rewrite Hstep.
      destruct (IH t1 m1 (buffer + L) Hnd Hlen) as (Hb & Hm & Hni & Hls & Hkeep & Hstr).
      { intros i Hi Hf. cbn [t1 slots]. rewrite length_insert.
        assert (Hne : i <> idx) by (intros ->; contradiction).
        rewrite list_lookup_insert_ne by auto. apply Hslot; [right; exact Hi|exact Hf]. }
      { intros i k Hi Hf Hk Hin. apply (Hsrc i k); [right; exact Hi|exact Hf|exact Hk|lia]. }
      cbv zeta in *.
      assert (Hm1 : forall a, ~ (buffer <= a < buffer + L) -> m1 a = m a).
      { intros a Ha. unfold m1, memcpy.
        destruct (Z.leb_spec buffer a); destruct (Z.ltb_spec a (buffer + L)); cbn; auto; lia. }
      split; [lia|]. split; [|split; [exact Hni|split; [|split]]].
      * intros a Ha. rewrite Hm by lia. apply Hm1. lia.
      * rewrite Hls. cbn [t1 slots]. apply length_insert.
      * intros j Hj.
        assert (Hne : j <> idx).
        { destruct Hj as [Hj|Hj]; [intros ->; apply Hj; left|congruence]. }
        rewrite Hkeep.
        -- cbn [t1 slots]. apply list_lookup_insert_ne. auto.
        -- destruct Hj as [Hj|Hj]; [left|right; exact Hj].
           intros Hin. apply Hj. right. exact Hin.
      * intros i Hi Hf. apply elem_of_cons in Hi as [->|Hi].
        -- rewrite Hkeep by (left; exact Hnotin). cbn [t1 slots].
           rewrite list_lookup_insert_eq by exact Hidx. cbn [default from_option id].
           rewrite set_ptr_spec. fold bytes. rewrite Hsv. cbn [len ptr]. fold L.
           split; [reflexivity|]. split; [lia|]. split; [lia|].
           intros k Hk. rewrite Hm by lia. unfold m1, memcpy.
           destruct (Z.leb_spec buffer (buffer + k)); [|lia].
           destruct (Z.ltb_spec (buffer + k) (buffer + L)); [|lia].
           cbn. f_equal. lia.
        -- destruct (Hstr i Hi Hf) as (Hlen' & Hlo & Hhi & Hcontent).
           split; [exact Hlen'|]. split; [lia|]. split; [lia|].
           intros k Hk. rewrite (Hcontent k Hk). apply Hm1.
           rewrite Hlen' in Hk.
           intros Hin. apply (Hsrc i k); [right; exact Hi|exact Hf|exact Hk|lia].
Qed.

End AggTupleFacts.

(** A toy layout for the examples: the first byte of a slot is the pointer
    of the string, the second its length. *)
Definition example_StringValue_at (bytes : list Z) : AggTuple.StringValue :=
  AggTuple.mkStringValue (nth 0 bytes 0) (nth 1 bytes 0).
Definition example_set_ptr (bytes : list Z) (p : Z) : list Z := p :: drop 1 bytes.

(** Three grouping expressions: a string of three bytes at 1000, a number,
    and a string of two bytes at 2000. *)
Definition example_ExprValue (i : nat) : list Z :=
  match i with
  | 0%nat => [1000; 3]
  | 1%nat => [7]
  | _ => [2000; 2]
  end.

Definition example_empty_tuple : AggTuple.Tuple :=
  AggTuple.mkTuple [false; false; false] [[]; []; []].

(** [CopyGroupingValues] writes exactly the bytes that
    [GroupingExprsVarlenSize] has counted. When [string_grouping_exprs_]
    names each string grouping expression once, the lengths of the strings
    that are not NULL are not negative and add up to less than [2^31], and
    none of those strings lies in the [varlen_size] bytes at [buffer]: the
    copying ends with [buffer] advanced by [varlen_size]; memory outside
    those bytes is as before; the slot of every string that is not NULL
    holds its length and a pointer into those bytes, where the bytes of the
    string now are; and the null indicator is set for the grouping
    expressions that are NULL. *)
Theorem CopyGroupingValues_copies_what_was_counted
    (StringValue_at : list Z -> AggTuple.StringValue) (set_ptr : list Z -> Z -> list Z)
    (ExprValue : nat -> list Z) (ExprValueNull : nat -> bool)
    (num_grouping_exprs : nat) (string_grouping_exprs_ : list nat)
    (slot_size : nat -> nat)
    (intermediate_tuple : AggTuple.Tuple) (buffer : Z) (m : AggTuple.Memory) :
  (forall bytes p,
     StringValue_at (set_ptr bytes p)
     = AggTuple.mkStringValue p (AggTuple.len (StringValue_at bytes))) ->
  NoDup string_grouping_exprs_ ->
  (forall idx, idx ∈ string_grouping_exprs_ ->
     (idx < num_grouping_exprs)%nat /\
     (idx < length (AggTuple.slots intermediate_tuple))%nat /\
     StringValue_at (take (slot_size idx) (ExprValue idx)) = StringValue_at (ExprValue idx)) ->
  (forall idx, idx ∈ string_grouping_exprs_ -> ExprValueNull idx = false ->
     0 <= AggTuple.len (StringValue_at (ExprValue idx))) ->
  string_bytes StringValue_at ExprValue ExprValueNull string_grouping_exprs_ < 2 ^ 31 ->
  let varlen_size :=
    AggTuple.GroupingExprsVarlenSize StringValue_at ExprValue ExprValueNull
      string_grouping_exprs_ in
  (forall idx k, idx ∈ string_grouping_exprs_ -> ExprValueNull idx = false ->
     0 <= k < AggTuple.len (StringValue_at (ExprValue idx)) ->
     ~ (buffer <= AggTuple.ptr (StringValue_at (ExprValue idx)) + k < buffer + varlen_size)) ->
  let r := AggTuple.CopyGroupingValues StringValue_at set_ptr ExprValue ExprValueNull
             num_grouping_exprs string_grouping_exprs_ slot_size intermediate_tuple buffer
             varlen_size m in
  let tuple := fst (fst r) in
  let m' := snd (fst r) in
  snd r = buffer + varlen_size /\
  (forall a, ~ (buffer <= a < buffer + varlen_size) -> m' a = m a) /\
  (forall idx, idx ∈ string_grouping_exprs_ -> ExprValueNull idx = false ->
     let sv := StringValue_at (ExprValue idx) in
     let sv' := StringValue_at (default [] (AggTuple.slots tuple !! idx)) in
     AggTuple.len sv' = AggTuple.len sv /\
     buffer <= AggTuple.ptr sv' /\
     AggTuple.ptr sv' + AggTuple.len sv' <= buffer + varlen_size /\
     forall k, 0 <= k < AggTuple.len sv ->
       m' (AggTuple.ptr sv' + k) = m (AggTuple.ptr sv + k)) /\
  (forall i, (i < num_grouping_exprs)%nat -> ExprValueNull i = true ->
     (i < length (AggTuple.null_indicators intermediate_tuple))%nat ->
     AggTuple.null_indicators tuple !! i = Some true).
Proof.
  intros Hset Hnd Hidx Hnn Hfit varlen_size Hsrc r tuple m'.
  assert (Hok : lengths_ok StringValue_at ExprValue ExprValueNull string_grouping_exprs_).
  { apply Forall_forall. intros idx Hin. apply Hnn. exact Hin. }
  assert (Hsize : varlen_size
                  = string_bytes StringValue_at ExprValue ExprValueNull
                      string_grouping_exprs_).
  { unfold varlen_size, AggTuple.GroupingExprsVarlenSize.
    etransitivity;
      [apply (varlen_size_sum StringValue_at ExprValue ExprValueNull _ Hok 0); lia|lia]. }
  destruct (copy_grouping_slots_spec ExprValue ExprValueNull slot_size num_grouping_exprs 0
              intermediate_tuple) as (Hl & Hn & Hcopied & Hkept & Hnull & Hnkept).
  set (copied := foldl (AggTuple.copy_grouping_slot ExprValue ExprValueNull slot_size)
                   intermediate_tuple (seq 0 num_grouping_exprs)) in *.
  destruct (copy_strings_spec StringValue_at set_ptr ExprValue ExprValueNull Hset
              string_grouping_exprs_ copied m buffer Hnd Hok)
    as (Hb & Hm & Hni & Hls & Hkeep & Hstr).
  { intros idx Hin Hf. destruct (Hidx idx Hin) as (Hlt & Hlen & Hwide).
    split; [lia|]. rewrite Hcopied by (auto; lia). cbn [default from_option id].
    exact Hwide. }
  { intros idx k Hin Hf Hk. rewrite <- Hsize. apply Hsrc; assumption. }
  cbv zeta in Hb, Hm, Hni, Hls, Hkeep, Hstr.
  subst r tuple m'. unfold AggTuple.CopyGroupingValues. fold copied.
  rewrite Hsize. split; [exact Hb|]. split; [exact Hm|]. split.
  - intros idx Hin Hf. cbv zeta.
    destruct (Hstr idx Hin Hf) as (H1 & H2 & H3 & H4).
    unfold cached_string in *. split; [exact H1|]. split; [exact H2|]. split; [exact H3|].
    intros k Hk. apply H4. rewrite H1. exact Hk.
  - intros i Hi Ht Hlt. rewrite Hni. apply Hnull; auto. lia.
Qed.

Lemma CopyGroupingValues_copies_what_was_counted_witness :
  let varlen_size :=
    AggTuple.GroupingExprsVarlenSize example_StringValue_at example_ExprValue
      (fun _ => false) [0; 2]%nat in
  let m : AggTuple.Memory := fun a => a mod 7 in
  let r := AggTuple.CopyGroupingValues example_StringValue_at example_set_ptr
             example_ExprValue (fun _ => false) 3 [0; 2]%nat (fun _ => 2%nat)
             example_empty_tuple 5000 varlen_size m in
  let tuple := fst (fst r) in
  let m' := snd (fst r) in
  (varlen_size = 5 /\ AggTuple.slots tuple = [[5000; 3]; [7]; [5003; 2]]) /\
  snd r = 5000 + varlen_size /\
  (forall a, ~ (5000 <= a < 5000 + varlen_size) -> m' a = m a) /\
  (forall idx, idx ∈ [0; 2]%nat -> (fun _ : nat => false) idx = false ->
     let sv := example_StringValue_at (example_ExprValue idx) in
     let sv' := example_StringValue_at (default [] (AggTuple.slots tuple !! idx)) in
     AggTuple.len sv' = AggTuple.len sv /\
     5000 <= AggTuple.ptr sv' /\
     AggTuple.ptr sv' + AggTuple.len sv' <= 5000 + varlen_size /\
     forall k, 0 <= k < AggTuple.len sv ->
       m' (AggTuple.ptr sv' + k) = m (AggTuple.ptr sv + k)) /\
  (forall i, (i < 3)%nat -> (fun _ : nat => false) i = true ->
     (i < length (AggTuple.null_indicators example_empty_tuple))%nat ->
     AggTuple.null_indicators tuple !! i = Some true).
Proof.
  split; [split; reflexivity|].
  apply (CopyGroupingValues_copies_what_was_counted example_StringValue_at example_set_ptr
           example_ExprValue (fun _ => false) 3 [0; 2]%nat (fun _ => 2%nat)
           example_empty_tuple 5000 (fun a => a mod 7)).
  - intros [|a [|b l]] p; reflexivity.
  - apply NoDup_cons. split; [intros H; apply list_elem_of_singleton in H; discriminate|].
    apply NoDup_singleton.
  - intros idx Hin. apply elem_of_cons in Hin as [->|Hin];
      [|apply list_elem_of_singleton in Hin; subst idx]; cbn; repeat split; lia.
  - intros idx Hin _. apply elem_of_cons in Hin as [->|Hin];
      [|apply list_elem_of_singleton in Hin; subst idx]; cbn; lia.
  - reflexivity.
  - intros idx k Hin _. apply elem_of_cons in Hin as [->|Hin];
      [|apply list_elem_of_singleton in Hin; subst idx]; cbn; lia.
Defined.
